(** * newhapi: session store, event parsing and notification hub

    A shallow embedding of the hub's message store ([addMessage],
    [mergeSessionMessages]), of the schema gate of [Store.initSchema], of
    [extractMessageEventType] (both variants) and of [NotificationHub],
    together with the properties the specification states about them. *)

From Stdlib Require Import ZArith Lia Bool.
From stdpp Require Import base option list gmap sets strings pretty sorting.

Local Open Scope string_scope.
Local Open Scope list_scope.
Local Open Scope Z_scope.

#[local] Set Warnings "-register-all".

(** ** JavaScript values and completions *)

Module Js.

(** The untyped payloads the hub inspects ([unknown] in the source). *)
Inductive JsVal : Type :=
| JUndefined
| JNull
| JBool (b : bool)
| JNum (n : Z)
| JStr (s : string)
| JArr (items : list JsVal)
| JObj (fields : list (string * JsVal)).

(** A JavaScript evaluation either completes normally or throws. *)
Inductive Completion (A : Type) : Type :=
| Normal (a : A)
| Throw (msg : string).
Arguments Normal {A} a.
Arguments Throw {A} msg.

Definition bind {A B} (c : Completion A) (k : A -> Completion B) : Completion B :=
  match c with
  | Normal a => k a
  | Throw m => Throw m
  end.

#[global] Instance Completion_ret : MRet Completion := fun A a => Normal a.
#[global] Instance Completion_bind : MBind Completion := fun A B k c => bind c k.

Fixpoint lookup_field (k : string) (fields : list (string * JsVal)) : JsVal :=
  match fields with
  | [] => JUndefined
  | (k', v) :: rest => if String.eqb k k' then v else lookup_field k rest
  end.

(** [v.k] for the property names the hub reads ([type], [content], [data]):
    a [TypeError] on [undefined] and [null], [undefined] on primitives and
    arrays, the own property on objects. *)
Definition getProp (v : JsVal) (k : string) : Completion JsVal :=
  match v with
  | JUndefined | JNull => Throw "TypeError"
  | JObj fields => Normal (lookup_field k fields)
  | _ => Normal JUndefined
  end.

(** [v?.k] *)
Definition getOpt (v : JsVal) (k : string) : Completion JsVal :=
  match v with
  | JUndefined | JNull => Normal JUndefined
  | _ => getProp v k
  end.

(** [a ?? b] *)
Definition nullish (a b : JsVal) : JsVal :=
  match a with
  | JUndefined | JNull => b
  | _ => a
  end.

(** [v === s] for a string literal [s] *)
Definition is_str (v : JsVal) (s : string) : bool :=
  match v with
  | JStr s' => String.eqb s' s
  | _ => false
  end.

(** [isObject], as the variant with the fallback declares it (the other one
    imports it from the protocol package):
    [Boolean(value) && typeof value === 'object']. Arrays are objects,
    [null] is not. *)
Definition isObject (value : JsVal) : bool :=
  match value with
  | JObj _ | JArr _ => true
  | _ => false
  end.

(** The total reading of a field, for stating properties: [undefined]
    wherever the access yields nothing. *)
Definition field (v : JsVal) (k : string) : JsVal :=
  match v with
  | JObj fields => lookup_field k fields
  | _ => JUndefined
  end.

End Js.

(** ** Event parsing *)

Module EventParsing.
Import Js.

(** The fields of a [SyncEvent] that the hub and the parser read; an absent
    field is [JUndefined], an absent session id is [None]. *)
Record SyncEvent : Type := mkEvent {
  ev_type : JsVal;
  ev_sessionId : option string;
  ev_message : JsVal;
  ev_data : JsVal
}.

(** [extractEventEnvelope]: the envelope object, or [null]. *)
Definition extractEventEnvelope (message : JsVal) : Completion (option JsVal) :=
  if negb (isObject message) then Normal None
  else
    ty ← getProp message "type";
    if is_str ty "event" then Normal (Some message)
    else
      content ← getProp message "content";
      if negb (isObject content) then Normal None
      else
        cty ← getProp content "type";
        if negb (is_str cty "event") then Normal None
        else Normal (Some content).

(** The tail shared by both variants, from the envelope on. *)
Definition eventTypeOfEnvelope (envelope : option JsVal) : Completion (option string) :=
  match envelope with
  | None => Normal None
  | Some env =>
      d ← getProp env "data";
      let data := if isObject d then d else JNull in
      eventType ← getOpt data "type";
      Normal (match eventType with JStr s => Some s | _ => None end)
  end.

(** [extractMessageEventType] of notifications/eventParsing.ts *)
Definition extractMessageEventType (event : SyncEvent) : Completion (option string) :=
  if negb (is_str (ev_type event) "message-received") then Normal None
  else
    message ← getOpt (ev_message event) "content";
    envelope ← extractEventEnvelope message;
    eventTypeOfEnvelope envelope.

(** The near-duplicate, which falls back to [event.data] when the message
    has no content. *)
Definition extractMessageEventType_fallback (event : SyncEvent)
  : Completion (option string) :=
  if negb (is_str (ev_type event) "message-received") then Normal None
  else
    content ← getOpt (ev_message event) "content";
    let message := nullish content (ev_data event) in
    envelope ← extractEventEnvelope message;
    eventTypeOfEnvelope envelope.

(** *** The specification's reading *)

(** [{type: 'event', data}] *)
Definition is_envelope (v : JsVal) : bool :=
  isObject v && is_str (field v "type") "event".

(** The content is itself an envelope, or a role-wrapped message whose inner
    content is one. *)
Definition envelope_of (content : JsVal) : option JsVal :=
  if is_envelope content then Some content
  else if isObject content && is_envelope (field content "content")
       then Some (field content "content")
       else None.

(** [data.type] when [data] is an object whose [type] is a string. *)
Definition data_type (env : JsVal) : option string :=
  let d := field env "data" in
  if isObject d then
    match field d "type" with JStr s => Some s | _ => None end
  else None.

Definition message_content (event : SyncEvent) : JsVal :=
  field (ev_message event) "content".

Definition present (v : JsVal) : Prop := v <> JUndefined /\ v <> JNull.

End EventParsing.

(** ** The message store *)

Module Messages.
Import Js.

Record DbMessageRow : Type := mkRow {
  row_id : string;
  session_id : string;
  row_content : string;
  created_at : Z;
  row_seq : Z;
  local_id : option string
}.

Record StoredMessage : Type := mkStored {
  sm_id : string;
  sm_sessionId : string;
  sm_content : JsVal;
  sm_createdAt : Z;
  sm_seq : Z;
  sm_localId : option string
}.

(** The [messages] table in insertion order, and the ids of the [sessions]
    table its foreign key refers to. *)
Record Database : Type := mkDb {
  sessions : list string;
  messages : list DbMessageRow
}.

Record MergeResult : Type := mkMerge {
  moved : Z;
  oldMaxSeq : Z;
  newMaxSeq : Z
}.

(** The statements of the merge transaction, for fault injection. *)
Inductive Statement : Type :=
| StBegin | StShiftSeq | StCollisions | StClearLocalIds | StMoveRows | StCommit.

Definition with_seq (r : DbMessageRow) (s : Z) : DbMessageRow :=
  mkRow (row_id r) (session_id r) (row_content r) (created_at r) s (local_id r).

Definition with_local_id (r : DbMessageRow) (l : option string) : DbMessageRow :=
  mkRow (row_id r) (session_id r) (row_content r) (created_at r) (row_seq r) l.

Definition with_session (r : DbMessageRow) (sid : string) : DbMessageRow :=
  mkRow (row_id r) sid (row_content r) (created_at r) (row_seq r) (local_id r).

(** [WHERE session_id = ?] *)
Definition session_rows (db : Database) (sid : string) : list DbMessageRow :=
  filter (fun r => session_id r = sid) (messages db).

(** [MAX(seq)], [NULL] on no rows *)
Definition max_seq (rows : list DbMessageRow) : option Z :=
  foldr (fun r acc => Some (match acc with
                            | None => row_seq r
                            | Some m => Z.max (row_seq r) m
                            end)) None rows.

(** [getMaxSeq]: [COALESCE(MAX(seq), 0)] *)
Definition getMaxSeq (db : Database) (sessionId : string) : Z :=
  default 0 (max_seq (session_rows db sessionId)).

(** The key of the partial unique index [idx_messages_local_id]. *)
Definition local_key (r : DbMessageRow) : option (string * string) :=
  (fun l => (session_id r, l)) <$> local_id r.

Definition local_keys (rows : list DbMessageRow) : list (string * string) :=
  omap local_key rows.

(** [message_id] primary key, foreign key to [sessions], unique index. *)
Definition insert_allowed (db : Database) (row : DbMessageRow) : bool :=
  bool_decide (row_id row ∉ row_id <$> messages db)
  && bool_decide (session_id row ∈ sessions db)
  && match local_key row with
     | None => true
     | Some k => bool_decide (k ∉ local_keys (messages db))
     end.

(** [SELECT * ... WHERE session_id = ? AND local_id = ? LIMIT 1] *)
Definition find_by_local_id (db : Database) (sid lid : string) : option DbMessageRow :=
  head (filter (fun r => session_id r = sid /\ local_id r = Some lid) (messages db)).

(** [SELECT * FROM messages WHERE id = ?] *)
Definition find_by_id (db : Database) (i : string) : option DbMessageRow :=
  head (filter (fun r => row_id r = i) (messages db)).

(** A string is truthy when it is present and not empty. *)
Definition truthy (s : option string) : bool :=
  match s with
  | Some s => negb (String.eqb s "")
  | None => false
  end.

(** [UPDATE messages SET seq = seq + ? WHERE session_id = ?] *)
Definition shift_seq (db : Database) (sid : string) (by_ : Z) : Database :=
  mkDb (sessions db)
       ((fun r => if decide (session_id r = sid) then with_seq r (row_seq r + by_) else r)
          <$> messages db).

Definition local_ids (db : Database) (sid : string) : list string :=
  omap local_id (session_rows db sid).

(** The [INTERSECT] of the two sessions' non-null local ids. *)
Definition colliding_local_ids (db : Database) (toId fromId : string) : list string :=
  remove_dups (list_intersection (local_ids db toId) (local_ids db fromId)).

Definition local_id_in (r : DbMessageRow) (ids : list string) : Prop :=
  match local_id r with
  | Some l => l ∈ ids
  | None => False
  end.

#[global] Instance local_id_in_dec r ids : Decision (local_id_in r ids).
Proof. unfold local_id_in. destruct (local_id r); apply _. Defined.

(** [UPDATE messages SET local_id = NULL WHERE session_id = ? AND local_id IN (...)] *)
Definition clear_local_ids (db : Database) (sid : string) (ids : list string) : Database :=
  mkDb (sessions db)
       ((fun r => if decide (session_id r = sid /\ local_id_in r ids)
                  then with_local_id r None else r)
          <$> messages db).

(** [UPDATE messages SET session_id = ? WHERE session_id = ?]: the updated
    table and the number of changed rows, or a constraint failure (foreign
    key of a changed row, unique index). *)
Definition move_rows (db : Database) (fromId toId : string)
  : Completion (Database * Z) :=
  let rows := (fun r => if decide (session_id r = fromId) then with_session r toId else r)
                <$> messages db in
  let changes := Z.of_nat (length (session_rows db fromId)) in
  if bool_decide (0 < changes -> toId ∈ sessions db)
     && bool_decide (NoDup (local_keys rows))
  then Normal (mkDb (sessions db) rows, changes)
  else Throw "SQLITE_CONSTRAINT".

(** A statement that the fault oracle lets fail throws without effect. *)
Definition exec {A} (fault : Statement -> bool) (st : Statement)
    (run : Completion A) : Completion A :=
  if fault st then Throw "SQLITE_ERROR" else run.

(** The body of the [try] block, between [BEGIN] and [COMMIT]. *)
Definition mergeTransaction (fault : Statement -> bool) (db : Database)
    (fromSessionId toSessionId : string) (oldMax newMax : Z)
  : Completion (Database * MergeResult) :=
  _ ← exec fault StBegin (Normal tt);
  db1 ← (if (0 <? newMax) && (0 <? oldMax)
          then exec fault StShiftSeq (Normal (shift_seq db toSessionId oldMax))
          else Normal db);
  collisions ← exec fault StCollisions
                  (Normal (colliding_local_ids db1 toSessionId fromSessionId));
  db2 ← (if bool_decide (0 < length collisions)%nat
          then exec fault StClearLocalIds
                 (Normal (clear_local_ids db1 fromSessionId collisions))
          else Normal db1);
  result ← exec fault StMoveRows (move_rows db2 fromSessionId toSessionId);
  _ ← exec fault StCommit (Normal tt);
  Normal (fst result, mkMerge (snd result) oldMax newMax).

(** [mergeSessionMessages]: the database after the call and its completion;
    [ROLLBACK] restores the database of [BEGIN]. *)
Definition mergeSessionMessages (fault : Statement -> bool) (db : Database)
    (fromSessionId toSessionId : string) : Database * Completion MergeResult :=
  if String.eqb fromSessionId toSessionId
  then (db, Normal (mkMerge 0 0 0))
  else
    let oldMax := getMaxSeq db fromSessionId in
    let newMax := getMaxSeq db toSessionId in
    match mergeTransaction fault db fromSessionId toSessionId oldMax newMax with
    | Normal (db', r) => (db', Normal r)
    | Throw e => (db, Throw e)
    end.

(** *** Vocabulary of the merge properties *)

(** The messages of a session carry the seq values [1..n], each once. *)
Definition gap_free (db : Database) (sid : string) (n : Z) : Prop :=
  row_seq <$> session_rows db sid ≡ₚ seqZ 1 n.

(** The row's local id is also the local id of a message of the session. *)
Definition collides (db : Database) (sid : string) (r : DbMessageRow) : Prop :=
  match local_id r with
  | Some l => l ∈ local_ids db sid
  | None => False
  end.

#[global] Instance collides_dec db sid r : Decision (collides db sid r).
Proof. unfold collides. destruct (local_id r); apply _. Defined.

(** What a merge of [fromId] (highest seq [m]) into [toId] makes of a row:
    the target's rows move up by [m]; the moved rows keep their seq, change
    session and lose a local id the target already uses. *)
Definition merged_row (db : Database) (fromId toId : string) (m : Z)
    (r : DbMessageRow) : DbMessageRow :=
  if decide (session_id r = toId) then with_seq r (row_seq r + m)
  else if decide (session_id r = fromId)
       then with_session (if decide (collides db toId r) then with_local_id r None else r) toId
       else r.

Definition merged (db : Database) (fromId toId : string) (m : Z) : Database :=
  mkDb (sessions db) (merged_row db fromId toId m <$> messages db).

(** *** A sample table *)

(** Two messages in [A], three in [B]; [a1] and [b1] share a local id. *)
Definition sampleDb : Database :=
  mkDb ["A"; "B"]
       [mkRow "a1" "A" "{}" 10 1 (Some "x"); mkRow "a2" "A" "{}" 11 2 (Some "y");
        mkRow "b1" "B" "{}" 20 1 (Some "x"); mkRow "b2" "B" "{}" 21 2 None;
        mkRow "b3" "B" "{}" 22 3 (Some "z")].

(** A serializer for the examples: [undefined] for [undefined], and the same
    text for every other value. *)
Definition sample_stringify (v : JsVal) : Completion (option string) :=
  match v with
  | JUndefined => Normal None
  | _ => Normal (Some "{}")
  end.

(** The integers a JavaScript number holds exactly. *)
Definition safe_integer (z : Z) : Prop := - 2 ^ 53 <= z <= 2 ^ 53.

Section Insert.
(** [JSON.stringify] and [safeJsonParse] (./json) are not part of the
    inspected sources; they are taken as parameters. [JSON.stringify] gives
    a string, gives [undefined] (for [undefined], a function or a symbol),
    or throws (for a BigInt or a cyclic value). [as_number] is how
    bun:sqlite hands a 64-bit [INTEGER] to JavaScript: as the nearest
    number, which is the integer itself when it is a safe integer. *)
Variable JSON_stringify : JsVal -> Completion (option string).
Variable safeJsonParse : string -> JsVal.
Variable as_number : Z -> Z.

Definition toStoredMessage (row : DbMessageRow) : StoredMessage :=
  mkStored (row_id row) (session_id row) (safeJsonParse (row_content row))
           (created_at row) (row_seq row) (local_id row).

(** [addMessage]; [now] is [Date.now()] and [uuid] is [randomUUID()]. The
    column [content] is [NOT NULL]: the insert of an [undefined] content
    fails. *)
Definition addMessage (now : Z) (uuid : string) (db : Database)
    (sessionId : string) (content : JsVal) (localId : option string)
  : Database * Completion StoredMessage :=
  let existing :=
    if truthy localId
    then find_by_local_id db sessionId (default "" localId)
    else None in
  match existing with
  | Some row => (db, Normal (toStoredMessage row))
  | None =>
      let msgSeq := as_number (getMaxSeq db sessionId + 1) in
      match JSON_stringify content with
      | Throw e => (db, Throw e)
      | Normal None => (db, Throw "SQLITE_CONSTRAINT_NOTNULL")
      | Normal (Some json) =>
          let row := mkRow uuid sessionId json now msgSeq localId in
          if insert_allowed db row then
            let db' := mkDb (sessions db) (messages db ++ [row]) in
            match find_by_id db' uuid with
            | Some r => (db', Normal (toStoredMessage r))
            | None => (db', Throw "Failed to create message")
            end
          else (db, Throw "SQLITE_CONSTRAINT")
      end
  end.
End Insert.

End Messages.

(** ** The schema gate of the store *)

Module Schema.
Import Js.

(** A row of [sqlite_master]: its [type] ([table], [index], [view] or
    [trigger]), its [name], its [tbl_name], and the columns its [sql]
    declares (for a table) or covers (for an index). *)
Record Entry : Type := mkEntry {
  e_type : string;
  e_name : string;
  e_table : string;
  e_columns : list string
}.

(** What [initSchema] reads and writes of the SQLite file: the
    [user_version] pragma and the rows of [sqlite_master]. *)
Record SqliteDb : Type := mkSqlite {
  user_version : Z;
  sqlite_master : list Entry
}.

Definition SCHEMA_VERSION : Z := 1.

Definition REQUIRED_TABLES : list string :=
  ["sessions"; "machines"; "messages"; "users"; "push_subscriptions"].

Definition table_entry (name : string) (columns : list string) : Entry :=
  mkEntry "table" name name columns.

Definition index_entry (name on : string) (columns : list string) : Entry :=
  mkEntry "index" name on columns.

(** The tables and indexes of [createSchema], in the order of its
    statements. The entries SQLite adds on its own ([sqlite_autoindex_*],
    [sqlite_sequence]) are left out: no query of the store reads them. *)
Definition SCHEMA_OBJECTS : list Entry :=
  [table_entry "sessions"
     ["id"; "tag"; "namespace"; "machine_id"; "created_at"; "updated_at"; "metadata";
      "metadata_version"; "agent_state"; "agent_state_version"; "todos";
      "todos_updated_at"; "active"; "active_at"; "seq"];
   index_entry "idx_sessions_tag" "sessions" ["tag"];
   index_entry "idx_sessions_tag_namespace" "sessions" ["tag"; "namespace"];
   table_entry "machines"
     ["id"; "namespace"; "created_at"; "updated_at"; "metadata"; "metadata_version";
      "daemon_state"; "daemon_state_version"; "active"; "active_at"; "seq"];
   index_entry "idx_machines_namespace" "machines" ["namespace"];
   table_entry "messages" ["id"; "session_id"; "content"; "created_at"; "seq"; "local_id"];
   index_entry "idx_messages_session" "messages" ["session_id"; "seq"];
   index_entry "idx_messages_local_id" "messages" ["session_id"; "local_id"];
   table_entry "users" ["id"; "platform"; "platform_user_id"; "namespace"; "created_at"];
   index_entry "idx_users_platform" "users" ["platform"];
   index_entry "idx_users_platform_namespace" "users" ["platform"; "namespace"];
   table_entry "push_subscriptions"
     ["id"; "namespace"; "endpoint"; "p256dh"; "auth"; "created_at"];
   index_entry "idx_push_subscriptions_namespace" "push_subscriptions" ["namespace"]].

Definition ascii_lower (c : Ascii.ascii) : Ascii.ascii :=
  let n := Ascii.nat_of_ascii c in
  if ((65 <=? n) && (n <=? 90))%nat then Ascii.ascii_of_nat (n + 32) else c.

Fixpoint string_lower (s : string) : string :=
  match s with
  | EmptyString => EmptyString
  | String c rest => String (ascii_lower c) (string_lower rest)
  end.

(** [name LIKE 'sqlite_%']: case-insensitive, [_] matches one character. *)
Definition like_sqlite (name : string) : bool :=
  (7 <=? String.length name)%nat
  && String.eqb (string_lower (String.substring 0 6 name)) "sqlite".

Definition is_table (entry : Entry) : bool := String.eqb (e_type entry) "table".
Definition is_view (entry : Entry) : bool := String.eqb (e_type entry) "view".
Definition is_index (entry : Entry) : bool := String.eqb (e_type entry) "index".

(** [getUserVersion] *)
Definition getUserVersion (db : SqliteDb) : Z := user_version db.

(** [setUserVersion] *)
Definition setUserVersion (db : SqliteDb) (version : Z) : SqliteDb :=
  mkSqlite version (sqlite_master db).

(** [hasAnyUserTables]: the first row the query returns, if its name is a
    non-empty string. *)
Definition hasAnyUserTables (db : SqliteDb) : bool :=
  match List.find (fun e => is_table e && negb (like_sqlite (e_name e))) (sqlite_master db) with
  | Some e => negb (String.eqb (e_name e) "")
  | None => false
  end.

(** SQLite looks names up without regard to (ASCII) case. *)
Definition same_name (a b : string) : bool :=
  String.eqb (string_lower a) (string_lower b).

(** The table or view of a name, and the index of a name, as a [CREATE]
    statement looks for them. *)
Definition find_table (db : SqliteDb) (name : string) : option Entry :=
  List.find (fun e => (is_table e || is_view e) && same_name (e_name e) name)
            (sqlite_master db).

Definition find_index (db : SqliteDb) (name : string) : option Entry :=
  List.find (fun e => is_index e && same_name (e_name e) name) (sqlite_master db).

Definition add_entry (object : Entry) (db : SqliteDb) : SqliteDb :=
  mkSqlite (user_version db) (sqlite_master db ++ [object]).

(** [CREATE TABLE IF NOT EXISTS]: nothing to do when a table or a view has
    the name; an index of that name is an error all the same. *)
Definition create_table_if_absent (object : Entry) (db : SqliteDb) : Completion SqliteDb :=
  match find_table db (e_name object) with
  | Some _ => Normal db
  | None =>
      match find_index db (e_name object) with
      | Some _ => Throw "SQLITE_ERROR"
      | None => Normal (add_entry object db)
      end
  end.

(** [CREATE INDEX IF NOT EXISTS ... ON table (columns)]: the table has to be
    there, and be neither a view nor one of SQLite's own; a table or view
    that has the name of the index is an error; an index of that name is
    left as it is; otherwise the table has to have the columns. *)
Definition create_index_if_absent (object : Entry) (db : SqliteDb) : Completion SqliteDb :=
  match find_table db (e_table object) with
  | None => Throw "SQLITE_ERROR"
  | Some on =>
      if is_view on || like_sqlite (e_name on) then Throw "SQLITE_ERROR"
      else
        match find_table db (e_name object) with
        | Some _ => Throw "SQLITE_ERROR"
        | None =>
            match find_index db (e_name object) with
            | Some _ => Normal db
            | None =>
                if forallb (fun column => existsb (same_name column) (e_columns on))
                           (e_columns object)
                then Normal (add_entry object db)
                else Throw "SQLITE_ERROR"
            end
        end
  end.

(** [CREATE TABLE IF NOT EXISTS] / [CREATE INDEX IF NOT EXISTS] *)
Definition create_if_absent (object : Entry) (db : SqliteDb) : Completion SqliteDb :=
  if is_table object then create_table_if_absent object db
  else create_index_if_absent object db.

(** The statements of one [db.exec], run in order: the first that fails
    ends the run, and what the statements before it did stays. *)
Fixpoint exec (objects : list Entry) (db : SqliteDb) : SqliteDb * Completion unit :=
  match objects with
  | [] => (db, Normal tt)
  | object :: rest =>
      match create_if_absent object db with
      | Normal db' => exec rest db'
      | Throw e => (db, Throw e)
      end
  end.

(** [createSchema] *)
Definition createSchema (db : SqliteDb) : SqliteDb * Completion unit :=
  exec SCHEMA_OBJECTS db.

(** [SELECT name FROM sqlite_master WHERE type = 'table' AND name IN (...)]
    finds the name as it is written. *)
Definition has_table (db : SqliteDb) (name : string) : bool :=
  existsb (fun e => is_table e && String.eqb (e_name e) name) (sqlite_master db).

Definition missing_tables (db : SqliteDb) : list string :=
  List.filter (fun t => negb (has_table db t)) REQUIRED_TABLES.

Definition join (sep : string) (parts : list string) : string :=
  match parts with
  | [] => ""
  | p :: rest => foldl (fun acc q => acc +:+ sep +:+ q) p rest
  end.

Definition in_memory (dbPath : string) : bool :=
  String.eqb dbPath ":memory:" || String.prefix "file::memory:" dbPath.

Definition REMEDIATION : string :=
  "Back up and rebuild the database, or run an offline migration to the expected schema version.".

(** [assertRequiredTablesPresent] *)
Definition assertRequiredTablesPresent (db : SqliteDb) : Completion unit :=
  let missing := missing_tables db in
  if bool_decide (0 < length missing)%nat
  then Throw ("SQLite schema is missing required tables (" +:+ join ", " missing +:+ "). "
              +:+ REMEDIATION)
  else Normal tt.

(** [buildSchemaMismatchError] *)
Definition buildSchemaMismatchError (dbPath : string) (currentVersion : Z) : string :=
  let location := if in_memory dbPath then "in-memory database" else dbPath in
  "SQLite schema version mismatch for " +:+ location +:+ ". "
  +:+ "Expected " +:+ pretty SCHEMA_VERSION +:+ ", found " +:+ pretty currentVersion +:+ ". "
  +:+ "This build does not run compatibility migrations. "
  +:+ REMEDIATION.

(** [initSchema]: the database as it is left, and whether the constructor
    goes on ([Normal]) or throws. *)
Definition initSchema (dbPath : string) (db : SqliteDb) : SqliteDb * Completion unit :=
  let currentVersion := getUserVersion db in
  if currentVersion =? 0 then
    if hasAnyUserTables db then (setUserVersion db SCHEMA_VERSION, Normal tt)
    else
      match createSchema db with
      | (created, Normal _) => (setUserVersion created SCHEMA_VERSION, Normal tt)
      | (partly, Throw e) => (partly, Throw e)
      end
  else if negb (currentVersion =? SCHEMA_VERSION) then
    (db, Throw (buildSchemaMismatchError dbPath currentVersion))
  else
    (db, assertRequiredTablesPresent db).

(** Whether a text occurs in a message. *)
Fixpoint contains (sub s : string) : bool :=
  String.prefix sub s
  || match s with
     | EmptyString => false
     | String _ rest => contains sub rest
     end.

(** The message tells the operator to rebuild or to migrate offline. *)
Definition names_remediation (msg : string) : bool :=
  contains "rebuild the database" msg && contains "offline migration" msg.



Definition all_required_present (db : SqliteDb) : bool :=
  forallb (has_table db) REQUIRED_TABLES.

End Schema.

(** ** The notification hub *)

Module Hub.
Import Js EventParsing.

Record RequestInfo : Type := mkRequest {
  tool : string;
  arguments : JsVal;
  createdAt : Z
}.

(** [agentState.requests] may be absent ([undefined] or [null]). *)
Record AgentState : Type := mkAgentState {
  requests : option (gmap string RequestInfo)
}.

Record Session : Type := mkSession {
  sess_id : string;
  namespace : string;
  sess_seq : Z;
  active : bool;
  agentState : option AgentState
}.

Inductive Method : Type := sendReady | sendPermissionRequest.

(** A channel, as far as the hub can see it. A call of one of its methods
    either throws at once or returns a promise; when that promise settles,
    and whether it resolves or rejects, is up to the channel and the runtime
    ([Settle] below). *)
Record NotificationChannel : Type := mkChannel {
  throws : Method -> Session -> bool
}.

(** One invocation of a channel method: which channel of the list, and the
    session handed to it. *)
Record Call : Type := mkCall {
  call_method : Method;
  call_channel : nat;
  call_session : Session
}.

(** A loop of [notifyReady] or [notifyPermission] suspended at its [await]:
    the session it was given, and the channel whose promise it waits for. *)
Record Flight : Type := mkFlight {
  flight_id : nat;
  flight_method : Method;
  flight_session : Session;
  flight_channel : nat
}.

Record NotificationHubOptions : Type := mkOptions {
  opt_readyCooldownMs : option Z;
  opt_permissionDebounceMs : option Z
}.

(** The read-only fields of the hub. *)
Record Config : Type := mkConfig {
  channels : list NotificationChannel;
  readyCooldownMs : Z;
  permissionDebounceMs : Z
}.

(** The constructor's defaults: [?? 5000] and [?? 500]. *)
Definition configure (chs : list NotificationChannel)
    (options : option NotificationHubOptions) : Config :=
  mkConfig chs
    (default 5000 (options ≫= opt_readyCooldownMs))
    (default 500 (options ≫= opt_permissionDebounceMs)).

(** The mutable fields of the hub; timers are held by their handles. *)
Record NotificationHub : Type := mkHub {
  lastKnownRequests : gmap string (gset string);
  notificationDebounce : gmap string nat;
  lastReadyNotificationAt : gmap string Z;
  subscribed : bool
}.

(** A pending [setTimeout] callback of the hub; the closure holds the
    session id. *)
Record Timer : Type := mkTimer {
  timer_id : nat;
  fires_at : Z;
  timer_session : string
}.

(** The hub and what surrounds it: the sync engine's sessions, the clock
    ([Date.now()]), the runtime's timer queue, the notification loops that
    wait for a channel's promise, and what has been observed (channel
    invocations, [console.error] lines). *)
Record World : Type := mkWorld {
  engine : gmap string Session;
  hub : NotificationHub;
  clock : Z;
  timers : list Timer;
  next_timer : nat;
  inflight : list Flight;
  next_flight : nat;
  calls : list Call;
  console : list string
}.

Definition set_engine (e : gmap string Session) (w : World) : World :=
  mkWorld e (hub w) (clock w) (timers w) (next_timer w) (inflight w) (next_flight w)
          (calls w) (console w).
Definition set_hub (h : NotificationHub) (w : World) : World :=
  mkWorld (engine w) h (clock w) (timers w) (next_timer w) (inflight w) (next_flight w)
          (calls w) (console w).
Definition set_clock (t : Z) (w : World) : World :=
  mkWorld (engine w) (hub w) t (timers w) (next_timer w) (inflight w) (next_flight w)
          (calls w) (console w).
Definition set_timers (ts : list Timer) (w : World) : World :=
  mkWorld (engine w) (hub w) (clock w) ts (next_timer w) (inflight w) (next_flight w)
          (calls w) (console w).
Definition set_inflight (fs : list Flight) (w : World) : World :=
  mkWorld (engine w) (hub w) (clock w) (timers w) (next_timer w) fs (next_flight w)
          (calls w) (console w).
Definition set_next_flight (n : nat) (w : World) : World :=
  mkWorld (engine w) (hub w) (clock w) (timers w) (next_timer w) (inflight w) n
          (calls w) (console w).
Definition add_call (c : Call) (w : World) : World :=
  mkWorld (engine w) (hub w) (clock w) (timers w) (next_timer w) (inflight w) (next_flight w)
          (calls w ++ [c]) (console w).
Definition add_error (e : string) (w : World) : World :=
  mkWorld (engine w) (hub w) (clock w) (timers w) (next_timer w) (inflight w) (next_flight w)
          (calls w) (console w ++ [e]).

Definition set_lastKnownRequests (m : gmap string (gset string)) (h : NotificationHub) :=
  mkHub m (notificationDebounce h) (lastReadyNotificationAt h) (subscribed h).
Definition set_notificationDebounce (m : gmap string nat) (h : NotificationHub) :=
  mkHub (lastKnownRequests h) m (lastReadyNotificationAt h) (subscribed h).
Definition set_lastReadyNotificationAt (m : gmap string Z) (h : NotificationHub) :=
  mkHub (lastKnownRequests h) (notificationDebounce h) m (subscribed h).

(** [syncEngine.getSession] *)
Definition getSession (w : World) (sessionId : string) : option Session :=
  engine w !! sessionId.

(** [clearTimeout] *)
Definition clearTimeout (handle : nat) (w : World) : World :=
  set_timers (filter (fun tm => timer_id tm <> handle) (timers w)) w.

(** [setTimeout] for the debounce callback of a session: the new handle. *)
Definition setTimeout (delay : Z) (sessionId : string) (w : World) : World * nat :=
  let handle := next_timer w in
  (mkWorld (engine w) (hub w) (clock w)
           (timers w ++ [mkTimer handle (clock w + delay) sessionId])
           (S handle) (inflight w) (next_flight w) (calls w) (console w),
   handle).

(** [clearSessionState] *)
Definition clearSessionState (sessionId : string) (w : World) : World :=
  let w1 :=
    match notificationDebounce (hub w) !! sessionId with
    | Some existingTimer =>
        let w' := clearTimeout existingTimer w in
        set_hub (set_notificationDebounce
                   (delete sessionId (notificationDebounce (hub w'))) (hub w')) w'
    | None => w
    end in
  let h1 := set_lastKnownRequests (delete sessionId (lastKnownRequests (hub w1))) (hub w1) in
  let h2 := set_lastReadyNotificationAt (delete sessionId (lastReadyNotificationAt h1)) h1 in
  set_hub h2 w1.

(** [getNotifiableSession] *)
Definition getNotifiableSession (w : World) (sessionId : string) : option Session :=
  match getSession w sessionId with
  | Some session => if active session then Some session else None
  | None => None
  end.

Definition failure_message (m : Method) : string :=
  match m with
  | sendReady => "[NotificationHub] Failed to send ready notification:"
  | sendPermissionRequest => "[NotificationHub] Failed to send permission notification:"
  end.

(** The loops of [notifyReady] and [notifyPermission], from channel [i] on,
    as far as they run in one turn: [try { await channel.send...(session) }
    catch (error) { console.error(...) }]. A channel that throws is logged
    and the loop goes on at once; at a channel that returns a promise the
    loop stops and waits, as the flight [id]. With no channel left the loop
    is over. *)
Fixpoint notify_loop (m : Method) (id i : nat) (chs : list NotificationChannel)
    (session : Session) (w : World) : World :=
  match chs with
  | [] => w
  | channel :: rest =>
      let w1 := add_call (mkCall m i session) w in
      if throws channel m session
      then notify_loop m id (S i) rest session (add_error (failure_message m) w1)
      else set_inflight (inflight w1 ++ [mkFlight id m session i]) w1
  end.

(** [notifyReady]: the loop, up to its first [await]. *)
Definition notifyReady (cfg : Config) (session : Session) (w : World) : World :=
  notify_loop sendReady (next_flight w) 0 (channels cfg) session
    (set_next_flight (S (next_flight w)) w).

(** [notifyPermission]: the loop, up to its first [await]. *)
Definition notifyPermission (cfg : Config) (session : Session) (w : World) : World :=
  notify_loop sendPermissionRequest (next_flight w) 0 (channels cfg) session
    (set_next_flight (S (next_flight w)) w).

(** The loop that waits as flight [id], if there is one. *)
Definition flight_of (id : nat) (w : World) : option Flight :=
  head (filter (fun f => flight_id f = id) (inflight w)).

(** The promise a loop waits for settles: a rejection is caught and logged,
    and the loop goes on with the next channel, handing over the session it
    was given when it started. *)
Definition settle (cfg : Config) (id : nat) (rejected : bool) (w : World) : World :=
  match flight_of id w with
  | None => w
  | Some f =>
      let w1 := set_inflight (filter (fun g => flight_id g <> id) (inflight w)) w in
      let w2 := if rejected then add_error (failure_message (flight_method f)) w1 else w1 in
      notify_loop (flight_method f) id (S (flight_channel f))
        (drop (S (flight_channel f)) (channels cfg)) (flight_session f) w2
  end.

(** [sendPermissionNotification] *)
Definition sendPermissionNotification (cfg : Config) (sessionId : string)
    (w : World) : World :=
  match getNotifiableSession w sessionId with
  | None => w
  | Some session => notifyPermission cfg session w
  end.

(** [sendReadyNotification] *)
Definition sendReadyNotification (cfg : Config) (sessionId : string)
    (w : World) : World :=
  match getNotifiableSession w sessionId with
  | None => w
  | Some session =>
      let now := clock w in
      let last := default 0 (lastReadyNotificationAt (hub w) !! sessionId) in
      if now - last <? readyCooldownMs cfg then w
      else
        let w1 := set_hub (set_lastReadyNotificationAt
                             (<[sessionId := now]> (lastReadyNotificationAt (hub w)))
                             (hub w)) w in
        notifyReady cfg session w1
  end.

(** The ids the loop of [checkForPermissionNotification] looks for. *)
Definition hasNewRequests (newRequestIds oldRequestIds : gset string) : bool :=
  existsb (fun requestId => bool_decide (requestId ∉ oldRequestIds))
          (elements newRequestIds).

(** [checkForPermissionNotification] *)
Definition checkForPermissionNotification (cfg : Config) (session : Session)
    (w : World) : World :=
  match agentState session ≫= requests with
  | None => w
  | Some reqs =>
      let newRequestIds : gset string := dom reqs in
      let oldRequestIds :=
        default ∅ (lastKnownRequests (hub w) !! sess_id session) in
      let hasNew := hasNewRequests newRequestIds oldRequestIds in
      let w1 := set_hub (set_lastKnownRequests
                           (<[sess_id session := newRequestIds]> (lastKnownRequests (hub w)))
                           (hub w)) w in
      if negb hasNew then w1
      else
        let w2 := match notificationDebounce (hub w1) !! sess_id session with
                  | Some existingTimer => clearTimeout existingTimer w1
                  | None => w1
                  end in
        let '(w3, timer) := setTimeout (permissionDebounceMs cfg) (sess_id session) w2 in
        set_hub (set_notificationDebounce
                   (<[sess_id session := timer]> (notificationDebounce (hub w3)))
                   (hub w3)) w3
  end.

(** [event.sessionId] is truthy: present and not the empty string. *)
Definition truthy_id (event : SyncEvent) : option string :=
  match ev_sessionId event with
  | Some s => if String.eqb s "" then None else Some s
  | None => None
  end.

(** [handleSyncEvent] *)
Definition handleSyncEvent (cfg : Config) (event : SyncEvent) (w : World) : World :=
  match truthy_id event with
  | None => w
  | Some sessionId =>
      if is_str (ev_type event) "session-updated" || is_str (ev_type event) "session-added"
      then
        match getSession w sessionId with
        | Some session =>
            if active session
            then checkForPermissionNotification cfg session w
            else clearSessionState sessionId w
        | None => clearSessionState sessionId w
        end
      else if is_str (ev_type event) "session-removed"
      then clearSessionState sessionId w
      else if is_str (ev_type event) "message-received"
      then
        match extractMessageEventType event with
        | Normal (Some eventType) =>
            if String.eqb eventType "ready"
            then sendReadyNotification cfg sessionId w
            else w
        | _ => w
        end
      else w
  end.

(** The debounce callback, run by the timer queue at its deadline. *)
Definition fire (cfg : Config) (w : World) (tm : Timer) : World :=
  let w1 := set_clock (Z.max (clock w) (fires_at tm))
              (set_timers (filter (fun t => timer_id t <> timer_id tm) (timers w)) w) in
  let w2 := set_hub (set_notificationDebounce
                       (delete (timer_session tm) (notificationDebounce (hub w1)))
                       (hub w1)) w1 in
  sendPermissionNotification cfg (timer_session tm) w2.

(** Time passes until [t]: the callbacks due by then run, in queue order. *)
Definition advance (cfg : Config) (t : Z) (w : World) : World :=
  let w' := foldl (fire cfg) w (filter (fun tm => fires_at tm <= t) (timers w)) in
  set_clock (Z.max (clock w') t) w'.

(** [stop]: the subscription, the timers and the three maps go; a loop that
    waits for a channel is not cancelled. *)
Definition stop (w : World) : World :=
  let w1 := foldr (fun handle w' => clearTimeout handle w') w
              (snd <$> map_to_list (notificationDebounce (hub w))) in
  set_hub (mkHub ∅ ∅ ∅ false) w1.

(** What can happen around the hub: the engine emits an event or changes a
    session, time passes, the promise of a waiting loop settles, [stop] is
    called. *)
Inductive Action : Type :=
| Emit (event : SyncEvent)
| SetSession (session : Session)
| DropSession (sessionId : string)
| Sleep (ms : Z)
| Settle (id : nat) (rejected : bool)
| Stop.

Definition step (cfg : Config) (w : World) (a : Action) : World :=
  match a with
  | Emit event => if subscribed (hub w) then handleSyncEvent cfg event w else w
  | SetSession session => set_engine (<[sess_id session := session]> (engine w)) w
  | DropSession sessionId => set_engine (delete sessionId (engine w)) w
  | Sleep ms => advance cfg (clock w + ms) w
  | Settle id rejected => settle cfg id rejected w
  | Stop => stop w
  end.

Definition run (cfg : Config) (w : World) (actions : list Action) : World :=
  foldl (step cfg) w actions.

(** A hub fresh from its constructor, at time [t0]. *)
Definition start (sessions : gmap string Session) (t0 : Z) : World :=
  mkWorld sessions (mkHub ∅ ∅ ∅ true) t0 [] 0 [] 0 [] [].

(** *** Vocabulary of the properties *)

Definition sessionEvent (type sessionId : string) : SyncEvent :=
  mkEvent (JStr type) (Some sessionId) JUndefined JUndefined.

(** A [ready] event in a role-wrapped envelope, as the agent sends it. *)
Definition readyEvent (sessionId : string) : SyncEvent :=
  mkEvent (JStr "message-received") (Some sessionId)
    (JObj [("id", JStr "message-1"); ("seq", JNum 1); ("localId", JNull);
           ("createdAt", JNum 0);
           ("content", JObj [("role", JStr "agent");
                             ("content", JObj [("id", JStr "event-1");
                                               ("type", JStr "event");
                                               ("data", JObj [("type", JStr "ready")])])])])
    JUndefined.

(** The pending request ids of a session, empty when there are none. *)
Definition current_request_ids (session : Session) : gset string :=
  default ∅ (dom <$> (agentState session ≫= requests)).

Definition call_session_id (c : Call) : string := sess_id (call_session c).

(** The invocations that concern one session. *)
Definition calls_for (sessionId : string) (cs : list Call) : list Call :=
  filter (fun c => call_session_id c = sessionId) cs.

(** One invocation of a method on each of [n] channels, in order. *)
Definition once_per_channel (m : Method) (session : Session) (from n : nat) : list Call :=
  (fun i => mkCall m i session) <$> seq from n.

(** How many channels, from the head of the list, throw at once. *)
Fixpoint thrown (m : Method) (session : Session) (chs : list NotificationChannel) : nat :=
  match chs with
  | [] => 0%nat
  | channel :: rest => if throws channel m session then S (thrown m session rest) else 0%nat
  end.

(** How many channels of the list return a promise. *)
Definition promises (m : Method) (session : Session) (chs : list NotificationChannel) : nat :=
  length (filter (fun channel => throws channel m session = false) chs).

(** How many channels the loop reaches in one turn: those that throw at once
    and the first that returns a promise. *)
Definition reached (m : Method) (session : Session) (chs : list NotificationChannel) : nat :=
  S (thrown m session chs) `min` length chs.

(** The invocations a notification makes in the turn it starts in. *)
Definition first_calls (cfg : Config) (m : Method) (session : Session) : list Call :=
  once_per_channel m session 0 (reached m session (channels cfg)).

(** The loop a notification leaves waiting when it starts as flight [id]:
    none when every channel threw. *)
Definition first_flight (cfg : Config) (m : Method) (session : Session) (id : nat)
  : list Flight :=
  if decide (thrown m session (channels cfg) < length (channels cfg))%nat
  then [mkFlight id m session (thrown m session (channels cfg))]
  else [].

(** The waiting loops have ids of their own, given out in order. *)
Definition flights_fresh (w : World) : Prop :=
  NoDup (flight_id <$> inflight w)
  /\ (forall f, f ∈ inflight w -> (flight_id f < next_flight w)%nat).

(** Every waiting loop was handed a session with [active] set. *)
Definition flights_active (w : World) : Prop :=
  forall f, f ∈ inflight w -> active (flight_session f) = true.

(** How many channels of the list throw at once. *)
Definition throwers (m : Method) (session : Session) (chs : list NotificationChannel) : nat :=
  length (filter (fun channel => throws channel m session = true) chs).

(** The waiting loops of one session. *)
Definition flights_for (sessionId : string) (w : World) : list Flight :=
  filter (fun f => sess_id (flight_session f) = sessionId) (inflight w).

(** How many of the promises were rejected. *)
Definition rejected_among (outcomes : list bool) : nat :=
  length (filter (fun rejected => rejected = true) outcomes).

(** A notification loop is seen through: its promise settles, time after
    time, with the given outcomes. *)
Definition settles (id : nat) (outcomes : list bool) : list Action :=
  Settle id <$> outcomes.

(** The queue's timers of one session. *)
Definition timers_of (sessionId : string) (w : World) : list Timer :=
  filter (fun tm => timer_session tm = sessionId) (timers w).

(** Sessions are stored under their own id. *)
Definition well_keyed (e : gmap string Session) : Prop :=
  forall k s, e !! k = Some s -> sess_id s = k.

(** The map of handles and the timer queue agree: a queued timer is the one
    recorded for its session, handles are not shared, and a handle yet to be
    given out is not in use. *)
Definition consistent (w : World) : Prop :=
  (forall tm, tm ∈ timers w ->
              notificationDebounce (hub w) !! timer_session tm = Some (timer_id tm))
  /\ NoDup (timer_id <$> timers w)
  /\ (forall tm, tm ∈ timers w -> (timer_id tm < next_timer w)%nat).

(** The timers left after the hub has cancelled the one it holds for a
    session. *)
Definition without_timer_of (sid : string) (w : World) : list Timer :=
  match notificationDebounce (hub w) !! sid with
  | Some handle => filter (fun tm => timer_id tm <> handle) (timers w)
  | None => timers w
  end.

(** The event is [session-updated] or [session-added]. *)
Definition session_changed (event : SyncEvent) : bool :=
  is_str (ev_type event) "session-updated" || is_str (ev_type event) "session-added".

(** What a debounce callback of a session hands to the channels in its own
    turn. *)
Definition permission_calls (cfg : Config) (e : gmap string Session)
    (sessionId : string) : list Call :=
  match e !! sessionId with
  | Some session =>
      if active session then first_calls cfg sendPermissionRequest session else []
  | None => []
  end.

(** A burst on one session: each entry is the time since the event before
    it, the session state the engine holds by then, and the event emitted. *)
Definition Burst : Type := list (Z * Session * SyncEvent).

(** Every event of the burst comes within the debounce window of the one
    before, finds the session active, and brings a request id that the hub
    has not recorded. *)
Fixpoint triggering (cfg : Config) (sessionId : string) (known : gset string)
    (b : Burst) : Prop :=
  match b with
  | [] => True
  | (gap, session, event) :: rest =>
      gap < permissionDebounceMs cfg
      /\ sess_id session = sessionId
      /\ active session = true
      /\ truthy_id event = Some sessionId
      /\ session_changed event = true
      /\ (exists requestId, requestId ∈ current_request_ids session /\ requestId ∉ known)
      /\ triggering cfg sessionId (current_request_ids session) rest
  end.

Definition burst_actions (b : Burst) : list Action :=
  flat_map (fun '(gap, session, event) => [Sleep gap; SetSession session; Emit event]) b.

(** The state a triggering event leaves: the session's timer is queued with
    a full debounce interval to go. *)
Definition pending (cfg : Config) (w : World) (sid : string) (known : gset string) : Prop :=
  consistent w /\ well_keyed (engine w) /\ subscribed (hub w) = true
  /\ default ∅ (lastKnownRequests (hub w) !! sid) = known
  /\ exists tm, tm ∈ timers w /\ timer_session tm = sid
                /\ fires_at tm = clock w + permissionDebounceMs cfg.

(** *** The fixtures of the hub's tests *)

Definition createSession (state : option AgentState) : Session :=
  mkSession "session-1" "default" 1 true state.

Definition firstSession : Session :=
  createSession
    (Some (mkAgentState (Some {["req1" := mkRequest "Edit" (JObj []) 1]}))).

Definition secondSession : Session :=
  createSession
    (Some (mkAgentState (Some {["req2" := mkRequest "Read" (JObj []) 2]}))).

Definition stubChannel : NotificationChannel := mkChannel (fun _ _ => false).

(** The options of the debounce test: [permissionDebounceMs: 5],
    [readyCooldownMs: 5]. *)
Definition testConfig : Config :=
  configure [stubChannel] (Some (mkOptions (Some 5) (Some 5))).

(** [firstSession] once its agent has gone: same requests, [active: false]. *)
Definition inactiveSession : Session :=
  mkSession "session-1" "default" 1 false (agentState firstSession).

(** Two channels, with the intervals of the debounce test. *)
Definition pairConfig : Config :=
  configure [stubChannel; stubChannel] (Some (mkOptions (Some 5) (Some 5))).

(** The options of the throttling test: [permissionDebounceMs: 1],
    [readyCooldownMs: 20]. *)
Definition readyTestConfig : Config :=
  configure [stubChannel] (Some (mkOptions (Some 20) (Some 1))).

(** A hub that has recorded [req1] for a session whose agent state is gone. *)
Definition staleWorld : World :=
  mkWorld {["session-1" := createSession None]}
          (mkHub {["session-1" := {["req1"]}]} ∅ ∅ true) 1000 [] 0 [] 0 [] [].

(** A hub that has recorded [req1] for a session whose requests are now an
    empty object. *)
Definition idleWorld : World :=
  mkWorld {["session-1" := createSession (Some (mkAgentState (Some ∅)))]}
          (mkHub {["session-1" := {["req1"]}]} ∅ ∅ true) 1000 [] 0 [] 0 [] [].

End Hub.

(** ** Reading the message log *)

Module MessageQueries.
Import Js Messages.

(** [ORDER BY seq ASC] and [ORDER BY seq DESC]. Where two rows of a session
    share a seq SQLite's order is not fixed; the sort used here keeps them in
    table order. *)
Definition seq_asc (a b : DbMessageRow) : Prop := row_seq a <= row_seq b.
Definition seq_desc (a b : DbMessageRow) : Prop := row_seq b <= row_seq a.

#[global] Instance seq_asc_dec a b : Decision (seq_asc a b).
Proof. unfold seq_asc. apply _. Defined.
#[global] Instance seq_desc_dec a b : Decision (seq_desc a b).
Proof. unfold seq_desc. apply _. Defined.

(** A JavaScript number, as far as the code can tell numbers apart: an
    integer, a finite number strictly between an integer and the next,
    [NaN], [Infinity] or [-Infinity]. *)
Inductive JsNumber : Type :=
| Whole (z : Z)
| Between (z : Z)
| NaN
| PosInfinity
| NegInfinity.

(** [Number.isFinite] *)
Definition isFinite (x : JsNumber) : bool :=
  match x with
  | Whole _ | Between _ => true
  | _ => false
  end.

(** [Math.min(a, x)] and [Math.max(a, x)] for an integer [a]. *)
Definition num_min (a : Z) (x : JsNumber) : JsNumber :=
  match x with
  | Whole z => Whole (Z.min a z)
  | Between z => if decide (a <= z) then Whole a else Between z
  | NaN => NaN
  | PosInfinity => Whole a
  | NegInfinity => NegInfinity
  end.

Definition num_max (a : Z) (x : JsNumber) : JsNumber :=
  match x with
  | Whole z => Whole (Z.max a z)
  | Between z => if decide (z < a) then Whole a else Between z
  | NaN => NaN
  | PosInfinity => PosInfinity
  | NegInfinity => Whole a
  end.

(** [Number.isFinite(limit) ? Math.max(1, Math.min(200, limit)) : 200] *)
Definition safeLimit (limit : JsNumber) : JsNumber :=
  if isFinite limit then num_max 1 (num_min 200 limit) else Whole 200.

(** The parameter of [LIMIT ?]: SQLite takes an integer there, and refuses a
    number with a fraction. *)
Definition bind_limit (x : JsNumber) : Completion Z :=
  match x with
  | Whole k => Normal k
  | _ => Throw "SQLITE_MISMATCH"
  end.

(** [seq < ?] and [seq > ?] for an integer seq and a finite parameter. *)
Definition seq_below (x : JsNumber) (s : Z) : Prop :=
  match x with
  | Whole b => s < b
  | Between b => s <= b
  | _ => False
  end.

Definition seq_above (x : JsNumber) (s : Z) : Prop :=
  match x with
  | Whole a => a < s
  | Between a => a < s
  | _ => False
  end.

#[global] Instance seq_below_dec x s : Decision (seq_below x s).
Proof. destruct x; simpl; apply _. Defined.
#[global] Instance seq_above_dec x s : Decision (seq_above x s).
Proof. destruct x; simpl; apply _. Defined.

(** [LIMIT ?] for a limit that is at least one. *)
Definition limit_rows (k : Z) (rows : list DbMessageRow) : list DbMessageRow :=
  take (Z.to_nat k) rows.

(** The rows [getMessages] asks for: those of the session, below
    [beforeSeq] when it is given and finite. *)
Definition rows_before (db : Database) (sessionId : string) (beforeSeq : option JsNumber)
  : list DbMessageRow :=
  match beforeSeq with
  | Some b =>
      if isFinite b
      then filter (fun r => session_id r = sessionId /\ seq_below b (row_seq r))
             (messages db)
      else session_rows db sessionId
  | None => session_rows db sessionId
  end.

Section Queries.
Variable safeJsonParse : string -> JsVal.

(** [getMessages]; [limit] is [None] when it is left out ([= 200]), and
    [beforeSeq] is [None] when it is [undefined] or [null]. *)
Definition getMessages (db : Database) (sessionId : string) (limit : option JsNumber)
    (beforeSeq : option JsNumber) : Completion (list StoredMessage) :=
  let safe := safeLimit (default (Whole 200) limit) in
  k ← bind_limit safe;
  let rows := limit_rows k (merge_sort seq_desc (rows_before db sessionId beforeSeq)) in
  Normal (toStoredMessage safeJsonParse <$> reverse rows).

(** [getMessagesAfter] *)
Definition getMessagesAfter (db : Database) (sessionId : string) (afterSeq : JsNumber)
    (limit : option JsNumber) : Completion (list StoredMessage) :=
  let safe := safeLimit (default (Whole 200) limit) in
  let safeAfterSeq := if isFinite afterSeq then afterSeq else Whole 0 in
  k ← bind_limit safe;
  let rows :=
    limit_rows k
      (merge_sort seq_asc
         (filter (fun r => session_id r = sessionId /\ seq_above safeAfterSeq (row_seq r))
            (messages db))) in
  Normal (toStoredMessage safeJsonParse <$> rows).

End Queries.

(** The limit a call ends up with. *)
Definition clamped (limit : option JsNumber) : JsNumber :=
  safeLimit (default (Whole 200) limit).

(** The bound [getMessagesAfter] ends up with. *)
Definition lower_bound (afterSeq : JsNumber) : JsNumber :=
  if isFinite afterSeq then afterSeq else Whole 0.

(** The highest seq a page of [getMessages] can hold in a session whose seq
    values are [1..n]. *)
Definition page_top (n : Z) (beforeSeq : option Z) : Z :=
  match beforeSeq with
  | Some b => Z.min n (b - 1)
  | None => n
  end.

(** An integer [beforeSeq], or none. *)
Definition whole_bound (beforeSeq : option Z) : option JsNumber := Whole <$> beforeSeq.

(** The row [addMessage] finds for a replayed local id, if it looks for one:
    [if (localId) { ... SELECT ... }]. *)
Definition replayed (db : Database) (sessionId : string) (localId : option string)
  : option DbMessageRow :=
  if truthy localId then find_by_local_id db sessionId (default "" localId) else None.

(** The table's constraints: primary key, foreign key and the partial unique
    index on [(session_id, local_id)]. *)
Definition constraints_hold (db : Database) : Prop :=
  NoDup (row_id <$> messages db)
  /\ (forall r, r ∈ messages db -> session_id r ∈ sessions db)
  /\ NoDup (local_keys (messages db)).

(** How a committed merge of [fromId] into [toId] may change a row: id,
    content and creation time stay; a row of [fromId] goes to [toId] with its
    seq and may lose its local id; every other row keeps session and local
    id, and a row of a third session is untouched. *)
Definition merge_image (fromId toId : string) (r r' : DbMessageRow) : Prop :=
  row_id r' = row_id r
  /\ row_content r' = row_content r
  /\ created_at r' = created_at r
  /\ session_id r' = (if decide (session_id r = fromId) then toId else session_id r)
  /\ (session_id r = fromId -> row_seq r' = row_seq r)
  /\ (local_id r' = local_id r \/ (session_id r = fromId /\ local_id r' = None))
  /\ (session_id r <> fromId -> session_id r <> toId -> r' = r).

End MessageQueries.

(** ** The hub's state, session by session *)

Module HubState.
Import Js EventParsing Hub.

(** Every handle the hub holds is that of a queued timer of the session. *)
Definition handles_live (w : World) : Prop :=
  forall k h, notificationDebounce (hub w) !! k = Some h ->
    exists tm, tm ∈ timers w /\ timer_id tm = h /\ timer_session tm = k.

(** The handle map and the timer queue tell the same story. *)
Definition tight (w : World) : Prop := consistent w /\ handles_live w.

(** The world without what [console.error] has printed. *)
Definition mute (w : World) : World :=
  mkWorld (engine w) (hub w) (clock w) (timers w) (next_timer w) (inflight w)
          (next_flight w) (calls w) [].

(** Two actions that differ at most in how a promise settles: resolved in
    one, rejected in the other. *)
Definition alike (a a' : Action) : Prop :=
  match a, a' with
  | Settle id _, Settle id' _ => id = id'
  | _, _ => a = a'
  end.

(** A loop that continues one of the loops [fs]: the same method and
    session, no earlier channel. *)
Definition continues (fs : list Flight) (g : Flight) : Prop :=
  exists f, f ∈ fs /\ flight_method g = flight_method f
            /\ flight_session g = flight_session f
            /\ (flight_channel f <= flight_channel g)%nat.

(** All that the hub holds or has done about one session. *)
Definition session_state (w : World) (sessionId : string)
  : option (gset string) * option nat * option Z * list Timer * list Call :=
  (lastKnownRequests (hub w) !! sessionId,
   notificationDebounce (hub w) !! sessionId,
   lastReadyNotificationAt (hub w) !! sessionId,
   timers_of sessionId w,
   calls_for sessionId (calls w)).

End HubState.

(** ** The session cleanup script *)

Module Cleanup.
Import Js Messages MessageQueries.

(** A JavaScript string as [length] and [slice] see it: its UTF-16 code
    units. *)
Definition CodeUnit : Type := N.
Definition JsString : Type := list CodeUnit.

(** ['...'] *)
Definition ellipsis : JsString := [46%N; 46%N; 46%N].

(** [len <= x] for an integer [len] and a number [x]. *)
Definition at_most (len : Z) (x : JsNumber) : bool :=
  match x with
  | Whole z => len <=? z
  | Between z => len <=? z
  | PosInfinity => true
  | NaN | NegInfinity => false
  end.

(** [x - 3] *)
Definition minus_three (x : JsNumber) : JsNumber :=
  match x with
  | Whole z => Whole (z - 3)
  | Between z => Between (z - 3)
  | other => other
  end.

Inductive IntegerOrInfinity : Type :=
| Finite (z : Z)
| PlusInfinity
| MinusInfinity.

(** [ToIntegerOrInfinity]: [NaN] is 0, and a fraction is cut off towards
    zero. *)
Definition ToIntegerOrInfinity (x : JsNumber) : IntegerOrInfinity :=
  match x with
  | Whole z => Finite z
  | Between z => Finite (if decide (0 <= z) then z else z + 1)
  | NaN => Finite 0
  | PosInfinity => PlusInfinity
  | NegInfinity => MinusInfinity
  end.

(** [str.slice(0, end)]: a negative [end] counts from the end of the
    string. *)
Definition slice0 (str : JsString) (e : JsNumber) : JsString :=
  let len := Z.of_nat (length str) in
  let final :=
    match ToIntegerOrInfinity e with
    | MinusInfinity => 0
    | Finite relativeEnd =>
        if relativeEnd <? 0 then Z.max (len + relativeEnd) 0 else Z.min relativeEnd len
    | PlusInfinity => len
    end in
  take (Z.to_nat final) str.

(** [truncate] *)
Definition truncate (str : JsString) (maxLen : JsNumber) : JsString :=
  if at_most (Z.of_nat (length str)) maxLen then str
  else slice0 str (minus_three maxLen) ++ ellipsis.

(** [extractUserText] *)
Definition extractUserText (content : JsVal) : Completion (option string) :=
  if negb (isObject content) then Normal None
  else
    role ← getProp content "role";
    if negb (is_str role "user") then Normal None
    else
      inner ← getProp content "content";
      fromObject ← (if isObject inner
                    then
                      ty ← getProp inner "type";
                      if is_str ty "text"
                      then
                        text ← getProp inner "text";
                        Normal (match text with JStr s => Some s | _ => None end)
                      else Normal None
                    else Normal None);
      match fromObject with
      | Some text => Normal (Some text)
      | None => Normal (match inner with JStr s => Some s | _ => None end)
      end.

Section Query.
Variable JSON_parse : string -> Completion JsVal.

(** The body of the loop of [querySessions] over a session's messages: the
    [try] block, whose errors are ignored; an empty text is not taken. *)
Definition user_text_of (msg : string) : option string :=
  match (content ← JSON_parse msg; extractUserText content) with
  | Normal (Some userText) => if String.eqb userText "" then None else Some userText
  | _ => None
  end.

(** The loop: [if (firstUserMessage !== null) break]. *)
Fixpoint firstUserMessage_loop (firstUserMessage : option string)
    (messages : list string) : option string :=
  match messages with
  | [] => firstUserMessage
  | msg :: rest =>
      match firstUserMessage with
      | Some _ => firstUserMessage
      | None => firstUserMessage_loop (user_text_of msg) rest
      end
  end.

End Query.

Record SessionInfo : Type := mkInfo {
  info_id : string;
  info_title : option string;
  info_firstUserMessage : option string;
  info_path : option string;
  info_updatedAt : Z;
  info_messageCount : Z
}.

Section Filter.
(** [new Bun.Glob(pattern).match(path)], [existsSync] and
    [String.prototype.toLowerCase]. *)
Variable glob_match : string -> string -> bool.
Variable existsSync : string -> bool.
Variable toLowerCase : string -> string.

(** The four callbacks handed to [filter]. *)
Definition fewer_messages (minMessages : Z) (s : SessionInfo) : bool :=
  info_messageCount s <? minMessages.

Definition path_matches (pathPattern : string) (s : SessionInfo) : bool :=
  if negb (truthy (info_path s)) then false
  else glob_match pathPattern (default "" (info_path s)).

Definition message_matches (messagePattern : string) (s : SessionInfo) : bool :=
  if negb (truthy (info_firstUserMessage s)) then false
  else Schema.contains messagePattern (toLowerCase (default "" (info_firstUserMessage s))).

Definition is_orphaned (s : SessionInfo) : bool :=
  if negb (truthy (info_path s)) then true
  else negb (existsSync (default "" (info_path s))).

(** [filterSessions] *)
Definition filterSessions (sessions : list SessionInfo) (minMessages : option Z)
    (pathPattern messagePattern : option string) (orphaned : bool)
  : list SessionInfo :=
  let filtered := sessions in
  let filtered := match minMessages with
                  | Some n => List.filter (fewer_messages n) filtered
                  | None => filtered
                  end in
  let filtered := match pathPattern with
                  | Some p => List.filter (path_matches p) filtered
                  | None => filtered
                  end in
  let filtered := match messagePattern with
                  | Some p => List.filter (message_matches p) filtered
                  | None => filtered
                  end in
  let filtered := if orphaned then List.filter is_orphaned filtered else filtered in
  filtered.

End Filter.

Record Args : Type := mkArgs {
  minMessages : option Z;
  pathPattern : option string;
  messagePattern : option string;
  orphaned : bool;
  force : bool;
  help : bool
}.

(** A function of the script returns, or ends the process with
    [process.exit] after some lines on [console.error]. *)
Inductive Outcome (A : Type) : Type :=
| Returns (a : A)
| Exits (code : Z) (errors : list string).
Arguments Returns {A} a.
Arguments Exits {A} code errors.

(** [arg.split('=').slice(1).join('=')]: what follows the first [=]. *)
Fixpoint after_eq (arg : string) : string :=
  match arg with
  | EmptyString => EmptyString
  | String c rest => if String.eqb (String c EmptyString) "=" then rest else after_eq rest
  end.

(** The first part of [s.split('=')]: what stands before the first [=]. *)
Fixpoint before_eq (s : string) : string :=
  match s with
  | EmptyString => EmptyString
  | String c rest => if String.eqb (String c EmptyString) "=" then EmptyString else String c (before_eq rest)
  end.

Section Arguments.
(** [parseInt(s, 10)], [None] for [NaN]. *)
Variable parseInt : string -> option Z.
Variable toLowerCase : string -> string.

(** One turn of the loop of [parseArgs]. *)
Definition parse_arg (a : Args) (arg : string) : Outcome Args :=
  if String.eqb arg "--help" || String.eqb arg "-h"
  then Returns (mkArgs (minMessages a) (pathPattern a) (messagePattern a)
                       (orphaned a) (force a) true)
  else if String.eqb arg "--force" || String.eqb arg "-f"
  then Returns (mkArgs (minMessages a) (pathPattern a) (messagePattern a)
                       (orphaned a) true (help a))
  else if String.eqb arg "--orphaned"
  then Returns (mkArgs (minMessages a) (pathPattern a) (messagePattern a)
                       true (force a) (help a))
  else if String.prefix "--min-messages=" arg
  then
    match parseInt (before_eq (after_eq arg)) with
    | Some value =>
        if value <? 0
        then Exits 1 ["Error: --min-messages must be a non-negative integer"]
        else Returns (mkArgs (Some value) (pathPattern a) (messagePattern a)
                             (orphaned a) (force a) (help a))
    | None => Exits 1 ["Error: --min-messages must be a non-negative integer"]
    end
  else if String.prefix "--path=" arg
  then Returns (mkArgs (minMessages a) (Some (after_eq arg)) (messagePattern a)
                       (orphaned a) (force a) (help a))
  else if String.prefix "--message=" arg
  then Returns (mkArgs (minMessages a) (pathPattern a)
                       (Some (toLowerCase (after_eq arg)))
                       (orphaned a) (force a) (help a))
  else Exits 1 ["Unknown argument: " +:+ arg; "Use --help for usage information"].

Fixpoint parse_loop (a : Args) (args : list string) : Outcome Args :=
  match args with
  | [] => Returns a
  | arg :: rest =>
      match parse_arg a arg with
      | Returns a' => parse_loop a' rest
      | Exits code errors => Exits code errors
      end
  end.

(** [parseArgs], of [process.argv.slice(2)]. *)
Definition parseArgs (args : list string) : Outcome Args :=
  match parse_loop (mkArgs None None None false false false) args with
  | Returns a =>
      match minMessages a, pathPattern a, messagePattern a, orphaned a with
      | None, None, None, false =>
          Returns (mkArgs (Some 5) (pathPattern a) (messagePattern a)
                          (orphaned a) (force a) (help a))
      | _, _, _, _ => Returns a
      end
  | Exits code errors => Exits code errors
  end.

End Arguments.

(** *** Vocabulary *)

(** What [extractUserText] finds, read with total field access. *)
Definition user_text (content : JsVal) : option string :=
  if isObject content && is_str (field content "role") "user"
  then
    match field content "content" with
    | JStr s => Some s
    | inner =>
        if isObject inner && is_str (field inner "type") "text"
        then match field inner "text" with JStr s => Some s | _ => None end
        else None
    end
  else None.

(** The call names a criterion. *)
Definition selective (a : Args) : Prop :=
  minMessages a <> None \/ pathPattern a <> None \/ messagePattern a <> None
  \/ orphaned a = true.

End Cleanup.

(** ** Comparing secrets *)

Module Crypto.
Import Js.

Definition Buffer : Type := list Byte.byte.

#[global] Instance byte_eq_dec : EqDecision Byte.byte := Byte.byte_eq_dec.

(** [Buffer.alloc(size)]: zero-filled. *)
Definition alloc (size : nat) : Buffer := replicate size Byte.x00.

(** [source.copy(target)]: the bytes of [source] that fit, written from the
    start of [target]. *)
Definition copy (source target : Buffer) : Buffer :=
  take (length target) source ++ drop (length source) target.

(** [timingSafeEqual]: throws on buffers of different length. *)
Definition timingSafeEqual (a b : Buffer) : Completion bool :=
  if bool_decide (length a = length b)
  then Normal (bool_decide (a = b))
  else Throw "ERR_CRYPTO_TIMING_SAFE_EQUAL_LENGTH".

Section Equals.
(** [Buffer.from(s, 'utf8')] *)
Variable utf8 : string -> Buffer.

(** [constantTimeEquals]; an argument that is not a string is [None]. *)
Definition constantTimeEquals (a b : option string) : Completion bool :=
  match a, b with
  | Some a, Some b =>
      let bufferA := utf8 a in
      let bufferB := utf8 b in
      let maxLength := Nat.max (length bufferA) (length bufferB) in
      let paddedA := copy bufferA (alloc maxLength) in
      let paddedB := copy bufferB (alloc maxLength) in
      matches ← timingSafeEqual paddedA paddedB;
      Normal (matches && bool_decide (length bufferA = length bufferB))
  | _, _ => Normal false
  end.

End Equals.

End Crypto.

(** ** Errors of API requests *)

Module ErrorUtils.
Import Js.

Record ErrorInfo : Type := mkErrorInfo {
  message : string;
  messageLower : string;
  axiosCode : option string;
  httpStatus : option Z;
  responseErrorText : string
}.

(** [typeof v === 'object' && v !== null] *)
Definition is_record (v : JsVal) : bool :=
  match v with
  | JObj _ | JArr _ => true
  | _ => false
  end.

Section Extract.
(** [error.message] of an [Error] instance, [None] for any other value;
    [String.prototype.toLowerCase]. *)
Variable error_message : JsVal -> option string.
Variable toLowerCase : string -> string.

(** [extractErrorInfo] *)
Definition extractErrorInfo (error : JsVal) : Completion ErrorInfo :=
  let message := default "Unknown error" (error_message error) in
  let messageLower := toLowerCase message in
  if negb (is_record error)
  then Normal (mkErrorInfo message messageLower None None "")
  else
    code ← getProp error "code";
    let axiosCode := match code with JStr s => Some s | _ => None end in
    resp ← getProp error "response";
    let response := if is_record resp then resp else JUndefined in
    status ← getOpt response "status";
    let httpStatus := match status with JNum n => Some n | _ => None end in
    responseData ← getOpt response "data";
    responseError ← (if is_record responseData
                     then getProp responseData "error"
                     else Normal JUndefined);
    let responseErrorText := match responseError with JStr s => s | _ => "" end in
    Normal (mkErrorInfo message messageLower axiosCode httpStatus responseErrorText).

(** [isRetryableConnectionError] *)
Definition isRetryableConnectionError (error : JsVal) : Completion bool :=
  info ← extractErrorInfo error;
  if match axiosCode info with
     | Some c => String.eqb c "ECONNREFUSED" || String.eqb c "ETIMEDOUT"
                 || String.eqb c "ENOTFOUND" || String.eqb c "ENETUNREACH"
                 || String.eqb c "ECONNRESET"
     | None => false
     end
  then Normal true
  else if match httpStatus info with
          | Some n => negb (n =? 0) && (500 <=? n)
          | None => false
          end
  then Normal true
  else Normal false.

End Extract.

(** The network error codes that the function takes as retryable. *)
Definition retryable_codes : list string :=
  ["ECONNREFUSED"; "ETIMEDOUT"; "ENOTFOUND"; "ENETUNREACH"; "ECONNRESET"].

End ErrorUtils.

(** ** The hub's settings *)

Module ServerSettings.
Import Js.

(** [settings.json], as far as [loadServerSettings] reads and writes it: a
    key that the file does not have is [None]; the other keys are kept. *)
Record Settings : Type := mkSettings {
  s_telegramBotToken : option string;
  s_telegramNotification : option bool;
  s_listenHost : option string;
  s_listenPort : option Z;
  s_publicUrl : option string;
  s_corsOrigins : option (list string);
  s_webappHost : option string;
  s_webappPort : option Z;
  s_webappUrl : option string;
  s_rest : list (string * JsVal)
}.

(** [process.env] *)
Record Env : Type := mkEnv {
  TELEGRAM_BOT_TOKEN : option string;
  TELEGRAM_NOTIFICATION : option string;
  HAPI_LISTEN_HOST : option string;
  HAPI_LISTEN_PORT : option string;
  HAPI_PUBLIC_URL : option string;
  CORS_ORIGINS : option string
}.

Record ServerSettings : Type := mkServerSettings {
  telegramBotToken : option string;
  telegramNotification : bool;
  listenHost : string;
  listenPort : Z;
  publicUrl : string;
  corsOrigins : list string
}.

(** ['env' | 'file' | 'default'] *)
Inductive Source : Type := FromEnv | FromFile | FromDefault.

Record Sources : Type := mkSources {
  src_telegramBotToken : Source;
  src_telegramNotification : Source;
  src_listenHost : Source;
  src_listenPort : Source;
  src_publicUrl : Source;
  src_corsOrigins : Source
}.

Record ServerSettingsResult : Type := mkResult {
  settings : ServerSettings;
  sources : Sources;
  savedToFile : bool
}.

(** An environment variable that is set and not empty. *)
Definition truthy_env (v : option string) : option string :=
  match v with
  | Some s => if String.eqb s "" then None else Some s
  | None => None
  end.

(** What one of the six blocks of [loadServerSettings] settles for its key:
    the value found, if any, where it came from, the key and its old name
    as the settings object then holds them, and whether the object has to
    be saved. *)
Record Resolved (A : Type) : Type := mkResolved {
  value : option A;
  source : Source;
  stored : option A;
  legacy : option A;
  save : bool
}.
Arguments mkResolved {A} value source stored legacy save.
Arguments value {A} r.
Arguments source {A} r.
Arguments stored {A} r.
Arguments legacy {A} r.
Arguments save {A} r.

(** The shape the blocks share: the environment first, saved to the object
    when the key is not there; then the key; then its old name, which is
    moved to the key. A key that has no old name is resolved with
    [None] for it. *)
Definition resolve {A} (fromEnv fromFile fromLegacy : option A) : Resolved A :=
  match fromEnv with
  | Some v =>
      match fromFile with
      | None => mkResolved (Some v) FromEnv (Some v) fromLegacy true
      | Some _ => mkResolved (Some v) FromEnv fromFile fromLegacy false
      end
  | None =>
      match fromFile with
      | Some v => mkResolved (Some v) FromFile fromFile fromLegacy false
      | None =>
          match fromLegacy with
          | Some v => mkResolved (Some v) FromFile (Some v) None true
          | None => mkResolved None FromDefault None None false
          end
      end
  end.

Section Load.
(** [str.split(',')], [String.prototype.trim], [new URL(s).origin] ([None]
    when the constructor throws) and [parseInt(s, 10)] ([None] for [NaN]). *)
Variable split_comma : string -> list string.
Variable trim : string -> string.
Variable url_origin : string -> option string.
Variable parseInt : string -> option Z.

(** [parseCorsOrigins] *)
Definition parseCorsOrigins (str : string) : list string :=
  let entries := List.filter (fun s => negb (String.eqb s "")) (trim <$> split_comma str) in
  if existsb (String.eqb "*") entries then ["*"]
  else (fun entry => default entry (url_origin entry)) <$> entries.

(** [deriveCorsOrigins] *)
Definition deriveCorsOrigins (publicUrl : string) : list string :=
  match url_origin publicUrl with
  | Some origin => [origin]
  | None => []
  end.

(** [loadServerSettings]: [read] is what [readSettings] returned, [None]
    for a file that could not be parsed; the result comes with the content
    of the settings file after the call. *)
Definition loadServerSettings (settingsFile : string) (env : Env)
    (read : option Settings) : Completion (ServerSettingsResult * Settings) :=
  match read with
  | None =>
      Throw ("Cannot read " +:+ settingsFile
             +:+ ". Please fix or remove the file and restart.")
  | Some settings =>
      let token := resolve (truthy_env (TELEGRAM_BOT_TOKEN env))
                     (s_telegramBotToken settings) None in
      let notification := resolve ((fun s => String.eqb s "true")
                                     <$> TELEGRAM_NOTIFICATION env)
                            (s_telegramNotification settings) None in
      let host := resolve (truthy_env (HAPI_LISTEN_HOST env))
                    (s_listenHost settings) (s_webappHost settings) in
      parsed ← match truthy_env (HAPI_LISTEN_PORT env) with
               | Some p =>
                   match parseInt p with
                   | Some n =>
                       if n <=? 0
                       then Throw "HAPI_LISTEN_PORT must be a valid port number"
                       else Normal (Some n)
                   | None => Throw "HAPI_LISTEN_PORT must be a valid port number"
                   end
               | None => Normal None
               end;
      let port := resolve parsed (s_listenPort settings) (s_webappPort settings) in
      let listenPort := default 3006 (value port) in
      let url := resolve (truthy_env (HAPI_PUBLIC_URL env))
                   (s_publicUrl settings) (s_webappUrl settings) in
      let publicUrl := default ("http://localhost:" +:+ pretty listenPort) (value url) in
      let cors := resolve (parseCorsOrigins <$> truthy_env (CORS_ORIGINS env))
                    (s_corsOrigins settings) None in
      let corsOrigins := default (deriveCorsOrigins publicUrl) (value cors) in
      let needsSave := save token || save notification || save host || save port
                       || save url || save cors in
      let written := mkSettings (stored token) (stored notification) (stored host)
                       (stored port) (stored url) (stored cors)
                       (legacy host) (legacy port) (legacy url) (s_rest settings) in
      Normal (mkResult
                (mkServerSettings (value token) (default true (value notification))
                   (default "127.0.0.1" (value host)) listenPort publicUrl corsOrigins)
                (mkSources (source token) (source notification) (source host)
                   (source port) (source url) (source cors))
                needsSave,
              if needsSave then written else settings)
  end.

End Load.

End ServerSettings.

(** ** Starting a Codex session *)

Module CodexConfig.
Import Js.

Record EnhancedMode : Type := mkMode {
  permissionMode : string;
  model : option string
}.

Record CodexCliOverrides : Type := mkOverrides {
  approvalPolicy : option string;
  sandbox : option string
}.

Record StartArgs : Type := mkStartArgs {
  arg_message : string;
  arg_mode : EnhancedMode;
  arg_first : bool;
  arg_mcpServers : JsVal;
  arg_cliOverrides : option CodexCliOverrides;
  arg_developerInstructions : option string
}.

Record CodexSessionConfig : Type := mkSessionConfig {
  cfg_prompt : string;
  cfg_sandbox : string;
  cfg_approval_policy : string;
  cfg_config : list (string * JsVal);
  cfg_model : option string
}.

(** [resolveApprovalPolicy] *)
Definition resolveApprovalPolicy (mode : EnhancedMode) : Completion string :=
  if String.eqb (permissionMode mode) "default" then Normal "untrusted"
  else if String.eqb (permissionMode mode) "read-only" then Normal "never"
  else if String.eqb (permissionMode mode) "safe-yolo" then Normal "on-failure"
  else if String.eqb (permissionMode mode) "yolo" then Normal "on-failure"
  else Throw ("Unknown permission mode: " +:+ permissionMode mode).

(** [resolveSandbox] *)
Definition resolveSandbox (mode : EnhancedMode) : Completion string :=
  if String.eqb (permissionMode mode) "default" then Normal "workspace-write"
  else if String.eqb (permissionMode mode) "read-only" then Normal "read-only"
  else if String.eqb (permissionMode mode) "safe-yolo" then Normal "workspace-write"
  else if String.eqb (permissionMode mode) "yolo" then Normal "danger-full-access"
  else Throw ("Unknown permission mode: " +:+ permissionMode mode).

(** A string that is present and not empty. *)
Definition nonempty (s : option string) : option string :=
  match s with
  | Some s => if String.eqb s "" then None else Some s
  | None => None
  end.

(** The line feed of the template literal. *)
Definition newline : string := String (Ascii.ascii_of_nat 10) EmptyString.

Section Build.
(** [TITLE_INSTRUCTION], a constant of the sibling module. *)
Variable TITLE_INSTRUCTION : string.

(** [buildCodexStartConfig] *)
Definition buildCodexStartConfig (args : StartArgs) : Completion CodexSessionConfig :=
  approvalPolicy ← resolveApprovalPolicy (arg_mode args);
  sandbox ← resolveSandbox (arg_mode args);
  let allowCliOverrides := String.eqb (permissionMode (arg_mode args)) "default" in
  let cliOverrides := if allowCliOverrides then arg_cliOverrides args else None in
  let resolvedApprovalPolicy :=
    default approvalPolicy (cliOverrides ≫= CodexConfig.approvalPolicy) in
  let resolvedSandbox := default sandbox (cliOverrides ≫= CodexConfig.sandbox) in
  let prompt := if arg_first args
                then arg_message args +:+ newline +:+ newline +:+ TITLE_INSTRUCTION
                else arg_message args in
  let config := [("mcp_servers", arg_mcpServers args)]
                ++ match nonempty (arg_developerInstructions args) with
                   | Some instructions => [("developer_instructions", JStr instructions)]
                   | None => []
                   end in
  Normal (mkSessionConfig prompt resolvedSandbox resolvedApprovalPolicy config
            (nonempty (model (arg_mode args)))).

End Build.

(** The permission modes that the two tables know. *)
Definition permission_modes : list string :=
  ["default"; "read-only"; "safe-yolo"; "yolo"].

(** The same call without CLI overrides. *)
Definition without_overrides (args : StartArgs) : StartArgs :=
  mkStartArgs (arg_message args) (arg_mode args) (arg_first args) (arg_mcpServers args)
    None (arg_developerInstructions args).

End CodexConfig.

(** ** Answers to a user-input request *)

Module UserInput.
Import Js.

(** [Object.entries(value)]: the fields of an object, in their order; the
    indices of an array. *)
Definition entries (value : JsVal) : list (string * JsVal) :=
  match value with
  | JObj fields => fields
  | JArr items => imap (fun i item => (pretty i, item)) items
  | _ => []
  end.

(** [items.filter(item => typeof item === 'string')] *)
Definition strings_of (items : list JsVal) : list JsVal :=
  List.filter (fun item => match item with JStr _ => true | _ => false end) items.

(** [{ answers: ... }] *)
Definition answers_of (items : list JsVal) : JsVal :=
  JObj [("answers", JArr (strings_of items))].

(** [obj[key] = v] for a key that names a property: an existing property
    is replaced where it stands, a new one comes last. *)
Fixpoint assign (key : string) (v : JsVal) (obj : list (string * JsVal))
  : list (string * JsVal) :=
  match obj with
  | [] => [(key, v)]
  | (k, x) :: rest =>
      if String.eqb k key then (k, v) :: rest else (k, x) :: assign key v rest
  end.

(** [normalized[key] = v] on the object literal that the function fills:
    under the key [__proto__] the assignment sets the prototype and adds no
    property. *)
Definition set_property (key : string) (v : JsVal) (obj : list (string * JsVal))
  : list (string * JsVal) :=
  if String.eqb key "__proto__" then obj else assign key v obj.

(** One turn of the loop of [normalizeUserInputAnswers]. *)
Definition normalize_entry (normalized : list (string * JsVal))
    (e : string * JsVal) : list (string * JsVal) :=
  match snd e with
  | JArr items => set_property (fst e) (answers_of items) normalized
  | JObj fields =>
      match lookup_field "answers" fields with
      | JArr items => set_property (fst e) (answers_of items) normalized
      | _ => normalized
      end
  | _ => normalized
  end.

(** [normalizeUserInputAnswers] *)
Definition normalizeUserInputAnswers (value : JsVal) : JsVal :=
  if negb (isObject value) then JObj []
  else JObj (foldl normalize_entry [] (entries value)).

(** [{ answers: [strings] }] *)
Definition is_answers (v : JsVal) : Prop :=
  exists items, v = JObj [("answers", JArr items)]
                /\ Forall (fun item => exists s, item = JStr s) items.

End UserInput.

(** * Properties *)

(** ** Event parsing *)

Section EventParsingFacts.
Import Js EventParsing.

Lemma getProp_object v k : isObject v = true -> getProp v k = Normal (field v k).
Proof. destruct v; simpl; intros H; try discriminate; reflexivity. Qed.

Lemma getOpt_total v k : getOpt v k = Normal (field v k).
Proof. destruct v; reflexivity. Qed.

Lemma is_str_true v s : is_str v s = true <-> v = JStr s.
Proof.
  destruct v; simpl; split; intros H; try discriminate.
  - apply String.eqb_eq in H. congruence.
  - injection H as ->. apply String.eqb_refl.
Qed.

Lemma is_str_false v s : is_str v s = false <-> v <> JStr s.
Proof.
  rewrite <- not_true_iff_false, is_str_true. reflexivity.
Qed.

(** The envelope search never throws: every property read is guarded. *)
Lemma bind_Normal {A B} (a : A) (k : A -> Completion B) : Normal a ≫= k = k a.
Proof. reflexivity. Qed.

(** The envelope search never throws: every property read is guarded. *)
Lemma extractEventEnvelope_spec message :
  extractEventEnvelope message = Normal (envelope_of message).
Proof.
  unfold extractEventEnvelope, envelope_of, is_envelope.
  destruct (isObject message) eqn:Hm; simpl; [| reflexivity].
  rewrite !(getProp_object message _ Hm), !bind_Normal.
  destruct (is_str (field message "type") "event"); [reflexivity |].
  destruct (isObject (field message "content")) eqn:Hc; simpl; [| reflexivity].
  rewrite (getProp_object _ "type" Hc), bind_Normal.
  destruct (is_str (field (field message "content") "type") "event"); reflexivity.
Qed.

Lemma envelope_of_object content env :
  envelope_of content = Some env -> isObject env = true.
Proof.
  unfold envelope_of, is_envelope. intros H.
  destruct (isObject content && is_str (field content "type") "event") eqn:H1.
  - injection H as <-. apply andb_true_iff in H1. tauto.
  - destruct (isObject content) eqn:H2; simpl in H; [| discriminate].
    destruct (isObject (field content "content")) eqn:H3; simpl in H; [| discriminate].
    destruct (is_str (field (field content "content") "type") "event");
      [| discriminate].
    injection H as <-. exact H3.
Qed.

Lemma eventTypeOfEnvelope_spec content :
  eventTypeOfEnvelope (envelope_of content)
  = Normal (envelope_of content ≫= data_type).
Proof.
  destruct (envelope_of content) as [env |] eqn:He; simpl; [| reflexivity].
  rewrite (getProp_object _ _ (envelope_of_object _ _ He)), bind_Normal.
  unfold data_type.
  destruct (isObject (field env "data")) eqn:Hd; simpl.
  - rewrite getOpt_total, bind_Normal. reflexivity.
  - reflexivity.
Qed.

Lemma extractMessageEventType_spec event :
  extractMessageEventType event
  = Normal (if is_str (ev_type event) "message-received"
            then envelope_of (message_content event) ≫= data_type
            else None).
Proof.
  unfold extractMessageEventType, message_content.
  destruct (is_str (ev_type event) "message-received"); simpl; [| reflexivity].
  rewrite getOpt_total, bind_Normal.
  rewrite extractEventEnvelope_spec, bind_Normal.
  apply eventTypeOfEnvelope_spec.
Qed.

Lemma extractMessageEventType_fallback_spec event :
  extractMessageEventType_fallback event
  = Normal (if is_str (ev_type event) "message-received"
            then envelope_of (nullish (message_content event) (ev_data event))
                   ≫= data_type
            else None).
Proof.
  unfold extractMessageEventType_fallback, message_content.
  destruct (is_str (ev_type event) "message-received"); simpl; [| reflexivity].
  rewrite getOpt_total, bind_Normal.
  rewrite extractEventEnvelope_spec, bind_Normal.
  apply eventTypeOfEnvelope_spec.
Qed.

Lemma data_type_Some env s :
  data_type env = Some s
  <-> isObject (field env "data") = true /\ field (field env "data") "type" = JStr s.
Proof.
  unfold data_type.
  destruct (isObject (field env "data")); split.
  - destruct (field (field env "data") "type"); intros H; try discriminate.
    injection H as ->. auto.
  - intros [_ ->]. reflexivity.
  - discriminate.
  - intros [H _]. discriminate.
Qed.

Lemma nullish_present a b : present a -> nullish a b = a.
Proof. intros [H1 H2]. destruct a; try reflexivity; congruence. Qed.

Lemma nullish_absent a b : ~ present a -> nullish a b = b.
Proof.
  unfold present. intros H.
  destruct a; try reflexivity; exfalso; apply H; split; discriminate.
Qed.

Lemma envelope_of_absent a : ~ present a -> envelope_of a = None.
Proof.
  unfold present. intros H.
  destruct a; try reflexivity; exfalso; apply H; split; discriminate.
Qed.

(** C7. [extractMessageEventType] completes normally on every event, returns
    [null] when the event is not [message-received] or when the message
    content holds no envelope (neither directly nor role-wrapped), and
    otherwise returns the envelope's [data.type] exactly when [data] is an
    object whose [type] is a string, [null] if not. *)
Theorem extractMessageEventType_total event :
  (exists r, extractMessageEventType event = Normal r)
  /\ (ev_type event <> JStr "message-received"
      -> extractMessageEventType event = Normal None)
  /\ (envelope_of (message_content event) = None
      -> extractMessageEventType event = Normal None)
  /\ (forall env,
        ev_type event = JStr "message-received"
        -> envelope_of (message_content event) = Some env
        -> (forall s, extractMessageEventType event = Normal (Some s)
                      <-> isObject (field env "data") = true
                          /\ field (field env "data") "type" = JStr s)
           /\ ((forall s, ~ (isObject (field env "data") = true
                             /\ field (field env "data") "type" = JStr s))
               -> extractMessageEventType event = Normal None)).
Proof.
  rewrite extractMessageEventType_spec.
  split; [eexists; reflexivity |].
  split; [intros H; apply is_str_false in H; rewrite H; reflexivity |].
  split; [intros ->; destruct (is_str _ _); reflexivity |].
  intros env Ht He. apply is_str_true in Ht. rewrite Ht, He. simpl.
  split.
  - intros s. rewrite <- data_type_Some. split; [congruence | intros ->; reflexivity].
  - intros Hno. destruct (data_type env) as [s |] eqn:Hd; [| reflexivity].
    apply data_type_Some in Hd. exfalso. exact (Hno s Hd).
Qed.

(** C8. The two variants of [extractMessageEventType] agree on every event
    whose message content is present; when they differ, the content is
    absent, the canonical variant returns [null] and the other one found an
    envelope in the event's top-level [data]. *)
Theorem extractMessageEventType_variants event :
  (present (message_content event)
   -> extractMessageEventType_fallback event = extractMessageEventType event)
  /\ (extractMessageEventType_fallback event <> extractMessageEventType event
      -> ~ present (message_content event)
         /\ extractMessageEventType event = Normal None
         /\ exists env s,
             envelope_of (ev_data event) = Some env
             /\ extractMessageEventType_fallback event = Normal (Some s)).
Proof.
  rewrite extractMessageEventType_spec, extractMessageEventType_fallback_spec.
  split.
  - intros Hp. rewrite (nullish_present _ _ Hp). reflexivity.
  - intros Hne.
    destruct (is_str (ev_type event) "message-received"); [| congruence].
    assert (Hnp : ~ present (message_content event)).
    { intros Hp. apply Hne. rewrite (nullish_present _ _ Hp). reflexivity. }
    rewrite (nullish_absent _ _ Hnp) in *.
    rewrite (envelope_of_absent _ Hnp) in *. simpl in *.
    split; [exact Hnp |]. split; [reflexivity |].
    destruct (envelope_of (ev_data event)) as [env |]; simpl in *; [| congruence].
    destruct (data_type env) as [s |]; [| congruence].
    exists env, s. split; reflexivity.
Qed.

(** The variants do differ on an event without message content that
    carries a top-level envelope. *)
Example variants_differ :
  let event := mkEvent (JStr "message-received") (Some "session-1") JUndefined
                 (JObj [("type", JStr "event"); ("data", JObj [("type", JStr "ready")])]) in
  extractMessageEventType event = Normal None
  /\ extractMessageEventType_fallback event = Normal (Some "ready").
Proof. split; reflexivity. Qed.

(** The role-wrapped and the direct envelope of the parser's tests. *)
Example role_wrapped_ready :
  extractMessageEventType
    (mkEvent (JStr "message-received") (Some "session-1")
       (JObj [("id", JStr "message-1"); ("seq", JNum 1); ("localId", JNull);
              ("createdAt", JNum 0);
              ("content", JObj [("role", JStr "agent");
                                ("content", JObj [("id", JStr "event-1");
                                                  ("type", JStr "event");
                                                  ("data", JObj [("type", JStr "ready")])])])])
       JUndefined)
  = Normal (Some "ready").
Proof. reflexivity. Qed.

End EventParsingFacts.

(** ** The message store *)

Section MessageFacts.
Import Js Messages.

Lemma head_filter_nil {A} (P : A -> Prop) `{!forall x, Decision (P x)} (l : list A) :
  head (filter P l) = None -> filter P l = [].
Proof. destruct (filter P l); [reflexivity | discriminate]. Qed.

Lemma filter_none {A} (P : A -> Prop) `{!forall x, Decision (P x)} (l : list A) :
  (forall x, x ∈ l -> ~ P x) -> filter P l = [].
Proof.
  induction l as [| x l IH]; intros Hnone; [reflexivity |].
  rewrite filter_cons_False by (apply Hnone; left).
  apply IH. intros y Hy. apply Hnone. right. exact Hy.
Qed.

Lemma find_by_id_fresh db uuid :
  uuid ∉ row_id <$> messages db ->
  filter (fun r => row_id r = uuid) (messages db) = [].
Proof.
  intros Hfresh. apply filter_none. intros r Hr Heq.
  apply Hfresh. rewrite <- Heq. apply list_elem_of_fmap_2. exact Hr.
Qed.

Lemma max_seq_snoc rows r :
  max_seq (rows ++ [r])
  = Some (match max_seq rows with
          | None => row_seq r
          | Some m => Z.max m (row_seq r)
          end).
Proof.
  induction rows as [| x rows IH]; [reflexivity |].
  simpl. fold (max_seq (rows ++ [r])). fold (max_seq rows). rewrite IH.
  destruct (max_seq rows); f_equal; lia.
Qed.

Lemma max_seq_nil rows : max_seq rows = None <-> rows = [].
Proof. destruct rows; simpl; split; congruence. Qed.

Lemma max_seq_bound rows x :
  max_seq rows = Some x ->
  (exists r, r ∈ rows /\ row_seq r = x) /\ (forall r, r ∈ rows -> row_seq r <= x).
Proof.
  revert x. induction rows as [| y rows IH]; intros x H; [discriminate |].
  simpl in H. fold (max_seq rows) in H.
  destruct (max_seq rows) as [m |] eqn:Hm.
  - destruct (IH m eq_refl) as [[r [Hr Hrm]] Hle].
    assert (Hx : x = Z.max (row_seq y) m) by congruence. clear H. split.
    + destruct (Z.max_spec (row_seq y) m) as [[_ Hmax] | [_ Hmax]].
      * exists r. split; [right; exact Hr | lia].
      * exists y. split; [left | lia].
    + intros r' Hr'. apply elem_of_cons in Hr' as [-> | Hr']; [lia |].
      specialize (Hle _ Hr'). lia.
  - apply max_seq_nil in Hm. subst rows.
    assert (Hx : x = row_seq y) by congruence. clear H. split.
    + exists y. split; [left | lia].
    + intros r' Hr'. apply elem_of_cons in Hr' as [-> | Hr']; [lia |].
      inversion Hr'.
Qed.

(** C10. Merging a session into itself returns
    [{moved: 0, oldMaxSeq: 0, newMaxSeq: 0}] and leaves the table as it is. *)
Theorem mergeSessionMessages_self fault db x :
  mergeSessionMessages fault db x x = (db, Normal (mkMerge 0 0 0)).
Proof.
  unfold mergeSessionMessages. rewrite String.eqb_refl. reflexivity.
Qed.

Section Insert.
Variable JSON_stringify : JsVal -> Completion (option string).
Variable safeJsonParse : string -> JsVal.
Variable as_number : Z -> Z.
Hypothesis as_number_exact : forall z, safe_integer z -> as_number z = z.

Local Abbreviation add := (addMessage JSON_stringify safeJsonParse as_number).
Local Abbreviation stored := (toStoredMessage safeJsonParse).

Lemma truthy_nonempty lid : lid <> "" -> truthy (Some lid) = true.
Proof.
  intros H. simpl. apply negb_true_iff, String.eqb_neq. exact H.
Qed.

(** [addMessage], with the row read back resolved: a replay, a failure of
    [JSON.stringify], a refused insert, or an insert. *)
Lemma addMessage_unfold now uuid db sid c localId :
  add now uuid db sid c localId
  = match (if truthy localId then find_by_local_id db sid (default "" localId) else None) with
    | Some r => (db, Normal (stored r))
    | None =>
        match JSON_stringify c with
        | Throw e => (db, Throw e)
        | Normal None => (db, Throw "SQLITE_CONSTRAINT_NOTNULL")
        | Normal (Some json) =>
            let row := mkRow uuid sid json now (as_number (getMaxSeq db sid + 1)) localId in
            if insert_allowed db row
            then (mkDb (sessions db) (messages db ++ [row]), Normal (stored row))
            else (db, Throw "SQLITE_CONSTRAINT")
        end
    end.
Proof.
  unfold addMessage.
  destruct (if truthy localId then find_by_local_id db sid (default "" localId) else None)
    as [r |]; [reflexivity |].
  destruct (JSON_stringify c) as [[json |] | e]; try reflexivity.
  cbv zeta. destruct (insert_allowed db _) eqn:Hallowed; [| reflexivity].
  apply andb_true_iff in Hallowed as [Hallowed _].
  apply andb_true_iff in Hallowed as [Hfresh _].
  apply bool_decide_eq_true in Hfresh.
  unfold find_by_id. simpl. rewrite filter_app.
  rewrite (find_by_id_fresh db uuid Hfresh). simpl.
  rewrite filter_cons_True by reflexivity. reflexivity.
Qed.

(** A row with a local id that no row of the session has yet passes the
    unique index. *)
Lemma insert_allowed_new db uuid sid json now seq lid :
  sid ∈ sessions db ->
  uuid ∉ row_id <$> messages db ->
  find_by_local_id db sid lid = None ->
  insert_allowed db (mkRow uuid sid json now seq (Some lid)) = true.
Proof.
  intros Hsess Hfresh Hfind. unfold insert_allowed. simpl.
  rewrite !bool_decide_eq_true_2; [reflexivity | | assumption | assumption].
  intros Hin. unfold local_keys in Hin.
  apply list_elem_of_omap in Hin as [r [Hr Hkey]].
  unfold local_key in Hkey. destruct (local_id r) as [l |] eqn:Hl; [| discriminate].
  simpl in Hkey. injection Hkey as Hs <-.
  unfold find_by_local_id in Hfind.
  apply head_filter_nil in Hfind.
  assert (Hin : r ∈ filter (fun r => session_id r = sid /\ local_id r = Some l)
                     (messages db)).
  { apply list_elem_of_filter. auto. }
  rewrite Hfind in Hin. inversion Hin.
Qed.

(** A replay finds the row of the first call. *)
Lemma addMessage_replay now1 uuid1 now2 uuid2 db sid c1 c2 lid db1 m :
  lid <> "" ->
  add now1 uuid1 db sid c1 (Some lid) = (db1, Normal m) ->
  add now2 uuid2 db1 sid c2 (Some lid) = (db1, Normal m).
Proof.
  intros Hlid. rewrite !addMessage_unfold.
  rewrite (truthy_nonempty _ Hlid). simpl.
  destruct (find_by_local_id db sid lid) as [row |] eqn:Hfind.
  - intros H. injection H as <- <-. rewrite Hfind. reflexivity.
  - destruct (JSON_stringify c1) as [[json |] | e]; try discriminate.
    destruct (insert_allowed db _) eqn:Hallowed; [| discriminate].
    intros H. injection H as <- <-.
    unfold find_by_local_id in *. simpl. rewrite filter_app.
    rewrite (head_filter_nil _ _ Hfind). simpl.
    rewrite filter_cons_True by (split; reflexivity). reflexivity.
Qed.

Lemma getMaxSeq_snoc db sid row :
  session_id row = sid ->
  row_seq row = getMaxSeq db sid + 1 ->
  getMaxSeq (mkDb (sessions db) (messages db ++ [row])) sid = getMaxSeq db sid + 1.
Proof.
  intros Hs Hseq. unfold getMaxSeq, session_rows in *. simpl. rewrite filter_app.
  rewrite filter_cons_True by exact Hs. simpl.
  rewrite max_seq_snoc. simpl. rewrite Hseq.
  destruct (max_seq (filter (fun r => session_id r = sid) (messages db))); simpl; lia.
Qed.

(** C6. For a non-empty local id, in a database that has the session and
    not yet the generated id, and for a content that [JSON.stringify] turns
    into a string, [addMessage] returns the stored form of a row of the
    session with that local id. When the session had no such row, the call
    inserts it, with the given content and the session's highest [seq] plus
    one, and it is then the session's only row with that local id; when it
    had one, that row is returned and nothing is inserted. A second call
    with the same [(sessionId, localId)], whatever its content, returns the
    same message and leaves the table as the first call left it: there is no
    duplicate, and the session's highest [seq] has moved once, not twice. *)
Theorem addMessage_idempotent now1 uuid1 now2 uuid2 db sid c1 c2 lid json :
  lid <> "" ->
  sid ∈ sessions db ->
  uuid1 ∉ row_id <$> messages db ->
  JSON_stringify c1 = Normal (Some json) ->
  safe_integer (getMaxSeq db sid + 1) ->
  exists db1 row,
    add now1 uuid1 db sid c1 (Some lid) = (db1, Normal (stored row))
    /\ add now2 uuid2 db1 sid c2 (Some lid) = (db1, Normal (stored row))
    /\ row ∈ messages db1 /\ session_id row = sid /\ local_id row = Some lid
    /\ find_by_local_id db1 sid lid = Some row
    /\ match find_by_local_id db sid lid with
       | Some existing => row = existing /\ db1 = db
       | None =>
           row = mkRow uuid1 sid json now1 (getMaxSeq db sid + 1) (Some lid)
           /\ db1 = mkDb (sessions db) (messages db ++ [row])
           /\ filter (fun r => session_id r = sid /\ local_id r = Some lid) (messages db1)
              = [row]
           /\ getMaxSeq db1 sid = getMaxSeq db sid + 1
       end.
Proof.
  intros Hlid Hsess Hfresh Hjson Hsafe.
  pose proof (addMessage_unfold now1 uuid1 db sid c1 (Some lid)) as Hadd.
  rewrite (truthy_nonempty _ Hlid) in Hadd. simpl in Hadd.
  destruct (find_by_local_id db sid lid) as [existing |] eqn:Hfind.
  - exists db, existing. split; [exact Hadd |].
    split; [exact (addMessage_replay _ _ now2 uuid2 _ _ _ c2 _ _ _ Hlid Hadd) |].
    pose proof Hfind as Hin. unfold find_by_local_id in Hin.
    apply head_Some_elem_of, list_elem_of_filter in Hin as [[Hs Hl] Hin].
    repeat split; assumption.
  - rewrite Hjson, (as_number_exact _ Hsafe) in Hadd.
    rewrite (insert_allowed_new db uuid1 sid json now1 _ lid Hsess Hfresh Hfind) in Hadd.
    set (row := mkRow uuid1 sid json now1 (getMaxSeq db sid + 1) (Some lid)) in *.
    assert (Hfilter : filter (fun r => session_id r = sid /\ local_id r = Some lid)
                        (messages db ++ [row]) = [row]).
    { rewrite filter_app. unfold find_by_local_id in Hfind.
      rewrite (head_filter_nil _ _ Hfind). simpl.
      rewrite filter_cons_True by (split; reflexivity). reflexivity. }
    exists (mkDb (sessions db) (messages db ++ [row])), row.
    split; [exact Hadd |].
    split; [exact (addMessage_replay _ _ now2 uuid2 _ _ _ c2 _ _ _ Hlid Hadd) |].
    split; [simpl; apply elem_of_app; right; left |].
    split; [reflexivity |]. split; [reflexivity |].
    split; [unfold find_by_local_id; simpl; rewrite Hfilter; reflexivity |].
    split; [reflexivity |]. split; [reflexivity |]. split; [exact Hfilter |].
    apply getMaxSeq_snoc; reflexivity.
Qed.
End Insert.

(** *** Merging *)

Lemma with_seq_same r : with_seq r (row_seq r) = r.
Proof. destruct r; reflexivity. Qed.

Lemma session_rows_elem db sid r :
  r ∈ session_rows db sid <-> session_id r = sid /\ r ∈ messages db.
Proof. unfold session_rows. rewrite list_elem_of_filter. reflexivity. Qed.

Lemma local_ids_elem db sid l :
  l ∈ local_ids db sid
  <-> exists r, r ∈ messages db /\ session_id r = sid /\ local_id r = Some l.
Proof.
  unfold local_ids. rewrite list_elem_of_omap. split.
  - intros [r [Hr Hl]]. apply session_rows_elem in Hr as [Hs Hin]. eauto.
  - intros [r (Hin & Hs & Hl)]. exists r. split; [| exact Hl].
    apply session_rows_elem. auto.
Qed.

(** An update that keeps session and local id keeps what the collision query
    reads. *)
Lemma local_ids_update (f : DbMessageRow -> DbMessageRow) db sid :
  (forall r, session_id (f r) = session_id r /\ local_id (f r) = local_id r) ->
  local_ids (mkDb (sessions db) (f <$> messages db)) sid = local_ids db sid.
Proof.
  intros Hf. unfold local_ids, session_rows. simpl.
  induction (messages db) as [| r l IH]; [reflexivity |].
  destruct (Hf r) as [Hs Hl]. rewrite fmap_cons.
  destruct (decide (session_id r = sid)) as [Heq | Hne].
  - rewrite !filter_cons_True by congruence. csimpl. rewrite Hl, IH. reflexivity.
  - rewrite !filter_cons_False by congruence. exact IH.
Qed.

Lemma session_rows_update_length (f : DbMessageRow -> DbMessageRow) db sid :
  (forall r, session_id (f r) = session_id r) ->
  length (session_rows (mkDb (sessions db) (f <$> messages db)) sid)
  = length (session_rows db sid).
Proof.
  intros Hf. unfold session_rows. simpl.
  induction (messages db) as [| r l IH]; [reflexivity |].
  rewrite fmap_cons.
  destruct (decide (session_id r = sid)) as [Heq | Hne].
  - rewrite !filter_cons_True by (rewrite ?Hf; congruence). simpl. rewrite IH. reflexivity.
  - rewrite !filter_cons_False by (rewrite ?Hf; congruence). exact IH.
Qed.

Lemma fmap_ext_elem {A B} (f g : A -> B) (l : list A) :
  (forall x, x ∈ l -> f x = g x) -> f <$> l = g <$> l.
Proof.
  induction l as [| x l IH]; intros Hfg; [reflexivity |].
  rewrite !fmap_cons. f_equal; [apply Hfg; left | apply IH].
  intros y Hy. apply Hfg. right. exact Hy.
Qed.

Lemma getMaxSeq_gap_free db sid n :
  0 <= n -> gap_free db sid n -> getMaxSeq db sid = n.
Proof.
  unfold gap_free, getMaxSeq. intros Hn Hgap.
  destruct (max_seq (session_rows db sid)) as [x |] eqn:Hmax; simpl.
  - destruct (max_seq_bound _ _ Hmax) as [[r [Hr Hx]] Hle].
    assert (Hin : x ∈ seqZ 1 n).
    { rewrite <- Hgap, <- Hx. apply list_elem_of_fmap_2. exact Hr. }
    apply elem_of_seqZ in Hin.
    assert (Hn' : n ∈ row_seq <$> session_rows db sid).
    { rewrite Hgap. apply elem_of_seqZ. lia. }
    apply list_elem_of_fmap in Hn' as [r' [-> Hr']].
    specialize (Hle _ Hr'). lia.
  - apply max_seq_nil in Hmax. rewrite Hmax in Hgap. simpl in Hgap.
    symmetry in Hgap. apply Permutation_nil_r in Hgap.
    destruct (decide (n = 0)) as [-> | Hne]; [reflexivity |].
    assert (Hin : 1 ∈ seqZ 1 n) by (apply elem_of_seqZ; lia).
    rewrite Hgap in Hin. inversion Hin.
Qed.

Lemma gap_free_length db sid n :
  0 <= n -> gap_free db sid n -> Z.of_nat (length (session_rows db sid)) = n.
Proof.
  unfold gap_free. intros Hn Hgap.
  apply Permutation_length in Hgap.
  rewrite length_fmap, length_seqZ in Hgap. lia.
Qed.

Lemma gap_free_empty db sid : gap_free db sid 0 -> session_rows db sid = [].
Proof.
  unfold gap_free. intros Hgap. simpl in Hgap.
  apply Permutation_nil_r in Hgap. apply fmap_nil_inv in Hgap. exact Hgap.
Qed.

(** The shift is skipped only where it would change nothing. *)
Lemma shift_seq_skipped db B m n :
  0 <= m -> 0 <= n -> gap_free db B n ->
  (0 <? n) && (0 <? m) = false -> shift_seq db B m = db.
Proof.
  intros Hm Hn Hgap Hcond. unfold shift_seq. destruct db as [ss ms]. simpl. f_equal.
  rewrite <- (list_fmap_id ms) at 2. apply fmap_ext_elem. intros r Hr.
  destruct (decide (session_id r = B)) as [Heq | Hne]; [| reflexivity].
  apply andb_false_iff in Hcond as [Hz | Hz]; apply Z.ltb_ge in Hz.
  - assert (n = 0) as -> by lia. apply gap_free_empty in Hgap.
    assert (Hin : r ∈ session_rows (mkDb ss ms) B) by (apply session_rows_elem; auto).
    rewrite Hgap in Hin. inversion Hin.
  - assert (m = 0) as -> by lia. rewrite Z.add_0_r. apply with_seq_same.
Qed.

Lemma clear_local_ids_nil db A : clear_local_ids db A [] = db.
Proof.
  unfold clear_local_ids. destruct db as [ss ms]. simpl. f_equal.
  rewrite <- (list_fmap_id ms) at 2. apply fmap_ext_elem. intros r _.
  destruct (decide _) as [[_ Hin] | _]; [| reflexivity].
  unfold local_id_in in Hin. destruct (local_id r); [inversion Hin | contradiction].
Qed.

Lemma colliding_local_ids_elem db toId fromId l :
  l ∈ colliding_local_ids db toId fromId
  <-> l ∈ local_ids db toId /\ l ∈ local_ids db fromId.
Proof.
  unfold colliding_local_ids.
  rewrite elem_of_remove_dups, list_elem_of_intersection. reflexivity.
Qed.

(** A key function that only merges keys already equal keeps the keys
    distinct. *)
Lemma NoDup_omap_refine {A K} (f g : A -> option K) (l : list A) :
  (forall x y k, x ∈ l -> y ∈ l -> g x = Some k -> g y = Some k ->
                 exists k', f x = Some k' /\ f y = Some k') ->
  NoDup (omap f l) -> NoDup (omap g l).
Proof.
  induction l as [| x l IH]; intros Hfg Hnd; [constructor |].
  assert (Htail : NoDup (omap g l)).
  { apply IH.
    - intros a b k Ha Hb. apply Hfg; right; assumption.
    - csimpl in Hnd. destruct (f x); [apply NoDup_cons in Hnd; tauto | exact Hnd]. }
  csimpl. destruct (g x) as [k |] eqn:Hgx; [| exact Htail].
  apply NoDup_cons. split; [| exact Htail].
  intros Hin. apply list_elem_of_omap in Hin as [y [Hy Hgy]].
  destruct (Hfg x y k) as [k' [Hfx Hfy]]; [left | right; exact Hy | exact Hgx | exact Hgy |].
  csimpl in Hnd. rewrite Hfx in Hnd. apply NoDup_cons in Hnd as [Hnotin _].
  apply Hnotin. apply list_elem_of_omap. exists y. auto.
Qed.

Lemma omap_fmap_compose {A B C} (f : A -> B) (g : B -> option C) (l : list A) :
  omap g (f <$> l) = omap (fun x => g (f x)) l.
Proof.
  induction l as [| x l IH]; [reflexivity |].
  rewrite fmap_cons. csimpl. rewrite IH. reflexivity.
Qed.

Lemma merged_row_session db A B m r :
  A <> B -> session_id (merged_row db A B m r) <> A.
Proof.
  intros Hne. unfold merged_row.
  repeat (destruct (decide _)); simpl; congruence.
Qed.

(** The unique index survives the merge. *)
Lemma merged_unique db A B m :
  A <> B ->
  NoDup (local_keys (messages db)) ->
  NoDup (local_keys (messages (merged db A B m))).
Proof.
  intros Hne. unfold local_keys, merged. simpl. rewrite omap_fmap_compose.
  apply NoDup_omap_refine. intros x y k Hx Hy.
  unfold merged_row, local_key.
  destruct (decide (session_id x = B)) as [HxB | HxB];
    [| destruct (decide (session_id x = A)) as [HxA | HxA];
       [destruct (decide (collides db B x)) as [Hcx | Hcx] |]];
    (destruct (decide (session_id y = B)) as [HyB | HyB];
     [| destruct (decide (session_id y = A)) as [HyA | HyA];
        [destruct (decide (collides db B y)) as [Hcy | Hcy] |]]);
    simpl;
    destruct (local_id x) as [lx |] eqn:Hlx; simpl; try discriminate;
    destruct (local_id y) as [ly |] eqn:Hly; simpl; try discriminate;
    intros Hkx Hky;
    try congruence;
    try (eexists; split; [reflexivity | congruence]).
  - exfalso. apply Hcy. unfold collides. rewrite Hly.
    apply local_ids_elem. exists x. repeat split; [exact Hx | exact HxB | congruence].
  - exfalso. apply Hcx. unfold collides. rewrite Hlx.
    apply local_ids_elem. exists y. repeat split; [exact Hy | exact HyB | congruence].
Qed.

(** The three updates of the transaction, composed, are [merged]. *)
Lemma merge_pipeline db A B m :
  A <> B ->
  let db1 := shift_seq db B m in
  let db2 := clear_local_ids db1 A (colliding_local_ids db1 B A) in
  (fun r => if decide (session_id r = A) then with_session r B else r) <$> messages db2
  = messages (merged db A B m).
Proof.
  intros Hne db1 db2. unfold db2, clear_local_ids, db1, shift_seq, merged. simpl.
  rewrite <- !list_fmap_compose. apply fmap_ext_elem. intros r Hr. simpl.
  set (ids := colliding_local_ids _ B A).
  assert (Hiff : session_id r = A -> local_id_in r ids <-> collides db B r).
  { intros HA. unfold local_id_in, collides, ids.
    destruct (local_id r) as [l |] eqn:Hl; [| tauto].
    rewrite colliding_local_ids_elem.
    rewrite !local_ids_update
      by (intros r0; destruct (decide (session_id r0 = B)); split; reflexivity).
    split; [tauto |]. intros H. split; [exact H |].
    apply local_ids_elem. exists r. auto. }
  clearbody ids. unfold merged_row.
  destruct (decide (session_id r = B)) as [HB | HB].
  - destruct (decide (_ /\ _)) as [[H1 _] | _]; simpl in *; [congruence |].
    destruct (decide (_ = A)); simpl in *; [congruence | reflexivity].
  - destruct (decide (session_id r = A)) as [HA | HA].
    + destruct (decide (_ /\ _)) as [[_ H1] | H1];
        destruct (decide (collides db B r)) as [Hc | Hc];
        try (exfalso; tauto);
        rewrite decide_True by (simpl; exact HA); reflexivity.
    + destruct (decide (_ /\ _)) as [[H1 _] | _]; [congruence |].
      rewrite decide_False by exact HA. reflexivity.
Qed.

(** The seq values of the target after the merge: those of the moved rows,
    and the target's own moved up. *)
Lemma merged_seqs db A B m (l : list DbMessageRow) :
  A <> B ->
  row_seq <$> filter (fun r => session_id r = B) (merged_row db A B m <$> l)
  ≡ₚ (row_seq <$> filter (fun r => session_id r = A) l)
     ++ (Z.add m <$> (row_seq <$> filter (fun r => session_id r = B) l)).
Proof.
  intros Hne. induction l as [| r l IH]; [reflexivity |].
  rewrite fmap_cons. unfold merged_row at 1.
  destruct (decide (session_id r = B)) as [HB | HB].
  - rewrite (filter_cons_True _ (with_seq _ _)) by (simpl; exact HB).
    rewrite (filter_cons_False (fun r => session_id r = A)) by congruence.
    rewrite (filter_cons_True (fun r => session_id r = B) r) by exact HB.
    rewrite !fmap_cons. simpl. rewrite IH.
    rewrite Z.add_comm. apply Permutation_middle.
  - destruct (decide (session_id r = A)) as [HA | HA].
    + rewrite (filter_cons_True _ (with_session _ _)) by reflexivity.
      rewrite (filter_cons_True (fun r => session_id r = A) r) by exact HA.
      rewrite (filter_cons_False (fun r => session_id r = B) r) by exact HB.
      rewrite !fmap_cons. simpl. rewrite IH.
      destruct (decide (collides db B r)); reflexivity.
    + rewrite !filter_cons_False by assumption. exact IH.
Qed.

Lemma merged_gap_free db A B m n :
  A <> B -> 0 <= m -> 0 <= n ->
  gap_free db A m -> gap_free db B n ->
  gap_free (merged db A B m) B (m + n).
Proof.
  unfold gap_free, session_rows. intros Hne Hm Hn HA HB. simpl.
  rewrite merged_seqs by exact Hne.
  rewrite HA, HB, fmap_add_seqZ, seqZ_app by lia.
  rewrite (Z.add_comm 1 m). reflexivity.
Qed.

(** Without faults, and on a table the constraints hold for, the transaction
    commits the merged table. *)
Lemma mergeTransaction_commits fault db A B m n :
  (forall st, fault st = false) ->
  A <> B -> 0 <= m -> 0 <= n ->
  gap_free db A m -> gap_free db B n ->
  B ∈ sessions db ->
  NoDup (local_keys (messages db)) ->
  mergeTransaction fault db A B m n = Normal (merged db A B m, mkMerge m m n).
Proof.
  intros Hfault Hne Hm Hn HA HB Hsess Hnd.
  unfold mergeTransaction, exec. rewrite !Hfault, bind_Normal.
  assert (H1 : (if (0 <? n) && (0 <? m) then Normal (shift_seq db B m) else Normal db)
               = Normal (shift_seq db B m)).
  { destruct ((0 <? n) && (0 <? m)) eqn:Hcond; [reflexivity |].
    rewrite (shift_seq_skipped db B m n) by assumption. reflexivity. }
  rewrite H1, !bind_Normal. clear H1.
  set (db1 := shift_seq db B m).
  set (ids := colliding_local_ids db1 B A).
  assert (H2 : (if bool_decide (0 < length ids)%nat
                then Normal (clear_local_ids db1 A ids) else Normal db1)
               = Normal (clear_local_ids db1 A ids)).
  { case_bool_decide as Hlen; [reflexivity |].
    destruct ids; [rewrite clear_local_ids_nil; reflexivity | simpl in Hlen; lia]. }
  rewrite H2, bind_Normal. clear H2.
  unfold move_rows. subst ids db1. rewrite (merge_pipeline db A B m Hne).
  assert (Hchanges :
    Z.of_nat (length (session_rows
                        (clear_local_ids (shift_seq db B m) A
                           (colliding_local_ids (shift_seq db B m) B A)) A)) = m).
  { unfold clear_local_ids, shift_seq.
    rewrite session_rows_update_length
      by (intros r; destruct (decide _); reflexivity).
    simpl.
    rewrite (session_rows_update_length _ db)
      by (intros r; destruct (decide _); reflexivity).
    apply gap_free_length; assumption. }
  rewrite Hchanges.
  rewrite bool_decide_eq_true_2 by (intros _; exact Hsess).
  rewrite bool_decide_eq_true_2 by (apply (merged_unique db A B m Hne Hnd)).
  reflexivity.
Qed.

(** A statement that fails aborts the transaction; nothing else differs from
    the run without faults. *)
Lemma mergeTransaction_fault fault db A B om nm :
  (exists e, mergeTransaction fault db A B om nm = Throw e)
  \/ mergeTransaction fault db A B om nm
     = mergeTransaction (fun _ => false) db A B om nm.
Proof.
  unfold mergeTransaction, exec.
  destruct (fault StBegin); [left; eexists; reflexivity |].
  rewrite !bind_Normal.
  destruct ((0 <? nm) && (0 <? om));
    [destruct (fault StShiftSeq); [left; eexists; reflexivity |] |];
    rewrite !bind_Normal;
    (destruct (fault StCollisions); [left; eexists; reflexivity |]);
    rewrite !bind_Normal;
    (destruct (bool_decide _);
     [destruct (fault StClearLocalIds); [left; eexists; reflexivity |] |]);
    rewrite !bind_Normal;
    (destruct (fault StMoveRows); [left; eexists; reflexivity |]);
    (destruct (move_rows _ A B) as [[db3 changes] | e]; [| left; eexists; reflexivity]);
    rewrite !bind_Normal;
    (destruct (fault StCommit); [left; eexists; reflexivity | right; reflexivity]).
Qed.

(** Whatever fails, the table of a failed merge is the table before it. *)
Lemma mergeSessionMessages_rollback fault db A B db' e :
  mergeSessionMessages fault db A B = (db', Throw e) -> db' = db.
Proof.
  unfold mergeSessionMessages.
  destruct (String.eqb A B); [intros H; injection H as <-; reflexivity |].
  destruct (mergeTransaction fault db A B (getMaxSeq db A) (getMaxSeq db B))
    as [[db3 r] | msg]; intros H; [discriminate | congruence].
Qed.

(** A merge into a session that does not exist fails on the foreign key of
    the last update, after the shift and the clearing of local ids have run;
    the table is as before. *)
Example merge_rolls_back :
  mergeSessionMessages (fun _ => false) sampleDb "A" "C"
  = (sampleDb, Throw "SQLITE_CONSTRAINT").
Proof. vm_compute. reflexivity. Qed.

(** An induced failure of [COMMIT] undoes the three updates. *)
Example merge_commit_fails :
  mergeSessionMessages
    (fun st => match st with StCommit => true | _ => false end) sampleDb "A" "B"
  = (sampleDb, Throw "SQLITE_ERROR").
Proof. vm_compute. reflexivity. Qed.

(** C1 (amended). For distinct sessions [A] and [B] with gap-free seq values
    [1..m] and [1..n], on a table that satisfies its constraints,
    [mergeSessionMessages A B] leaves the moved messages of [A] at their seq
    values [1..m], now under [B], and moves the target's own messages up to
    [m+1..m+n]; a moved message loses its local id when [B] already uses it;
    and the call is all-or-nothing: whatever statement fails, the table is
    either the merged one or the one before the call. *)
Theorem mergeSessionMessages_renumbers fault db A B m n :
  A <> B -> 0 <= m -> 0 <= n ->
  gap_free db A m -> gap_free db B n ->
  B ∈ sessions db ->
  NoDup (local_keys (messages db)) ->
  ((forall st, fault st = false) ->
   mergeSessionMessages fault db A B = (merged db A B m, Normal (mkMerge m m n)))
  /\ (mergeSessionMessages fault db A B = (merged db A B m, Normal (mkMerge m m n))
      \/ exists e, mergeSessionMessages fault db A B = (db, Throw e))
  /\ gap_free (merged db A B m) B (m + n)
  /\ session_rows (merged db A B m) A = []
  /\ (forall r, r ∈ messages db -> session_id r = A ->
        merged_row db A B m r ∈ messages (merged db A B m)
        /\ session_id (merged_row db A B m r) = B
        /\ row_seq (merged_row db A B m r) = row_seq r
        /\ 1 <= row_seq r <= m
        /\ local_id (merged_row db A B m r)
           = if decide (collides db B r) then None else local_id r)
  /\ (forall r, r ∈ messages db -> session_id r = B ->
        merged_row db A B m r ∈ messages (merged db A B m)
        /\ session_id (merged_row db A B m r) = B
        /\ row_seq (merged_row db A B m r) = row_seq r + m
        /\ m + 1 <= row_seq r + m <= m + n
        /\ local_id (merged_row db A B m r) = local_id r).
Proof.
  intros Hne Hm Hn HA HB Hsess Hnd.
  assert (Hrun : forall f, (forall st, f st = false) ->
            mergeSessionMessages f db A B = (merged db A B m, Normal (mkMerge m m n))).
  { intros f Hf. unfold mergeSessionMessages.
    rewrite (proj2 (String.eqb_neq A B) Hne).
    rewrite (getMaxSeq_gap_free db A m Hm HA), (getMaxSeq_gap_free db B n Hn HB).
    rewrite (mergeTransaction_commits f db A B m n); auto. }
  split; [apply Hrun |].
  split.
  { pose proof (Hrun (fun _ => false) (fun _ => eq_refl)) as Hok.
    unfold mergeSessionMessages in *.
    rewrite (proj2 (String.eqb_neq A B) Hne) in *.
    destruct (mergeTransaction_fault fault db A B (getMaxSeq db A) (getMaxSeq db B))
      as [[e He] | Heq].
    - right. exists e. rewrite He. reflexivity.
    - left. rewrite Heq. exact Hok. }
  split; [apply merged_gap_free; assumption |].
  split.
  { apply filter_none. intros r Hr. simpl in Hr.
    apply list_elem_of_fmap in Hr as [r0 [-> _]].
    apply merged_row_session. exact Hne. }
  split.
  - intros r Hr Hs.
    assert (Hseq : row_seq r ∈ seqZ 1 m).
    { unfold gap_free in HA. rewrite <- HA. apply list_elem_of_fmap_2.
      apply session_rows_elem. auto. }
    apply elem_of_seqZ in Hseq.
    split; [apply list_elem_of_fmap_2; exact Hr |].
    unfold merged_row. rewrite decide_False by congruence.
    rewrite decide_True by exact Hs.
    destruct (decide (collides db B r)); simpl; repeat split; lia.
  - intros r Hr Hs.
    assert (Hseq : row_seq r ∈ seqZ 1 n).
    { unfold gap_free in HB. rewrite <- HB. apply list_elem_of_fmap_2.
      apply session_rows_elem. auto. }
    apply elem_of_seqZ in Hseq.
    split; [apply list_elem_of_fmap_2; exact Hr |].
    unfold merged_row. rewrite decide_True by exact Hs.
    simpl. repeat split; first [exact Hs | lia].
Qed.

(** C1, as stated, fails: with two messages in [A] and three in [B], the
    merge of [A] into [B] leaves [A]'s messages at seq 1 and 2 and moves [B]'s
    own from 1, 2, 3 to 3, 4, 5, where the statement has [B]'s unchanged and
    [A]'s at 4 and 5. *)
Lemma mergeSessionMessages_target_moves :
  gap_free
    (mkDb ["A"; "B"]
       [mkRow "a1" "A" "{}" 10 1 None; mkRow "a2" "A" "{}" 11 2 None;
        mkRow "b1" "B" "{}" 20 1 None; mkRow "b2" "B" "{}" 21 2 None;
        mkRow "b3" "B" "{}" 22 3 None]) "A" 2
  /\ gap_free
       (mkDb ["A"; "B"]
          [mkRow "a1" "A" "{}" 10 1 None; mkRow "a2" "A" "{}" 11 2 None;
           mkRow "b1" "B" "{}" 20 1 None; mkRow "b2" "B" "{}" 21 2 None;
           mkRow "b3" "B" "{}" 22 3 None]) "B" 3
  /\ mergeSessionMessages (fun _ => false)
       (mkDb ["A"; "B"]
          [mkRow "a1" "A" "{}" 10 1 None; mkRow "a2" "A" "{}" 11 2 None;
           mkRow "b1" "B" "{}" 20 1 None; mkRow "b2" "B" "{}" 21 2 None;
           mkRow "b3" "B" "{}" 22 3 None]) "A" "B"
     = (mkDb ["A"; "B"]
          [mkRow "a1" "B" "{}" 10 1 None; mkRow "a2" "B" "{}" 11 2 None;
           mkRow "b1" "B" "{}" 20 3 None; mkRow "b2" "B" "{}" 21 4 None;
           mkRow "b3" "B" "{}" 22 5 None],
        Normal (mkMerge 2 2 3)).
Proof.
  split; [| split].
  - unfold gap_free. vm_compute. reflexivity.
  - unfold gap_free. vm_compute. reflexivity.
  - vm_compute. reflexivity.
Qed.

End MessageFacts.

(** ** The schema gate *)

Section SchemaFacts.
Import Js Schema.

Lemma contains_app_r sub a b : contains sub b = true -> contains sub (a +:+ b) = true.
Proof.
  intros H. induction a as [| c a IH]; [exact H |].
  simpl. rewrite IH. apply orb_true_r.
Qed.

Lemma REMEDIATION_names : names_remediation REMEDIATION = true.
Proof. reflexivity. Qed.

Lemma names_remediation_app a b :
  names_remediation b = true -> names_remediation (a +:+ b) = true.
Proof.
  unfold names_remediation. intros H. apply andb_true_iff in H as [H1 H2].
  rewrite !contains_app_r by assumption. reflexivity.
Qed.

Lemma buildSchemaMismatchError_names dbPath v :
  names_remediation (buildSchemaMismatchError dbPath v) = true.
Proof.
  unfold buildSchemaMismatchError.
  repeat apply names_remediation_app. apply REMEDIATION_names.
Qed.

Lemma missing_tables_nil db :
  missing_tables db = [] <-> all_required_present db = true.
Proof.
  unfold missing_tables, all_required_present, REQUIRED_TABLES. simpl.
  destruct (has_table db "sessions"), (has_table db "machines"),
    (has_table db "messages"), (has_table db "users"),
    (has_table db "push_subscriptions"); simpl; split; congruence.
Qed.

Lemma all_required_present_spec db :
  all_required_present db = true
  <-> forall t, t ∈ REQUIRED_TABLES -> has_table db t = true.
Proof.
  unfold all_required_present. rewrite forallb_forall.
  split; intros H t Ht; apply H; apply list_elem_of_In; exact Ht.
Qed.

Lemma assertRequiredTablesPresent_spec db :
  (all_required_present db = true /\ assertRequiredTablesPresent db = Normal tt)
  \/ (all_required_present db = false
      /\ exists msg, assertRequiredTablesPresent db = Throw msg
                     /\ names_remediation msg = true).
Proof.
  unfold assertRequiredTablesPresent.
  destruct (missing_tables db) as [| t rest] eqn:Hmissing.
  - left. split; [apply missing_tables_nil; exact Hmissing | reflexivity].
  - right. split.
    + apply not_true_iff_false. intros H. apply missing_tables_nil in H. congruence.
    + rewrite bool_decide_eq_true_2 by (simpl; lia).
      eexists. split; [reflexivity |].
      repeat apply names_remediation_app. apply REMEDIATION_names.
Qed.

Lemma initSchema_versioned dbPath db :
  user_version db <> 0 ->
  initSchema dbPath db
  = (db, if user_version db =? SCHEMA_VERSION
         then assertRequiredTablesPresent db
         else Throw (buildSchemaMismatchError dbPath (user_version db))).
Proof.
  intros H0. unfold initSchema, getUserVersion.
  rewrite (proj2 (Z.eqb_neq _ _) H0).
  destruct (user_version db =? SCHEMA_VERSION); reflexivity.
Qed.

(** The gate on a database that carries a version: [initSchema] throws an
    error that names the offline remediation whenever the stored schema
    version is neither zero nor the expected one, and whenever it is the
    expected one and a required table is missing; it goes on only for the
    expected version with every required table present; and it never
    changes such a database. *)
Lemma initSchema_gate dbPath db :
  (user_version db <> 0 -> user_version db <> SCHEMA_VERSION ->
   exists msg, initSchema dbPath db = (db, Throw msg) /\ names_remediation msg = true)
  /\ (user_version db = SCHEMA_VERSION ->
      (exists t, t ∈ REQUIRED_TABLES /\ has_table db t = false) ->
      exists msg, initSchema dbPath db = (db, Throw msg) /\ names_remediation msg = true)
  /\ (forall db', user_version db <> 0 -> initSchema dbPath db = (db', Normal tt) ->
      db' = db /\ user_version db = SCHEMA_VERSION
      /\ forall t, t ∈ REQUIRED_TABLES -> has_table db t = true).
Proof.
  split; [| split].
  - intros H0 H1. rewrite (initSchema_versioned dbPath db H0).
    rewrite (proj2 (Z.eqb_neq _ _) H1).
    eexists. split; [reflexivity | apply buildSchemaMismatchError_names].
  - intros Hv [t [Ht Hmiss]].
    rewrite (initSchema_versioned dbPath db) by (rewrite Hv; discriminate).
    rewrite Hv. simpl.
    destruct (assertRequiredTablesPresent_spec db) as [[Hall _] | [_ [msg [-> Hmsg]]]].
    + rewrite all_required_present_spec in Hall. rewrite (Hall t Ht) in Hmiss.
      discriminate.
    + exists msg. split; [reflexivity | exact Hmsg].
  - intros db' H0. rewrite (initSchema_versioned dbPath db H0).
    destruct (user_version db =? SCHEMA_VERSION) eqn:Hv; [| discriminate].
    apply Z.eqb_eq in Hv.
    destruct (assertRequiredTablesPresent_spec db) as [[Hall ->] | [_ [msg [-> _]]]];
      [| discriminate].
    intros Heq. split; [congruence |].
    split; [exact Hv | apply all_required_present_spec; exact Hall].
Qed.

(** C9. The code at the input where it misses the claim: a database at
    version zero that holds one table of its own and none of the required
    tables. [initSchema] stamps it with the expected version and goes on,
    without a look at the required tables, so the store runs on a database
    that has none of them; the same database, once stamped, is refused by
    the branch for the expected version, with the error that names the
    remediation. *)
Theorem initSchema_adopts_unchecked :
  initSchema "hapi.db" (mkSqlite 0 [table_entry "notes" ["id"]])
  = (mkSqlite SCHEMA_VERSION [table_entry "notes" ["id"]], Normal tt)
  /\ missing_tables (mkSqlite SCHEMA_VERSION [table_entry "notes" ["id"]])
     = REQUIRED_TABLES
  /\ initSchema "hapi.db" (mkSqlite SCHEMA_VERSION [table_entry "notes" ["id"]])
     = (mkSqlite SCHEMA_VERSION [table_entry "notes" ["id"]],
        Throw ("SQLite schema is missing required tables "
               +:+ "(sessions, machines, messages, users, push_subscriptions). "
               +:+ REMEDIATION))
  /\ names_remediation
       ("SQLite schema is missing required tables "
        +:+ "(sessions, machines, messages, users, push_subscriptions). "
        +:+ REMEDIATION) = true.
Proof. repeat split; reflexivity. Qed.

(** A new database: the schema and the stamp. *)
Example initSchema_new_database :
  initSchema ":memory:" (mkSqlite 0 []) = (mkSqlite 1 SCHEMA_OBJECTS, Normal tt).
Proof. reflexivity. Qed.

(** A database at version zero whose tables include only some of the
    required ones is stamped as it is, too. *)
Example initSchema_adopts_partial :
  initSchema ":memory:" (mkSqlite 0 [table_entry "sessions" ["id"]])
  = (mkSqlite 1 [table_entry "sessions" ["id"]], Normal tt).
Proof. reflexivity. Qed.

(** The two errors, as thrown. *)
Example initSchema_version_mismatch :
  snd (initSchema "/data/hapi.db" (mkSqlite 2 [table_entry "sessions" ["id"]]))
  = Throw ("SQLite schema version mismatch for /data/hapi.db. Expected 1, found 2. "
           +:+ "This build does not run compatibility migrations. "
           +:+ "Back up and rebuild the database, or run an offline migration to the expected schema version.").
Proof. reflexivity. Qed.

Example initSchema_missing_tables :
  snd (initSchema ":memory:"
         (mkSqlite 1 [table_entry "sessions" ["id"]; table_entry "machines" ["id"];
                      table_entry "messages" ["id"]]))
  = Throw ("SQLite schema is missing required tables (users, push_subscriptions). "
           +:+ "Back up and rebuild the database, or run an offline migration to the expected schema version.").
Proof. reflexivity. Qed.

End SchemaFacts.

(** ** The notification hub *)

Section HubFacts.
Import Js EventParsing Hub.

Variable cfg : Config.

Lemma list_filter_False {A} (P : A -> Prop) `{!forall x, Decision (P x)} (l : list A) :
  Forall (fun x => ~ P x) l -> filter P l = [].
Proof.
  induction 1 as [| x l Hx _ IH]; [reflexivity |].
  rewrite filter_cons_False by exact Hx. exact IH.
Qed.

Lemma list_filter_True {A} (P : A -> Prop) `{!forall x, Decision (P x)} (l : list A) :
  Forall P l -> filter P l = l.
Proof.
  induction 1 as [| x l Hx _ IH]; [reflexivity |].
  rewrite filter_cons_True by exact Hx. rewrite IH. reflexivity.
Qed.

Lemma NoDup_fmap_sublist {A B} (f : A -> B) (l1 l2 : list A) :
  l1 `sublist_of` l2 -> NoDup (f <$> l2) -> NoDup (f <$> l1).
Proof.
  intros Hsub Hnd. eapply sublist_NoDup; [exact Hnd |].
  apply fmap_sublist. exact Hsub.
Qed.

Lemma NoDup_fmap_eq {A B} (f : A -> B) (l : list A) x y :
  NoDup (f <$> l) -> x ∈ l -> y ∈ l -> f x = f y -> x = y.
Proof.
  induction l as [| a l IH]; intros Hnd Hx Hy Hf; [inversion Hx |].
  rewrite fmap_cons in Hnd. apply NoDup_cons in Hnd as [Hnotin Hnd].
  apply elem_of_cons in Hx as [-> | Hx]; apply elem_of_cons in Hy as [-> | Hy].
  - reflexivity.
  - exfalso. apply Hnotin. rewrite Hf. apply list_elem_of_fmap_2. exact Hy.
  - exfalso. apply Hnotin. rewrite <- Hf. apply list_elem_of_fmap_2. exact Hx.
  - apply IH; assumption.
Qed.

(** *** Channel dispatch *)

Lemma once_per_channel_S m session i n :
  once_per_channel m session i (S n)
  = mkCall m i session :: once_per_channel m session (S i) n.
Proof. reflexivity. Qed.

Lemma once_per_channel_app m session i n k :
  once_per_channel m session i (n + k)
  = once_per_channel m session i n ++ once_per_channel m session (i + n) k.
Proof.
  unfold once_per_channel. rewrite seq_app, fmap_app. reflexivity.
Qed.

Lemma thrown_le m session chs : (thrown m session chs <= length chs)%nat.
Proof.
  induction chs as [| ch chs IH]; simpl; [lia |].
  destruct (throws ch m session); lia.
Qed.

(** One turn of a notification loop: the channels it reaches are invoked in
    order, each that threw is logged, and the loop waits at the first that
    returned a promise. *)
Lemma notify_loop_spec m id session chs : forall i w,
  let w' := notify_loop m id i chs session w in
  calls w' = calls w ++ once_per_channel m session i (reached m session chs)
  /\ console w' = console w ++ replicate (thrown m session chs) (failure_message m)
  /\ inflight w'
     = inflight w ++ (if decide (thrown m session chs < length chs)%nat
                      then [mkFlight id m session (i + thrown m session chs)]
                      else [])
  /\ engine w' = engine w /\ hub w' = hub w /\ clock w' = clock w
  /\ timers w' = timers w /\ next_timer w' = next_timer w
  /\ next_flight w' = next_flight w.
Proof.
  unfold reached.
  induction chs as [| ch chs IH]; intros i w; cbn [notify_loop thrown length].
  - simpl. rewrite !app_nil_r. repeat split.
  - destruct (throws ch m session) eqn:Hthrows.
    + destruct (IH (S i) (add_error (failure_message m) (add_call (mkCall m i session) w)))
        as (Hc & Ho & Hf & He & Hh & Hk & Ht & Hn & Hnf).
      rewrite Hc, Ho, Hf, He, Hh, Hk, Ht, Hn, Hnf.
      cbn [calls console inflight engine hub clock timers next_timer next_flight
           add_error add_call].
      rewrite <- !app_assoc.
      replace (i + S (thrown m session chs))%nat with (S i + thrown m session chs)%nat
        by lia.
      repeat split.
      destruct (decide (thrown m session chs < length chs)%nat);
        [rewrite decide_True by lia | rewrite decide_False by lia]; reflexivity.
    + cbn [calls console inflight engine hub clock timers next_timer next_flight
           set_inflight add_call replicate].
      rewrite app_nil_r, Nat.add_0_r.
      rewrite decide_True by lia. repeat split.
Qed.

Lemma once_per_channel_session m session i n c :
  c ∈ once_per_channel m session i n -> call_method c = m /\ call_session c = session.
Proof.
  unfold once_per_channel. intros H.
  apply list_elem_of_fmap in H as [j [-> _]]. split; reflexivity.
Qed.

Lemma calls_for_once m session i n :
  calls_for (sess_id session) (once_per_channel m session i n)
  = once_per_channel m session i n.
Proof.
  unfold calls_for. apply list_filter_True, Forall_forall.
  intros c Hc. apply once_per_channel_session in Hc as [_ Hs].
  unfold call_session_id. rewrite Hs. reflexivity.
Qed.

Lemma calls_for_other sid m session i n :
  sess_id session <> sid -> calls_for sid (once_per_channel m session i n) = [].
Proof.
  intros Hne. unfold calls_for. apply list_filter_False, Forall_forall.
  intros c Hc. apply once_per_channel_session in Hc as [_ Hs].
  unfold call_session_id. rewrite Hs. exact Hne.
Qed.

Lemma calls_for_app sid l1 l2 :
  calls_for sid (l1 ++ l2) = calls_for sid l1 ++ calls_for sid l2.
Proof. apply filter_app. Qed.

(** A notification starting: its loop runs up to the first promise. *)
Lemma notify_start m session w :
  let w' := notify_loop m (next_flight w) 0 (channels cfg) session
              (set_next_flight (S (next_flight w)) w) in
  calls w' = calls w ++ first_calls cfg m session
  /\ engine w' = engine w /\ hub w' = hub w /\ clock w' = clock w
  /\ timers w' = timers w /\ next_timer w' = next_timer w.
Proof.
  destruct (notify_loop_spec m (next_flight w) session (channels cfg) 0
              (set_next_flight (S (next_flight w)) w))
    as (Hc & _ & _ & He & Hh & Hk & Ht & Hn & _).
  simpl. rewrite Hc, He, Hh, Hk, Ht, Hn. repeat split.
Qed.

Lemma notify_start_flights m session w :
  let w' := notify_loop m (next_flight w) 0 (channels cfg) session
              (set_next_flight (S (next_flight w)) w) in
  inflight w' = inflight w ++ first_flight cfg m session (next_flight w)
  /\ next_flight w' = S (next_flight w)
  /\ console w' = console w ++ replicate (thrown m session (channels cfg)) (failure_message m).
Proof.
  destruct (notify_loop_spec m (next_flight w) session (channels cfg) 0
              (set_next_flight (S (next_flight w)) w))
    as (_ & Ho & Hf & _ & _ & _ & _ & _ & Hnf).
  simpl. rewrite Ho, Hf, Hnf. repeat split.
Qed.

Lemma first_calls_session m session c :
  c ∈ first_calls cfg m session -> call_method c = m /\ call_session c = session.
Proof. apply once_per_channel_session. Qed.

Lemma first_flight_session m session id f :
  f ∈ first_flight cfg m session id ->
  flight_id f = id /\ flight_method f = m /\ flight_session f = session.
Proof.
  unfold first_flight. destruct (decide _); intros H; [| inversion H].
  apply list_elem_of_singleton in H as ->. repeat split.
Qed.

(** *** Loops that wait *)

Lemma flight_of_Some id w f :
  flight_of id w = Some f -> f ∈ inflight w /\ flight_id f = id.
Proof.
  unfold flight_of. intros H. apply head_Some_elem_of in H.
  apply list_elem_of_filter in H as [Hid Hin]. auto.
Qed.

Lemma flight_of_None id w :
  flight_of id w = None -> forall f, f ∈ inflight w -> flight_id f <> id.
Proof.
  unfold flight_of. intros H f Hin Hid.
  apply head_None in H.
  assert (Hf : f ∈ filter (fun g => flight_id g = id) (inflight w))
    by (apply list_elem_of_filter; auto).
  rewrite H in Hf. inversion Hf.
Qed.

Lemma flight_of_elem w f :
  flights_fresh w -> f ∈ inflight w -> flight_of (flight_id f) w = Some f.
Proof.
  intros [Hnd _] Hin. unfold flight_of.
  destruct (head _) as [g |] eqn:Hg.
  - apply head_Some_elem_of, list_elem_of_filter in Hg as [Hid Hg].
    f_equal. apply (NoDup_fmap_eq flight_id (inflight w)); assumption.
  - apply head_None in Hg.
    assert (Hf : f ∈ filter (fun g => flight_id g = flight_id f) (inflight w))
      by (apply list_elem_of_filter; auto).
    rewrite Hg in Hf. inversion Hf.
Qed.

Lemma settle_unknown id rejected w :
  flight_of id w = None -> settle cfg id rejected w = w.
Proof. unfold settle. intros ->. reflexivity. Qed.

(** A promise settles: the loop that waited for it goes on with the channels
    after it, up to the next promise. *)
Lemma settle_spec id rejected w f :
  flight_of id w = Some f ->
  let rest := drop (S (flight_channel f)) (channels cfg) in
  let m := flight_method f in
  let w' := settle cfg id rejected w in
  calls w' = calls w
             ++ once_per_channel m (flight_session f) (S (flight_channel f))
                  (reached m (flight_session f) rest)
  /\ console w' = console w ++ (if rejected then [failure_message m] else [])
                   ++ replicate (thrown m (flight_session f) rest) (failure_message m)
  /\ inflight w'
     = filter (fun g => flight_id g <> id) (inflight w)
       ++ (if decide (thrown m (flight_session f) rest < length rest)%nat
           then [mkFlight id m (flight_session f)
                   (S (flight_channel f) + thrown m (flight_session f) rest)]
           else [])
  /\ engine w' = engine w /\ hub w' = hub w /\ clock w' = clock w
  /\ timers w' = timers w /\ next_timer w' = next_timer w
  /\ next_flight w' = next_flight w.
Proof.
  intros Hf. unfold settle. rewrite Hf. simpl.
  match goal with
  | |- context [notify_loop ?m ?i ?j ?chs ?s ?w0] =>
      destruct (notify_loop_spec m i s chs j w0)
        as (Hc & Ho & Hfl & He & Hh & Hk & Ht & Hn & Hnf)
  end.
  rewrite Hc, Ho, Hfl, He, Hh, Hk, Ht, Hn, Hnf.
  destruct rejected; simpl; rewrite <- ?app_assoc; repeat split.
Qed.

(** *** [clearSessionState] *)

Lemma clearSessionState_spec sid w :
  let w' := clearSessionState sid w in
  lastKnownRequests (hub w') = delete sid (lastKnownRequests (hub w))
  /\ notificationDebounce (hub w') = delete sid (notificationDebounce (hub w))
  /\ lastReadyNotificationAt (hub w') = delete sid (lastReadyNotificationAt (hub w))
  /\ subscribed (hub w') = subscribed (hub w)
  /\ timers w' = without_timer_of sid w
  /\ engine w' = engine w /\ clock w' = clock w /\ calls w' = calls w
  /\ next_timer w' = next_timer w.
Proof.
  unfold clearSessionState, without_timer_of.
  destruct (notificationDebounce (hub w) !! sid) as [handle |] eqn:Hlook; simpl.
  - repeat split.
  - rewrite (delete_id _ _ Hlook). repeat split.
Qed.

Lemma clearSessionState_flights sid w :
  let w' := clearSessionState sid w in
  inflight w' = inflight w /\ next_flight w' = next_flight w /\ console w' = console w.
Proof.
  unfold clearSessionState.
  destruct (notificationDebounce (hub w) !! sid); simpl; repeat split.
Qed.

(** *** Permission-change detection *)

Lemma hasNewRequests_spec (new old : gset string) :
  hasNewRequests new old = true <-> exists i, i ∈ new /\ i ∉ old.
Proof.
  unfold hasNewRequests. rewrite existsb_exists. split.
  - intros [i [Hin Hd]]. exists i. split.
    + apply elem_of_elements, list_elem_of_In. exact Hin.
    + apply bool_decide_eq_true in Hd. exact Hd.
  - intros [i [Hin Hd]]. exists i. split.
    + apply list_elem_of_In, elem_of_elements. exact Hin.
    + apply bool_decide_eq_true. exact Hd.
Qed.

Lemma hasNewRequests_present session known :
  hasNewRequests (current_request_ids session) known = true ->
  exists reqs, agentState session ≫= requests = Some reqs
               /\ current_request_ids session = dom reqs.
Proof.
  unfold current_request_ids. intros H.
  destruct (agentState session ≫= requests) as [reqs |].
  - exists reqs. split; reflexivity.
  - simpl in H. apply hasNewRequests_spec in H as [i [Hi _]]. set_solver.
Qed.

Lemma checkForPermissionNotification_flights session w :
  let w' := checkForPermissionNotification cfg session w in
  inflight w' = inflight w /\ next_flight w' = next_flight w /\ console w' = console w.
Proof.
  unfold checkForPermissionNotification.
  destruct (agentState session ≫= requests); [| repeat split].
  destruct (negb _); [repeat split |].
  destruct (notificationDebounce _ !! _); simpl; repeat split.
Qed.

(** The hub's test for new requests is the one of the claim: some current
    id is absent from the recorded set. *)
Lemma hasNewRequests_false (new old : gset string) :
  hasNewRequests new old = false <-> new ⊆ old.
Proof.
  rewrite <- not_true_iff_false, hasNewRequests_spec. split.
  - intros Hno i Hi. destruct (decide (i ∈ old)) as [Hin | Hnin]; [exact Hin |].
    exfalso. apply Hno. exists i. auto.
  - intros Hsub [i [Hi Hnot]]. apply Hnot, Hsub, Hi.
Qed.

Lemma checkForPermissionNotification_absent session w :
  agentState session ≫= requests = None ->
  checkForPermissionNotification cfg session w = w.
Proof. unfold checkForPermissionNotification. intros ->. reflexivity. Qed.

Lemma checkForPermissionNotification_known session reqs w :
  agentState session ≫= requests = Some reqs ->
  hasNewRequests (dom reqs) (default ∅ (lastKnownRequests (hub w) !! sess_id session))
  = false ->
  checkForPermissionNotification cfg session w
  = set_hub (set_lastKnownRequests
               (<[sess_id session := dom reqs]> (lastKnownRequests (hub w))) (hub w)) w.
Proof.
  unfold checkForPermissionNotification. intros -> ->. reflexivity.
Qed.

Lemma checkForPermissionNotification_new session reqs w :
  agentState session ≫= requests = Some reqs ->
  hasNewRequests (dom reqs) (default ∅ (lastKnownRequests (hub w) !! sess_id session))
  = true ->
  let w' := checkForPermissionNotification cfg session w in
  lastKnownRequests (hub w') = <[sess_id session := dom reqs]> (lastKnownRequests (hub w))
  /\ notificationDebounce (hub w')
     = <[sess_id session := next_timer w]> (notificationDebounce (hub w))
  /\ lastReadyNotificationAt (hub w') = lastReadyNotificationAt (hub w)
  /\ subscribed (hub w') = subscribed (hub w)
  /\ timers w' = without_timer_of (sess_id session) w
                 ++ [mkTimer (next_timer w) (clock w + permissionDebounceMs cfg)
                       (sess_id session)]
  /\ next_timer w' = S (next_timer w)
  /\ engine w' = engine w /\ clock w' = clock w /\ calls w' = calls w.
Proof.
  unfold checkForPermissionNotification, without_timer_of. intros -> ->. simpl.
  destruct (notificationDebounce (hub w) !! sess_id session); simpl; repeat split.
Qed.

(** *** [handleSyncEvent], case by case *)

Lemma handleSyncEvent_active event sid session w :
  truthy_id event = Some sid ->
  session_changed event = true ->
  getSession w sid = Some session ->
  active session = true ->
  handleSyncEvent cfg event w = checkForPermissionNotification cfg session w.
Proof.
  unfold handleSyncEvent, session_changed. intros -> -> -> ->. reflexivity.
Qed.

Lemma handleSyncEvent_gone event sid w :
  truthy_id event = Some sid ->
  session_changed event = true ->
  getNotifiableSession w sid = None ->
  handleSyncEvent cfg event w = clearSessionState sid w.
Proof.
  unfold handleSyncEvent, session_changed, getNotifiableSession. intros -> -> H.
  destruct (getSession w sid) as [session |]; [| reflexivity].
  destruct (active session); [discriminate | reflexivity].
Qed.

Lemma handleSyncEvent_removed event sid w :
  truthy_id event = Some sid ->
  ev_type event = JStr "session-removed" ->
  handleSyncEvent cfg event w = clearSessionState sid w.
Proof.
  unfold handleSyncEvent. intros -> ->. reflexivity.
Qed.

Lemma handleSyncEvent_ready event sid w :
  truthy_id event = Some sid ->
  ev_type event = JStr "message-received" ->
  extractMessageEventType event = Normal (Some "ready") ->
  handleSyncEvent cfg event w = sendReadyNotification cfg sid w.
Proof.
  unfold handleSyncEvent. intros -> -> ->. reflexivity.
Qed.

Lemma truthy_id_nonempty event sid : truthy_id event = Some sid -> sid <> "".
Proof.
  unfold truthy_id. destruct (ev_sessionId event) as [s |]; [| discriminate].
  destruct (String.eqb s "") eqn:Hs; [discriminate |].
  intros H. injection H as <-. apply String.eqb_neq. exact Hs.
Qed.

Lemma truthy_id_sessionEvent type sid :
  sid <> "" -> truthy_id (sessionEvent type sid) = Some sid.
Proof.
  intros H. unfold truthy_id. simpl.
  rewrite (proj2 (String.eqb_neq sid "") H). reflexivity.
Qed.

(** *** The handle map and the timer queue *)

Lemma without_timer_of_sub sid w tm :
  tm ∈ without_timer_of sid w -> tm ∈ timers w.
Proof.
  unfold without_timer_of.
  destruct (notificationDebounce (hub w) !! sid); [| tauto].
  rewrite list_elem_of_filter. tauto.
Qed.

Lemma without_timer_of_sublist sid w :
  without_timer_of sid w `sublist_of` timers w.
Proof.
  unfold without_timer_of.
  destruct (notificationDebounce (hub w) !! sid); [apply sublist_filter | reflexivity].
Qed.

(** Once its handle is cancelled, a session has no timer in the queue. *)
Lemma without_timer_of_session sid w tm :
  consistent w -> tm ∈ without_timer_of sid w -> timer_session tm <> sid.
Proof.
  intros [Hmap _] Hin Heq. unfold without_timer_of in Hin.
  destruct (notificationDebounce (hub w) !! sid) as [handle |] eqn:Hlook.
  - apply list_elem_of_filter in Hin as [Hid Hin].
    specialize (Hmap _ Hin). rewrite Heq, Hlook in Hmap. congruence.
  - specialize (Hmap _ Hin). rewrite Heq, Hlook in Hmap. discriminate.
Qed.

(** Two queued timers of one session are one timer. *)
Lemma consistent_one_timer w tm1 tm2 :
  consistent w -> tm1 ∈ timers w -> tm2 ∈ timers w ->
  timer_session tm1 = timer_session tm2 -> tm1 = tm2.
Proof.
  intros (Hmap & Hnd & _) H1 H2 Hs.
  apply (NoDup_fmap_eq timer_id (timers w)); try assumption.
  pose proof (Hmap _ H1) as E1. pose proof (Hmap _ H2) as E2.
  rewrite Hs in E1. congruence.
Qed.

Lemma consistent_sessions_NoDup w :
  consistent w -> NoDup (timer_session <$> timers w).
Proof.
  intros Hc. apply NoDup_fmap_2_strong.
  - intros x y Hx Hy. apply (consistent_one_timer w); assumption.
  - destruct Hc as (_ & Hnd & _). apply NoDup_fmap_1 in Hnd. exact Hnd.
Qed.

Lemma consistent_start e t0 : consistent (start e t0).
Proof.
  unfold consistent, start. simpl. split; [| split].
  - intros tm H. inversion H.
  - constructor.
  - intros tm H. inversion H.
Qed.

Lemma consistent_clearSessionState sid w :
  consistent w -> consistent (clearSessionState sid w).
Proof.
  intros Hc. pose proof Hc as (Hmap & Hnd & Hfresh).
  destruct (clearSessionState_spec sid w)
    as (_ & Hdeb & _ & _ & Htm & _ & _ & _ & Hnext).
  unfold consistent. rewrite Hdeb, Htm, Hnext. split; [| split].
  - intros tm Hin.
    rewrite lookup_delete_ne
      by (intros Heq; exact (without_timer_of_session sid w tm Hc Hin (eq_sym Heq))).
    apply Hmap. exact (without_timer_of_sub sid w tm Hin).
  - eapply NoDup_fmap_sublist; [apply without_timer_of_sublist | exact Hnd].
  - intros tm Hin. apply Hfresh. exact (without_timer_of_sub sid w tm Hin).
Qed.

Lemma consistent_checkForPermissionNotification session w :
  consistent w -> consistent (checkForPermissionNotification cfg session w).
Proof.
  intros Hc. pose proof Hc as (Hmap & Hnd & Hfresh).
  destruct (agentState session ≫= requests) as [reqs |] eqn:Hreq;
    [| rewrite checkForPermissionNotification_absent by exact Hreq; exact Hc].
  destruct (hasNewRequests (dom reqs)
              (default ∅ (lastKnownRequests (hub w) !! sess_id session))) eqn:Hnew.
  - destruct (checkForPermissionNotification_new session reqs w Hreq Hnew)
      as (_ & Hdeb & _ & _ & Htm & Hnext & _).
    unfold consistent. rewrite Hdeb, Htm, Hnext. split; [| split].
    + intros tm Hin. apply elem_of_app in Hin as [Hin | Hin].
      * rewrite lookup_insert_ne
          by (intros Heq;
              exact (without_timer_of_session _ w tm Hc Hin (eq_sym Heq))).
        apply Hmap. exact (without_timer_of_sub _ w tm Hin).
      * apply list_elem_of_singleton in Hin as ->. simpl. apply lookup_insert_eq.
    + rewrite fmap_app. apply NoDup_app. split; [| split].
      * eapply NoDup_fmap_sublist; [apply without_timer_of_sublist | exact Hnd].
      * intros i Hi Hi'. simpl in Hi'. apply list_elem_of_singleton in Hi' as ->.
        apply list_elem_of_fmap in Hi as [tm [Hid Hin]].
        apply without_timer_of_sub in Hin. specialize (Hfresh _ Hin). lia.
      * simpl. apply NoDup_singleton.
    + intros tm Hin. apply elem_of_app in Hin as [Hin | Hin].
      * apply without_timer_of_sub in Hin. specialize (Hfresh _ Hin). lia.
      * apply list_elem_of_singleton in Hin as ->. simpl. lia.
  - rewrite (checkForPermissionNotification_known session reqs w Hreq Hnew). exact Hc.
Qed.

Lemma sendReadyNotification_frame sid w :
  let w' := sendReadyNotification cfg sid w in
  timers w' = timers w /\ next_timer w' = next_timer w
  /\ notificationDebounce (hub w') = notificationDebounce (hub w)
  /\ lastKnownRequests (hub w') = lastKnownRequests (hub w)
  /\ subscribed (hub w') = subscribed (hub w)
  /\ engine w' = engine w /\ clock w' = clock w.
Proof.
  unfold sendReadyNotification.
  destruct (getNotifiableSession w sid) as [session |]; [| repeat split].
  destruct (_ <? _); [repeat split |].
  unfold notifyReady.
  destruct (notify_start sendReady session
              (set_hub (set_lastReadyNotificationAt
                          (<[sid := clock w]> (lastReadyNotificationAt (hub w))) (hub w)) w))
    as (_ & He & Hh & Hk & Ht & Hn).
  cbn [next_flight set_hub] in *.
  rewrite He, Hh, Hk, Ht, Hn. repeat split.
Qed.

Lemma consistent_handleSyncEvent event w :
  consistent w -> consistent (handleSyncEvent cfg event w).
Proof.
  intros Hc. unfold handleSyncEvent.
  destruct (truthy_id event) as [sid |]; [| exact Hc].
  destruct (_ || _).
  { destruct (getSession w sid) as [session |];
      [destruct (active session) |];
      auto using consistent_clearSessionState, consistent_checkForPermissionNotification. }
  destruct (is_str (ev_type event) "session-removed");
    [apply consistent_clearSessionState; exact Hc |].
  destruct (is_str (ev_type event) "message-received"); [| exact Hc].
  destruct (extractMessageEventType event) as [[eventType |] |]; try exact Hc.
  destruct (String.eqb eventType "ready"); [| exact Hc].
  destruct (sendReadyNotification_frame sid w) as (Ht & Hn & Hd & _).
  unfold consistent. rewrite Ht, Hn, Hd. exact Hc.
Qed.

(** *** Timers firing *)

Lemma sendPermissionNotification_spec sid w :
  let w' := sendPermissionNotification cfg sid w in
  calls w' = calls w ++ permission_calls cfg (engine w) sid
  /\ engine w' = engine w /\ hub w' = hub w /\ clock w' = clock w
  /\ timers w' = timers w /\ next_timer w' = next_timer w.
Proof.
  unfold sendPermissionNotification, permission_calls, getNotifiableSession, getSession.
  destruct (engine w !! sid) as [session |]; simpl;
    [| rewrite app_nil_r; repeat split].
  destruct (active session); [| rewrite app_nil_r; repeat split].
  apply notify_start.
Qed.

Lemma fire_spec w tm :
  let w' := fire cfg w tm in
  calls w' = calls w ++ permission_calls cfg (engine w) (timer_session tm)
  /\ engine w' = engine w
  /\ timers w' = filter (fun t => timer_id t <> timer_id tm) (timers w)
  /\ notificationDebounce (hub w')
     = delete (timer_session tm) (notificationDebounce (hub w))
  /\ lastKnownRequests (hub w') = lastKnownRequests (hub w)
  /\ lastReadyNotificationAt (hub w') = lastReadyNotificationAt (hub w)
  /\ subscribed (hub w') = subscribed (hub w)
  /\ next_timer w' = next_timer w.
Proof.
  unfold fire.
  match goal with
  | |- context [sendPermissionNotification cfg ?s ?w0] =>
      destruct (sendPermissionNotification_spec s w0) as (Hc & He & Hh & _ & Ht & Hn)
  end.
  rewrite Hc, He, Hh, Ht, Hn. simpl. repeat split.
Qed.

Lemma fire_all_spec due : forall w,
  let w' := foldl (fire cfg) w due in
  calls w' = calls w ++ flat_map (permission_calls cfg (engine w)) (timer_session <$> due)
  /\ engine w' = engine w
  /\ timers w' = filter (fun t => timer_id t ∉ timer_id <$> due) (timers w)
  /\ (forall k, notificationDebounce (hub w') !! k
                = if decide (k ∈ timer_session <$> due) then None
                  else notificationDebounce (hub w) !! k)
  /\ lastKnownRequests (hub w') = lastKnownRequests (hub w)
  /\ lastReadyNotificationAt (hub w') = lastReadyNotificationAt (hub w)
  /\ subscribed (hub w') = subscribed (hub w)
  /\ next_timer w' = next_timer w.
Proof.
  induction due as [| tm due IH]; intros w; simpl.
  - rewrite app_nil_r. repeat split.
    symmetry. apply list_filter_True, Forall_forall. intros t _ H. inversion H.
  - destruct (IH (fire cfg w tm)) as (Hc & He & Ht & Hd & Hk & Hr & Hs & Hn).
    destruct (fire_spec w tm) as (Hc1 & He1 & Ht1 & Hd1 & Hk1 & Hr1 & Hs1 & Hn1).
    rewrite Hc, He, Ht, Hk, Hr, Hs, Hn, Hc1, He1, Ht1, Hk1, Hr1, Hs1, Hn1.
    rewrite <- app_assoc. repeat split.
    + rewrite list_filter_filter. apply list_filter_iff. intros t.
      rewrite elem_of_cons. split; [intros [H1 H2] [H | H]; auto | ].
      intros H. split; [intros Hin; apply H; right; exact Hin
                       | intros Heq; apply H; left; exact Heq].
    + intros k. rewrite Hd, Hd1.
      destruct (decide (k ∈ timer_session <$> due)) as [Hin | Hnin].
      * rewrite decide_True by (right; exact Hin). reflexivity.
      * destruct (decide (k = timer_session tm)) as [-> | Hne].
        -- rewrite decide_True by left. apply lookup_delete_eq.
        -- rewrite decide_False
             by (intros H; apply elem_of_cons in H as [H | H]; auto).
           apply lookup_delete_ne. congruence.
Qed.

(** The timers that are due by [t]. *)
Lemma advance_spec t w :
  let due := filter (fun tm => fires_at tm <= t) (timers w) in
  let w' := advance cfg t w in
  calls w' = calls w ++ flat_map (permission_calls cfg (engine w)) (timer_session <$> due)
  /\ engine w' = engine w
  /\ timers w' = filter (fun t => timer_id t ∉ timer_id <$> due) (timers w)
  /\ (forall k, notificationDebounce (hub w') !! k
                = if decide (k ∈ timer_session <$> due) then None
                  else notificationDebounce (hub w) !! k)
  /\ lastKnownRequests (hub w') = lastKnownRequests (hub w)
  /\ lastReadyNotificationAt (hub w') = lastReadyNotificationAt (hub w)
  /\ subscribed (hub w') = subscribed (hub w)
  /\ next_timer w' = next_timer w.
Proof.
  unfold advance. simpl.
  apply (fire_all_spec (filter (fun tm => fires_at tm <= t) (timers w)) w).
Qed.

Lemma due_session_is_due t w tm k :
  consistent w -> tm ∈ timers w -> timer_session tm = k ->
  k ∈ timer_session <$> filter (fun tm => fires_at tm <= t) (timers w) ->
  fires_at tm <= t.
Proof.
  intros Hc Hin Hs Hk.
  apply list_elem_of_fmap in Hk as [tm' [Hs' Hdue]].
  apply list_elem_of_filter in Hdue as [Hdue Hin'].
  assert (tm = tm') as ->; [| exact Hdue].
  apply (consistent_one_timer w); congruence.
Qed.

Lemma due_id_is_due t w tm :
  consistent w -> tm ∈ timers w ->
  timer_id tm ∈ timer_id <$> filter (fun tm => fires_at tm <= t) (timers w) ->
  fires_at tm <= t.
Proof.
  intros (_ & Hnd & _) Hin Hk.
  apply list_elem_of_fmap in Hk as [tm' [Hid Hdue]].
  apply list_elem_of_filter in Hdue as [Hdue Hin'].
  assert (tm = tm') as ->; [| exact Hdue].
  apply (NoDup_fmap_eq timer_id (timers w)); assumption.
Qed.

Lemma consistent_advance t w : consistent w -> consistent (advance cfg t w).
Proof.
  intros Hc. pose proof Hc as (Hmap & Hnd & Hfresh).
  destruct (advance_spec t w) as (_ & _ & Ht & Hd & _ & _ & _ & Hn).
  unfold consistent. rewrite Ht, Hn. split; [| split].
  - intros tm Hin. apply list_elem_of_filter in Hin as [Hid Hin].
    rewrite Hd. rewrite decide_False; [apply Hmap; exact Hin |].
    intros Hs. apply Hid.
    apply list_elem_of_fmap_2, list_elem_of_filter. split; [| exact Hin].
    exact (due_session_is_due t w tm _ Hc Hin eq_refl Hs).
  - eapply NoDup_fmap_sublist; [apply sublist_filter | exact Hnd].
  - intros tm Hin. apply list_elem_of_filter in Hin as [_ Hin]. apply Hfresh. exact Hin.
Qed.

Lemma clearTimeout_all handles : forall w0,
  let w' := foldr (fun handle w' => clearTimeout handle w') w0 handles in
  timers w' = filter (fun tm => timer_id tm ∉ handles) (timers w0)
  /\ next_timer w' = next_timer w0 /\ calls w' = calls w0 /\ engine w' = engine w0.
Proof.
  induction handles as [| h handles IH]; intros w0; simpl.
  - repeat split. symmetry. apply list_filter_True, Forall_forall.
    intros t _ H. inversion H.
  - destruct (IH w0) as (Ht & Hn & Hc & He). rewrite Ht, Hn, Hc, He. repeat split.
    rewrite list_filter_filter. apply list_filter_iff. intros t.
    rewrite elem_of_cons. split; [intros [H1 H2] [H | H]; auto |].
    intros H. split; [intros Heq; apply H; left; exact Heq
                     | intros Hin; apply H; right; exact Hin].
Qed.

(** [stop] leaves no timer behind. *)
Lemma stop_spec w :
  consistent w ->
  timers (stop w) = [] /\ hub (stop w) = mkHub ∅ ∅ ∅ false
  /\ calls (stop w) = calls w /\ engine (stop w) = engine w.
Proof.
  intros (Hmap & _ & _). unfold stop. simpl.
  destruct (clearTimeout_all (snd <$> map_to_list (notificationDebounce (hub w))) w)
    as (Ht & _ & Hc & He).
  rewrite Ht, Hc, He. repeat split.
  apply list_filter_False, Forall_forall. intros tm Hin Hnot. apply Hnot.
  apply list_elem_of_fmap. exists (timer_session tm, timer_id tm). split; [reflexivity |].
  apply elem_of_map_to_list. apply Hmap. exact Hin.
Qed.

Lemma consistent_stop w : consistent w -> consistent (stop w).
Proof.
  intros Hc. destruct (stop_spec w Hc) as (Ht & Hh & _ & _).
  unfold consistent. rewrite Ht. split; [| split].
  - intros tm H. inversion H.
  - constructor.
  - intros tm H. inversion H.
Qed.

Lemma settle_frame id rejected w :
  let w' := settle cfg id rejected w in
  engine w' = engine w /\ hub w' = hub w /\ clock w' = clock w
  /\ timers w' = timers w /\ next_timer w' = next_timer w
  /\ next_flight w' = next_flight w.
Proof.
  destruct (flight_of id w) as [f |] eqn:Hf.
  - destruct (settle_spec id rejected w f Hf) as (_ & _ & _ & He & Hh & Hk & Ht & Hn & Hnf).
    simpl. rewrite He, Hh, Hk, Ht, Hn, Hnf. repeat split.
  - simpl. rewrite (settle_unknown id rejected w Hf). repeat split.
Qed.

Lemma consistent_settle id rejected w :
  consistent w -> consistent (settle cfg id rejected w).
Proof.
  intros Hc. destruct (settle_frame id rejected w) as (_ & Hh & _ & Ht & Hn & _).
  unfold consistent. rewrite Hh, Ht, Hn. exact Hc.
Qed.

Lemma consistent_step w a : consistent w -> consistent (step cfg w a).
Proof.
  intros Hc. destruct a as [event | session | sid | ms | id rejected |]; simpl.
  - destruct (subscribed (hub w)); [apply consistent_handleSyncEvent |]; exact Hc.
  - exact Hc.
  - exact Hc.
  - apply consistent_advance. exact Hc.
  - apply consistent_settle. exact Hc.
  - apply consistent_stop. exact Hc.
Qed.

(** *** The ids of the waiting loops *)

Lemma flights_fresh_start e t0 : flights_fresh (start e t0).
Proof.
  split; [constructor | intros f H; inversion H].
Qed.

Lemma flights_fresh_same w w' :
  inflight w' = inflight w -> next_flight w' = next_flight w ->
  flights_fresh w -> flights_fresh w'.
Proof. unfold flights_fresh. intros -> ->. tauto. Qed.

Lemma flights_fresh_notify m session w w' :
  inflight w' = inflight w ++ first_flight cfg m session (next_flight w) ->
  next_flight w' = S (next_flight w) ->
  flights_fresh w -> flights_fresh w'.
Proof.
  unfold flights_fresh. intros -> -> [Hnd Hlt]. split.
  - rewrite fmap_app. apply NoDup_app. split; [exact Hnd |]. split.
    + intros i Hi Hi'. apply list_elem_of_fmap in Hi as [f [-> Hf]].
      apply list_elem_of_fmap in Hi' as [g [Hg Hin]].
      apply first_flight_session in Hin as (Hid & _). specialize (Hlt f Hf). lia.
    + unfold first_flight. destruct (decide _); simpl;
        [apply NoDup_singleton | constructor].
  - intros f Hf. apply elem_of_app in Hf as [Hf | Hf].
    + specialize (Hlt f Hf). lia.
    + apply first_flight_session in Hf as (-> & _). lia.
Qed.

Lemma flights_fresh_sendReadyNotification sid w :
  flights_fresh w -> flights_fresh (sendReadyNotification cfg sid w).
Proof.
  intros Hf. unfold sendReadyNotification.
  destruct (getNotifiableSession w sid) as [session |]; [| exact Hf].
  destruct (_ <? _); [exact Hf |].
  unfold notifyReady.
  set (w1 := set_hub (set_lastReadyNotificationAt
                        (<[sid := clock w]> (lastReadyNotificationAt (hub w))) (hub w)) w).
  destruct (notify_start_flights sendReady session w1) as (Hfl & Hnf & _).
  apply (flights_fresh_notify sendReady session w1); [exact Hfl | exact Hnf | exact Hf].
Qed.

Lemma flights_fresh_sendPermissionNotification sid w :
  flights_fresh w -> flights_fresh (sendPermissionNotification cfg sid w).
Proof.
  intros Hf. unfold sendPermissionNotification.
  destruct (getNotifiableSession w sid) as [session |]; [| exact Hf].
  unfold notifyPermission.
  destruct (notify_start_flights sendPermissionRequest session w) as (Hfl & Hnf & _).
  apply (flights_fresh_notify sendPermissionRequest session w); assumption.
Qed.

Lemma flights_fresh_handleSyncEvent event w :
  flights_fresh w -> flights_fresh (handleSyncEvent cfg event w).
Proof.
  intros Hf. unfold handleSyncEvent.
  destruct (truthy_id event) as [sid |]; [| exact Hf].
  destruct (_ || _).
  { destruct (getSession w sid) as [session |]; [destruct (active session) |].
    - destruct (checkForPermissionNotification_flights session w) as (H1 & H2 & _).
      exact (flights_fresh_same _ _ H1 H2 Hf).
    - destruct (clearSessionState_flights sid w) as (H1 & H2 & _).
      exact (flights_fresh_same _ _ H1 H2 Hf).
    - destruct (clearSessionState_flights sid w) as (H1 & H2 & _).
      exact (flights_fresh_same _ _ H1 H2 Hf). }
  destruct (is_str (ev_type event) "session-removed").
  { destruct (clearSessionState_flights sid w) as (H1 & H2 & _).
    exact (flights_fresh_same _ _ H1 H2 Hf). }
  destruct (is_str (ev_type event) "message-received"); [| exact Hf].
  destruct (extractMessageEventType event) as [[eventType |] |]; try exact Hf.
  destruct (String.eqb eventType "ready"); [| exact Hf].
  apply flights_fresh_sendReadyNotification. exact Hf.
Qed.

Lemma flights_fresh_fire w tm : flights_fresh w -> flights_fresh (fire cfg w tm).
Proof.
  intros Hf. unfold fire. apply flights_fresh_sendPermissionNotification. exact Hf.
Qed.

Lemma flights_fresh_advance t w : flights_fresh w -> flights_fresh (advance cfg t w).
Proof.
  intros Hf. unfold advance.
  generalize (filter (fun tm => fires_at tm <= t) (timers w)). intros due.
  revert w Hf. induction due as [| tm due IH]; intros w Hf; [exact Hf |].
  simpl. apply IH, flights_fresh_fire, Hf.
Qed.

Lemma flights_fresh_settle id rejected w :
  flights_fresh w -> flights_fresh (settle cfg id rejected w).
Proof.
  intros Hf. destruct (flight_of id w) as [f |] eqn:Hfl;
    [| rewrite (settle_unknown id rejected w Hfl); exact Hf].
  destruct (settle_spec id rejected w f Hfl) as (_ & _ & Hin & _ & _ & _ & _ & _ & Hnf).
  apply flight_of_Some in Hfl as [Hfin Hid].
  destruct Hf as [Hnd Hlt]. unfold flights_fresh. rewrite Hin, Hnf. split.
  - rewrite fmap_app. apply NoDup_app. split; [| split].
    + eapply NoDup_fmap_sublist; [apply sublist_filter | exact Hnd].
    + intros i Hi Hi'. apply list_elem_of_fmap in Hi as [g [-> Hg]].
      apply list_elem_of_filter in Hg as [Hne _].
      destruct (decide _); simpl in Hi'; [| inversion Hi'].
      apply list_elem_of_singleton in Hi'. congruence.
    + destruct (decide _); simpl; [apply NoDup_singleton | constructor].
  - intros g Hg. apply elem_of_app in Hg as [Hg | Hg].
    + apply list_elem_of_filter in Hg as [_ Hg]. apply Hlt. exact Hg.
    + destruct (decide _); [| inversion Hg].
      apply list_elem_of_singleton in Hg as ->. simpl. rewrite <- Hid. apply Hlt. exact Hfin.
Qed.

Lemma stop_flights w :
  inflight (stop w) = inflight w /\ next_flight (stop w) = next_flight w
  /\ console (stop w) = console w.
Proof.
  unfold stop. simpl.
  generalize (snd <$> map_to_list (notificationDebounce (hub w))). intros handles.
  induction handles as [| h handles IH]; [repeat split | exact IH].
Qed.

Lemma flights_fresh_step w a : flights_fresh w -> flights_fresh (step cfg w a).
Proof.
  intros Hf. destruct a as [event | session | sid | ms | id rejected |]; simpl.
  - destruct (subscribed (hub w)); [apply flights_fresh_handleSyncEvent |]; exact Hf.
  - exact Hf.
  - exact Hf.
  - apply flights_fresh_advance. exact Hf.
  - apply flights_fresh_settle. exact Hf.
  - destruct (stop_flights w) as (H1 & H2 & _). exact (flights_fresh_same _ _ H1 H2 Hf).
Qed.

(** *** Who gets notified *)

Lemma permission_calls_notifiable e k c :
  c ∈ permission_calls cfg e k ->
  e !! k = Some (call_session c) /\ active (call_session c) = true.
Proof.
  unfold permission_calls. destruct (e !! k) as [session |] eqn:He; [| intros H; inversion H].
  destruct (active session) eqn:Ha; [| intros H; inversion H].
  intros H. apply first_calls_session in H as [_ ->]. auto.
Qed.

Lemma sendReadyNotification_calls sid w :
  calls (sendReadyNotification cfg sid w) = calls w
  \/ exists session,
       getNotifiableSession w sid = Some session
       /\ calls (sendReadyNotification cfg sid w)
          = calls w ++ first_calls cfg sendReady session.
Proof.
  unfold sendReadyNotification.
  destruct (getNotifiableSession w sid) as [session |]; [| left; reflexivity].
  destruct (_ <? _); [left; reflexivity |].
  right. exists session. split; [reflexivity |].
  unfold notifyReady.
  set (w1 := set_hub (set_lastReadyNotificationAt
                        (<[sid := clock w]> (lastReadyNotificationAt (hub w))) (hub w)) w).
  destruct (notify_start sendReady session w1) as (Hc & _).
  exact Hc.
Qed.

Lemma getNotifiableSession_Some w sid session :
  getNotifiableSession w sid = Some session ->
  engine w !! sid = Some session /\ active session = true.
Proof.
  unfold getNotifiableSession, getSession.
  destruct (engine w !! sid) as [s |]; [| discriminate].
  destruct (active s) eqn:Ha; [| discriminate].
  intros H. injection H as <-. auto.
Qed.

Lemma handleSyncEvent_calls event w :
  exists new,
    calls (handleSyncEvent cfg event w) = calls w ++ new
    /\ forall c, c ∈ new ->
         exists k, engine w !! k = Some (call_session c) /\ active (call_session c) = true.
Proof.
  assert (Hnone : forall w', calls w' = calls w ->
            exists new, calls w' = calls w ++ new
              /\ forall c, c ∈ new ->
                   exists k, engine w !! k = Some (call_session c)
                             /\ active (call_session c) = true).
  { intros w' H. exists []. rewrite app_nil_r. split; [exact H |].
    intros c Hc. inversion Hc. }
  unfold handleSyncEvent.
  destruct (truthy_id event) as [sid |]; [| apply Hnone; reflexivity].
  destruct (_ || _).
  { destruct (getSession w sid) as [session |];
      [destruct (active session) |]; apply Hnone.
    - unfold checkForPermissionNotification.
      destruct (agentState session ≫= requests) as [reqs |]; [| reflexivity].
      destruct (negb _); [reflexivity |].
      destruct (notificationDebounce _ !! _); reflexivity.
    - apply clearSessionState_spec.
    - apply clearSessionState_spec. }
  destruct (is_str (ev_type event) "session-removed");
    [apply Hnone; apply clearSessionState_spec |].
  destruct (is_str (ev_type event) "message-received"); [| apply Hnone; reflexivity].
  destruct (extractMessageEventType event) as [[eventType |] |];
    try (apply Hnone; reflexivity).
  destruct (String.eqb eventType "ready"); [| apply Hnone; reflexivity].
  destruct (sendReadyNotification_calls sid w) as [H | [session [Hs H]]];
    [apply Hnone; exact H |].
  eexists. split; [exact H |].
  intros c Hc. apply first_calls_session in Hc as [_ ->].
  apply getNotifiableSession_Some in Hs. exists sid. exact Hs.
Qed.

Lemma settle_or_not (a : Action) :
  (exists id rejected, a = Settle id rejected)
  \/ (forall id rejected, a <> Settle id rejected).
Proof.
  destruct a; try (right; intros; discriminate). left. eauto.
Qed.

(** What an event, a timer, a change of the engine or [stop] hands to the
    channels is a session the engine holds with [active] set. *)
Lemma step_calls w a :
  (forall id rejected, a <> Settle id rejected) ->
  exists new,
    calls (step cfg w a) = calls w ++ new
    /\ forall c, c ∈ new ->
         exists k, engine w !! k = Some (call_session c) /\ active (call_session c) = true.
Proof.
  intros Hns.
  assert (Hnone : forall w', calls w' = calls w ->
            exists new, calls w' = calls w ++ new
              /\ forall c, c ∈ new ->
                   exists k, engine w !! k = Some (call_session c)
                             /\ active (call_session c) = true).
  { intros w' H. exists []. rewrite app_nil_r. split; [exact H |].
    intros c Hc. inversion Hc. }
  destruct a as [event | session | sid | ms | id rejected |]; simpl.
  - destruct (subscribed (hub w)); [apply handleSyncEvent_calls | apply Hnone; reflexivity].
  - apply Hnone. reflexivity.
  - apply Hnone. reflexivity.
  - destruct (advance_spec (clock w + ms) w) as (Hc & _).
    eexists. split; [exact Hc |].
    intros c Hin. apply list_elem_of_In, in_flat_map in Hin as [k [_ Hin]].
    exists k. apply permission_calls_notifiable. apply list_elem_of_In. exact Hin.
  - exfalso. exact (Hns id rejected eq_refl).
  - apply Hnone. unfold stop. simpl.
    apply clearTimeout_all.
Qed.

Lemma once_per_channel_elem m session i n c :
  c ∈ once_per_channel m session i n ->
  call_method c = m /\ call_session c = session
  /\ (i <= call_channel c < i + n)%nat.
Proof.
  unfold once_per_channel. intros H.
  apply list_elem_of_fmap in H as [j [-> Hj]].
  apply elem_of_seq in Hj. simpl. repeat split; lia.
Qed.

(** What a settled promise hands to the channels continues the loop that
    waited for it: the same method, the session the loop was given, and
    channels after the one it waited for. *)
Lemma settle_calls id rejected w :
  exists new,
    calls (settle cfg id rejected w) = calls w ++ new
    /\ forall c, c ∈ new ->
         exists f, f ∈ inflight w /\ flight_id f = id
                   /\ call_method c = flight_method f
                   /\ call_session c = flight_session f
                   /\ (flight_channel f < call_channel c)%nat.
Proof.
  destruct (flight_of id w) as [f |] eqn:Hf.
  - destruct (settle_spec id rejected w f Hf) as (Hc & _).
    eexists. split; [exact Hc |].
    intros c Hin. apply once_per_channel_elem in Hin as (Hm & Hs & Hch).
    apply flight_of_Some in Hf as [Hfin Hid].
    exists f. repeat split; try assumption. lia.
  - rewrite (settle_unknown id rejected w Hf). exists []. rewrite app_nil_r.
    split; [reflexivity |]. intros c Hc. inversion Hc.
Qed.

(** *** Sessions as the loops hold them *)

Lemma flights_active_same w w' :
  inflight w' = inflight w -> flights_active w -> flights_active w'.
Proof. unfold flights_active. intros ->. tauto. Qed.

Lemma flights_active_notify m session w w' :
  inflight w' = inflight w ++ first_flight cfg m session (next_flight w) ->
  active session = true ->
  flights_active w -> flights_active w'.
Proof.
  unfold flights_active. intros -> Ha Hf f Hin.
  apply elem_of_app in Hin as [Hin | Hin]; [apply Hf; exact Hin |].
  apply first_flight_session in Hin as (_ & _ & ->). exact Ha.
Qed.

Lemma getNotifiableSession_is_active w sid session :
  getNotifiableSession w sid = Some session -> active session = true.
Proof. intros H. apply getNotifiableSession_Some in H. tauto. Qed.

Lemma flights_active_sendReadyNotification sid w :
  flights_active w -> flights_active (sendReadyNotification cfg sid w).
Proof.
  intros Hf. unfold sendReadyNotification.
  destruct (getNotifiableSession w sid) as [session |] eqn:Hget; [| exact Hf].
  destruct (_ <? _); [exact Hf |].
  unfold notifyReady.
  set (w1 := set_hub (set_lastReadyNotificationAt
                        (<[sid := clock w]> (lastReadyNotificationAt (hub w))) (hub w)) w).
  destruct (notify_start_flights sendReady session w1) as (Hfl & _).
  apply (flights_active_notify sendReady session w1);
    [exact Hfl | exact (getNotifiableSession_is_active w sid session Hget) | exact Hf].
Qed.

Lemma flights_active_sendPermissionNotification sid w :
  flights_active w -> flights_active (sendPermissionNotification cfg sid w).
Proof.
  intros Hf. unfold sendPermissionNotification.
  destruct (getNotifiableSession w sid) as [session |] eqn:Hget; [| exact Hf].
  unfold notifyPermission.
  destruct (notify_start_flights sendPermissionRequest session w) as (Hfl & _).
  apply (flights_active_notify sendPermissionRequest session w);
    [exact Hfl | exact (getNotifiableSession_is_active w sid session Hget) | exact Hf].
Qed.

Lemma flights_active_handleSyncEvent event w :
  flights_active w -> flights_active (handleSyncEvent cfg event w).
Proof.
  intros Hf. unfold handleSyncEvent.
  destruct (truthy_id event) as [sid |]; [| exact Hf].
  destruct (_ || _).
  { destruct (getSession w sid) as [session |]; [destruct (active session) |].
    - destruct (checkForPermissionNotification_flights session w) as (H1 & _).
      exact (flights_active_same _ _ H1 Hf).
    - destruct (clearSessionState_flights sid w) as (H1 & _).
      exact (flights_active_same _ _ H1 Hf).
    - destruct (clearSessionState_flights sid w) as (H1 & _).
      exact (flights_active_same _ _ H1 Hf). }
  destruct (is_str (ev_type event) "session-removed").
  { destruct (clearSessionState_flights sid w) as (H1 & _).
    exact (flights_active_same _ _ H1 Hf). }
  destruct (is_str (ev_type event) "message-received"); [| exact Hf].
  destruct (extractMessageEventType event) as [[eventType |] |]; try exact Hf.
  destruct (String.eqb eventType "ready"); [| exact Hf].
  apply flights_active_sendReadyNotification. exact Hf.
Qed.

Lemma flights_active_advance t w : flights_active w -> flights_active (advance cfg t w).
Proof.
  intros Hf. unfold advance.
  generalize (filter (fun tm => fires_at tm <= t) (timers w)). intros due.
  revert w Hf. induction due as [| tm due IH]; intros w Hf; [exact Hf |].
  simpl. apply IH. unfold fire. apply flights_active_sendPermissionNotification. exact Hf.
Qed.

Lemma flights_active_settle id rejected w :
  flights_active w -> flights_active (settle cfg id rejected w).
Proof.
  intros Hf. destruct (flight_of id w) as [f |] eqn:Hfl;
    [| rewrite (settle_unknown id rejected w Hfl); exact Hf].
  destruct (settle_spec id rejected w f Hfl) as (_ & _ & Hin & _).
  apply flight_of_Some in Hfl as [Hfin _].
  unfold flights_active. rewrite Hin. intros g Hg.
  apply elem_of_app in Hg as [Hg | Hg].
  - apply list_elem_of_filter in Hg as [_ Hg]. apply Hf. exact Hg.
  - destruct (decide _); [| inversion Hg].
    apply list_elem_of_singleton in Hg as ->. simpl. apply Hf. exact Hfin.
Qed.

Lemma flights_active_step w a : flights_active w -> flights_active (step cfg w a).
Proof.
  intros Hf. destruct a as [event | session | sid | ms | id rejected |]; simpl.
  - destruct (subscribed (hub w)); [apply flights_active_handleSyncEvent |]; exact Hf.
  - exact Hf.
  - exact Hf.
  - apply flights_active_advance. exact Hf.
  - apply flights_active_settle. exact Hf.
  - destruct (stop_flights w) as (H1 & _). exact (flights_active_same _ _ H1 Hf).
Qed.

(** Every invocation hands over a session that was fetched with [active]
    set. *)
Lemma run_calls actions : forall w,
  flights_active w ->
  exists new,
    calls (run cfg w actions) = calls w ++ new
    /\ Forall (fun c => active (call_session c) = true) new.
Proof.
  induction actions as [| a actions IH]; intros w Hf; simpl.
  - exists []. rewrite app_nil_r. split; [reflexivity | constructor].
  - destruct (IH (step cfg w a) (flights_active_step w a Hf)) as [new2 [H2 Hall]].
    assert (H1 : exists new1, calls (step cfg w a) = calls w ++ new1
                   /\ Forall (fun c => active (call_session c) = true) new1).
    { destruct (settle_or_not a) as [(id & rejected & ->) | Hns].
      - destruct (settle_calls id rejected w) as [new1 [H1 Hfl]].
        exists new1. split; [exact H1 |].
        apply Forall_forall. intros c Hc.
        destruct (Hfl c Hc) as (f & Hin & _ & _ & -> & _). apply Hf. exact Hin.
      - destruct (step_calls w a Hns) as [new1 [H1 Hact]].
        exists new1. split; [exact H1 |].
        apply Forall_forall. intros c Hc. destruct (Hact c Hc) as [k [_ Ha]]. exact Ha. }
    destruct H1 as [new1 [H1 Hall1]].
    exists (new1 ++ new2). unfold run in *. rewrite H2, H1, app_assoc.
    split; [reflexivity |].
    apply Forall_app. split; assumption.
Qed.

Lemma clearing_event event sid w :
  truthy_id event = Some sid ->
  ev_type event = JStr "session-removed"
  \/ (session_changed event = true /\ getNotifiableSession w sid = None) ->
  handleSyncEvent cfg event w = clearSessionState sid w.
Proof.
  intros Hid [Hrem | [Hch Hnone]].
  - apply handleSyncEvent_removed; assumption.
  - apply handleSyncEvent_gone; assumption.
Qed.

(** C5 (amended). A notification is started only for a session that is
    active at that moment: what an event, a debounce callback, a change of
    the engine or [stop] hands to the channels is a session the engine then
    holds with [active] set, whatever timers and cooldown state the hub has.
    A notification already started is carried on: when the promise of a
    waiting loop settles, the channels after it get the session the loop was
    given at its start, whatever the engine holds by then. So every
    invocation hands over a session fetched with [active] set, and a session
    that is missing or inactive and has no loop waiting gets nothing from
    any step. A [session-removed] event, as well as a [session-added] or
    [session-updated] event that finds the session missing or inactive,
    clears the session's handle, request ids and last-ready time, and leaves
    none of its timers in the queue. *)
Theorem inactive_sessions_start_nothing :
  (forall w a,
      (forall id rejected, a <> Settle id rejected) ->
      exists new,
        calls (step cfg w a) = calls w ++ new
        /\ forall c, c ∈ new ->
             exists k, engine w !! k = Some (call_session c)
                       /\ active (call_session c) = true)
  /\ (forall w id rejected, exists new,
        calls (step cfg w (Settle id rejected)) = calls w ++ new
        /\ forall c, c ∈ new ->
             exists f, f ∈ inflight w /\ flight_id f = id
                       /\ call_method c = flight_method f
                       /\ call_session c = flight_session f
                       /\ (flight_channel f < call_channel c)%nat)
  /\ (forall e t0 actions,
        Forall (fun c => active (call_session c) = true)
               (calls (run cfg (start e t0) actions)))
  /\ (forall w a sid,
        well_keyed (engine w) ->
        getNotifiableSession w sid = None ->
        flights_for sid w = [] ->
        calls_for sid (calls (step cfg w a)) = calls_for sid (calls w))
  /\ (forall w event sid,
        truthy_id event = Some sid ->
        ev_type event = JStr "session-removed"
        \/ (session_changed event = true /\ getNotifiableSession w sid = None) ->
        notificationDebounce (hub (handleSyncEvent cfg event w)) !! sid = None
        /\ lastKnownRequests (hub (handleSyncEvent cfg event w)) !! sid = None
        /\ lastReadyNotificationAt (hub (handleSyncEvent cfg event w)) !! sid = None
        /\ calls (handleSyncEvent cfg event w) = calls w
        /\ (consistent w ->
            forall tm, tm ∈ timers (handleSyncEvent cfg event w) ->
                       timer_session tm <> sid)).
Proof.
  split; [exact step_calls |].
  split; [intros w id rejected; apply settle_calls |].
  split.
  { intros e t0 actions.
    destruct (run_calls actions (start e t0)) as [new [Hc Hall]].
    - intros f Hf. inversion Hf.
    - rewrite Hc. exact Hall. }
  split.
  - intros w a sid Hwk Hnone Hfl.
    assert (Hnew : exists new, calls (step cfg w a) = calls w ++ new
                     /\ calls_for sid new = []).
    { destruct (settle_or_not a) as [(id & rejected & ->) | Hns].
      - destruct (settle_calls id rejected w) as [new [Hc Hcont]].
        exists new. split; [exact Hc |].
        apply list_filter_False, Forall_forall. intros c Hc' Hsid.
        destruct (Hcont c Hc') as (f & Hin & _ & _ & Hs & _).
        assert (Hf : f ∈ flights_for sid w).
        { apply list_elem_of_filter. split; [| exact Hin].
          unfold call_session_id in Hsid. congruence. }
        rewrite Hfl in Hf. inversion Hf.
      - destruct (step_calls w a Hns) as [new [Hc Hact]].
        exists new. split; [exact Hc |].
        apply list_filter_False, Forall_forall. intros c Hc' Hsid.
        destruct (Hact c Hc') as [k [Hk Ha]].
        pose proof (Hwk _ _ Hk) as Hkey. unfold call_session_id in Hsid.
        rewrite Hsid in Hkey. subst k.
        unfold getNotifiableSession, getSession in Hnone. rewrite Hk, Ha in Hnone.
        discriminate. }
    destruct Hnew as [new [-> Hnil]].
    rewrite calls_for_app, Hnil. apply app_nil_r.
  - intros w event sid Hid Hev.
    rewrite (clearing_event event sid w Hid Hev).
    destruct (clearSessionState_spec sid w)
      as (Hk & Hd & Hr & _ & Ht & _ & _ & Hc & _).
    rewrite Hk, Hd, Hr, Ht, Hc, !lookup_delete_eq. repeat split.
    intros Hcons tm Hin. exact (without_timer_of_session sid w tm Hcons Hin).
Qed.

(** *** What is recorded *)

(** C4 (amended). On a [session-added] or [session-updated] event for an
    active session whose [agentState.requests] is present, the hub records
    the current set of request ids for the session, also when no id is new
    and when the set is empty; when [requests] is absent the hub is left as
    it was. *)
Theorem permission_detection_records w event sid session :
  truthy_id event = Some sid ->
  session_changed event = true ->
  getSession w sid = Some session ->
  active session = true ->
  sess_id session = sid ->
  (forall reqs,
     agentState session ≫= requests = Some reqs ->
     lastKnownRequests (hub (handleSyncEvent cfg event w)) !! sid
     = Some (current_request_ids session)
     /\ current_request_ids session = dom reqs)
  /\ (agentState session ≫= requests = None -> handleSyncEvent cfg event w = w).
Proof.
  intros Hid Hch Hget Hact Hsid.
  rewrite (handleSyncEvent_active event sid session w Hid Hch Hget Hact).
  split.
  - intros reqs Hreq. unfold current_request_ids. rewrite Hreq. simpl.
    split; [| reflexivity].
    destruct (hasNewRequests (dom reqs)
                (default ∅ (lastKnownRequests (hub w) !! sess_id session))) eqn:Hnew.
    + destruct (checkForPermissionNotification_new session reqs w Hreq Hnew) as (-> & _).
      rewrite Hsid. apply lookup_insert_eq.
    + rewrite (checkForPermissionNotification_known session reqs w Hreq Hnew). simpl.
      rewrite Hsid. apply lookup_insert_eq.
  - apply checkForPermissionNotification_absent.
Qed.

(** *** Loops seen through *)

Lemma drop_S_cons {A} (l : list A) i x rest :
  drop i l = x :: rest -> drop (S i) l = rest.
Proof.
  intros H. replace (S i) with (i + 1)%nat by lia.
  rewrite <- drop_drop, H. reflexivity.
Qed.

Lemma replicate_S_end {A} (x : A) n : replicate n x ++ [x] = x :: replicate n x.
Proof.
  induction n as [| n IH]; [reflexivity |]. simpl. rewrite IH. reflexivity.
Qed.

Lemma run_app w actions1 actions2 :
  run cfg w (actions1 ++ actions2) = run cfg (run cfg w actions1) actions2.
Proof. apply foldl_app. Qed.

Lemma run_cons w a actions :
  run cfg w (a :: actions) = run cfg (step cfg w a) actions.
Proof. reflexivity. Qed.

(** A loop whose promises all settle invokes every channel left to it, once
    and in order, and prints one line for each channel that threw and each
    promise that was rejected; then it is gone. *)
Lemma loop_completes m id session chs : forall i w outcomes,
  (forall f, f ∈ inflight w -> flight_id f <> id) ->
  drop i (channels cfg) = chs ->
  length outcomes = promises m session chs ->
  let w' := run cfg (notify_loop m id i chs session w) (settles id outcomes) in
  calls w' = calls w ++ once_per_channel m session i (length chs)
  /\ console w'
     = console w ++ replicate (throwers m session chs + rejected_among outcomes)
                      (failure_message m)
  /\ inflight w' = inflight w
  /\ engine w' = engine w /\ hub w' = hub w /\ clock w' = clock w
  /\ timers w' = timers w /\ next_timer w' = next_timer w
  /\ next_flight w' = next_flight w.
Proof.
  unfold promises, throwers, rejected_among, settles.
  induction chs as [| ch chs IH]; intros i w outcomes Hfree Hdrop Hlen.
  - destruct outcomes; [| discriminate Hlen]. simpl. rewrite !app_nil_r. repeat split.
  - pose proof (drop_S_cons _ _ _ _ Hdrop) as Hrest.
    cbn [notify_loop]. destruct (throws ch m session) eqn:Hthrows.
    + rewrite filter_cons_False in Hlen by congruence.
      rewrite filter_cons_True by exact Hthrows.
      destruct (IH (S i) (add_error (failure_message m) (add_call (mkCall m i session) w))
                  outcomes Hfree Hrest Hlen)
        as (Hc & Ho & Hf & He & Hh & Hk & Ht & Hn & Hnf).
      cbv zeta in *. rewrite Hc, Ho, Hf, He, Hh, Hk, Ht, Hn, Hnf.
      cbn [calls console inflight engine hub clock timers next_timer next_flight
           add_error add_call length].
      rewrite <- !app_assoc. repeat split.
    + rewrite filter_cons_True in Hlen by exact Hthrows.
      rewrite filter_cons_False by congruence.
      destruct outcomes as [| rejected outcomes]; [discriminate Hlen |].
      rewrite fmap_cons, run_cons. cbn [step].
      set (w1 := add_call (mkCall m i session) w).
      set (w2 := set_inflight (inflight w1 ++ [mkFlight id m session i]) w1).
      assert (Hfilter : filter (fun g => flight_id g <> id) (inflight w2) = inflight w).
      { unfold w2, w1. cbn [inflight set_inflight add_call].
        rewrite filter_app, filter_cons_False by (simpl; tauto).
        rewrite filter_nil, app_nil_r.
        apply list_filter_True, Forall_forall. exact Hfree. }
      assert (Hflight : flight_of id w2 = Some (mkFlight id m session i)).
      { unfold flight_of, w2, w1. cbn [inflight set_inflight add_call].
        rewrite filter_app, filter_cons_True by reflexivity.
        rewrite (list_filter_False (fun f => flight_id f = id) (inflight w))
          by (apply Forall_forall; exact Hfree).
        reflexivity. }
      unfold settle. rewrite Hflight. cbn [flight_method flight_channel flight_session].
      rewrite Hrest, Hfilter.
      set (w3 := set_inflight (inflight w) w2).
      set (w4 := if rejected then add_error (failure_message m) w3 else w3).
      assert (Hfree4 : forall f, f ∈ inflight w4 -> flight_id f <> id)
        by (unfold w4; destruct rejected; exact Hfree).
      assert (Hlen' : length outcomes
                      = length (filter (fun ch => throws ch m session = false) chs))
        by (simpl in Hlen; lia).
      destruct (IH (S i) w4 outcomes Hfree4 Hrest Hlen')
        as (Hc & Ho & Hf & He & Hh & Hk & Ht & Hn & Hnf).
      cbv zeta in *. rewrite Hc, Ho, Hf, He, Hh, Hk, Ht, Hn, Hnf.
      unfold w4, w3, w2, w1. destruct rejected;
        cbn [calls console inflight engine hub clock timers next_timer next_flight
             set_inflight add_error add_call length];
        rewrite <- ?app_assoc.
      * rewrite filter_cons_True by reflexivity. cbn [length].
        rewrite Nat.add_succ_r. repeat split.
      * rewrite filter_cons_False by discriminate. repeat split.
Qed.

(** A notification whose promises all settle invokes every channel once, in
    order. *)
Lemma notification_completes m session w outcomes :
  flights_fresh w ->
  length outcomes = promises m session (channels cfg) ->
  let w' := run cfg (notify_loop m (next_flight w) 0 (channels cfg) session
                       (set_next_flight (S (next_flight w)) w))
              (settles (next_flight w) outcomes) in
  calls w' = calls w ++ once_per_channel m session 0 (length (channels cfg))
  /\ console w'
     = console w ++ replicate (throwers m session (channels cfg) + rejected_among outcomes)
                      (failure_message m)
  /\ inflight w' = inflight w
  /\ engine w' = engine w /\ hub w' = hub w /\ clock w' = clock w
  /\ timers w' = timers w /\ next_timer w' = next_timer w
  /\ next_flight w' = S (next_flight w).
Proof.
  intros [_ Hlt] Hlen.
  apply (loop_completes m (next_flight w) session (channels cfg) 0
           (set_next_flight (S (next_flight w)) w) outcomes);
    [| reflexivity | exact Hlen].
  intros f Hf. specialize (Hlt f Hf). simpl in Hf. lia.
Qed.

(** A waiting loop whose promises all settle invokes every channel after
    the one it waits for, once and in order. *)
Lemma flight_completes w f outcomes :
  flights_fresh w -> f ∈ inflight w ->
  let rest := drop (S (flight_channel f)) (channels cfg) in
  length outcomes = S (promises (flight_method f) (flight_session f) rest) ->
  let w' := run cfg w (settles (flight_id f) outcomes) in
  calls w' = calls w
             ++ once_per_channel (flight_method f) (flight_session f)
                  (S (flight_channel f)) (length rest)
  /\ inflight w' = filter (fun g => flight_id g <> flight_id f) (inflight w)
  /\ engine w' = engine w /\ hub w' = hub w /\ clock w' = clock w
  /\ timers w' = timers w /\ next_timer w' = next_timer w
  /\ next_flight w' = next_flight w.
Proof.
  intros Hfresh Hin rest Hlen. subst rest.
  destruct outcomes as [| rejected outcomes]; [discriminate Hlen |].
  unfold settles. rewrite fmap_cons, run_cons. cbn [step].
  unfold settle. rewrite (flight_of_elem w f Hfresh Hin).
  set (w1 := set_inflight (filter (fun g => flight_id g <> flight_id f) (inflight w)) w).
  set (w2 := if rejected then add_error (failure_message (flight_method f)) w1 else w1).
  assert (Hfree : forall g, g ∈ inflight w2 -> flight_id g <> flight_id f).
  { unfold w2, w1. destruct rejected; simpl; intros g Hg;
      apply list_elem_of_filter in Hg as [Hne _]; exact Hne. }
  destruct (loop_completes (flight_method f) (flight_id f) (flight_session f)
              (drop (S (flight_channel f)) (channels cfg))
              (S (flight_channel f)) w2 outcomes Hfree eq_refl)
    as (Hc & _ & Hf & He & Hh & Hk & Ht & Hn & Hnf);
    [simpl in Hlen; lia |].
  cbv zeta in *. fold (settles (flight_id f) outcomes).
  rewrite Hc, Hf, He, Hh, Hk, Ht, Hn, Hnf.
  unfold w2, w1. destruct rejected; repeat split.
Qed.

(** *** The ready cooldown *)

Lemma sendReadyNotification_fires sid session w :
  getNotifiableSession w sid = Some session ->
  readyCooldownMs cfg <= clock w - default 0 (lastReadyNotificationAt (hub w) !! sid) ->
  sendReadyNotification cfg sid w
  = notifyReady cfg session
      (set_hub (set_lastReadyNotificationAt
                  (<[sid := clock w]> (lastReadyNotificationAt (hub w))) (hub w)) w).
Proof.
  unfold sendReadyNotification. intros -> Hle.
  rewrite (proj2 (Z.ltb_ge _ _) Hle). reflexivity.
Qed.

Lemma sendReadyNotification_drops sid session w :
  getNotifiableSession w sid = Some session ->
  clock w - default 0 (lastReadyNotificationAt (hub w) !! sid) < readyCooldownMs cfg ->
  sendReadyNotification cfg sid w = w.
Proof.
  unfold sendReadyNotification. intros -> Hlt.
  rewrite (proj2 (Z.ltb_lt _ _) Hlt). reflexivity.
Qed.

Lemma notifyReady_spec session w :
  let w' := notifyReady cfg session w in
  calls w' = calls w ++ first_calls cfg sendReady session
  /\ engine w' = engine w /\ hub w' = hub w /\ clock w' = clock w
  /\ timers w' = timers w /\ next_timer w' = next_timer w.
Proof. apply notify_start. Qed.

Lemma notifyReady_flights session w :
  let w' := notifyReady cfg session w in
  inflight w' = inflight w ++ first_flight cfg sendReady session (next_flight w)
  /\ next_flight w' = S (next_flight w)
  /\ console w' = console w ++ replicate (thrown sendReady session (channels cfg))
                                 (failure_message sendReady).
Proof. apply notify_start_flights. Qed.

Lemma getNotifiableSession_active w sid session :
  getSession w sid = Some session -> active session = true ->
  getNotifiableSession w sid = Some session.
Proof. unfold getNotifiableSession. intros -> ->. reflexivity. Qed.

(** One [ready] event, seen from outside. *)
Lemma ready_event_step w event sid session :
  subscribed (hub w) = true ->
  truthy_id event = Some sid ->
  ev_type event = JStr "message-received" ->
  extractMessageEventType event = Normal (Some "ready") ->
  getSession w sid = Some session ->
  active session = true ->
  let last := default 0 (lastReadyNotificationAt (hub w) !! sid) in
  let w' := step cfg w (Emit event) in
  engine w' = engine w /\ subscribed (hub w') = true
  /\ timers w' = timers w /\ clock w' = clock w
  /\ (readyCooldownMs cfg <= clock w - last ->
      w' = notifyReady cfg session
             (set_hub (set_lastReadyNotificationAt
                         (<[sid := clock w]> (lastReadyNotificationAt (hub w)))
                         (hub w)) w)
      /\ calls w' = calls w ++ first_calls cfg sendReady session
      /\ lastReadyNotificationAt (hub w') !! sid = Some (clock w)
      /\ inflight w' = inflight w ++ first_flight cfg sendReady session (next_flight w)
      /\ next_flight w' = S (next_flight w))
  /\ (clock w - last < readyCooldownMs cfg -> w' = w).
Proof.
  intros Hsub Hid Hty Hex Hget Hact. simpl. rewrite Hsub.
  rewrite (handleSyncEvent_ready event sid w Hid Hty Hex).
  pose proof (getNotifiableSession_active w sid session Hget Hact) as Hnot.
  destruct (sendReadyNotification_frame sid w) as (Ht & _ & _ & _ & Hs & He & Hk).
  rewrite Ht, Hs, He, Hk.
  split; [reflexivity |]. split; [exact Hsub |].
  split; [reflexivity |]. split; [reflexivity |]. split.
  - intros Hle. rewrite (sendReadyNotification_fires sid session w Hnot Hle).
    split; [reflexivity |].
    set (w1 := set_hub (set_lastReadyNotificationAt
                          (<[sid := clock w]> (lastReadyNotificationAt (hub w)))
                          (hub w)) w).
    destruct (notifyReady_spec session w1) as (Hc & _ & Hh & _).
    destruct (notifyReady_flights session w1) as (Hf & Hnf & _).
    rewrite Hc, Hh, Hf, Hnf.
    split; [reflexivity |]. split; [simpl; apply lookup_insert_eq |].
    split; reflexivity.
  - intros Hlt. apply (sendReadyNotification_drops sid session w Hnot Hlt).
Qed.

Lemma readyEvent_parses sid :
  sid <> "" ->
  truthy_id (readyEvent sid) = Some sid
  /\ ev_type (readyEvent sid) = JStr "message-received"
  /\ extractMessageEventType (readyEvent sid) = Normal (Some "ready").
Proof.
  intros Hsid. unfold truthy_id. simpl.
  rewrite (proj2 (String.eqb_neq sid "") Hsid). repeat split.
Qed.

Lemma fire_all_clock due : forall w t,
  clock w <= t -> Forall (fun tm => fires_at tm <= t) due ->
  clock (foldl (fire cfg) w due) <= t.
Proof.
  induction due as [| tm due IH]; intros w t Hw Hdue; [exact Hw |].
  apply Forall_cons in Hdue as [Htm Hdue]. simpl. apply IH; [| exact Hdue].
  unfold fire.
  match goal with
  | |- context [sendPermissionNotification cfg ?s ?w0] =>
      destruct (sendPermissionNotification_spec s w0) as (_ & _ & _ & Hk & _)
  end.
  rewrite Hk. simpl. lia.
Qed.

(** The clock after a sleep. *)
Lemma advance_clock w ms :
  0 <= ms -> clock (advance cfg (clock w + ms) w) = clock w + ms.
Proof.
  intros Hms. unfold advance. simpl.
  pose proof (fire_all_clock (filter (fun tm => fires_at tm <= clock w + ms) (timers w))
                w (clock w + ms)) as Hle.
  rewrite Z.max_r; [reflexivity |]. apply Hle; [lia |].
  apply Forall_forall. intros tm Hin. apply list_elem_of_filter in Hin as [H _]. exact H.
Qed.

(** Time passing with no timer pending. *)
Lemma sleep_idle w ms :
  timers w = [] -> 0 <= ms ->
  step cfg w (Sleep ms) = set_clock (clock w + ms) w.
Proof.
  intros Ht Hms. simpl. unfold advance. rewrite Ht. simpl.
  f_equal. lia.
Qed.

(** A first [ready] event, a repeat within the cooldown, and one after it,
    while no promise has settled: the second event finds the time of the
    first recorded. *)
Lemma ready_three_events w0 sid session d1 d2 :
  sid <> "" ->
  subscribed (hub w0) = true ->
  getSession w0 sid = Some session ->
  active session = true ->
  timers w0 = [] ->
  lastReadyNotificationAt (hub w0) !! sid = None ->
  readyCooldownMs cfg <= clock w0 ->
  0 <= d1 < readyCooldownMs cfg ->
  0 <= d2 ->
  readyCooldownMs cfg <= d1 + d2 ->
  let first := first_calls cfg sendReady session in
  calls (run cfg w0 [Emit (readyEvent sid)]) = calls w0 ++ first
  /\ calls (run cfg w0 [Emit (readyEvent sid); Sleep d1; Emit (readyEvent sid)])
     = calls w0 ++ first
  /\ calls (run cfg w0 [Emit (readyEvent sid); Sleep d1; Emit (readyEvent sid);
                        Sleep d2; Emit (readyEvent sid)])
     = calls w0 ++ first ++ first.
Proof.
  intros Hsid Hsub Hget Hact Ht Hlast Hnow Hd1 Hd2 Hsum first.
  destruct (readyEvent_parses sid Hsid) as (Hid & Hty & Hex).
  unfold run. cbn [foldl].
  set (w1 := step cfg w0 (Emit (readyEvent sid))).
  destruct (ready_event_step w0 _ sid session Hsub Hid Hty Hex Hget Hact)
    as (He1 & Hs1 & Ht1 & Hk1 & Hfire1 & _).
  fold w1 in He1, Hs1, Ht1, Hk1, Hfire1.
  rewrite Hlast in Hfire1. simpl in Hfire1.
  destruct Hfire1 as (_ & Hc1 & Hl1 & _); [lia |].
  split; [exact Hc1 |].
  rewrite (sleep_idle w1 d1) by (try lia; rewrite Ht1; exact Ht).
  set (w2 := set_clock (clock w1 + d1) w1).
  assert (Hget2 : getSession w2 sid = Some session)
    by (unfold getSession in *; simpl; rewrite He1; exact Hget).
  destruct (ready_event_step w2 _ sid session Hs1 Hid Hty Hex Hget2 Hact)
    as (_ & _ & _ & _ & _ & Hdrop2).
  rewrite Hdrop2 by (simpl; rewrite Hl1; simpl; lia).
  split; [exact Hc1 |].
  rewrite (sleep_idle w2 d2) by (try lia; simpl; rewrite Ht1; exact Ht).
  set (w4 := set_clock (clock w2 + d2) w2).
  assert (Hget4 : getSession w4 sid = Some session) by exact Hget2.
  destruct (ready_event_step w4 _ sid session Hs1 Hid Hty Hex Hget4 Hact)
    as (_ & _ & _ & _ & Hfire5 & _).
  destruct Hfire5 as (_ & Hc5 & _); [simpl; rewrite Hl1; simpl; lia |].
  rewrite Hc5. change (calls w4) with (calls w1).
  rewrite Hc1, <- app_assoc. reflexivity.
Qed.

(** A [ready] event that passes the cooldown, with every promise of its
    notification settled. *)
Lemma ready_event_settled w event sid session outcomes :
  flights_fresh w ->
  subscribed (hub w) = true ->
  truthy_id event = Some sid ->
  ev_type event = JStr "message-received" ->
  extractMessageEventType event = Normal (Some "ready") ->
  getSession w sid = Some session ->
  active session = true ->
  readyCooldownMs cfg <= clock w - default 0 (lastReadyNotificationAt (hub w) !! sid) ->
  length outcomes = promises sendReady session (channels cfg) ->
  let w' := run cfg w (Emit event :: settles (next_flight w) outcomes) in
  calls w' = calls w ++ once_per_channel sendReady session 0 (length (channels cfg))
  /\ console w'
     = console w
       ++ replicate (throwers sendReady session (channels cfg) + rejected_among outcomes)
            (failure_message sendReady)
  /\ inflight w' = inflight w
  /\ hub w' = set_lastReadyNotificationAt
                (<[sid := clock w]> (lastReadyNotificationAt (hub w))) (hub w)
  /\ engine w' = engine w /\ clock w' = clock w /\ timers w' = timers w
  /\ next_timer w' = next_timer w /\ next_flight w' = S (next_flight w).
Proof.
  intros Hfresh Hsub Hid Hty Hex Hget Hact Hle Hlen.
  destruct (ready_event_step w event sid session Hsub Hid Hty Hex Hget Hact)
    as (_ & _ & _ & _ & Hfire & _).
  destruct (Hfire Hle) as (Hw & _).
  rewrite run_cons. cbv zeta. rewrite Hw. unfold notifyReady.
  set (w1 := set_hub (set_lastReadyNotificationAt
                        (<[sid := clock w]> (lastReadyNotificationAt (hub w)))
                        (hub w)) w).
  destruct (notification_completes sendReady session w1 outcomes Hfresh Hlen)
    as (Hc & Ho & Hf & He & Hh & Hk & Ht & Hn & Hnf).
  change (next_flight w) with (next_flight w1).
  rewrite Hc, Ho, Hf, He, Hh, Hk, Ht, Hn, Hnf. repeat split.
Qed.

(** The same three events, each notification seen through before the next
    event: every channel is invoked once for the first event and once for
    the third. *)
Lemma ready_three_events_settled w0 sid session d1 d2 outcomes1 outcomes3 :
  sid <> "" ->
  flights_fresh w0 ->
  subscribed (hub w0) = true ->
  getSession w0 sid = Some session ->
  active session = true ->
  timers w0 = [] ->
  lastReadyNotificationAt (hub w0) !! sid = None ->
  readyCooldownMs cfg <= clock w0 ->
  0 <= d1 < readyCooldownMs cfg ->
  0 <= d2 ->
  readyCooldownMs cfg <= d1 + d2 ->
  length outcomes1 = promises sendReady session (channels cfg) ->
  length outcomes3 = promises sendReady session (channels cfg) ->
  let all := once_per_channel sendReady session 0 (length (channels cfg)) in
  let first := Emit (readyEvent sid) :: settles (next_flight w0) outcomes1 in
  calls (run cfg w0 first) = calls w0 ++ all
  /\ calls (run cfg w0 (first ++ [Sleep d1; Emit (readyEvent sid)])) = calls w0 ++ all
  /\ calls (run cfg w0 (first ++ [Sleep d1; Emit (readyEvent sid); Sleep d2]
                          ++ Emit (readyEvent sid)
                             :: settles (S (next_flight w0)) outcomes3))
     = calls w0 ++ all ++ all.
Proof.
  intros Hsid Hfresh Hsub Hget Hact Ht Hlast Hnow Hd1 Hd2 Hsum Hlen1 Hlen3 all first.
  destruct (readyEvent_parses sid Hsid) as (Hid & Hty & Hex).
  destruct (ready_event_settled w0 _ sid session outcomes1 Hfresh Hsub Hid Hty Hex Hget Hact)
    as (Hc1 & _ & Hf1 & Hh1 & He1 & Hk1 & Ht1 & _ & Hnf1);
    [rewrite Hlast; simpl; lia | exact Hlen1 |].
  fold first in Hc1, Hf1, Hh1, He1, Hk1, Ht1, Hnf1.
  set (w1 := run cfg w0 first) in *.
  assert (Hs1 : subscribed (hub w1) = true) by (rewrite Hh1; exact Hsub).
  assert (Hl1 : lastReadyNotificationAt (hub w1) !! sid = Some (clock w0))
    by (rewrite Hh1; simpl; apply lookup_insert_eq).
  split; [exact Hc1 |].
  rewrite !run_app. fold w1.
  rewrite !run_cons. change (run cfg ?w []) with w.
  rewrite (sleep_idle w1 d1) by (try lia; rewrite Ht1; exact Ht).
  set (w2 := set_clock (clock w1 + d1) w1).
  assert (Hget2 : getSession w2 sid = Some session)
    by (unfold getSession in *; simpl; rewrite He1; exact Hget).
  destruct (ready_event_step w2 _ sid session Hs1 Hid Hty Hex Hget2 Hact)
    as (_ & _ & _ & _ & _ & Hdrop2).
  rewrite Hdrop2 by (simpl; rewrite Hl1, Hk1; simpl; lia).
  split; [exact Hc1 |].
  rewrite (sleep_idle w2 d2) by (try lia; simpl; rewrite Ht1; exact Ht).
  set (w4 := set_clock (clock w2 + d2) w2).
  assert (Hfresh4 : flights_fresh w4).
  { unfold flights_fresh. change (inflight w4) with (inflight w1).
    change (next_flight w4) with (next_flight w1). rewrite Hf1, Hnf1.
    destruct Hfresh as [Hnd Hlt]. split; [exact Hnd |].
    intros f Hf. specialize (Hlt f Hf). lia. }
  destruct (ready_event_settled w4 (readyEvent sid) sid session outcomes3 Hfresh4 Hs1
              Hid Hty Hex Hget2 Hact) as (Hc5 & _);
    [simpl; rewrite Hl1, Hk1; simpl; lia | exact Hlen3 |].
  change (next_flight w4) with (next_flight w1) in Hc5. rewrite Hnf1 in Hc5.
  rewrite run_cons in Hc5. rewrite Hc5.
  change (calls w4) with (calls w1). rewrite Hc1, <- app_assoc. reflexivity.
Qed.

(** *** The permission debounce *)

Lemma calls_for_permission_same e sid :
  well_keyed e ->
  calls_for sid (permission_calls cfg e sid) = permission_calls cfg e sid.
Proof.
  intros Hwk. unfold permission_calls.
  destruct (e !! sid) as [session |] eqn:He; [| reflexivity].
  destruct (active session); [| reflexivity].
  rewrite <- (Hwk _ _ He). apply calls_for_once.
Qed.

(** What a notification hands over in its first turn and what it hands over
    later make one invocation of every channel. *)
Lemma first_calls_rest m session :
  first_calls cfg m session
  ++ once_per_channel m session (reached m session (channels cfg))
       (length (channels cfg) - reached m session (channels cfg))
  = once_per_channel m session 0 (length (channels cfg)).
Proof.
  unfold first_calls.
  rewrite <- (once_per_channel_app m session 0). f_equal.
  unfold reached. lia.
Qed.

Lemma promises_thrown m session chs :
  promises m session chs
  = if decide (thrown m session chs < length chs)%nat
    then S (promises m session (drop (S (thrown m session chs)) chs))
    else 0%nat.
Proof.
  unfold promises. induction chs as [| ch chs IH]; [reflexivity |].
  cbn [thrown length]. destruct (throws ch m session) eqn:Hthrows.
  - rewrite filter_cons_False by congruence. rewrite IH.
    destruct (decide (thrown m session chs < length chs)%nat);
      [rewrite decide_True by lia | rewrite decide_False by lia]; reflexivity.
  - rewrite filter_cons_True by exact Hthrows.
    rewrite decide_True by lia. reflexivity.
Qed.

(** A notification that has started, seen through: the channels it has not
    reached yet are invoked once each, in order. *)
Lemma started_completes w m session id outcomes :
  flights_fresh w ->
  (forall f, f ∈ first_flight cfg m session id -> f ∈ inflight w) ->
  length outcomes = promises m session (channels cfg) ->
  calls (run cfg w (settles id outcomes))
  = calls w ++ once_per_channel m session (reached m session (channels cfg))
                 (length (channels cfg) - reached m session (channels cfg)).
Proof.
  intros Hfresh Hin Hlen. rewrite promises_thrown in Hlen.
  unfold first_flight in Hin. unfold reached.
  destruct (decide (thrown m session (channels cfg) < length (channels cfg))%nat)
    as [Hlt | Hge].
  - set (f := mkFlight id m session (thrown m session (channels cfg))) in *.
    destruct (flight_completes w f outcomes Hfresh) as (Hc & _);
      [apply Hin; left | exact Hlen |].
    cbv zeta in Hc. cbn [flight_id flight_method flight_session flight_channel f] in Hc.
    rewrite Hc, length_drop. f_equal. f_equal; lia.
  - destruct outcomes; [| discriminate Hlen].
    assert (Hz : (length (channels cfg)
                  - S (thrown m session (channels cfg)) `min` length (channels cfg) = 0)%nat)
      by lia.
    rewrite Hz. simpl. rewrite app_nil_r. reflexivity.
Qed.


Lemma calls_for_permission_other e sid k :
  well_keyed e -> k <> sid -> calls_for sid (permission_calls cfg e k) = [].
Proof.
  intros Hwk Hne. unfold permission_calls.
  destruct (e !! k) as [session |] eqn:He; [| reflexivity].
  destruct (active session); [| reflexivity].
  apply calls_for_other. rewrite (Hwk _ _ He). exact Hne.
Qed.

Lemma calls_for_flat_map_notin e sid (l : list string) :
  well_keyed e -> sid ∉ l ->
  calls_for sid (flat_map (permission_calls cfg e) l) = [].
Proof.
  intros Hwk. induction l as [| k l IH]; intros Hnotin; [reflexivity |].
  simpl. rewrite calls_for_app.
  rewrite calls_for_permission_other
    by (try exact Hwk; intros ->; apply Hnotin; left).
  apply IH. intros Hin. apply Hnotin. right. exact Hin.
Qed.

Lemma calls_for_flat_map_once e sid (l : list string) :
  well_keyed e -> NoDup l -> sid ∈ l ->
  calls_for sid (flat_map (permission_calls cfg e) l) = permission_calls cfg e sid.
Proof.
  intros Hwk. induction l as [| k l IH]; intros Hnd Hin; [inversion Hin |].
  apply NoDup_cons in Hnd as [Hk Hnd]. simpl. rewrite calls_for_app.
  apply elem_of_cons in Hin as [<- | Hin].
  - rewrite calls_for_permission_same by exact Hwk.
    rewrite calls_for_flat_map_notin by assumption. apply app_nil_r.
  - rewrite calls_for_permission_other
      by (try exact Hwk; intros ->; contradiction).
    apply IH; assumption.
Qed.

(** Time passing short of a session's deadline: its timer stays, and nothing
    is sent for it. *)
Lemma sleep_quiet t w tm sid :
  consistent w -> well_keyed (engine w) ->
  tm ∈ timers w -> timer_session tm = sid -> t < fires_at tm ->
  tm ∈ timers (advance cfg t w)
  /\ calls_for sid (calls (advance cfg t w)) = calls_for sid (calls w).
Proof.
  intros Hc Hwk Hin Hs Hlt.
  destruct (advance_spec t w) as (Hcalls & _ & Ht & _).
  rewrite Hcalls, Ht. split.
  - apply list_elem_of_filter. split; [| exact Hin].
    intros Hid. pose proof (due_id_is_due t w tm Hc Hin Hid). lia.
  - rewrite calls_for_app, calls_for_flat_map_notin; [apply app_nil_r | exact Hwk |].
    intros Hk. pose proof (due_session_is_due t w tm sid Hc Hin Hs Hk). lia.
Qed.

(** Time passing up to a session's deadline: its callback runs once. *)
Lemma sleep_fires t w tm sid :
  consistent w -> well_keyed (engine w) ->
  tm ∈ timers w -> timer_session tm = sid -> fires_at tm <= t ->
  calls_for sid (calls (advance cfg t w))
  = calls_for sid (calls w) ++ permission_calls cfg (engine w) sid.
Proof.
  intros Hc Hwk Hin Hs Hle.
  destruct (advance_spec t w) as (Hcalls & _).
  rewrite Hcalls, calls_for_app. f_equal.
  apply calls_for_flat_map_once; [exact Hwk | |].
  - eapply NoDup_fmap_sublist; [apply sublist_filter |].
    apply consistent_sessions_NoDup. exact Hc.
  - rewrite <- Hs. apply list_elem_of_fmap_2, list_elem_of_filter. auto.
Qed.

Lemma well_keyed_insert e session :
  well_keyed e -> well_keyed (<[sess_id session := session]> e).
Proof.
  intros Hwk k s Hk.
  destruct (decide (sess_id session = k)) as [<- | Hne].
  - rewrite lookup_insert_eq in Hk. congruence.
  - rewrite lookup_insert_ne in Hk by exact Hne. apply Hwk. exact Hk.
Qed.

Lemma trigger w event sid session :
  consistent w -> well_keyed (engine w) -> subscribed (hub w) = true ->
  sess_id session = sid -> active session = true ->
  truthy_id event = Some sid -> session_changed event = true ->
  hasNewRequests (current_request_ids session)
    (default ∅ (lastKnownRequests (hub w) !! sid)) = true ->
  let w' := run cfg w [SetSession session; Emit event] in
  pending cfg w' sid (current_request_ids session)
  /\ calls w' = calls w
  /\ engine w' = <[sid := session]> (engine w).
Proof.
  intros Hc Hwk Hsub Hsid Hact Hid Hch Hnew.
  unfold run. cbn [foldl step]. rewrite Hsid.
  set (w1 := set_engine (<[sid := session]> (engine w)) w).
  assert (Hc1 : consistent w1) by exact Hc.
  change (subscribed (hub w1)) with (subscribed (hub w)). rewrite Hsub.
  assert (Hget : getSession w1 sid = Some session)
    by (unfold getSession, w1; simpl; apply lookup_insert_eq).
  rewrite (handleSyncEvent_active event sid session w1 Hid Hch Hget Hact).
  destruct (hasNewRequests_present _ _ Hnew) as [reqs [Hreq Hids]].
  rewrite Hids in *.
  assert (Hnew1 : hasNewRequests (dom reqs)
            (default ∅ (lastKnownRequests (hub w1) !! sess_id session)) = true)
    by (rewrite Hsid; exact Hnew).
  destruct (checkForPermissionNotification_new session reqs w1 Hreq Hnew1)
    as (Hk & Hd & Hr & Hs & Ht & Hn & He & Hclock & Hcalls).
  split; [| split; [exact Hcalls | exact He]].
  unfold pending. split; [apply consistent_checkForPermissionNotification; exact Hc1 |].
  rewrite He, Hs, Hk, Ht, Hclock, Hsid.
  split; [unfold w1; simpl; rewrite <- Hsid; apply well_keyed_insert; exact Hwk |].
  split; [exact Hsub |].
  split; [rewrite lookup_insert_eq; reflexivity |].
  eexists. split; [apply elem_of_app; right; apply list_elem_of_singleton; reflexivity |].
  split; reflexivity.
Qed.

(** Events that keep coming within the window keep the timer pending, and
    nothing is sent meanwhile. *)
Lemma burst_pending sid (rest : Burst) : forall w known,
  pending cfg w sid known ->
  triggering cfg sid known rest ->
  exists known',
    pending cfg (run cfg w (burst_actions rest)) sid known'
    /\ calls_for sid (calls (run cfg w (burst_actions rest))) = calls_for sid (calls w).
Proof.
  induction rest as [| [[gap session] event] rest IH]; intros w known Hp Htr.
  - exists known. split; [exact Hp | reflexivity].
  - destruct Htr as (Hgap & Hsid & Hact & Hid & Hch & Hnew & Hrest).
    destruct Hp as (Hc & Hwk & Hsub & Hknown & tm & Hin & Hs & Hfire).
    change (burst_actions ((gap, session, event) :: rest))
      with ([Sleep gap] ++ [SetSession session; Emit event] ++ burst_actions rest).
    rewrite !run_app.
    change (run cfg w [Sleep gap]) with (advance cfg (clock w + gap) w).
    set (w1 := advance cfg (clock w + gap) w).
    destruct (sleep_quiet (clock w + gap) w tm sid Hc Hwk Hin Hs) as [Hin1 Hcalls1];
      [lia |].
    destruct (advance_spec (clock w + gap) w) as (_ & He1 & _ & _ & Hk1 & _ & Hs1 & _).
    fold w1 in Hin1, Hcalls1, He1, Hk1, Hs1.
    assert (Hc1 : consistent w1) by (apply consistent_advance; exact Hc).
    destruct (trigger w1 event sid session) as (Hp2 & Hcalls2 & _);
      [exact Hc1 | rewrite He1; exact Hwk | congruence | exact Hsid | exact Hact
      | exact Hid | exact Hch | apply hasNewRequests_spec; rewrite Hk1, Hknown; exact Hnew |].
    destruct (IH _ _ Hp2 Hrest) as [known' [Hp3 Hcalls3]].
    exists known'. split; [exact Hp3 |].
    rewrite Hcalls3, Hcalls2. exact Hcalls1.
Qed.

(** *** Worlds the hub can be in *)

Lemma consistent_run actions : forall w,
  consistent w -> consistent (run cfg w actions).
Proof.
  induction actions as [| a actions IH]; intros w Hc; [exact Hc |].
  apply (IH (step cfg w a)). apply consistent_step. exact Hc.
Qed.

Lemma step_engine w a :
  engine (step cfg w a)
  = match a with
    | SetSession session => <[sess_id session := session]> (engine w)
    | DropSession sid => delete sid (engine w)
    | _ => engine w
    end.
Proof.
  destruct a as [event | session | sid | ms | id rejected |]; simpl; try reflexivity.
  - destruct (subscribed (hub w)); [| reflexivity].
    unfold handleSyncEvent.
    destruct (truthy_id event) as [sid |]; [| reflexivity].
    destruct (_ || _).
    { destruct (getSession w sid) as [session |];
        [destruct (active session) |]; try apply clearSessionState_spec.
      unfold checkForPermissionNotification.
      destruct (agentState session ≫= requests) as [reqs |]; [| reflexivity].
      destruct (negb _); [reflexivity |].
      destruct (notificationDebounce _ !! _); reflexivity. }
    destruct (is_str (ev_type event) "session-removed");
      [apply clearSessionState_spec |].
    destruct (is_str (ev_type event) "message-received"); [| reflexivity].
    destruct (extractMessageEventType event) as [[eventType |] |]; try reflexivity.
    destruct (String.eqb eventType "ready"); [| reflexivity].
    apply sendReadyNotification_frame.
  - apply advance_spec.
  - apply settle_frame.
  - unfold stop. simpl. apply clearTimeout_all.
Qed.

Lemma well_keyed_step w a : well_keyed (engine w) -> well_keyed (engine (step cfg w a)).
Proof.
  intros Hwk. rewrite step_engine.
  destruct a as [event | session | sid | ms | id rejected |]; try exact Hwk.
  - apply well_keyed_insert. exact Hwk.
  - intros k s Hk. apply lookup_delete_Some in Hk as [_ Hk]. apply Hwk. exact Hk.
Qed.

(** Every world reached from a fresh hub has its handle map and timer queue
    in agreement, and its sessions under their own ids. *)
Lemma reachable_invariant actions : forall w,
  consistent w -> well_keyed (engine w) ->
  consistent (run cfg w actions) /\ well_keyed (engine (run cfg w actions)).
Proof.
  induction actions as [| a actions IH]; intros w Hc Hwk; [split; assumption |].
  apply (IH (step cfg w a)); [apply consistent_step | apply well_keyed_step]; assumption.
Qed.

Lemma flights_fresh_run actions : forall w,
  flights_fresh w -> flights_fresh (run cfg w actions).
Proof.
  induction actions as [| a actions IH]; intros w Hf; [exact Hf |].
  apply (IH (step cfg w a)), flights_fresh_step, Hf.
Qed.

(** *** The loop a debounce callback leaves waiting *)

Lemma fire_flights w tm :
  inflight (fire cfg w tm)
  = inflight w
    ++ match getNotifiableSession w (timer_session tm) with
       | Some session => first_flight cfg sendPermissionRequest session (next_flight w)
       | None => []
       end.
Proof.
  unfold fire, sendPermissionNotification.
  match goal with
  | |- context [getNotifiableSession ?w1 _] =>
      change (getNotifiableSession w1 (timer_session tm))
        with (getNotifiableSession w (timer_session tm))
  end.
  destruct (getNotifiableSession w (timer_session tm)) as [session |];
    [| simpl; rewrite app_nil_r; reflexivity].
  unfold notifyPermission.
  match goal with
  | |- context [notify_loop _ _ _ _ _ (set_next_flight _ ?w1)] =>
      destruct (notify_start_flights sendPermissionRequest session w1) as (Hf & _);
      exact Hf
  end.
Qed.

Lemma fire_all_keeps due : forall w f,
  f ∈ inflight w -> f ∈ inflight (foldl (fire cfg) w due).
Proof.
  induction due as [| tm due IH]; intros w f Hf; [exact Hf |].
  simpl. apply IH. rewrite fire_flights. apply elem_of_app. left. exact Hf.
Qed.

Lemma fire_engine w tm : engine (fire cfg w tm) = engine w.
Proof. apply fire_spec. Qed.

Lemma fire_all_flight due : forall w tm session,
  tm ∈ due ->
  getNotifiableSession w (timer_session tm) = Some session ->
  exists id,
    forall f, f ∈ first_flight cfg sendPermissionRequest session id ->
              f ∈ inflight (foldl (fire cfg) w due).
Proof.
  induction due as [| tm0 due IH]; intros w tm session Hin Hget; [inversion Hin |].
  apply elem_of_cons in Hin as [-> | Hin].
  - exists (next_flight w). intros f Hf. simpl. apply fire_all_keeps.
    rewrite fire_flights, Hget. apply elem_of_app. right. exact Hf.
  - simpl. apply (IH (fire cfg w tm0) tm session Hin).
    unfold getNotifiableSession, getSession in *. rewrite fire_engine. exact Hget.
Qed.

(** Time passing up to a session's deadline leaves the loop of its
    notification waiting. *)
Lemma sleep_fires_flight t w tm sid session :
  tm ∈ timers w -> timer_session tm = sid -> fires_at tm <= t ->
  getNotifiableSession w sid = Some session ->
  exists id,
    forall f, f ∈ first_flight cfg sendPermissionRequest session id ->
              f ∈ inflight (advance cfg t w).
Proof.
  intros Hin Hs Hle Hget. unfold advance.
  destruct (fire_all_flight (filter (fun tm => fires_at tm <= t) (timers w)) w tm session)
    as [id Hid].
  - apply list_elem_of_filter. auto.
  - rewrite Hs. exact Hget.
  - exists id. exact Hid.
Qed.

(** A triggering event leaves the session exactly one timer, a full debounce
    interval away: the one it held before is cancelled. *)
Lemma trigger_replaces w event sid session :
  consistent w -> subscribed (hub w) = true ->
  truthy_id event = Some sid -> session_changed event = true ->
  getSession w sid = Some session -> active session = true ->
  sess_id session = sid ->
  hasNewRequests (current_request_ids session)
    (default ∅ (lastKnownRequests (hub w) !! sid)) = true ->
  timers_of sid (step cfg w (Emit event))
  = [mkTimer (next_timer w) (clock w + permissionDebounceMs cfg) sid]
  /\ notificationDebounce (hub (step cfg w (Emit event))) !! sid = Some (next_timer w)
  /\ calls (step cfg w (Emit event)) = calls w.
Proof.
  intros Hc Hsub Hid Hch Hget Hact Hsid Hnew. simpl. rewrite Hsub.
  rewrite (handleSyncEvent_active event sid session w Hid Hch Hget Hact).
  destruct (hasNewRequests_present _ _ Hnew) as [reqs [Hreq Hids]].
  rewrite Hids in Hnew.
  destruct (checkForPermissionNotification_new session reqs w Hreq)
    as (_ & Hd & _ & _ & Ht & _ & _ & _ & Hcalls);
    [rewrite Hsid; exact Hnew |].
  unfold timers_of. rewrite Hd, Ht, Hcalls, Hsid, filter_app.
  split; [| split; [apply lookup_insert_eq | reflexivity]].
  rewrite (list_filter_False (fun tm => timer_session tm = sid) (without_timer_of sid w)).
  - rewrite filter_cons_True by reflexivity. reflexivity.
  - apply Forall_forall. intros tm Hin. exact (without_timer_of_session sid w tm Hc Hin).
Qed.

(** An event that brings no request id the hub has not recorded leaves the
    timers, the handles and the channels alone. *)
Lemma no_trigger w event sid session :
  subscribed (hub w) = true ->
  truthy_id event = Some sid -> session_changed event = true ->
  getSession w sid = Some session -> active session = true ->
  sess_id session = sid ->
  hasNewRequests (current_request_ids session)
    (default ∅ (lastKnownRequests (hub w) !! sid)) = false ->
  timers (step cfg w (Emit event)) = timers w
  /\ notificationDebounce (hub (step cfg w (Emit event))) = notificationDebounce (hub w)
  /\ calls (step cfg w (Emit event)) = calls w
  /\ inflight (step cfg w (Emit event)) = inflight w.
Proof.
  intros Hs Hi Hchg Hget Ha Hsess Hold.
  simpl. rewrite Hs.
  rewrite (handleSyncEvent_active event sid session w Hi Hchg Hget Ha).
  unfold current_request_ids in Hold.
  destruct (agentState session ≫= requests) as [reqs |] eqn:Hreq.
  - rewrite (checkForPermissionNotification_known session reqs w Hreq)
      by (rewrite Hsess; exact Hold).
    repeat split.
  - rewrite (checkForPermissionNotification_absent session w Hreq). repeat split.
Qed.

(** The world a burst leaves when its last debounce interval is over or
    not. *)
Lemma burst_end w0 sid first firstEvent (rest : Burst) final D :
  consistent w0 -> well_keyed (engine w0) -> subscribed (hub w0) = true ->
  sess_id first = sid -> active first = true ->
  truthy_id firstEvent = Some sid -> session_changed firstEvent = true ->
  hasNewRequests (current_request_ids first)
    (default ∅ (lastKnownRequests (hub w0) !! sid)) = true ->
  triggering cfg sid (current_request_ids first) rest ->
  sess_id final = sid -> active final = true ->
  let w := run cfg w0 ([SetSession first; Emit firstEvent] ++ burst_actions rest
                       ++ [SetSession final; Sleep D]) in
  calls_for sid (calls w)
  = calls_for sid (calls w0)
    ++ (if decide (permissionDebounceMs cfg <= D)
        then first_calls cfg sendPermissionRequest final
        else [])
  /\ (permissionDebounceMs cfg <= D ->
      exists id, forall f, f ∈ first_flight cfg sendPermissionRequest final id ->
                           f ∈ inflight w).
Proof.
  intros Hc Hwk Hsub Hsid Hact Hid Hch Hnew Hrest Hfsid Hfact.
  cbv zeta. rewrite !run_app.
  destruct (trigger w0 firstEvent sid first Hc Hwk Hsub Hsid Hact Hid Hch Hnew)
    as (Hp1 & Hcalls1 & _).
  set (w1 := run cfg w0 [SetSession first; Emit firstEvent]) in *.
  destruct (burst_pending sid rest w1 _ Hp1 Hrest) as [known' [Hp2 Hcalls2]].
  set (w2 := run cfg w1 (burst_actions rest)) in *.
  destruct Hp2 as (Hc2 & Hwk2 & _ & _ & tm & Hin & Hs & Hfire).
  unfold run at 1 2. cbn [foldl step].
  set (w3 := set_engine (<[sess_id final := final]> (engine w2)) w2).
  assert (Hc3 : consistent w3) by exact Hc2.
  assert (Hwk3 : well_keyed (engine w3)) by (apply well_keyed_insert; exact Hwk2).
  assert (Hin3 : tm ∈ timers w3) by exact Hin.
  assert (Hget3 : engine w3 !! sid = Some final)
    by (unfold w3; simpl; rewrite Hfsid; apply lookup_insert_eq).
  change (clock w3) with (clock w2).
  destruct (decide (permissionDebounceMs cfg <= D)) as [Hle | Hgt].
  - split.
    + rewrite (sleep_fires (clock w2 + D) w3 tm sid Hc3 Hwk3 Hin3 Hs) by lia.
      unfold permission_calls. rewrite Hget3, Hfact.
      change (calls w3) with (calls w2). rewrite Hcalls2, Hcalls1. reflexivity.
    + intros _. apply (sleep_fires_flight (clock w2 + D) w3 tm sid final Hin3 Hs);
        [lia |].
      unfold getNotifiableSession, getSession. rewrite Hget3, Hfact. reflexivity.
  - split; [| intros Hle; lia].
    destruct (sleep_quiet (clock w2 + D) w3 tm sid Hc3 Hwk3 Hin3 Hs) as [_ Hq];
      [lia |].
    rewrite Hq. change (calls w3) with (calls w2).
    rewrite Hcalls2, Hcalls1, app_nil_r. reflexivity.
Qed.

(** C2 (amended). A burst of [session-added] / [session-updated] events on
    an active session, each bringing a request id absent from the recorded
    set and each within the debounce window of the one before, ends in one
    notification. Nothing is sent for the session until a full debounce
    interval has passed since the last event of the burst; then the session
    as the engine holds it at that moment is handed to the channels the loop
    reaches in that turn, and the loop waits for the first promise. The
    later channels follow as the promises settle: once every promise has
    settled, every channel has been invoked once, in order, with that
    session. Each such event leaves the session exactly one timer, a full
    interval away, in place of the one it held. An event all of whose
    request ids are in the recorded set starts and cancels no timer and
    sends nothing. Without options the interval is 500 ms. *)
Theorem permission_debounce w0 sid first firstEvent (rest : Burst) final D :
  consistent w0 -> well_keyed (engine w0) -> flights_fresh w0 ->
  subscribed (hub w0) = true ->
  sess_id first = sid -> active first = true ->
  truthy_id firstEvent = Some sid -> session_changed firstEvent = true ->
  (exists requestId,
     requestId ∈ current_request_ids first
     /\ requestId ∉ default ∅ (lastKnownRequests (hub w0) !! sid)) ->
  triggering cfg sid (current_request_ids first) rest ->
  sess_id final = sid -> active final = true ->
  let burst := [SetSession first; Emit firstEvent] ++ burst_actions rest
               ++ [SetSession final; Sleep D] in
  calls_for sid (calls (run cfg w0 burst))
  = calls_for sid (calls w0)
    ++ (if decide (permissionDebounceMs cfg <= D)
        then first_calls cfg sendPermissionRequest final
        else [])
  /\ (permissionDebounceMs cfg <= D ->
      exists id,
        (forall f, f ∈ first_flight cfg sendPermissionRequest final id ->
                   f ∈ inflight (run cfg w0 burst))
        /\ forall outcomes,
             length outcomes = promises sendPermissionRequest final (channels cfg) ->
             calls_for sid (calls (run cfg w0 (burst ++ settles id outcomes)))
             = calls_for sid (calls w0)
               ++ once_per_channel sendPermissionRequest final 0 (length (channels cfg)))
  /\ (forall w event session,
        consistent w -> subscribed (hub w) = true ->
        truthy_id event = Some sid -> session_changed event = true ->
        getSession w sid = Some session -> active session = true ->
        sess_id session = sid ->
        (exists requestId,
           requestId ∈ current_request_ids session
           /\ requestId ∉ default ∅ (lastKnownRequests (hub w) !! sid)) ->
        timers_of sid (step cfg w (Emit event))
        = [mkTimer (next_timer w) (clock w + permissionDebounceMs cfg) sid]
        /\ notificationDebounce (hub (step cfg w (Emit event))) !! sid
           = Some (next_timer w)
        /\ calls (step cfg w (Emit event)) = calls w)
  /\ (forall w event session,
        subscribed (hub w) = true ->
        truthy_id event = Some sid -> session_changed event = true ->
        getSession w sid = Some session -> active session = true ->
        sess_id session = sid ->
        current_request_ids session ⊆ default ∅ (lastKnownRequests (hub w) !! sid) ->
        timers (step cfg w (Emit event)) = timers w
        /\ notificationDebounce (hub (step cfg w (Emit event)))
           = notificationDebounce (hub w)
        /\ calls (step cfg w (Emit event)) = calls w
        /\ inflight (step cfg w (Emit event)) = inflight w)
  /\ (forall chs, permissionDebounceMs (configure chs None) = 500).
Proof.
  intros Hc Hwk Hfresh Hsub Hsid Hact Hid Hch Hnew Hrest Hfsid Hfact burst.
  apply hasNewRequests_spec in Hnew.
  destruct (burst_end w0 sid first firstEvent rest final D
              Hc Hwk Hsub Hsid Hact Hid Hch Hnew Hrest Hfsid Hfact) as [Hcalls Hflight].
  fold burst in Hcalls, Hflight.
  split; [exact Hcalls |].
  split; [| split; [| split; [| reflexivity]]].
  - intros Hle. destruct (Hflight Hle) as [id Hin]. exists id.
    split; [exact Hin |]. intros outcomes Hlen.
    rewrite run_app.
    rewrite (started_completes (run cfg w0 burst) sendPermissionRequest final id outcomes);
      [| apply flights_fresh_run; exact Hfresh | exact Hin | exact Hlen].
    rewrite calls_for_app, Hcalls, decide_True by exact Hle.
    assert (Hown : forall i n,
              calls_for sid (once_per_channel sendPermissionRequest final i n)
              = once_per_channel sendPermissionRequest final i n)
      by (intros i n; rewrite <- Hfsid; apply calls_for_once).
    rewrite Hown, <- app_assoc, first_calls_rest. reflexivity.
  - intros w event session Hcw Hs Hi Hchg Hget Ha Hsess Hn.
    apply trigger_replaces with (session := session); try assumption.
    apply hasNewRequests_spec. exact Hn.
  - intros w event session Hs Hi Hchg Hget Ha Hsess Hold.
    apply no_trigger with (sid := sid) (session := session); try assumption.
    apply hasNewRequests_false. exact Hold.
Qed.

End HubFacts.

(** ** Scenarios *)

Section Scenarios.
Import Js EventParsing Hub.

Lemma well_keyed_empty : well_keyed ∅.
Proof. intros k s Hk. rewrite lookup_empty in Hk. discriminate. Qed.

(** C3 (amended). A [message-received] event that parses to [ready], on an
    active session, starts a ready notification when at least
    [readyCooldownMs] have passed since the session's last one (time zero
    when there was none), and does nothing within the cooldown. The new time
    is recorded before the channels are called: it is in place while the
    loop still waits for its first promise, so a repeat within the cooldown
    is dropped even then. The session is handed to the channels the loop
    reaches in that turn; the later channels follow as the promises settle,
    and once every promise has settled every channel has been invoked once,
    in order. With a cooldown of 20 ms, a first event sends, a repeat 5 ms
    later does not, and one 25 ms after the first sends again. Without
    options the cooldown is 5000 ms. *)
Theorem ready_cooldown :
  (forall cfg w event sid session,
     subscribed (hub w) = true ->
     truthy_id event = Some sid ->
     ev_type event = JStr "message-received" ->
     extractMessageEventType event = Normal (Some "ready") ->
     getSession w sid = Some session ->
     active session = true ->
     (readyCooldownMs cfg
      <= clock w - default 0 (lastReadyNotificationAt (hub w) !! sid) ->
      step cfg w (Emit event)
      = notifyReady cfg session
          (set_hub (set_lastReadyNotificationAt
                      (<[sid := clock w]> (lastReadyNotificationAt (hub w)))
                      (hub w)) w)
      /\ calls (step cfg w (Emit event)) = calls w ++ first_calls cfg sendReady session
      /\ lastReadyNotificationAt (hub (step cfg w (Emit event))) !! sid
         = Some (clock w)
      /\ inflight (step cfg w (Emit event))
         = inflight w ++ first_flight cfg sendReady session (next_flight w)
      /\ (forall d, 0 <= d < readyCooldownMs cfg ->
            step cfg (step cfg (step cfg w (Emit event)) (Sleep d)) (Emit event)
            = step cfg (step cfg w (Emit event)) (Sleep d))
      /\ (forall outcomes,
            flights_fresh w ->
            length outcomes = promises sendReady session (channels cfg) ->
            calls (run cfg w (Emit event :: settles (next_flight w) outcomes))
            = calls w ++ once_per_channel sendReady session 0 (length (channels cfg))))
     /\ (clock w - default 0 (lastReadyNotificationAt (hub w) !! sid)
         < readyCooldownMs cfg ->
         step cfg w (Emit event) = w))
  /\ (forall chs session t0,
        sess_id session <> "" -> active session = true -> 20 <= t0 ->
        let cfg := configure chs (Some (mkOptions (Some 20) None)) in
        let w0 := start {[sess_id session := session]} t0 in
        let ready := Emit (readyEvent (sess_id session)) in
        (calls (run cfg w0 [ready]) = first_calls cfg sendReady session
         /\ calls (run cfg w0 [ready; Sleep 5; ready]) = first_calls cfg sendReady session
         /\ calls (run cfg w0 [ready; Sleep 5; ready; Sleep 20; ready])
            = first_calls cfg sendReady session ++ first_calls cfg sendReady session)
        /\ (forall outcomes1 outcomes3,
              length outcomes1 = promises sendReady session chs ->
              length outcomes3 = promises sendReady session chs ->
              calls (run cfg w0 (ready :: settles 0 outcomes1))
              = once_per_channel sendReady session 0 (length chs)
              /\ calls (run cfg w0 ((ready :: settles 0 outcomes1) ++ [Sleep 5; ready]))
                 = once_per_channel sendReady session 0 (length chs)
              /\ calls (run cfg w0 ((ready :: settles 0 outcomes1)
                                    ++ [Sleep 5; ready; Sleep 20]
                                    ++ ready :: settles 1 outcomes3))
                 = once_per_channel sendReady session 0 (length chs)
                   ++ once_per_channel sendReady session 0 (length chs)))
  /\ (forall chs, readyCooldownMs (configure chs None) = 5000).
Proof.
  split; [| split; [| reflexivity]].
  - intros cfg w event sid session Hsub Hid Hty Hex Hget Hact.
    destruct (ready_event_step cfg w event sid session Hsub Hid Hty Hex Hget Hact)
      as (He & Hs & _ & Hk & Hfire & Hdrop).
    split; [| exact Hdrop].
    intros Hle. destruct (Hfire Hle) as (Hw & Hc & Hl & Hf & _).
    split; [exact Hw |]. split; [exact Hc |]. split; [exact Hl |].
    split; [exact Hf |]. split.
    + intros d Hd.
      set (w1 := step cfg w (Emit event)) in *.
      destruct (advance_spec cfg (clock w1 + d) w1) as (_ & He2 & _ & _ & _ & Hl2 & Hs2 & _).
      pose proof (advance_clock cfg w1 d (proj1 Hd)) as Hk2.
      change (advance cfg (clock w1 + d) w1) with (step cfg w1 (Sleep d)) in *.
      set (w2 := step cfg w1 (Sleep d)) in *.
      assert (Hget2 : getSession w2 sid = Some session)
        by (unfold getSession in *; rewrite He2, He; exact Hget).
      destruct (ready_event_step cfg w2 event sid session) as (_ & _ & _ & _ & _ & Hdrop2);
        try assumption; [congruence |].
      apply Hdrop2. rewrite Hl2, Hl, Hk2, Hk. simpl. lia.
    + intros outcomes Hfresh Hlen.
      apply (ready_event_settled cfg w event sid session outcomes); assumption.
  - intros chs session t0 Hsid Hact Ht0 cfg w0 ready.
    assert (Hget : getSession w0 (sess_id session) = Some session)
      by (unfold getSession; simpl; apply lookup_singleton_eq).
    split.
    + apply (ready_three_events cfg w0 (sess_id session) session 5 20);
        simpl; try reflexivity; try lia; assumption.
    + intros outcomes1 outcomes3 Hlen1 Hlen3.
      apply (ready_three_events_settled cfg w0 (sess_id session) session 5 20
               outcomes1 outcomes3);
        simpl; try reflexivity; try lia; try assumption.
      apply flights_fresh_start.
Qed.

(** C3, as stated, fails: with two channels and the cooldown long over, a
    [ready] event invokes [sendReady] on the first channel only; a second
    later the other channel has still not been invoked, and it is when the
    promise of the first settles. *)
Lemma ready_second_channel_waits :
  readyCooldownMs pairConfig
  <= clock (start {["session-1" := createSession None]} 1000) - 0
  /\ calls (run pairConfig (start {["session-1" := createSession None]} 1000)
              [Emit (readyEvent "session-1"); Sleep 1000])
     = [mkCall sendReady 0 (createSession None)]
  /\ calls (run pairConfig (start {["session-1" := createSession None]} 1000)
              [Emit (readyEvent "session-1"); Sleep 1000])
     <> once_per_channel sendReady (createSession None) 0 (length (channels pairConfig))
  /\ calls (run pairConfig (start {["session-1" := createSession None]} 1000)
              [Emit (readyEvent "session-1"); Sleep 1000; Settle 0 false])
     = once_per_channel sendReady (createSession None) 0 (length (channels pairConfig)).
Proof.
  split; [vm_compute; discriminate |].
  split; [vm_compute; reflexivity |].
  split; [vm_compute; discriminate |].
  vm_compute. reflexivity.
Qed.

(** C2, as stated, fails: with two channels, a full debounce interval after
    the event only the first channel has been handed the session; a second
    later the other channel has still not been invoked, and it is when the
    promise of the first settles. *)
Lemma permission_second_channel_waits :
  calls (run pairConfig (start ∅ 1000)
           [SetSession firstSession; Emit (sessionEvent "session-updated" "session-1");
            Sleep 5; Sleep 1000])
  = [mkCall sendPermissionRequest 0 firstSession]
  /\ calls (run pairConfig (start ∅ 1000)
              [SetSession firstSession; Emit (sessionEvent "session-updated" "session-1");
               Sleep 5; Sleep 1000])
     <> once_per_channel sendPermissionRequest firstSession 0 (length (channels pairConfig))
  /\ calls (run pairConfig (start ∅ 1000)
              [SetSession firstSession; Emit (sessionEvent "session-updated" "session-1");
               Sleep 5; Sleep 1000; Settle 0 false])
     = once_per_channel sendPermissionRequest firstSession 0 (length (channels pairConfig)).
Proof.
  split; [vm_compute; reflexivity |].
  split; [vm_compute; discriminate |].
  vm_compute. reflexivity.
Qed.

(** C5, as stated, fails: a ready notification starts while the session is
    active; the session turns inactive, and the hub is told and clears its
    state; then the promise of the first channel settles, and the second
    channel is invoked for the session all the same. *)
Lemma inactive_session_is_notified :
  getSession
    (run pairConfig (start {["session-1" := firstSession]} 1000)
       [Emit (readyEvent "session-1"); SetSession inactiveSession;
        Emit (sessionEvent "session-updated" "session-1")])
    "session-1"
  = Some inactiveSession
  /\ active inactiveSession = false
  /\ calls_for "session-1"
       (calls (run pairConfig (start {["session-1" := firstSession]} 1000)
                 [Emit (readyEvent "session-1"); SetSession inactiveSession;
                  Emit (sessionEvent "session-updated" "session-1")]))
     = [mkCall sendReady 0 firstSession]
  /\ calls_for "session-1"
       (calls (run pairConfig (start {["session-1" := firstSession]} 1000)
                 [Emit (readyEvent "session-1"); SetSession inactiveSession;
                  Emit (sessionEvent "session-updated" "session-1"); Settle 0 false]))
     = [mkCall sendReady 0 firstSession; mkCall sendReady 1 firstSession].
Proof.
  split; [vm_compute; reflexivity |].
  split; [reflexivity |].
  split; vm_compute; reflexivity.
Qed.

(** The debounce test of the hub, replayed: one notification for [req1],
    none for a repeat of the same state, one more for [req2]. *)
Example debounce_test_replay :
  calls (run testConfig (start ∅ 1000)
           [SetSession firstSession; Emit (sessionEvent "session-updated" "session-1");
            Sleep 25;
            Emit (sessionEvent "session-updated" "session-1"); Sleep 25;
            SetSession secondSession; Emit (sessionEvent "session-updated" "session-1");
            Sleep 25])
  = [mkCall sendPermissionRequest 0 firstSession;
     mkCall sendPermissionRequest 0 secondSession].
Proof. vm_compute. reflexivity. Qed.

(** The throttling test of the hub, replayed: a first [ready] event sends,
    a repeat 5 ms later does not, one 35 ms after that does. *)
Example throttle_test_replay :
  calls (run readyTestConfig (start {["session-1" := createSession None]} 1000)
           [Emit (readyEvent "session-1"); Sleep 5;
            Emit (readyEvent "session-1"); Sleep 5; Sleep 30;
            Emit (readyEvent "session-1"); Sleep 5])
  = [mkCall sendReady 0 (createSession None); mkCall sendReady 0 (createSession None)].
Proof. vm_compute. reflexivity. Qed.

(** A session that turns inactive while its debounce timer is pending gets
    no notification when the timer fires; and the event that reports the
    change cancels the timer and forgets the recorded request ids. *)
Example deactivated_session_is_silent :
  calls (run testConfig (start ∅ 1000)
           [SetSession firstSession; Emit (sessionEvent "session-updated" "session-1");
            Sleep 3; SetSession inactiveSession; Sleep 25])
  = []
  /\ timers (run testConfig (start ∅ 1000)
               [SetSession firstSession; Emit (sessionEvent "session-updated" "session-1");
                Sleep 3; SetSession inactiveSession;
                Emit (sessionEvent "session-updated" "session-1")])
     = []
  /\ hub (run testConfig (start ∅ 1000)
            [SetSession firstSession; Emit (sessionEvent "session-updated" "session-1");
             Sleep 3; SetSession inactiveSession;
             Emit (sessionEvent "session-updated" "session-1")])
     = mkHub ∅ ∅ ∅ true.
Proof. repeat split; vm_compute; reflexivity. Qed.

(** C4, as stated, fails: when [agentState.requests] is absent the recorded
    set is not replaced by the (empty) current set; the hub keeps [req1]. *)
Lemma absent_requests_keep_record :
  getSession staleWorld "session-1" = Some (createSession None)
  /\ current_request_ids (createSession None) = ∅
  /\ lastKnownRequests
       (hub (handleSyncEvent testConfig (sessionEvent "session-updated" "session-1")
               staleWorld)) !! "session-1"
     = Some {["req1"]}
  /\ ({["req1"]} : gset string) <> ∅.
Proof.
  split; [reflexivity |]. split; [reflexivity |]. split; [reflexivity |].
  intros H. assert (Hin : "req1" ∈ (∅ : gset string)) by (rewrite <- H; set_solver).
  set_solver.
Qed.

(** The empty set is recorded when [requests] is an empty object. *)
Lemma permission_detection_records_witness :
  getSession idleWorld "session-1" = Some (createSession (Some (mkAgentState (Some ∅))))
  /\ lastKnownRequests
       (hub (handleSyncEvent testConfig (sessionEvent "session-updated" "session-1")
               idleWorld)) !! "session-1"
     = Some ∅.
Proof.
  split; [reflexivity |].
  destruct (permission_detection_records testConfig idleWorld
              (sessionEvent "session-updated" "session-1") "session-1"
              (createSession (Some (mkAgentState (Some ∅))))
              eq_refl eq_refl eq_refl eq_refl eq_refl) as [Hrec _].
  destruct (Hrec ∅ eq_refl) as [Hrec1 _].
  rewrite Hrec1. reflexivity.
Defined.

(** Events at 0 ms and 3 ms with a debounce of 5 ms and two channels: one
    notification, 8 ms after the first event, for the state of the second;
    the second channel follows when the first has settled. *)
Lemma permission_debounce_witness :
  triggering pairConfig "session-1" (current_request_ids firstSession)
    [(3, secondSession, sessionEvent "session-updated" "session-1")]
  /\ calls_for "session-1"
       (calls (run pairConfig (start ∅ 1000)
                 ([SetSession firstSession;
                   Emit (sessionEvent "session-updated" "session-1")]
                  ++ burst_actions
                       [(3, secondSession, sessionEvent "session-updated" "session-1")]
                  ++ [SetSession secondSession; Sleep 5])))
     = [mkCall sendPermissionRequest 0 secondSession].
Proof.
  assert (Hnew : forall (ids known : gset string),
            hasNewRequests ids known = true ->
            exists requestId, requestId ∈ ids /\ requestId ∉ known)
    by (intros ids known; apply hasNewRequests_spec).
  assert (Htr : triggering pairConfig "session-1" (current_request_ids firstSession)
                  [(3, secondSession, sessionEvent "session-updated" "session-1")]).
  { simpl. repeat split; try (vm_compute; reflexivity).
    apply Hnew. vm_compute. reflexivity. }
  split; [exact Htr |].
  destruct (permission_debounce pairConfig (start ∅ 1000) "session-1" firstSession
              (sessionEvent "session-updated" "session-1")
              [(3, secondSession, sessionEvent "session-updated" "session-1")]
              secondSession 5) as [Hcalls _];
    [apply consistent_start
    | apply well_keyed_empty
    | apply flights_fresh_start
    | reflexivity | reflexivity | reflexivity | reflexivity | reflexivity
    | apply Hnew; vm_compute; reflexivity | exact Htr | reflexivity | reflexivity |].
  rewrite Hcalls. vm_compute. reflexivity.
Defined.

End Scenarios.

Section StoreScenarios.
Import Js Messages.

(** The merge of the sample table: [a1] loses the local id it shares with
    [b1]. *)
Lemma mergeSessionMessages_renumbers_witness :
  gap_free sampleDb "A" 2 /\ gap_free sampleDb "B" 3
  /\ mergeSessionMessages (fun _ => false) sampleDb "A" "B"
     = (mkDb ["A"; "B"]
          [mkRow "a1" "B" "{}" 10 1 None; mkRow "a2" "B" "{}" 11 2 (Some "y");
           mkRow "b1" "B" "{}" 20 3 (Some "x"); mkRow "b2" "B" "{}" 21 4 None;
           mkRow "b3" "B" "{}" 22 5 (Some "z")],
        Normal (mkMerge 2 2 3))
  /\ gap_free (merged sampleDb "A" "B" 2) "B" 5.
Proof.
  assert (HA : gap_free sampleDb "A" 2) by (unfold gap_free; vm_compute; reflexivity).
  assert (HB : gap_free sampleDb "B" 3) by (unfold gap_free; vm_compute; reflexivity).
  destruct (mergeSessionMessages_renumbers (fun _ => false) sampleDb "A" "B" 2 3)
    as (Hrun & _ & Hgap & _);
    [discriminate | lia | lia | exact HA | exact HB
    | apply (bool_decide_unpack _); vm_compute; exact I
    | apply (bool_decide_unpack _); vm_compute; exact I |].
  split; [exact HA |]. split; [exact HB |]. split; [| exact Hgap].
  rewrite Hrun by reflexivity. vm_compute. reflexivity.
Defined.

(** A first call with a new local id, and a replay with another content:
    one row is inserted, with seq 4, and it is returned both times. *)
Lemma addMessage_idempotent_witness :
  exists db1 row,
    addMessage sample_stringify (fun _ => JObj []) (fun z => z) 100 "m-1" sampleDb "B"
      (JObj []) (Some "k1") = (db1, Normal (toStoredMessage (fun _ => JObj []) row))
    /\ addMessage sample_stringify (fun _ => JObj []) (fun z => z) 200 "m-2" db1 "B"
         JUndefined (Some "k1") = (db1, Normal (toStoredMessage (fun _ => JObj []) row))
    /\ row = mkRow "m-1" "B" "{}" 100 4 (Some "k1")
    /\ messages db1 = messages sampleDb ++ [row].
Proof.
  destruct (addMessage_idempotent sample_stringify (fun _ => JObj []) (fun z => z)
              (fun z _ => eq_refl) 100 "m-1" 200 "m-2" sampleDb "B" (JObj []) JUndefined
              "k1" "{}")
    as (db1 & row & H1 & H2 & _ & _ & _ & _ & Hcase);
    [discriminate
    | apply (bool_decide_unpack _); vm_compute; exact I
    | apply (bool_decide_unpack _); vm_compute; exact I
    | reflexivity
    | split; apply Z.leb_le; vm_compute; reflexivity |].
  exists db1, row. split; [exact H1 |]. split; [exact H2 |].
  change (find_by_local_id sampleDb "B" "k1") with (@None DbMessageRow) in Hcase.
  destruct Hcase as (Hrow & Hdb & _).
  split; [exact Hrow |]. rewrite Hdb. reflexivity.
Defined.

(** The same, run: the message gets seq 4 and the replay adds no row; a
    content that cannot be serialized is refused. *)
Example addMessage_replay_run :
  addMessage sample_stringify (fun _ => JObj []) (fun z => z) 100 "m-1" sampleDb "B"
    (JObj []) (Some "k1")
  = (mkDb ["A"; "B"] (messages sampleDb ++ [mkRow "m-1" "B" "{}" 100 4 (Some "k1")]),
     Normal (mkStored "m-1" "B" (JObj []) 100 4 (Some "k1")))
  /\ addMessage sample_stringify (fun _ => JObj []) (fun z => z) 200 "m-2"
       (mkDb ["A"; "B"] (messages sampleDb ++ [mkRow "m-1" "B" "{}" 100 4 (Some "k1")]))
       "B" JNull (Some "k1")
     = (mkDb ["A"; "B"] (messages sampleDb ++ [mkRow "m-1" "B" "{}" 100 4 (Some "k1")]),
        Normal (mkStored "m-1" "B" (JObj []) 100 4 (Some "k1")))
  /\ addMessage sample_stringify (fun _ => JObj []) (fun z => z) 100 "m-1" sampleDb "B"
       JUndefined (Some "k1")
     = (sampleDb, Throw "SQLITE_CONSTRAINT_NOTNULL").
Proof. repeat split; vm_compute; reflexivity. Qed.

End StoreScenarios.

(** ** Reading the message log *)

Section MessageQueryFacts.
Import Js Messages MessageQueries.

#[global] Instance seq_asc_total : Total seq_asc.
Proof. intros a b. unfold seq_asc. lia. Qed.
#[global] Instance seq_asc_trans : Transitive seq_asc.
Proof. intros a b c. unfold seq_asc. lia. Qed.
#[global] Instance seq_desc_total : Total seq_desc.
Proof. intros a b. unfold seq_desc. lia. Qed.
#[global] Instance seq_desc_trans : Transitive seq_desc.
Proof. intros a b c. unfold seq_desc. lia. Qed.

(** The clamp gives an integer from 1 to 200, except for a number with a
    fraction between 1 and 200, which it gives back. *)
Lemma safeLimit_cases x :
  (exists k, safeLimit x = Whole k /\ 1 <= k <= 200)
  \/ (exists f, safeLimit x = Between f /\ x = Between f /\ 1 <= f < 200).
Proof.
  unfold safeLimit. destruct x as [z | z | | |]; simpl;
    try (left; eexists; split; [reflexivity | lia]).
  destruct (decide (200 <= z)) as [H200 | H200]; simpl.
  - left. eexists. split; [reflexivity | lia].
  - destruct (decide (z < 1)) as [H1 | H1].
    + left. eexists. split; [reflexivity | lia].
    + right. exists z. repeat split; lia.
Qed.

Lemma safeLimit_finite x : isFinite (safeLimit x) = true.
Proof.
  destruct (safeLimit_cases x) as [(k & -> & _) | (f & -> & _)]; reflexivity.
Qed.

Lemma clamped_range limit k : clamped limit = Whole k -> 1 <= k <= 200.
Proof.
  unfold clamped. intros H.
  destruct (safeLimit_cases (default (Whole 200) limit)) as [(k' & Hk & Hr) | (f & Hf & _)];
    congruence.
Qed.

Lemma clamped_fraction limit f :
  clamped limit = Between f -> limit = Some (Between f) /\ 1 <= f < 200.
Proof.
  unfold clamped. intros H.
  destruct (safeLimit_cases (default (Whole 200) limit))
    as [(k' & Hk & Hr) | (f' & Hf & Hx & Hr)]; [congruence |].
  assert (f' = f) as -> by congruence. split; [| exact Hr].
  destruct limit as [l |]; simpl in Hx; [congruence | discriminate].
Qed.

(** What [ORDER BY ... LIMIT k] keeps of a list: at most [k] rows, all from
    the list, in order, and every row left out comes after every row kept. *)
Lemma limit_sorted (R : relation DbMessageRow) `{!forall x y, Decision (R x y)}
    `{!Total R} `{!Transitive R} (k : Z) (rows : list DbMessageRow) :
  let page := limit_rows k (merge_sort R rows) in
  (length page <= Z.to_nat k)%nat
  /\ (forall r, r ∈ page -> r ∈ rows)
  /\ StronglySorted R page
  /\ (forall r, r ∈ rows ->
        r ∈ page \/ (length page = Z.to_nat k /\ forall p, p ∈ page -> R p r)).
Proof.
  unfold limit_rows. simpl.
  pose proof (StronglySorted_merge_sort R rows) as Hsorted.
  pose proof (merge_sort_Permutation R rows) as Hperm.
  set (sorted := merge_sort R rows) in *.
  rewrite <- (take_drop (Z.to_nat k) sorted) in Hsorted.
  split; [rewrite length_take; lia |].
  split.
  { intros r Hr. rewrite <- Hperm. apply (subseteq_take (Z.to_nat k)). exact Hr. }
  split; [apply StronglySorted_app_1_l in Hsorted; exact Hsorted |].
  intros r Hr. rewrite <- Hperm, <- (take_drop (Z.to_nat k) sorted) in Hr.
  apply elem_of_app in Hr as [Hr | Hr]; [left; exact Hr | right].
  split.
  - destruct (decide (Z.to_nat k <= length sorted)%nat) as [Hle | Hgt].
    + rewrite length_take. lia.
    + rewrite drop_ge in Hr by lia. inversion Hr.
  - intros p Hp. exact (StronglySorted_app_1_elem_of R _ _ p r Hsorted Hp Hr).
Qed.

Section Pages.
Variable safeJsonParse : string -> JsVal.

Local Abbreviation stored := (toStoredMessage safeJsonParse).

Lemma StronglySorted_stored (rows : list DbMessageRow) :
  StronglySorted seq_asc rows -> Sorted Z.le (sm_seq <$> (stored <$> rows)).
Proof.
  intros Hs. apply StronglySorted_Sorted in Hs.
  rewrite <- list_fmap_compose. apply Sorted_fmap with (R1 := seq_asc); [| exact Hs].
  intros a b Hab. exact Hab.
Qed.

Lemma StronglySorted_reverse_desc (rows : list DbMessageRow) :
  StronglySorted seq_desc rows -> StronglySorted seq_asc (reverse rows).
Proof.
  intros Hs. apply Sorted_StronglySorted; [apply _ |].
  apply StronglySorted_Sorted in Hs.
  apply (Sorted_reverse seq_desc) in Hs. exact Hs.
Qed.

(** The page a query for an integer limit gives. *)
Lemma getMessagesAfter_Normal db sid afterSeq limit k :
  clamped limit = Whole k ->
  getMessagesAfter safeJsonParse db sid afterSeq limit
  = Normal (stored
              <$> limit_rows k
                    (merge_sort seq_asc
                       (filter (fun r => session_id r = sid
                                         /\ seq_above (lower_bound afterSeq) (row_seq r))
                          (messages db)))).
Proof.
  unfold getMessagesAfter, clamped, lower_bound. intros ->. reflexivity.
Qed.

Lemma getMessages_Normal db sid limit beforeSeq k :
  clamped limit = Whole k ->
  getMessages safeJsonParse db sid limit beforeSeq
  = Normal (stored
              <$> reverse (limit_rows k
                             (merge_sort seq_desc (rows_before db sid beforeSeq)))).
Proof.
  unfold getMessages, clamped. intros ->. reflexivity.
Qed.

(** X1. [getMessagesAfter], for a limit that the clamp turns into an integer
    (from 1 to 200), returns at most that many of the session's messages
    above [afterSeq] (above 0 when [afterSeq] is not finite), lowest seq
    first, and leaves out such a message only when the page is full and the
    message comes after all of the page. A limit with a fraction between 1
    and 200 passes the clamp as it is, and the query throws. *)
Theorem getMessagesAfter_page db sid afterSeq limit :
  match clamped limit with
  | Whole k =>
      1 <= k <= 200
      /\ exists page,
           getMessagesAfter safeJsonParse db sid afterSeq limit = Normal page
           /\ (length page <= Z.to_nat k)%nat
           /\ (forall m, m ∈ page ->
                 sm_sessionId m = sid /\ seq_above (lower_bound afterSeq) (sm_seq m)
                 /\ exists r, r ∈ messages db /\ m = stored r)
           /\ Sorted Z.le (sm_seq <$> page)
           /\ (forall r, r ∈ messages db -> session_id r = sid ->
                 seq_above (lower_bound afterSeq) (row_seq r) ->
                 stored r ∈ page
                 \/ (length page = Z.to_nat k
                     /\ forall m, m ∈ page -> sm_seq m <= row_seq r))
  | Between f =>
      getMessagesAfter safeJsonParse db sid afterSeq limit = Throw "SQLITE_MISMATCH"
      /\ limit = Some (Between f) /\ 1 <= f < 200
  | _ => False
  end.
Proof.
  pose proof (safeLimit_finite (default (Whole 200) limit)) as Hfinite.
  fold (clamped limit) in Hfinite.
  destruct (clamped limit) as [k | f | | |] eqn:Hclamp; try discriminate Hfinite.
  - split; [exact (clamped_range limit k Hclamp) |].
    rewrite (getMessagesAfter_Normal db sid afterSeq limit k Hclamp).
    eexists. split; [reflexivity |].
    set (eligible := filter (fun r => session_id r = sid
                                      /\ seq_above (lower_bound afterSeq) (row_seq r))
                       (messages db)).
    destruct (limit_sorted seq_asc k eligible) as (Hlen & Hsub & Hsorted & Hfull).
    rewrite length_fmap.
    split; [exact Hlen |]. split; [| split].
    + intros m Hm. apply list_elem_of_fmap in Hm as [r [-> Hr]].
      apply Hsub, list_elem_of_filter in Hr as [[Hs Ha] Hin].
      simpl. repeat split; try assumption. exists r. auto.
    + apply StronglySorted_stored. exact Hsorted.
    + intros r Hin Hs Ha.
      destruct (Hfull r) as [Hr | [Hk Hle]].
      * apply list_elem_of_filter. auto.
      * left. apply list_elem_of_fmap_2. exact Hr.
      * right. split; [exact Hk |].
        intros m Hm. apply list_elem_of_fmap in Hm as [p [-> Hp]]. exact (Hle p Hp).
  - split; [| exact (clamped_fraction limit f Hclamp)].
    unfold getMessagesAfter. unfold clamped in Hclamp. rewrite Hclamp. reflexivity.
Qed.

Lemma rows_before_elem db sid beforeSeq r :
  r ∈ rows_before db sid beforeSeq
  <-> (session_id r = sid
       /\ forall b, beforeSeq = Some b -> isFinite b = true -> seq_below b (row_seq r))
      /\ r ∈ messages db.
Proof.
  unfold rows_before. destruct beforeSeq as [b |]; [destruct (isFinite b) eqn:Hfin |].
  - rewrite list_elem_of_filter. split.
    + intros [[Hs Hb] Hin]. split; [| exact Hin]. split; [exact Hs |].
      intros b' Hb' _. injection Hb' as <-. exact Hb.
    + intros [[Hs Hb] Hin]. split; [| exact Hin]. split; [exact Hs | apply Hb; auto].
  - rewrite session_rows_elem. split.
    + intros [Hs Hin]. split; [| exact Hin]. split; [exact Hs |].
      intros b' Hb' Hfin'. injection Hb' as <-. congruence.
    + intros [[Hs _] Hin]. auto.
  - rewrite session_rows_elem. split.
    + intros [Hs Hin]. split; [| exact Hin]. split; [exact Hs | discriminate].
    + intros [[Hs _] Hin]. auto.
Qed.

(** X2. [getMessages], for a limit that the clamp turns into an integer (from
    1 to 200), returns at most that many of the session's messages, below
    [beforeSeq] when that is given and finite, lowest seq first, and leaves
    out such a message only when the page is full and the message comes
    before all of the page. A limit with a fraction between 1 and 200 passes
    the clamp as it is, and the query throws. *)
Theorem getMessages_page db sid limit beforeSeq :
  match clamped limit with
  | Whole k =>
      1 <= k <= 200
      /\ exists page,
           getMessages safeJsonParse db sid limit beforeSeq = Normal page
           /\ (length page <= Z.to_nat k)%nat
           /\ (forall m, m ∈ page ->
                 sm_sessionId m = sid
                 /\ (forall b, beforeSeq = Some b -> isFinite b = true ->
                       seq_below b (sm_seq m))
                 /\ exists r, r ∈ messages db /\ m = stored r)
           /\ Sorted Z.le (sm_seq <$> page)
           /\ (forall r, r ∈ messages db -> session_id r = sid ->
                 (forall b, beforeSeq = Some b -> isFinite b = true ->
                    seq_below b (row_seq r)) ->
                 stored r ∈ page
                 \/ (length page = Z.to_nat k
                     /\ forall m, m ∈ page -> row_seq r <= sm_seq m))
  | Between f =>
      getMessages safeJsonParse db sid limit beforeSeq = Throw "SQLITE_MISMATCH"
      /\ limit = Some (Between f) /\ 1 <= f < 200
  | _ => False
  end.
Proof.
  pose proof (safeLimit_finite (default (Whole 200) limit)) as Hfinite.
  fold (clamped limit) in Hfinite.
  destruct (clamped limit) as [k | f | | |] eqn:Hclamp; try discriminate Hfinite.
  - split; [exact (clamped_range limit k Hclamp) |].
    rewrite (getMessages_Normal db sid limit beforeSeq k Hclamp).
    eexists. split; [reflexivity |].
    set (eligible := rows_before db sid beforeSeq).
    pose proof (rows_before_elem db sid beforeSeq) as Hel. fold eligible in Hel.
    destruct (limit_sorted seq_desc k eligible) as (Hlen & Hsub & Hsorted & Hfull).
    rewrite length_fmap, length_reverse.
    split; [exact Hlen |]. split; [| split].
    + intros m Hm. apply list_elem_of_fmap in Hm as [r [-> Hr]].
      rewrite elem_of_reverse in Hr. apply Hsub, Hel in Hr as [[Hs Hb] Hin].
      simpl. repeat split; try assumption. exists r. auto.
    + apply StronglySorted_stored, StronglySorted_reverse_desc. exact Hsorted.
    + intros r Hin Hs Hb.
      destruct (Hfull r) as [Hr | [Hk Hle]].
      * apply Hel. auto.
      * left. apply list_elem_of_fmap_2. rewrite elem_of_reverse. exact Hr.
      * right. split; [exact Hk |].
        intros m Hm. apply list_elem_of_fmap in Hm as [p [-> Hp]].
        rewrite elem_of_reverse in Hp. exact (Hle p Hp).
  - split; [| exact (clamped_fraction limit f Hclamp)].
    unfold getMessages. unfold clamped in Hclamp. rewrite Hclamp. reflexivity.
Qed.

End Pages.
End MessageQueryFacts.

(** *** Pages of a gap-free session *)

Section GapFreePages.
Import Js Messages MessageQueries.

#[local] Instance flip_le_antisymm : AntiSymm eq (flip Z.le).
Proof. intros a b. unfold flip. lia. Qed.
#[local] Instance flip_le_trans : Transitive (flip Z.le).
Proof. intros a b c. unfold flip. lia. Qed.

Lemma Sorted_seqZ m n : Sorted Z.le (seqZ m n).
Proof.
  remember (Z.to_nat n) as k eqn:Hk. revert m n Hk.
  induction k as [| k IH]; intros m n Hk.
  - rewrite seqZ_nil by lia. constructor.
  - rewrite seqZ_cons by lia. constructor; [apply IH; lia |].
    destruct (decide (Z.pred n <= 0)) as [Hz | Hz].
    + rewrite seqZ_nil by lia. constructor.
    + rewrite seqZ_cons by lia. constructor. lia.
Qed.

Lemma take_seqZ k m n : take k (seqZ m n) = seqZ m (Z.min (Z.of_nat k) n).
Proof.
  unfold seqZ. rewrite <- fmap_take, take_seq. do 2 f_equal. lia.
Qed.

Lemma drop_seqZ k m n :
  (k <= Z.to_nat n)%nat -> drop k (seqZ m n) = seqZ (m + Z.of_nat k) (n - Z.of_nat k).
Proof.
  intros Hk. destruct (decide (0 <= n)) as [Hn | Hn].
  - replace n with (Z.of_nat k + (n - Z.of_nat k)) at 1 by lia.
    rewrite seqZ_app by lia.
    apply drop_app_length'. rewrite length_seqZ. lia.
  - rewrite !seqZ_nil by lia. apply drop_nil.
Qed.

Lemma filter_above_seqZ a n :
  0 <= a <= n -> filter (fun x => a < x) (seqZ 1 n) = seqZ (a + 1) (n - a).
Proof.
  intros Ha. replace n with (a + (n - a)) at 1 by lia.
  rewrite seqZ_app, filter_app by lia.
  rewrite (list_filter_False (fun x => a < x) (seqZ 1 a))
    by (apply Forall_forall; intros x Hx; apply elem_of_seqZ in Hx; lia).
  rewrite (list_filter_True (fun x => a < x))
    by (apply Forall_forall; intros x Hx; apply elem_of_seqZ in Hx; lia).
  simpl. f_equal. lia.
Qed.

Lemma filter_below_seqZ b n :
  1 <= b -> 0 <= n -> filter (fun x => x < b) (seqZ 1 n) = seqZ 1 (Z.min n (b - 1)).
Proof.
  intros Hb Hn.
  replace n with (Z.min n (b - 1) + (n - Z.min n (b - 1))) at 1 by lia.
  rewrite seqZ_app, filter_app by lia.
  rewrite (list_filter_True (fun x => x < b))
    by (apply Forall_forall; intros x Hx; apply elem_of_seqZ in Hx; lia).
  rewrite (list_filter_False (fun x => x < b))
    by (apply Forall_forall; intros x Hx; apply elem_of_seqZ in Hx; lia).
  apply app_nil_r.
Qed.

Lemma seqs_of_filter (P : Z -> Prop) `{!forall x, Decision (P x)} db sid :
  row_seq <$> filter (fun r => session_id r = sid /\ P (row_seq r)) (messages db)
  = filter P (row_seq <$> session_rows db sid).
Proof.
  unfold session_rows. induction (messages db) as [| r l IH]; [reflexivity |].
  destruct (decide (session_id r = sid)) as [Hs | Hs].
  - rewrite (filter_cons_True (fun r => session_id r = sid)) by exact Hs.
    rewrite fmap_cons. destruct (decide (P (row_seq r))) as [Hp | Hp].
    + rewrite !filter_cons_True by auto. rewrite fmap_cons, IH. reflexivity.
    + rewrite !filter_cons_False by tauto. exact IH.
  - rewrite !filter_cons_False by tauto. exact IH.
Qed.

(** The seq values of a sorted selection are the sorted seq values. *)
Lemma sorted_seqs_unique (rows : list DbMessageRow) (expected : list Z) :
  row_seq <$> rows ≡ₚ expected -> Sorted Z.le expected ->
  row_seq <$> merge_sort seq_asc rows = expected.
Proof.
  intros Hperm Hsorted. apply (Sorted_unique Z.le).
  - apply Sorted_fmap with (R1 := seq_asc); [intros a b H; exact H |].
    apply Sorted_merge_sort. apply _.
  - exact Hsorted.
  - rewrite merge_sort_Permutation. exact Hperm.
Qed.

Lemma sorted_seqs_unique_desc (rows : list DbMessageRow) (expected : list Z) :
  row_seq <$> rows ≡ₚ expected -> Sorted Z.le expected ->
  row_seq <$> merge_sort seq_desc rows = reverse expected.
Proof.
  intros Hperm Hsorted. apply (Sorted_unique (flip Z.le)).
  - apply Sorted_fmap with (R1 := seq_desc); [intros a b H; exact H |].
    apply Sorted_merge_sort. apply _.
  - apply Sorted_reverse. exact Hsorted.
  - rewrite merge_sort_Permutation, reverse_Permutation. exact Hperm.
Qed.

Section WithParser.
Variable safeJsonParse : string -> JsVal.

Lemma stored_seqs (rows : list DbMessageRow) :
  sm_seq <$> (toStoredMessage safeJsonParse <$> rows) = row_seq <$> rows.
Proof. rewrite <- list_fmap_compose. reflexivity. Qed.

(** X3. In a session with gap-free seq values [1..n], [getMessagesAfter] from
    the seq [a], for a limit that the clamp turns into the integer [k],
    returns exactly the messages [a+1, a+2, ...], as many as [k] allows or as
    there are: a reader that asks again from the last seq it got misses
    nothing and gets nothing twice. *)
Theorem getMessagesAfter_gap_free db sid n a limit k :
  gap_free db sid n -> 0 <= a <= n ->
  clamped limit = Whole k ->
  exists page,
    getMessagesAfter safeJsonParse db sid (Whole a) limit = Normal page
    /\ sm_seq <$> page = seqZ (a + 1) (Z.min k (n - a)).
Proof.
  intros Hgap Ha Hclamp.
  rewrite (getMessagesAfter_Normal safeJsonParse db sid (Whole a) limit k Hclamp).
  eexists. split; [reflexivity |].
  unfold limit_rows, lower_bound. simpl.
  rewrite stored_seqs, fmap_take.
  rewrite (sorted_seqs_unique _ (seqZ (a + 1) (n - a))).
  - rewrite take_seqZ. f_equal. pose proof (clamped_range limit k Hclamp). lia.
  - rewrite (seqs_of_filter (fun x => a < x)).
    unfold gap_free in Hgap. rewrite Hgap, filter_above_seqZ by exact Ha. reflexivity.
  - apply Sorted_seqZ.
Qed.

(** X4. In a session with gap-free seq values [1..n], [getMessages], for a
    limit that the clamp turns into the integer [k], returns the newest
    messages below the seq [beforeSeq] (all of them when it is not given), in
    ascending order and without a gap: a page that starts at seq [s] is
    continued downwards, with no gap and no overlap, by the page asked for
    with [beforeSeq = s]. *)
Theorem getMessages_gap_free db sid n limit beforeSeq k :
  gap_free db sid n -> 0 <= n ->
  (forall b, beforeSeq = Some b -> 1 <= b) ->
  clamped limit = Whole k ->
  exists page,
    getMessages safeJsonParse db sid limit (whole_bound beforeSeq) = Normal page
    /\ sm_seq <$> page
       = seqZ (page_top n beforeSeq - Z.min k (page_top n beforeSeq) + 1)
              (Z.min k (page_top n beforeSeq)).
Proof.
  intros Hgap Hn Hb Hclamp. pose proof (clamped_range limit k Hclamp) as Hrange.
  rewrite (getMessages_Normal safeJsonParse db sid limit _ k Hclamp).
  eexists. split; [reflexivity |].
  set (e := page_top n beforeSeq).
  assert (He : 0 <= e).
  { unfold e, page_top. destruct beforeSeq as [b |]; [specialize (Hb b eq_refl) |]; lia. }
  assert (Hperm : row_seq <$> rows_before db sid (whole_bound beforeSeq) ≡ₚ seqZ 1 e).
  { unfold rows_before, whole_bound, e, page_top. destruct beforeSeq as [b |]; simpl.
    - pose proof (seqs_of_filter (fun x => x < b) db sid) as Hseqs.
      simpl in Hseqs. rewrite Hseqs. clear Hseqs.
      unfold gap_free in Hgap.
      rewrite Hgap, filter_below_seqZ by (try apply Hb; auto). reflexivity.
    - exact Hgap. }
  rewrite stored_seqs, fmap_reverse. unfold limit_rows. rewrite fmap_take.
  rewrite (sorted_seqs_unique_desc _ (seqZ 1 e) Hperm (Sorted_seqZ 1 e)).
  rewrite take_reverse, reverse_involutive, length_seqZ.
  rewrite drop_seqZ by lia. f_equal; lia.
Qed.

End WithParser.
End GapFreePages.

(** ** Appending messages *)

Section AddMessageFacts.
Import Js Messages MessageQueries.

Variable JSON_stringify : JsVal -> Completion (option string).
Variable safeJsonParse : string -> JsVal.
Variable as_number : Z -> Z.
Hypothesis as_number_exact : forall z, safe_integer z -> as_number z = z.

Local Abbreviation add := (addMessage JSON_stringify safeJsonParse as_number).
Local Abbreviation stored := (toStoredMessage safeJsonParse).

(** The ways [addMessage] ends. *)
Lemma addMessage_cases now uuid db sid c localId :
  match replayed db sid localId with
  | Some r => add now uuid db sid c localId = (db, Normal (stored r))
  | None =>
      match JSON_stringify c with
      | Throw e => add now uuid db sid c localId = (db, Throw e)
      | Normal None =>
          add now uuid db sid c localId = (db, Throw "SQLITE_CONSTRAINT_NOTNULL")
      | Normal (Some json) =>
          let row := mkRow uuid sid json now (as_number (getMaxSeq db sid + 1)) localId in
          if insert_allowed db row
          then add now uuid db sid c localId
               = (mkDb (sessions db) (messages db ++ [row]), Normal (stored row))
          else add now uuid db sid c localId = (db, Throw "SQLITE_CONSTRAINT")
      end
  end.
Proof.
  rewrite addMessage_unfold. unfold replayed.
  destruct (if truthy localId then find_by_local_id db sid (default "" localId) else None)
    as [r |]; [reflexivity |].
  destruct (JSON_stringify c) as [[json |] | e]; try reflexivity.
  cbv zeta. destruct (insert_allowed db _); reflexivity.
Qed.

Lemma replayed_none_key db sid l :
  l <> "" -> replayed db sid (Some l) = None -> (sid, l) ∉ local_keys (messages db).
Proof.
  intros Hl Hrep Hin. unfold replayed in Hrep.
  rewrite (truthy_nonempty l Hl) in Hrep. simpl in Hrep.
  unfold local_keys in Hin. apply list_elem_of_omap in Hin as [r [Hr Hkey]].
  unfold local_key in Hkey. destruct (local_id r) as [l' |] eqn:Hl'; [| discriminate].
  simpl in Hkey. injection Hkey as Hs <-.
  unfold find_by_local_id in Hrep. apply head_filter_nil in Hrep.
  assert (Hin : r ∈ filter (fun r => session_id r = sid /\ local_id r = Some l')
                     (messages db)) by (apply list_elem_of_filter; auto).
  rewrite Hrep in Hin. inversion Hin.
Qed.

Lemma session_seq_bound db sid r :
  r ∈ messages db -> session_id r = sid -> row_seq r <= getMaxSeq db sid.
Proof.
  intros Hin Hs. unfold getMaxSeq.
  assert (Hr : r ∈ session_rows db sid) by (apply session_rows_elem; auto).
  destruct (max_seq (session_rows db sid)) as [x |] eqn:Hmax.
  - simpl. exact (proj2 (max_seq_bound _ _ Hmax) r Hr).
  - apply max_seq_nil in Hmax. rewrite Hmax in Hr. inversion Hr.
Qed.

(** A call that is not a replay inserts the row it builds. *)
Lemma addMessage_inserts now uuid db sid c localId json :
  replayed db sid localId = None ->
  localId <> Some "" ->
  sid ∈ sessions db ->
  uuid ∉ row_id <$> messages db ->
  JSON_stringify c = Normal (Some json) ->
  safe_integer (getMaxSeq db sid + 1) ->
  add now uuid db sid c localId
  = (mkDb (sessions db)
       (messages db ++ [mkRow uuid sid json now (getMaxSeq db sid + 1) localId]),
     Normal (mkStored uuid sid (safeJsonParse json) now (getMaxSeq db sid + 1) localId)).
Proof.
  intros Hrep Hne Hsess Hfresh Hjson Hsafe.
  pose proof (addMessage_cases now uuid db sid c localId) as Hcases.
  rewrite Hrep, Hjson, (as_number_exact _ Hsafe) in Hcases. cbv zeta in Hcases.
  assert (Hallowed : insert_allowed db
            (mkRow uuid sid json now (getMaxSeq db sid + 1) localId) = true).
  { unfold insert_allowed. simpl.
    rewrite !bool_decide_eq_true_2 by assumption. simpl.
    unfold local_key. simpl. destruct localId as [l |]; [| reflexivity]. simpl.
    apply bool_decide_eq_true. apply replayed_none_key; [congruence | exact Hrep]. }
  rewrite Hallowed in Hcases. exact Hcases.
Qed.

(** X5. A call that is not a replay, for an existing session, with a new
    generated id, a content that [JSON.stringify] turns into a string and a
    next seq that is a safe integer, appends one row: the message gets the
    session's highest seq plus one, a gap-free session stays gap-free, the
    rows of other sessions are as before, and the new message is the
    session's highest. A content that [JSON.stringify] turns into
    [undefined] is refused by the [NOT NULL] column: the call throws and the
    table is as it was. *)
Theorem addMessage_appends now uuid db sid c localId json :
  replayed db sid localId = None ->
  localId <> Some "" ->
  sid ∈ sessions db ->
  uuid ∉ row_id <$> messages db ->
  JSON_stringify c = Normal (Some json) ->
  safe_integer (getMaxSeq db sid + 1) ->
  add now uuid db sid c localId
  = (mkDb (sessions db)
       (messages db ++ [mkRow uuid sid json now (getMaxSeq db sid + 1) localId]),
     Normal (mkStored uuid sid (safeJsonParse json) now (getMaxSeq db sid + 1) localId))
  /\ getMaxSeq (fst (add now uuid db sid c localId)) sid = getMaxSeq db sid + 1
  /\ (forall n, 0 <= n -> gap_free db sid n ->
        gap_free (fst (add now uuid db sid c localId)) sid (n + 1)
        /\ getMaxSeq db sid + 1 = n + 1)
  /\ (forall s, s <> sid ->
        session_rows (fst (add now uuid db sid c localId)) s = session_rows db s)
  /\ (forall c',
        JSON_stringify c' = Normal None ->
        add now uuid db sid c' localId = (db, Throw "SQLITE_CONSTRAINT_NOTNULL")).
Proof.
  intros Hrep Hne Hsess Hfresh Hjson Hsafe.
  rewrite (addMessage_inserts now uuid db sid c localId json Hrep Hne Hsess Hfresh
             Hjson Hsafe). cbn [fst].
  split; [reflexivity |].
  assert (Hrows : session_rows
            (mkDb (sessions db)
               (messages db ++ [mkRow uuid sid json now (getMaxSeq db sid + 1) localId]))
            sid
          = session_rows db sid
            ++ [mkRow uuid sid json now (getMaxSeq db sid + 1) localId]).
  { unfold session_rows. simpl. rewrite filter_app.
    rewrite filter_cons_True by reflexivity. reflexivity. }
  split; [| split; [| split]].
  - apply getMaxSeq_snoc; reflexivity.
  - intros n Hn Hgap. split; [| rewrite (getMaxSeq_gap_free db sid n Hn Hgap); reflexivity].
    unfold gap_free in *. rewrite Hrows, fmap_app, Hgap. simpl.
    rewrite (getMaxSeq_gap_free db sid n Hn Hgap).
    rewrite seqZ_app by lia. simpl.
    rewrite (seqZ_cons _ 1) by lia.
    rewrite (Z.add_comm n 1). reflexivity.
  - intros s Hs. unfold session_rows. simpl. rewrite filter_app.
    rewrite filter_cons_False by (simpl; congruence). apply app_nil_r.
  - intros c' Hnone.
    pose proof (addMessage_cases now uuid db sid c' localId) as Hcases.
    rewrite Hrep, Hnone in Hcases. exact Hcases.
Qed.

(** X6. Insert and read back: the message a call has just appended is exactly
    what [getMessagesAfter] returns for the highest seq the session had
    before, for any limit that the clamp turns into an integer. *)
Theorem addMessage_then_getMessagesAfter now uuid db sid c localId json limit k :
  replayed db sid localId = None ->
  localId <> Some "" ->
  sid ∈ sessions db ->
  uuid ∉ row_id <$> messages db ->
  JSON_stringify c = Normal (Some json) ->
  safe_integer (getMaxSeq db sid + 1) ->
  clamped limit = Whole k ->
  exists db' m,
    add now uuid db sid c localId = (db', Normal m)
    /\ getMessagesAfter safeJsonParse db' sid (Whole (getMaxSeq db sid)) limit
       = Normal [m].
Proof.
  intros Hrep Hne Hsess Hfresh Hjson Hsafe Hclamp.
  pose proof (addMessage_inserts now uuid db sid c localId json Hrep Hne Hsess Hfresh
                Hjson Hsafe) as Hadd.
  eexists _, _. split; [exact Hadd |].
  rewrite (getMessagesAfter_Normal safeJsonParse _ sid _ limit k Hclamp).
  unfold lower_bound. simpl. rewrite filter_app.
  rewrite (filter_none _ (messages db)).
  - rewrite filter_cons_True by (simpl; split; [reflexivity | lia]). simpl.
    unfold limit_rows. pose proof (clamped_range limit k Hclamp) as Hrange.
    rewrite filter_nil.
    rewrite (proj1 (Permutation_singleton_r _ _) (merge_sort_Permutation seq_asc _)).
    rewrite take_ge by (simpl; lia). reflexivity.
  - intros r Hin [Hs Hlt]. pose proof (session_seq_bound db sid r Hin Hs). lia.
Qed.

(** X7. [addMessage] keeps the table's constraints, whatever its outcome:
    message ids stay distinct, every message belongs to an existing session,
    and no session has a local id twice. *)
Theorem addMessage_keeps_constraints now uuid db sid c localId :
  constraints_hold db ->
  constraints_hold (fst (add now uuid db sid c localId)).
Proof.
  intros (Hids & Hfk & Hkeys).
  pose proof (addMessage_cases now uuid db sid c localId) as Hcases.
  destruct (replayed db sid localId) as [r |];
    [rewrite Hcases; repeat split; assumption |].
  destruct (JSON_stringify c) as [[json |] | e];
    try (rewrite Hcases; repeat split; assumption).
  cbv zeta in Hcases.
  destruct (insert_allowed db _) eqn:Hallowed;
    [| rewrite Hcases; repeat split; assumption].
  rewrite Hcases. simpl.
  unfold insert_allowed in Hallowed. simpl in Hallowed.
  apply andb_true_iff in Hallowed as [Hallowed Hkey].
  apply andb_true_iff in Hallowed as [Hfresh Hsess].
  apply bool_decide_eq_true in Hfresh. apply bool_decide_eq_true in Hsess.
  unfold constraints_hold. simpl. split; [| split].
  - rewrite fmap_app. apply NoDup_app. split; [exact Hids |]. split.
    + intros i Hi Hi'. simpl in Hi'. apply list_elem_of_singleton in Hi' as ->.
      contradiction.
    + simpl. apply NoDup_singleton.
  - intros r Hr. apply elem_of_app in Hr as [Hr | Hr]; [apply Hfk; exact Hr |].
    apply list_elem_of_singleton in Hr as ->. exact Hsess.
  - unfold local_keys. rewrite omap_app. csimpl.
    unfold local_key at 2. simpl. unfold local_key in Hkey. simpl in Hkey.
    destruct localId as [l |]; simpl in *.
    + apply bool_decide_eq_true in Hkey. apply NoDup_app. split; [exact Hkeys |]. split.
      * intros k Hk Hk'. apply list_elem_of_singleton in Hk' as ->. contradiction.
      * apply NoDup_singleton.
    + rewrite app_nil_r. exact Hkeys.
Qed.

(** X8. An empty local id is not looked up (it is falsy) but it is stored (it is
    not nullish): the first such call for a session, with a content that
    [JSON.stringify] turns into a string and a next seq that is a safe
    integer, appends a message whose local id is the empty string, and a
    second one fails on the unique index and leaves the table as it was. *)
Theorem addMessage_empty_local_id now1 uuid1 now2 uuid2 db sid c1 c2 json1 json2 :
  sid ∈ sessions db ->
  uuid1 ∉ row_id <$> messages db ->
  (sid, "") ∉ local_keys (messages db) ->
  JSON_stringify c1 = Normal (Some json1) ->
  JSON_stringify c2 = Normal (Some json2) ->
  safe_integer (getMaxSeq db sid + 1) ->
  exists db1 m,
    add now1 uuid1 db sid c1 (Some "") = (db1, Normal m)
    /\ sm_localId m = Some ""
    /\ messages db1 = messages db ++ [mkRow uuid1 sid json1 now1
                                         (getMaxSeq db sid + 1) (Some "")]
    /\ add now2 uuid2 db1 sid c2 (Some "") = (db1, Throw "SQLITE_CONSTRAINT").
Proof.
  intros Hsess Hfresh Hkey Hjson1 Hjson2 Hsafe.
  pose proof (addMessage_cases now1 uuid1 db sid c1 (Some "")) as H1.
  unfold replayed in H1. simpl in H1.
  rewrite Hjson1, (as_number_exact _ Hsafe) in H1. cbv zeta in H1.
  assert (Hallowed : insert_allowed db
            (mkRow uuid1 sid json1 now1 (getMaxSeq db sid + 1) (Some "")) = true).
  { unfold insert_allowed. simpl. rewrite !bool_decide_eq_true_2 by assumption.
    reflexivity. }
  rewrite Hallowed in H1.
  eexists _, _. split; [exact H1 |]. split; [reflexivity |]. split; [reflexivity |].
  set (db1 := mkDb (sessions db)
                (messages db ++ [mkRow uuid1 sid json1 now1
                                   (getMaxSeq db sid + 1) (Some "")])).
  pose proof (addMessage_cases now2 uuid2 db1 sid c2 (Some "")) as H2.
  unfold replayed in H2. simpl in H2. rewrite Hjson2 in H2. cbv zeta in H2.
  assert (Hrefused : forall seq,
            insert_allowed db1 (mkRow uuid2 sid json2 now2 seq (Some "")) = false).
  { intros seq. unfold insert_allowed. simpl.
    rewrite (bool_decide_eq_false_2 ((sid, "") ∉ _)); [apply andb_false_r |].
    intros Hnot. apply Hnot. unfold local_keys. rewrite omap_app.
    apply elem_of_app. right. csimpl. left. }
  rewrite Hrefused in H2. exact H2.
Qed.

End AddMessageFacts.

(** ** Merging, on any table *)

Section MergeFacts.
Import Js Messages MessageQueries.

(** A transaction that commits ran the three updates, the first two possibly
    skipped, each of them a row-wise map. *)
Lemma mergeTransaction_Normal fault db A B oldMax newMax db' res :
  mergeTransaction fault db A B oldMax newMax = Normal (db', res) ->
  exists f1 f2 : DbMessageRow -> DbMessageRow,
    (forall r, f1 r = r \/ (session_id r = B /\ f1 r = with_seq r (row_seq r + oldMax)))
    /\ (forall r, f2 r = r \/ (session_id r = A /\ f2 r = with_local_id r None))
    /\ messages db'
       = (fun r => if decide (session_id r = A) then with_session r B else r)
           <$> (f2 <$> (f1 <$> messages db))
    /\ sessions db' = sessions db
    /\ res = mkMerge (Z.of_nat (length (session_rows
                                         (mkDb (sessions db) (f2 <$> (f1 <$> messages db))) A)))
                     oldMax newMax.
Proof.
  unfold mergeTransaction, exec. intros Hrun.
  destruct (fault StBegin); [discriminate |]. rewrite bind_Normal in Hrun.
  assert (H1 : exists f1 : DbMessageRow -> DbMessageRow,
            (forall r, f1 r = r
                       \/ (session_id r = B /\ f1 r = with_seq r (row_seq r + oldMax)))
            /\ exists db1, sessions db1 = sessions db
               /\ messages db1 = f1 <$> messages db
               /\ (db2 ← (let collisions := colliding_local_ids db1 B A in
                          if bool_decide (0 < length collisions)%nat
                          then (if fault StClearLocalIds then Throw "SQLITE_ERROR"
                                else Normal (clear_local_ids db1 A collisions))
                          else Normal db1);
                   result ← (if fault StMoveRows then Throw "SQLITE_ERROR"
                             else move_rows db2 A B);
                   _ ← (if fault StCommit then Throw "SQLITE_ERROR" else Normal tt);
                   Normal (fst result, mkMerge (snd result) oldMax newMax))
                  = Normal (db', res)).
  { destruct ((0 <? newMax) && (0 <? oldMax)).
    - destruct (fault StShiftSeq); [discriminate |]. rewrite bind_Normal in Hrun.
      destruct (fault StCollisions); [discriminate |]. rewrite bind_Normal in Hrun.
      exists (fun r => if decide (session_id r = B)
                       then with_seq r (row_seq r + oldMax) else r).
      split.
      + intros r. destruct (decide (session_id r = B)); auto.
      + exists (shift_seq db B oldMax). repeat split. exact Hrun.
    - rewrite bind_Normal in Hrun.
      destruct (fault StCollisions); [discriminate |]. rewrite bind_Normal in Hrun.
      exists (fun r => r). split; [auto |].
      exists db. repeat split; [symmetry; apply list_fmap_id | exact Hrun]. }
  clear Hrun. destruct H1 as (f1 & Hf1 & db1 & Hs1 & Hm1 & Hrun). simpl in Hrun.
  assert (H2 : exists f2 : DbMessageRow -> DbMessageRow,
            (forall r, f2 r = r \/ (session_id r = A /\ f2 r = with_local_id r None))
            /\ exists db2, sessions db2 = sessions db
               /\ messages db2 = f2 <$> (f1 <$> messages db)
               /\ (result ← (if fault StMoveRows then Throw "SQLITE_ERROR"
                             else move_rows db2 A B);
                   _ ← (if fault StCommit then Throw "SQLITE_ERROR" else Normal tt);
                   Normal (fst result, mkMerge (snd result) oldMax newMax))
                  = Normal (db', res)).
  { case_bool_decide.
    - destruct (fault StClearLocalIds); [discriminate |]. rewrite bind_Normal in Hrun.
      exists (fun r => if decide (session_id r = A
                                  /\ local_id_in r (colliding_local_ids db1 B A))
                       then with_local_id r None else r).
      split.
      + intros r. destruct (decide _) as [[HA _] | _]; auto.
      + exists (clear_local_ids db1 A (colliding_local_ids db1 B A)).
        repeat split; [exact Hs1 | simpl; rewrite Hm1; reflexivity | exact Hrun].
    - rewrite bind_Normal in Hrun. exists (fun r => r). split; [auto |].
      exists db1. repeat split; [exact Hs1 | rewrite list_fmap_id; exact Hm1 | exact Hrun]. }
  clear Hrun. destruct H2 as (f2 & Hf2 & db2 & Hs2 & Hm2 & Hrun).
  exists f1, f2. split; [exact Hf1 |]. split; [exact Hf2 |].
  destruct (fault StMoveRows); [discriminate |].
  unfold move_rows in Hrun.
  destruct (_ && _); [| discriminate]. rewrite bind_Normal in Hrun.
  destruct (fault StCommit); [discriminate |]. rewrite bind_Normal in Hrun.
  simpl in Hrun. injection Hrun as <- <-. simpl.
  rewrite Hm2, Hs2. repeat split.
  unfold session_rows. simpl. rewrite Hm2. reflexivity.
Qed.

(** X9. A merge that commits loses and duplicates nothing: the table holds the
    same messages in the same order, each with its id, content and creation
    time; the rows of the source are all in the target, with their seq; the
    rows of third sessions are untouched; the source is left empty, and the
    result counts its former rows. *)
Theorem mergeSessionMessages_keeps_messages fault db fromId toId db' res :
  fromId <> toId ->
  mergeSessionMessages fault db fromId toId = (db', Normal res) ->
  sessions db' = sessions db
  /\ Forall2 (merge_image fromId toId) (messages db) (messages db')
  /\ session_rows db' fromId = []
  /\ length (session_rows db' toId)
     = (length (session_rows db toId) + length (session_rows db fromId))%nat
  /\ res = mkMerge (Z.of_nat (length (session_rows db fromId)))
                   (getMaxSeq db fromId) (getMaxSeq db toId).
Proof.
  intros Hne Hrun. unfold mergeSessionMessages in Hrun.
  rewrite (proj2 (String.eqb_neq _ _) Hne) in Hrun.
  destruct (mergeTransaction fault db fromId toId _ _) as [[db3 r] | e] eqn:Htx;
    [| discriminate].
  injection Hrun as -> ->.
  apply mergeTransaction_Normal in Htx as (f1 & f2 & Hf1 & Hf2 & Hm & Hs & Hres).
  assert (Hsid : forall r, session_id (f2 (f1 r)) = session_id r).
  { intros r. destruct (Hf1 r) as [-> | [_ ->]];
      [destruct (Hf2 r) as [-> | [_ ->]]
      | destruct (Hf2 (with_seq r (row_seq r + getMaxSeq db fromId))) as [-> | [_ ->]]];
      reflexivity. }
  split; [exact Hs |]. split; [| split; [| split]].
  - rewrite Hm, <- !list_fmap_compose. apply Forall2_fmap_r.
    apply Forall_Forall2_diag, Forall_forall. intros r _. unfold merge_image. simpl.
    clear Hm Hres Hs Hsid.
    destruct (Hf1 r) as [H1 | [HB H1]]; rewrite H1.
    + destruct (Hf2 r) as [H2 | [HA H2]]; rewrite H2; clear Hf1 Hf2 H1 H2; simpl.
      * destruct (decide (session_id r = fromId)) as [HA | HA]; simpl;
          repeat split; try reflexivity; try (intros; congruence); left; reflexivity.
      * rewrite !decide_True by exact HA. simpl.
        repeat split; try reflexivity; try (intros; congruence).
        right. split; [exact HA | reflexivity].
    + destruct (Hf2 (with_seq r (row_seq r + getMaxSeq db fromId))) as [H2 | [HA H2]];
        rewrite H2; clear Hf1 Hf2 H1 H2; simpl in *; [| congruence].
      rewrite !decide_False by congruence. simpl.
      repeat split; try reflexivity; try (intros; congruence). left; reflexivity.
  - rewrite <- !list_fmap_compose in Hm. unfold session_rows. rewrite Hm.
    apply filter_none. intros r' Hin Hr'.
    apply list_elem_of_fmap in Hin as [r [-> _]]. simpl in Hr'.
    destruct (decide (session_id (f2 (f1 r)) = fromId)); simpl in Hr'; congruence.
  - rewrite <- !list_fmap_compose in Hm. unfold session_rows. rewrite Hm. clear Hm Hres.
    induction (messages db) as [| r l IH]; [reflexivity |].
    rewrite fmap_cons. simpl.
    destruct (decide (session_id (f2 (f1 r)) = fromId)) as [HA | HA].
    + rewrite filter_cons_True by reflexivity.
      rewrite (filter_cons_False _ r) by (rewrite <- Hsid, HA; congruence).
      rewrite (filter_cons_True _ r) by (rewrite <- Hsid; exact HA).
      simpl. rewrite IH. lia.
    + destruct (decide (session_id r = toId)) as [HB | HB].
      * rewrite filter_cons_True by (rewrite Hsid; exact HB).
        rewrite (filter_cons_True _ r) by exact HB.
        rewrite (filter_cons_False _ r) by (rewrite <- Hsid; exact HA).
        simpl. rewrite IH. reflexivity.
      * rewrite filter_cons_False by (rewrite Hsid; exact HB).
        rewrite (filter_cons_False _ r) by exact HB.
        rewrite (filter_cons_False _ r) by (rewrite <- Hsid; exact HA).
        exact IH.
  - rewrite Hres. f_equal. f_equal.
    rewrite <- list_fmap_compose.
    apply (session_rows_update_length (f2 ∘ f1) db fromId). exact Hsid.
Qed.

(** The last update of a transaction that commits has passed the checks of
    the foreign key and of the unique index. *)
Lemma mergeTransaction_checked fault db A B oldMax newMax db' res :
  mergeTransaction fault db A B oldMax newMax = Normal (db', res) ->
  NoDup (local_keys (messages db'))
  /\ (0 < moved res -> B ∈ sessions db).
Proof.
  unfold mergeTransaction, exec. intros Hrun.
  destruct (fault StBegin); [discriminate |]. rewrite bind_Normal in Hrun.
  assert (Hlast : forall db2,
            sessions db2 = sessions db ->
            (result ← (if fault StMoveRows then Throw "SQLITE_ERROR"
                       else move_rows db2 A B);
             _ ← (if fault StCommit then Throw "SQLITE_ERROR" else Normal tt);
             Normal (fst result, mkMerge (snd result) oldMax newMax))
            = Normal (db', res) ->
            NoDup (local_keys (messages db')) /\ (0 < moved res -> B ∈ sessions db)).
  { intros db2 Hs2 Hmove.
    destruct (fault StMoveRows); [discriminate |].
    unfold move_rows in Hmove.
    destruct (bool_decide _ && bool_decide _) eqn:Hguard; [| discriminate].
    rewrite bind_Normal in Hmove.
    destruct (fault StCommit); [discriminate |]. rewrite bind_Normal in Hmove.
    cbn [fst snd] in Hmove. injection Hmove as <- <-.
    apply andb_true_iff in Hguard as [Hfk Hkeys].
    apply bool_decide_eq_true in Hfk. apply bool_decide_eq_true in Hkeys.
    cbn [messages moved]. rewrite <- Hs2. split; [exact Hkeys | exact Hfk]. }
  destruct ((0 <? newMax) && (0 <? oldMax)).
  - destruct (fault StShiftSeq); [discriminate |]. rewrite bind_Normal in Hrun.
    destruct (fault StCollisions); [discriminate |]. rewrite bind_Normal in Hrun.
    case_bool_decide.
    + destruct (fault StClearLocalIds); [discriminate |]. rewrite bind_Normal in Hrun.
      refine (Hlast _ _ Hrun); reflexivity.
    + rewrite bind_Normal in Hrun. refine (Hlast _ _ Hrun); reflexivity.
  - rewrite bind_Normal in Hrun.
    destruct (fault StCollisions); [discriminate |]. rewrite bind_Normal in Hrun.
    case_bool_decide.
    + destruct (fault StClearLocalIds); [discriminate |]. rewrite bind_Normal in Hrun.
      refine (Hlast _ _ Hrun); reflexivity.
    + rewrite bind_Normal in Hrun. refine (Hlast _ _ Hrun); reflexivity.
Qed.

(** X11. [mergeSessionMessages] keeps the table's constraints, whatever its
    outcome: after a merge that commits, as after one that is rolled back,
    message ids are distinct, every message belongs to an existing session,
    and no session has a local id twice. *)
Theorem mergeSessionMessages_keeps_constraints fault db fromId toId :
  constraints_hold db ->
  constraints_hold (fst (mergeSessionMessages fault db fromId toId)).
Proof.
  intros Hc. pose proof Hc as (Hids & Hfk & Hkeys).
  unfold mergeSessionMessages.
  destruct (String.eqb fromId toId); [exact Hc |].
  destruct (mergeTransaction fault db fromId toId _ _) as [[db' res] | e] eqn:Htx;
    [| exact Hc].
  cbn [fst].
  destruct (mergeTransaction_checked _ _ _ _ _ _ _ _ Htx) as [Hkeys' Htarget].
  apply mergeTransaction_Normal in Htx as (f1 & f2 & Hf1 & Hf2 & Hm & Hs & Hres).
  assert (Hsid : forall r, session_id (f2 (f1 r)) = session_id r).
  { intros r. destruct (Hf1 r) as [-> | [_ ->]];
      [destruct (Hf2 r) as [-> | [_ ->]]
      | destruct (Hf2 (with_seq r (row_seq r + getMaxSeq db fromId))) as [-> | [_ ->]]];
      reflexivity. }
  assert (Hid : forall r, row_id (f2 (f1 r)) = row_id r).
  { intros r. destruct (Hf1 r) as [-> | [_ ->]];
      [destruct (Hf2 r) as [-> | [_ ->]]
      | destruct (Hf2 (with_seq r (row_seq r + getMaxSeq db fromId))) as [-> | [_ ->]]];
      reflexivity. }
  split; [| split; [| exact Hkeys']].
  - rewrite Hm, <- !list_fmap_compose.
    replace (row_id <$> messages db) with
      ((row_id ∘ ((fun r => if decide (session_id r = fromId)
                            then with_session r toId else r) ∘ f2 ∘ f1))
         <$> messages db) in Hids; [exact Hids |].
    apply list_fmap_ext. intros i r _. simpl.
    destruct (decide (session_id (f2 (f1 r)) = fromId)); simpl; apply Hid.
  - intros r' Hr'. rewrite Hs. rewrite Hm, <- !list_fmap_compose in Hr'.
    apply list_elem_of_fmap in Hr' as [r [-> Hr]]. simpl.
    destruct (decide (session_id (f2 (f1 r)) = fromId)) as [HA | HA]; simpl.
    + apply Htarget. rewrite Hres. cbn [moved].
      assert (Hin : f2 (f1 r) ∈ session_rows
                      (mkDb (sessions db) (f2 <$> (f1 <$> messages db))) fromId).
      { apply session_rows_elem. split; [exact HA |]. simpl.
        rewrite <- list_fmap_compose. apply (list_elem_of_fmap_2 (f2 ∘ f1)). exact Hr. }
      destruct (session_rows _ fromId); [inversion Hin | simpl; lia].
    + rewrite Hsid. apply Hfk. exact Hr.
Qed.

(** X10. Merging a session that has no messages changes nothing, whether or not
    the target exists: the call returns [moved = 0], [oldMaxSeq = 0] and the
    target's highest seq. *)
Theorem mergeSessionMessages_empty_source fault db fromId toId :
  (forall st, fault st = false) ->
  fromId <> toId ->
  session_rows db fromId = [] ->
  NoDup (local_keys (messages db)) ->
  mergeSessionMessages fault db fromId toId
  = (db, Normal (mkMerge 0 0 (getMaxSeq db toId))).
Proof.
  intros Hfault Hne Hempty Hkeys. unfold mergeSessionMessages.
  rewrite (proj2 (String.eqb_neq _ _) Hne).
  assert (Hmax : getMaxSeq db fromId = 0) by (unfold getMaxSeq; rewrite Hempty; reflexivity).
  rewrite Hmax. unfold mergeTransaction, exec. rewrite !Hfault, bind_Normal.
  rewrite andb_false_r, bind_Normal.
  assert (Hcoll : colliding_local_ids db toId fromId = []).
  { apply elem_of_nil_inv. intros l Hl. apply colliding_local_ids_elem in Hl as [_ Hl].
    unfold local_ids in Hl. rewrite Hempty in Hl. inversion Hl. }
  rewrite Hcoll, bind_Normal.
  rewrite bool_decide_eq_false_2 by (simpl; lia). rewrite bind_Normal.
  assert (Hid : (fun r => if decide (session_id r = fromId) then with_session r toId else r)
                  <$> messages db = messages db).
  { rewrite <- (list_fmap_id (messages db)) at 2. apply fmap_ext_elem. intros r Hr.
    destruct (decide (session_id r = fromId)) as [HA | HA]; [| reflexivity].
    assert (Hin : r ∈ session_rows db fromId) by (apply session_rows_elem; auto).
    rewrite Hempty in Hin. inversion Hin. }
  unfold move_rows. rewrite Hid, Hempty.
  rewrite bool_decide_eq_true_2 by (intros H0; compute in H0; discriminate).
  rewrite bool_decide_eq_true_2 by exact Hkeys. simpl.
  destruct db as [ss ms]. reflexivity.
Qed.

End MergeFacts.

(** ** The hub's state *)

Section HubStateFacts.
Import Js EventParsing Hub HubState.

Variable cfg : Config.

(** *** Channels that throw or reject *)

(** X12. Both notification loops hand the session to every channel, in order,
    whether or not an earlier channel threw or its promise was rejected: the
    channels up to the first promise in the turn the loop starts in, each
    later one when the promise before it has settled. Once every promise has
    settled, every channel has been invoked exactly once, one line has been
    printed for each channel that threw and each promise that was rejected,
    and the loop is gone. *)
Theorem notify_survives_rejections session w :
  flights_fresh w ->
  (calls (notifyReady cfg session w) = calls w ++ first_calls cfg sendReady session
   /\ forall outcomes,
        length outcomes = promises sendReady session (channels cfg) ->
        let w' := run cfg (notifyReady cfg session w) (settles (next_flight w) outcomes) in
        calls w' = calls w ++ once_per_channel sendReady session 0 (length (channels cfg))
        /\ console w'
           = console w
             ++ replicate (throwers sendReady session (channels cfg)
                           + rejected_among outcomes)
                  (failure_message sendReady)
        /\ inflight w' = inflight w)
  /\ (calls (notifyPermission cfg session w)
      = calls w ++ first_calls cfg sendPermissionRequest session
      /\ forall outcomes,
           length outcomes = promises sendPermissionRequest session (channels cfg) ->
           let w' := run cfg (notifyPermission cfg session w)
                       (settles (next_flight w) outcomes) in
           calls w'
           = calls w ++ once_per_channel sendPermissionRequest session 0
                          (length (channels cfg))
           /\ console w'
              = console w
                ++ replicate (throwers sendPermissionRequest session (channels cfg)
                              + rejected_among outcomes)
                     (failure_message sendPermissionRequest)
           /\ inflight w' = inflight w).
Proof.
  intros Hfresh. unfold notifyReady, notifyPermission. split; split.
  - apply notify_start.
  - intros outcomes Hlen.
    destruct (notification_completes cfg sendReady session w outcomes Hfresh Hlen)
      as (Hc & Ho & Hf & _).
    cbv zeta. rewrite Hc, Ho, Hf. repeat split.
  - apply notify_start.
  - intros outcomes Hlen.
    destruct (notification_completes cfg sendPermissionRequest session w outcomes
                Hfresh Hlen) as (Hc & Ho & Hf & _).
    cbv zeta. rewrite Hc, Ho, Hf. repeat split.
Qed.

(** *** Handles and timers *)

Lemma handles_live_without sid w k h :
  tight w -> k <> sid ->
  notificationDebounce (hub w) !! k = Some h ->
  exists tm, tm ∈ without_timer_of sid w /\ timer_id tm = h /\ timer_session tm = k.
Proof.
  intros [(Hmap & Hnd & _) Hlive] Hne Hk.
  destruct (Hlive k h Hk) as (tm & Hin & Hid & Hs).
  exists tm. split; [| auto].
  unfold without_timer_of.
  destruct (notificationDebounce (hub w) !! sid) as [hs |] eqn:Hsid; [| exact Hin].
  apply list_elem_of_filter. split; [| exact Hin].
  intros Heq. destruct (Hlive sid hs Hsid) as (tm' & Hin' & Hid' & Hs').
  assert (tm = tm') by (apply (NoDup_fmap_eq timer_id (timers w)); congruence).
  congruence.
Qed.

Lemma tight_clearSessionState sid w : tight w -> tight (clearSessionState sid w).
Proof.
  intros Ht. split; [apply consistent_clearSessionState; apply Ht |].
  destruct (clearSessionState_spec sid w) as (_ & Hdeb & _ & _ & Htm & _).
  intros k h. rewrite Hdeb, Htm. intros Hk.
  apply lookup_delete_Some in Hk as [Hne Hk].
  apply (handles_live_without sid w k h Ht); congruence.
Qed.

Lemma tight_checkForPermissionNotification session w :
  tight w -> tight (checkForPermissionNotification cfg session w).
Proof.
  intros Ht. split; [apply consistent_checkForPermissionNotification; apply Ht |].
  destruct (agentState session ≫= requests) as [reqs |] eqn:Hreq;
    [| rewrite checkForPermissionNotification_absent by exact Hreq; apply Ht].
  destruct (hasNewRequests (dom reqs)
              (default ∅ (lastKnownRequests (hub w) !! sess_id session))) eqn:Hnew.
  - destruct (checkForPermissionNotification_new cfg session reqs w Hreq Hnew)
      as (_ & Hdeb & _ & _ & Htm & _).
    intros k h. rewrite Hdeb, Htm. intros Hk.
    apply lookup_insert_Some in Hk as [[<- <-] | [Hne Hk]].
    + eexists. split; [apply elem_of_app; right; left |]. split; reflexivity.
    + destruct (handles_live_without (sess_id session) w k h Ht) as (tm & Hin & Hid & Hs);
        [congruence | exact Hk |].
      exists tm. split; [apply elem_of_app; left; exact Hin | auto].
  - rewrite (checkForPermissionNotification_known cfg session reqs w Hreq Hnew).
    apply Ht.
Qed.

Lemma tight_handleSyncEvent event w : tight w -> tight (handleSyncEvent cfg event w).
Proof.
  intros Ht. unfold handleSyncEvent.
  destruct (truthy_id event) as [sid |]; [| exact Ht].
  destruct (_ || _).
  { destruct (getSession w sid) as [session |];
      [destruct (active session) |];
      auto using tight_clearSessionState, tight_checkForPermissionNotification. }
  destruct (is_str (ev_type event) "session-removed");
    [apply tight_clearSessionState; exact Ht |].
  destruct (is_str (ev_type event) "message-received"); [| exact Ht].
  destruct (extractMessageEventType event) as [[eventType |] |]; try exact Ht.
  destruct (String.eqb eventType "ready"); [| exact Ht].
  destruct (sendReadyNotification_frame cfg sid w) as (Htm & Hn & Hd & _).
  destruct Ht as [Hc Hlive]. split.
  - unfold consistent. rewrite Htm, Hn, Hd. exact Hc.
  - intros k h. rewrite Hd, Htm. apply Hlive.
Qed.

Lemma tight_advance t w : tight w -> tight (advance cfg t w).
Proof.
  intros Ht. split; [apply consistent_advance; apply Ht |].
  destruct Ht as [Hc Hlive]. pose proof Hc as (Hmap & Hnd & _).
  destruct (advance_spec cfg t w) as (_ & _ & Htm & Hd & _).
  intros k h. rewrite Hd, Htm.
  destruct (decide (k ∈ _)) as [Hdue | Hdue]; [discriminate |].
  intros Hk. destruct (Hlive k h Hk) as (tm & Hin & Hid & Hs).
  exists tm. split; [| auto].
  apply list_elem_of_filter. split; [| exact Hin].
  intros Hid'. apply Hdue. rewrite <- Hs.
  apply list_elem_of_fmap_2, list_elem_of_filter. split; [| exact Hin].
  exact (due_id_is_due t w tm Hc Hin Hid').
Qed.

Lemma tight_stop w : tight w -> tight (stop w).
Proof.
  intros [Hc _]. split; [apply consistent_stop; exact Hc |].
  destruct (stop_spec w Hc) as (_ & Hh & _).
  intros k h. rewrite Hh. simpl. rewrite lookup_empty. discriminate.
Qed.

Lemma tight_settle id rejected w : tight w -> tight (settle cfg id rejected w).
Proof.
  intros [Hc Hlive]. split; [apply consistent_settle; exact Hc |].
  destruct (settle_frame cfg id rejected w) as (_ & Hh & _ & Htm & _).
  intros k h. rewrite Hh, Htm. apply Hlive.
Qed.

Lemma tight_step w a : tight w -> tight (step cfg w a).
Proof.
  intros Ht. destruct a as [event | session | sid | ms | id rejected |]; simpl.
  - destruct (subscribed (hub w)); [apply tight_handleSyncEvent |]; exact Ht.
  - exact Ht.
  - exact Ht.
  - apply tight_advance. exact Ht.
  - apply tight_settle. exact Ht.
  - apply tight_stop. exact Ht.
Qed.

Lemma tight_run actions : forall w, tight w -> tight (run cfg w actions).
Proof.
  induction actions as [| a actions IH]; intros w Ht; [exact Ht |].
  apply IH, tight_step, Ht.
Qed.

Lemma tight_start e t0 : tight (start e t0).
Proof.
  split; [apply consistent_start |].
  intros k h. simpl. rewrite lookup_empty. discriminate.
Qed.

(** X13. Whatever has happened since the hub was built, its handle map and the
    timer queue match: a session has at most one debounce timer queued, and
    it has one exactly when the hub holds that timer's handle for it. No
    timer is leaked and no handle dangles. *)
Theorem timers_match_handles e t0 actions :
  let w := run cfg (start e t0) actions in
  NoDup (timer_session <$> timers w)
  /\ (forall k h,
        notificationDebounce (hub w) !! k = Some h
        <-> exists tm, tm ∈ timers w /\ timer_id tm = h /\ timer_session tm = k)
  /\ (length (timers w) = size (notificationDebounce (hub w))).
Proof.
  intros w. destruct (tight_run actions (start e t0) (tight_start e t0)) as [Hc Hlive].
  fold w in Hc, Hlive. pose proof Hc as (Hmap & Hnd & _).
  assert (Hsess : NoDup (timer_session <$> timers w))
    by (apply consistent_sessions_NoDup; exact Hc).
  split; [exact Hsess |]. split.
  - intros k h. split; [apply Hlive |].
    intros (tm & Hin & <- & <-). apply Hmap. exact Hin.
  - rewrite <- (length_fmap timer_session), <- size_dom.
    rewrite <- (size_list_to_set (C := gset string) (timer_session <$> timers w))
      by exact Hsess.
    f_equal. apply set_eq. intros k.
    rewrite elem_of_list_to_set, elem_of_dom, list_elem_of_fmap. split.
    + intros (tm & -> & Hin). exists (timer_id tm). apply Hmap. exact Hin.
    + intros [h Hk]. destruct (Hlive k h Hk) as (tm & Hin & _ & Hs).
      exists tm. split; [congruence | exact Hin].
Qed.

(** *** After [stop] *)

Lemma stopped_step fs w a :
  timers w = [] -> hub w = mkHub ∅ ∅ ∅ false ->
  (forall g, g ∈ inflight w -> continues fs g) ->
  timers (step cfg w a) = [] /\ hub (step cfg w a) = mkHub ∅ ∅ ∅ false
  /\ (forall g, g ∈ inflight (step cfg w a) -> continues fs g)
  /\ (exists new,
        calls (step cfg w a) = calls w ++ new
        /\ forall c, c ∈ new ->
             exists f, f ∈ fs /\ call_method c = flight_method f
                       /\ call_session c = flight_session f
                       /\ (flight_channel f < call_channel c)%nat)
  /\ (inflight w = [] ->
      inflight (step cfg w a) = [] /\ calls (step cfg w a) = calls w
      /\ console (step cfg w a) = console w).
Proof.
  intros Ht Hh Hfs.
  assert (Hsame : forall w', timers w' = [] -> hub w' = mkHub ∅ ∅ ∅ false ->
            inflight w' = inflight w -> calls w' = calls w -> console w' = console w ->
            timers w' = [] /\ hub w' = mkHub ∅ ∅ ∅ false
            /\ (forall g, g ∈ inflight w' -> continues fs g)
            /\ (exists new,
                  calls w' = calls w ++ new
                  /\ forall c, c ∈ new ->
                       exists f, f ∈ fs /\ call_method c = flight_method f
                                 /\ call_session c = flight_session f
                                 /\ (flight_channel f < call_channel c)%nat)
            /\ (inflight w = [] ->
                inflight w' = [] /\ calls w' = calls w /\ console w' = console w)).
  { intros w' Ht' Hh' Hf' Hc' Ho'. rewrite Hf', Hc', Ho'.
    split; [exact Ht' |]. split; [exact Hh' |]. split; [exact Hfs |]. split.
    - exists []. rewrite app_nil_r. split; [reflexivity |]. intros c Hc. inversion Hc.
    - auto. }
  destruct a as [event | session | sid | ms | id rejected |]; cbn [step].
  - rewrite Hh. simpl. apply Hsame; auto.
  - apply Hsame; auto.
  - apply Hsame; auto.
  - unfold advance. rewrite Ht. simpl. apply Hsame; auto.
  - destruct (settle_frame cfg id rejected w) as (_ & Hh' & _ & Ht' & _).
    rewrite Hh', Ht'. split; [exact Ht |]. split; [exact Hh |].
    destruct (flight_of id w) as [f |] eqn:Hf.
    + destruct (settle_spec cfg id rejected w f Hf) as (Hc & _ & Hin & _).
      apply flight_of_Some in Hf as [Hfin Hid].
      destruct (Hfs f Hfin) as (f0 & Hf0 & Hm0 & Hs0 & Hch0).
      split; [| split].
      * intros g Hg. rewrite Hin in Hg. apply elem_of_app in Hg as [Hg | Hg].
        -- apply list_elem_of_filter in Hg as [_ Hg]. apply Hfs. exact Hg.
        -- destruct (decide _); [| inversion Hg].
           apply list_elem_of_singleton in Hg as ->.
           exists f0. simpl. repeat split; try assumption. lia.
      * eexists. split; [exact Hc |].
        intros c Hcin. apply once_per_channel_elem in Hcin as (Hm & Hs & Hch).
        exists f0. repeat split; try congruence. lia.
      * intros Hnil. rewrite Hnil in Hfin. inversion Hfin.
    + rewrite (settle_unknown cfg id rejected w Hf).
      split; [exact Hfs |]. split.
      * exists []. rewrite app_nil_r. split; [reflexivity |]. intros c Hc. inversion Hc.
      * auto.
  - apply Hsame; unfold stop; rewrite Hh; simpl; rewrite ?map_to_list_empty; auto.
Qed.

Lemma stopped_run fs actions : forall w,
  timers w = [] -> hub w = mkHub ∅ ∅ ∅ false ->
  (forall g, g ∈ inflight w -> continues fs g) ->
  timers (run cfg w actions) = [] /\ hub (run cfg w actions) = mkHub ∅ ∅ ∅ false
  /\ (exists new,
        calls (run cfg w actions) = calls w ++ new
        /\ forall c, c ∈ new ->
             exists f, f ∈ fs /\ call_method c = flight_method f
                       /\ call_session c = flight_session f
                       /\ (flight_channel f < call_channel c)%nat)
  /\ (inflight w = [] ->
      calls (run cfg w actions) = calls w /\ console (run cfg w actions) = console w).
Proof.
  induction actions as [| a actions IH]; intros w Ht Hh Hfs.
  - simpl. split; [exact Ht |]. split; [exact Hh |]. split; [| auto].
    exists []. rewrite app_nil_r. split; [reflexivity |]. intros c Hc. inversion Hc.
  - destruct (stopped_step fs w a Ht Hh Hfs) as (Ht1 & Hh1 & Hfs1 & Hnew1 & Hnil1).
    destruct (IH (step cfg w a) Ht1 Hh1 Hfs1) as (Ht2 & Hh2 & Hnew2 & Hnil2).
    rewrite run_cons. split; [exact Ht2 |]. split; [exact Hh2 |]. split.
    + destruct Hnew1 as [new1 [Hc1 Hall1]]. destruct Hnew2 as [new2 [Hc2 Hall2]].
      exists (new1 ++ new2). rewrite Hc2, Hc1, app_assoc. split; [reflexivity |].
      intros c Hc. apply elem_of_app in Hc as [Hc | Hc]; auto.
    + intros Hnil. destruct (Hnil1 Hnil) as (Hf1 & Hc1 & Ho1).
      destruct (Hnil2 Hf1) as (Hc2 & Ho2). rewrite Hc2, Ho2. auto.
Qed.

(** X14. After [stop] the hub starts nothing: whatever came before and
    whatever comes after, no timer is queued and the hub's three maps stay
    empty; what is handed to a channel after [stop] continues a loop that
    was already waiting when [stop] ran, which [stop] does not cancel; with
    no loop waiting, no channel is invoked and nothing is printed. *)
Theorem stop_starts_nothing e t0 before after :
  let w0 := run cfg (start e t0) before in
  let w := run cfg (start e t0) (before ++ Stop :: after) in
  timers w = [] /\ hub w = mkHub ∅ ∅ ∅ false
  /\ (exists new,
        calls w = calls w0 ++ new
        /\ forall c, c ∈ new ->
             exists f, f ∈ inflight w0 /\ call_method c = flight_method f
                       /\ call_session c = flight_session f
                       /\ (flight_channel f < call_channel c)%nat)
  /\ (inflight w0 = [] -> calls w = calls w0 /\ console w = console w0).
Proof.
  intros w0 w. unfold w. rewrite run_app. fold w0. rewrite run_cons. cbn [step].
  assert (Hc : consistent w0)
    by (apply consistent_run, consistent_start).
  destruct (stop_spec w0 Hc) as (Ht & Hh & Hcalls & _).
  destruct (stop_flights w0) as (Hf & _ & Ho).
  destruct (stopped_run (inflight w0) after (stop w0) Ht Hh)
    as (Ht' & Hh' & Hnew & Hnil).
  { intros g Hg. rewrite Hf in Hg. exists g. repeat split; [exact Hg | lia]. }
  rewrite Hcalls, Hf, Ho in *. auto.
Qed.

End HubStateFacts.

(** *** Sessions apart *)

Section SessionIsolation.
Import Js EventParsing Hub HubState.

Variable cfg : Config.

Lemma filter_ext_elem {A} (P Q : A -> Prop) `{!forall x, Decision (P x)}
    `{!forall x, Decision (Q x)} (l : list A) :
  (forall x, x ∈ l -> P x <-> Q x) -> filter P l = filter Q l.
Proof.
  induction l as [| x l IH]; intros Hext; [reflexivity |].
  assert (Hl : filter P l = filter Q l)
    by (apply IH; intros y Hy; apply Hext; right; exact Hy).
  assert (Hx : P x <-> Q x) by (apply Hext; left).
  destruct (decide (P x)) as [Hp | Hp].
  - rewrite (filter_cons_True P) by exact Hp.
    rewrite (filter_cons_True Q) by (apply Hx; exact Hp). rewrite Hl. reflexivity.
  - rewrite (filter_cons_False P) by exact Hp.
    rewrite (filter_cons_False Q) by (rewrite <- Hx; exact Hp). exact Hl.
Qed.

(** Cancelling the timer of one session leaves those of another queued. *)
Lemma timers_of_without A B w :
  tight w -> A <> B ->
  filter (fun tm => timer_session tm = B) (without_timer_of A w) = timers_of B w.
Proof.
  intros [Hc Hlive] Hne. pose proof Hc as (Hmap & Hnd & _).
  unfold without_timer_of, timers_of.
  destruct (notificationDebounce (hub w) !! A) as [hs |] eqn:HA; [| reflexivity].
  rewrite list_filter_filter. apply filter_ext_elem. intros tm Hin.
  split; [intros [H _]; exact H |]. intros Hs. split; [exact Hs |].
  intros Hid. destruct (Hlive A hs HA) as (tm' & Hin' & Hid' & Hs').
  assert (tm = tm') by (apply (NoDup_fmap_eq timer_id (timers w)); congruence).
  congruence.
Qed.

Lemma session_state_clearSessionState A B w :
  tight w -> A <> B ->
  session_state (clearSessionState A w) B = session_state w B.
Proof.
  intros Ht Hne.
  destruct (clearSessionState_spec A w) as (Hk & Hd & Hr & _ & Htm & _ & _ & Hc & _).
  unfold session_state, timers_of. rewrite Hk, Hd, Hr, Htm, Hc.
  rewrite !lookup_delete_ne by exact Hne.
  rewrite (timers_of_without A B w Ht Hne). reflexivity.
Qed.

Lemma session_state_checkForPermissionNotification session B w :
  tight w -> sess_id session <> B ->
  session_state (checkForPermissionNotification cfg session w) B = session_state w B.
Proof.
  intros Ht Hne.
  destruct (agentState session ≫= requests) as [reqs |] eqn:Hreq;
    [| rewrite checkForPermissionNotification_absent by exact Hreq; reflexivity].
  destruct (hasNewRequests (dom reqs)
              (default ∅ (lastKnownRequests (hub w) !! sess_id session))) eqn:Hnew.
  - destruct (checkForPermissionNotification_new cfg session reqs w Hreq Hnew)
      as (Hk & Hd & Hr & _ & Htm & _ & _ & _ & Hc).
    unfold session_state, timers_of. rewrite Hk, Hd, Hr, Htm, Hc.
    rewrite !lookup_insert_ne by exact Hne.
    rewrite filter_app, (timers_of_without (sess_id session) B w Ht Hne).
    rewrite filter_cons_False by (simpl; exact Hne).
    rewrite filter_nil, app_nil_r. reflexivity.
  - rewrite (checkForPermissionNotification_known cfg session reqs w Hreq Hnew).
    unfold session_state, timers_of. simpl.
    rewrite lookup_insert_ne by exact Hne. reflexivity.
Qed.

Lemma session_state_sendReadyNotification A B w :
  well_keyed (engine w) -> A <> B ->
  session_state (sendReadyNotification cfg A w) B = session_state w B.
Proof.
  intros Hwk Hne. unfold sendReadyNotification.
  destruct (getNotifiableSession w A) as [session |] eqn:Hget; [| reflexivity].
  destruct (_ <? _); [reflexivity |].
  apply getNotifiableSession_Some in Hget as [Hget _].
  pose proof (Hwk A session Hget) as Hid.
  destruct (notifyReady_spec cfg session
              (set_hub (set_lastReadyNotificationAt
                          (<[A := clock w]> (lastReadyNotificationAt (hub w))) (hub w)) w))
    as (Hc & _ & Hh & _ & Htm & _).
  unfold session_state, timers_of. rewrite Hc, Hh, Htm. simpl.
  rewrite lookup_insert_ne by exact Hne.
  unfold first_calls. rewrite calls_for_app, calls_for_other by congruence.
  rewrite app_nil_r. reflexivity.
Qed.

(** X15. The hub keeps its sessions apart: an event about one session, and the
    debounce callback of one session, leave everything the hub holds or has
    done about any other session as it was: its recorded request ids, its
    timer and handle, its cooldown time, and the invocations made for it. *)
Theorem sessions_are_independent w A B :
  tight w -> well_keyed (engine w) -> A <> B ->
  (forall event,
     truthy_id event = Some A ->
     session_state (handleSyncEvent cfg event w) B = session_state w B)
  /\ (forall tm,
        tm ∈ timers w -> timer_session tm = A ->
        session_state (fire cfg w tm) B = session_state w B).
Proof.
  intros Ht Hwk Hne. split.
  - intros event Hid. unfold handleSyncEvent. rewrite Hid.
    destruct (_ || _).
    { destruct (getSession w A) as [session |] eqn:Hget;
        [| apply session_state_clearSessionState; assumption].
      destruct (active session); [| apply session_state_clearSessionState; assumption].
      apply session_state_checkForPermissionNotification; [exact Ht |].
      rewrite (Hwk A session Hget). exact Hne. }
    destruct (is_str (ev_type event) "session-removed");
      [apply session_state_clearSessionState; assumption |].
    destruct (is_str (ev_type event) "message-received"); [| reflexivity].
    destruct (extractMessageEventType event) as [[eventType |] |]; try reflexivity.
    destruct (String.eqb eventType "ready"); [| reflexivity].
    apply session_state_sendReadyNotification; assumption.
  - intros tm Hin Hs. destruct Ht as [Hc Hlive]. pose proof Hc as (Hmap & Hnd & _).
    destruct (fire_spec cfg w tm) as (Hcalls & _ & Htm & Hd & Hk & Hr & _).
    unfold session_state, timers_of. rewrite Hcalls, Htm, Hd, Hk, Hr, Hs.
    rewrite lookup_delete_ne by exact Hne.
    rewrite calls_for_app, (calls_for_permission_other cfg (engine w) B A Hwk Hne).
    rewrite app_nil_r, list_filter_filter.
    rewrite (filter_ext_elem (fun x => timer_session x = B /\ timer_id x <> timer_id tm)
               (fun x => timer_session x = B) (timers w)); [reflexivity |].
    intros tm' Hin'. split; [intros [H _]; exact H |]. intros Hs'. split; [exact Hs' |].
    intros Hid.
    assert (tm' = tm) by (apply (NoDup_fmap_eq timer_id (timers w)); congruence).
    congruence.
Qed.

End SessionIsolation.

(** *** Promises that reject *)

Section Rejections.
Import Js EventParsing Hub HubState.

Variable cfg : Config.

Lemma mute_eq w w' :
  mute w = mute w' ->
  engine w = engine w' /\ hub w = hub w' /\ clock w = clock w' /\ timers w = timers w'
  /\ next_timer w = next_timer w' /\ inflight w = inflight w'
  /\ next_flight w = next_flight w' /\ calls w = calls w'.
Proof.
  intros H. unfold mute in H. injection H as -> -> -> -> -> -> -> ->. repeat split.
Qed.

Lemma mute_intro w w' :
  engine w = engine w' -> hub w = hub w' -> clock w = clock w' -> timers w = timers w' ->
  next_timer w = next_timer w' -> inflight w = inflight w' ->
  next_flight w = next_flight w' -> calls w = calls w' ->
  mute w = mute w'.
Proof. unfold mute. intros -> -> -> -> -> -> -> ->. reflexivity. Qed.

Lemma mute_notify_loop m id session chs : forall i w w',
  mute w = mute w' ->
  mute (notify_loop m id i chs session w) = mute (notify_loop m id i chs session w').
Proof.
  intros i w w' Hw. apply mute_eq in Hw as (He & Hh & Hk & Ht & Hn & Hf & Hnf & Hc).
  destruct (notify_loop_spec m id session chs i w)
    as (Hc1 & _ & Hf1 & He1 & Hh1 & Hk1 & Ht1 & Hn1 & Hnf1).
  destruct (notify_loop_spec m id session chs i w')
    as (Hc2 & _ & Hf2 & He2 & Hh2 & Hk2 & Ht2 & Hn2 & Hnf2).
  apply mute_intro; congruence.
Qed.

Lemma mute_clearSessionState sid w w' :
  mute w = mute w' -> mute (clearSessionState sid w) = mute (clearSessionState sid w').
Proof.
  intros Hw. destruct w, w'. unfold mute in *. simpl in *.
  injection Hw as -> -> -> -> -> -> -> ->.
  unfold clearSessionState. simpl.
  destruct (notificationDebounce _ !! sid); reflexivity.
Qed.

Lemma mute_checkForPermissionNotification session w w' :
  mute w = mute w' ->
  mute (checkForPermissionNotification cfg session w)
  = mute (checkForPermissionNotification cfg session w').
Proof.
  intros Hw. destruct w, w'. unfold mute in *.
  simpl in *. injection Hw as -> -> -> -> -> -> -> ->.
  unfold checkForPermissionNotification. simpl.
  destruct (agentState session ≫= requests); [| reflexivity].
  destruct (negb _); [reflexivity |].
  destruct (notificationDebounce _ !! sess_id session); reflexivity.
Qed.

Lemma mute_sendReadyNotification sid w w' :
  mute w = mute w' ->
  mute (sendReadyNotification cfg sid w) = mute (sendReadyNotification cfg sid w').
Proof.
  intros Hw. pose proof (mute_eq w w' Hw) as (He & Hh & Hc & _ & _ & _ & Hnf & _).
  unfold sendReadyNotification, getNotifiableSession, getSession.
  rewrite He, Hh, Hc.
  destruct (engine w' !! sid) as [session |]; [| exact Hw].
  destruct (active session); [| exact Hw].
  destruct (_ <? _); [exact Hw |].
  unfold notifyReady. cbn [next_flight set_hub]. rewrite Hnf.
  apply mute_notify_loop.
  destruct w, w'. unfold mute in *. simpl in *.
  injection Hw as -> -> -> -> -> -> -> ->. reflexivity.
Qed.

Lemma mute_sendPermissionNotification sid w w' :
  mute w = mute w' ->
  mute (sendPermissionNotification cfg sid w)
  = mute (sendPermissionNotification cfg sid w').
Proof.
  intros Hw. pose proof (mute_eq w w' Hw) as (He & _ & _ & _ & _ & _ & Hnf & _).
  unfold sendPermissionNotification, getNotifiableSession, getSession.
  rewrite He.
  destruct (engine w' !! sid) as [session |]; [| exact Hw].
  destruct (active session); [| exact Hw].
  unfold notifyPermission. rewrite Hnf.
  apply mute_notify_loop.
  destruct w, w'. unfold mute in *. simpl in *.
  injection Hw as -> -> -> -> -> -> -> ->. reflexivity.
Qed.

Lemma mute_handleSyncEvent event w w' :
  mute w = mute w' ->
  mute (handleSyncEvent cfg event w) = mute (handleSyncEvent cfg event w').
Proof.
  intros Hw. unfold handleSyncEvent, getSession.
  pose proof (mute_eq w w' Hw) as (He & _).
  rewrite He.
  destruct (truthy_id event) as [sid |]; [| exact Hw].
  destruct (_ || _).
  { destruct (engine w' !! sid) as [session |];
      [destruct (active session) |];
      auto using mute_clearSessionState, mute_checkForPermissionNotification. }
  destruct (is_str (ev_type event) "session-removed");
    [apply mute_clearSessionState; exact Hw |].
  destruct (is_str (ev_type event) "message-received"); [| exact Hw].
  destruct (extractMessageEventType event) as [[eventType |] |]; try exact Hw.
  destruct (String.eqb eventType "ready"); [| exact Hw].
  apply mute_sendReadyNotification. exact Hw.
Qed.

Lemma mute_fire tm w w' :
  mute w = mute w' -> mute (fire cfg w tm) = mute (fire cfg w' tm).
Proof.
  intros Hw. unfold fire. apply mute_sendPermissionNotification.
  destruct w, w'. unfold mute in *. simpl in *.
  injection Hw as -> -> -> -> -> -> -> ->. reflexivity.
Qed.

Lemma mute_fire_all due : forall w w',
  mute w = mute w' -> mute (foldl (fire cfg) w due) = mute (foldl (fire cfg) w' due).
Proof.
  induction due as [| tm due IH]; intros w w' Hw; [exact Hw |].
  simpl. apply IH, mute_fire, Hw.
Qed.

Lemma mute_advance t w w' :
  mute w = mute w' -> mute (advance cfg t w) = mute (advance cfg t w').
Proof.
  intros Hw. unfold advance.
  pose proof (mute_eq w w' Hw) as (_ & _ & _ & Ht & _).
  rewrite Ht.
  pose proof (mute_fire_all (filter (fun tm => fires_at tm <= t) (timers w')) w w' Hw)
    as Hfold.
  destruct (foldl (fire cfg) w _), (foldl (fire cfg) w' _).
  unfold mute in *. simpl in *. injection Hfold as -> -> -> -> -> -> -> ->. reflexivity.
Qed.

Lemma mute_stop w w' : mute w = mute w' -> mute (stop w) = mute (stop w').
Proof.
  intros Hw. unfold stop.
  pose proof (mute_eq w w' Hw) as (_ & Hh & _).
  rewrite Hh.
  generalize (snd <$> map_to_list (notificationDebounce (hub w'))). intros handles.
  assert (Hfold : mute (foldr (fun handle w0 => clearTimeout handle w0) w handles)
                  = mute (foldr (fun handle w0 => clearTimeout handle w0) w' handles)).
  { induction handles as [| h handles IH]; [exact Hw |]. simpl.
    destruct (foldr _ w handles), (foldr _ w' handles).
    unfold mute in *. simpl in *. injection IH as -> -> -> -> -> -> -> ->. reflexivity. }
  destruct (foldr _ w handles), (foldr _ w' handles).
  unfold mute in *. simpl in *. injection Hfold as -> -> -> -> -> -> -> ->. reflexivity.
Qed.

(** A promise that is rejected rather than resolved leaves one more line on
    the console, and the loop goes on the same. *)
Lemma mute_settle id rejected rejected' w w' :
  mute w = mute w' ->
  mute (settle cfg id rejected w) = mute (settle cfg id rejected' w').
Proof.
  intros Hw. pose proof (mute_eq w w' Hw) as (_ & _ & _ & _ & _ & Hf & _).
  unfold settle, flight_of. rewrite Hf.
  destruct (head _) as [f |]; [| exact Hw].
  apply mute_notify_loop.
  destruct w, w'. unfold mute in *. simpl in *.
  injection Hw as -> -> -> -> -> -> -> ->.
  destruct rejected, rejected'; reflexivity.
Qed.

Lemma mute_step a a' w w' :
  alike a a' -> mute w = mute w' -> mute (step cfg w a) = mute (step cfg w' a').
Proof.
  intros Ha Hw.
  destruct a as [event | session | sid | ms | id rejected |];
    destruct a' as [event' | session' | sid' | ms' | id' rejected' |];
    simpl in Ha; try discriminate Ha; try (injection Ha as <-); simpl.
  - pose proof (mute_eq w w' Hw) as (_ & Hh & _).
    rewrite Hh. destruct (subscribed (hub w')); [apply mute_handleSyncEvent |]; exact Hw.
  - destruct w, w'. unfold mute in *. simpl in *.
    injection Hw as -> -> -> -> -> -> -> ->. reflexivity.
  - destruct w, w'. unfold mute in *. simpl in *.
    injection Hw as -> -> -> -> -> -> -> ->. reflexivity.
  - pose proof (mute_eq w w' Hw) as (_ & _ & Hc & _).
    rewrite Hc. apply mute_advance. exact Hw.
  - subst id'. apply mute_settle. exact Hw.
  - apply mute_stop. exact Hw.
Qed.

(** X16. Whether a promise resolves or rejects changes nothing but the
    console: two histories that differ only in how the promises settle see
    the same invocations in the same order, the same records, the same
    timers and the same loops waiting. *)
Theorem rejections_change_only_the_console actions actions' w :
  Forall2 alike actions actions' ->
  mute (run cfg w actions) = mute (run cfg w actions').
Proof.
  intros Hall.
  assert (Hgen : forall w1 w2, mute w1 = mute w2 ->
                   mute (run cfg w1 actions) = mute (run cfg w2 actions')).
  { induction Hall as [| a a' actions actions' Ha Hall IH]; intros w1 w2 Hw; [exact Hw |].
    rewrite !run_cons. apply IH, mute_step; assumption. }
  apply Hgen. reflexivity.
Qed.

End Rejections.
(** ** Opening a database again *)

Section SchemaReopen.
Import Js Schema.

(** *** Names *)

Lemma string_lower_length s : String.length (string_lower s) = String.length s.
Proof. induction s as [| c s IH]; simpl; congruence. Qed.

Lemma string_lower_substring s : forall n m,
  string_lower (String.substring n m s) = String.substring n m (string_lower s).
Proof.
  induction s as [| c s IH]; intros n m.
  - destruct n, m; reflexivity.
  - destruct n as [| n]; destruct m as [| m]; simpl; try reflexivity.
    + rewrite IH. reflexivity.
    + apply IH.
    + apply IH.
Qed.

(** Names that SQLite takes for the same are its own together. *)
Lemma like_sqlite_same_name a b :
  same_name a b = true -> like_sqlite a = like_sqlite b.
Proof.
  unfold same_name, like_sqlite. intros H. apply String.eqb_eq in H.
  rewrite <- (string_lower_length a), <- (string_lower_length b), H.
  rewrite !string_lower_substring, H. reflexivity.
Qed.


(** *** One statement *)


Lemma find_app_None {A} (P : A -> bool) l1 l2 :
  List.find P l1 = None -> List.find P (l1 ++ l2) = List.find P l2.
Proof.
  induction l1 as [| a l1 IH]; [reflexivity |]. simpl.
  destruct (P a); [discriminate | exact IH].
Qed.


Lemma create_if_absent_appends object db db' :
  create_if_absent object db = Normal db' ->
  db' = db \/ db' = add_entry object db.
Proof.
  unfold create_if_absent, create_table_if_absent, create_index_if_absent.
  destruct (is_table object).
  - destruct (find_table db (e_name object)); [intros H; injection H as <-; auto |].
    destruct (find_index db (e_name object)); [discriminate |].
    intros H. injection H as <-. auto.
  - destruct (find_table db (e_table object)) as [on |]; [| discriminate].
    destruct (is_view on || like_sqlite (e_name on)); [discriminate |].
    destruct (find_table db (e_name object)); [discriminate |].
    destruct (find_index db (e_name object)); [intros H; injection H as <-; auto |].
    destruct (forallb _ _); [| discriminate].
    intros H. injection H as <-. auto.
Qed.


(** *** A run of statements *)

Lemma exec_appends objects : forall db db' outcome,
  exec objects db = (db', outcome) ->
  user_version db' = user_version db
  /\ exists added,
       sqlite_master db' = sqlite_master db ++ added
       /\ forall e, e ∈ added -> e ∈ objects.
Proof.
  induction objects as [| object objects IH]; intros db db' outcome; simpl.
  - intros H. injection H as <- _. split; [reflexivity |].
    exists []. rewrite app_nil_r. split; [reflexivity |]. intros e He. inversion He.
  - destruct (create_if_absent object db) as [db1 | msg] eqn:Hcreate.
    + intros Hrest. destruct (IH db1 db' outcome Hrest) as (Hv & added & Hm & Ha).
      destruct (create_if_absent_appends object db db1 Hcreate) as [-> | ->].
      * split; [exact Hv |]. exists added. split; [exact Hm |].
        intros e He. right. apply Ha. exact He.
      * split; [exact Hv |]. exists (object :: added). simpl in Hm.
        rewrite Hm, <- app_assoc. split; [reflexivity |].
        intros e He. apply elem_of_cons in He as [-> | He]; [left | right; apply Ha; exact He].
    + intros H. injection H as <- _. split; [reflexivity |].
      exists []. rewrite app_nil_r. split; [reflexivity |]. intros e He. inversion He.
Qed.







(** *** [initSchema] *)

Lemma initSchema_current dbPath db :
  user_version db = SCHEMA_VERSION ->
  initSchema dbPath db
  = (db, if all_required_present db then Normal tt
         else Throw ("SQLite schema is missing required tables ("
                     +:+ join ", " (missing_tables db) +:+ "). " +:+ REMEDIATION)).
Proof.
  intros Hv. rewrite (initSchema_versioned dbPath db) by (rewrite Hv; discriminate).
  rewrite Hv. simpl.
  destruct (assertRequiredTablesPresent_spec db)
    as [[Hall Hok] | [Hall (msg & Hthrow & _)]]; rewrite Hall.
  - rewrite Hok. reflexivity.
  - unfold assertRequiredTablesPresent in *.
    destruct (bool_decide _); [reflexivity | discriminate].
Qed.

Lemma initSchema_Normal dbPath db db' :
  initSchema dbPath db = (db', Normal tt) ->
  user_version db' = SCHEMA_VERSION
  /\ (exists added,
        sqlite_master db' = sqlite_master db ++ added
        /\ forall e, e ∈ added -> e ∈ SCHEMA_OBJECTS)
  /\ (user_version db <> 0 -> db' = db /\ all_required_present db = true).
Proof.
  intros Hopen.
  destruct (decide (user_version db = 0)) as [Hzero | Hzero].
  - unfold initSchema, getUserVersion in Hopen. rewrite Hzero in Hopen. simpl in Hopen.
    destruct (hasAnyUserTables db).
    + injection Hopen as <-. split; [reflexivity |]. split; [| intros H; contradiction].
      exists []. rewrite app_nil_r. split; [reflexivity |]. intros e He. inversion He.
    + unfold createSchema in Hopen.
      destruct (exec SCHEMA_OBJECTS db) as [created outcome] eqn:Hexec.
      destruct (exec_appends SCHEMA_OBJECTS db created outcome Hexec) as (_ & Hadded).
      destruct outcome as [[] | msg]; [| discriminate].
      injection Hopen as <-. split; [reflexivity |]. split; [exact Hadded |].
      intros H. contradiction.
  - rewrite (initSchema_versioned dbPath db Hzero) in Hopen.
    injection Hopen as <- Houtcome.
    destruct (user_version db =? SCHEMA_VERSION) eqn:Hv; [| discriminate].
    apply Z.eqb_eq in Hv.
    destruct (assertRequiredTablesPresent_spec db)
      as [[Hall Hok] | [Hall (msg & Hthrow & _)]]; [| congruence].
    split; [exact Hv |]. split; [| auto].
    exists []. rewrite app_nil_r. split; [reflexivity |]. intros e He. inversion He.
Qed.

(** X18. What a successful open leaves, and what the next open makes of it: the
    database carries the expected version and has lost no catalogue entry,
    and opening it again succeeds without a change exactly when every
    required table is there; otherwise the next open throws. A database whose
    stored version was not zero is left as it was. *)
Theorem initSchema_reopen dbPath dbPath' db db' :
  initSchema dbPath db = (db', Normal tt) ->
  user_version db' = SCHEMA_VERSION
  /\ (exists added,
        sqlite_master db' = sqlite_master db ++ added
        /\ forall e, e ∈ added -> e ∈ SCHEMA_OBJECTS)
  /\ (all_required_present db' = true -> initSchema dbPath' db' = (db', Normal tt))
  /\ (all_required_present db' = false ->
      exists msg, initSchema dbPath' db' = (db', Throw msg)
                  /\ names_remediation msg = true)
  /\ (user_version db <> 0 -> db' = db /\ all_required_present db = true).
Proof.
  intros Hopen.
  destruct (initSchema_Normal dbPath db db' Hopen) as (Hv & Hadded & Hsame).
  split; [exact Hv |]. split; [exact Hadded |]. split; [| split; [| exact Hsame]].
  - intros Hall. rewrite (initSchema_current dbPath' db' Hv), Hall. reflexivity.
  - intros Hall. rewrite (initSchema_versioned dbPath' db') by (rewrite Hv; discriminate).
    rewrite Hv. cbn [Z.eqb].
    destruct (assertRequiredTablesPresent_spec db')
      as [[Hall' _] | [_ (msg & Hthrow & Hnames)]]; [congruence |].
    exists msg. rewrite Hthrow. split; [reflexivity | exact Hnames].
Qed.

(** *** A database with nothing but SQLite's own objects *)

Lemma find_skip_own (P : Entry -> bool) (own rest : list Entry) name :
  (forall e, e ∈ own -> like_sqlite (e_name e) = true) ->
  like_sqlite name = false ->
  List.find (fun e => P e && same_name (e_name e) name) (own ++ rest)
  = List.find (fun e => P e && same_name (e_name e) name) rest.
Proof.
  intros Hown Hname. apply find_app_None.
  induction own as [| e own IH]; [reflexivity |]. simpl.
  assert (Hne : same_name (e_name e) name = false).
  { apply not_true_iff_false. intros Hsame.
    apply like_sqlite_same_name in Hsame. rewrite (Hown e) in Hsame by left. congruence. }
  rewrite Hne, andb_false_r. apply IH. intros x Hx. apply Hown. right. exact Hx.
Qed.

(** SQLite's own objects are in no statement's way. *)
Lemma create_skip_own object v (own rest : list Entry) :
  (forall e, e ∈ own -> like_sqlite (e_name e) = true) ->
  like_sqlite (e_name object) = false ->
  like_sqlite (e_table object) = false ->
  create_if_absent object (mkSqlite v (own ++ rest))
  = match create_if_absent object (mkSqlite v rest) with
    | Normal d => Normal (mkSqlite v (own ++ sqlite_master d))
    | Throw e => Throw e
    end.
Proof.
  intros Hown Hname Htable.
  unfold create_if_absent, create_table_if_absent, create_index_if_absent,
    find_table, find_index, add_entry. simpl.
  rewrite !(find_skip_own _ own rest _ Hown Hname).
  rewrite (find_skip_own _ own rest _ Hown Htable).
  destruct (is_table object).
  - destruct (List.find _ rest); [reflexivity |].
    destruct (List.find _ rest); [reflexivity |]. simpl. rewrite app_assoc. reflexivity.
  - destruct (List.find _ rest) as [on |]; [| reflexivity].
    destruct (is_view on || like_sqlite (e_name on)); [reflexivity |].
    destruct (List.find _ rest); [reflexivity |].
    destruct (List.find _ rest); [reflexivity |].
    destruct (forallb _ _); [| reflexivity]. simpl. rewrite app_assoc. reflexivity.
Qed.

Lemma exec_skip_own objects v (own : list Entry) : forall rest,
  (forall e, e ∈ own -> like_sqlite (e_name e) = true) ->
  forallb (fun o => negb (like_sqlite (e_name o)) && negb (like_sqlite (e_table o)))
          objects = true ->
  exec objects (mkSqlite v (own ++ rest))
  = (mkSqlite v (own ++ sqlite_master (fst (exec objects (mkSqlite v rest)))),
     snd (exec objects (mkSqlite v rest))).
Proof.
  induction objects as [| object objects IH]; intros rest Hown Hall; [reflexivity |].
  simpl in Hall. apply andb_true_iff in Hall as [Hobject Hall].
  apply andb_true_iff in Hobject as [Hname Htable].
  apply negb_true_iff in Hname. apply negb_true_iff in Htable.
  simpl. rewrite (create_skip_own object v own rest Hown Hname Htable).
  destruct (create_if_absent object (mkSqlite v rest)) as [d | msg] eqn:Hcreate;
    [| reflexivity].
  assert (Hd : d = mkSqlite v (sqlite_master d)).
  { destruct (create_if_absent_appends object _ d Hcreate) as [-> | ->]; reflexivity. }
  rewrite Hd at 2 3. apply IH; assumption.
Qed.

Lemma has_table_app v l1 l2 name :
  has_table (mkSqlite v (l1 ++ l2)) name
  = has_table (mkSqlite v l1) name || has_table (mkSqlite v l2) name.
Proof. unfold has_table. simpl. apply existsb_app. Qed.

(** X19. A database that holds nothing but SQLite's own objects, at version
    zero, gets the whole schema appended in the order of its statements and
    the expected version; opening the result again succeeds and changes
    nothing. *)
Theorem initSchema_fresh dbPath dbPath' db :
  user_version db = 0 ->
  (forall e, e ∈ sqlite_master db -> like_sqlite (e_name e) = true) ->
  initSchema dbPath db
  = (mkSqlite SCHEMA_VERSION (sqlite_master db ++ SCHEMA_OBJECTS), Normal tt)
  /\ initSchema dbPath' (mkSqlite SCHEMA_VERSION (sqlite_master db ++ SCHEMA_OBJECTS))
     = (mkSqlite SCHEMA_VERSION (sqlite_master db ++ SCHEMA_OBJECTS), Normal tt).
Proof.
  intros Hv Hown. split.
  - unfold initSchema, getUserVersion. rewrite Hv.
    change (0 =? 0) with true. cbv iota.
    assert (Hnone : hasAnyUserTables db = false).
    { unfold hasAnyUserTables.
      destruct (List.find _ (sqlite_master db)) as [e |] eqn:Hfind; [| reflexivity].
      apply List.find_some in Hfind as [Hin Hp]. apply list_elem_of_In in Hin.
      rewrite (Hown _ Hin) in Hp. rewrite andb_false_r in Hp. discriminate. }
    rewrite Hnone. unfold createSchema.
    destruct db as [v master]. cbn [sqlite_master user_version] in *. subst v.
    pose proof (exec_skip_own SCHEMA_OBJECTS 0 master [] Hown) as Hexec.
    rewrite app_nil_r in Hexec. rewrite Hexec by (vm_compute; reflexivity).
    replace (exec SCHEMA_OBJECTS (mkSqlite 0 []))
      with (mkSqlite 0 SCHEMA_OBJECTS, @Normal unit tt) by (vm_compute; reflexivity).
    reflexivity.
  - rewrite initSchema_current by reflexivity.
    assert (Hall : all_required_present
                     (mkSqlite SCHEMA_VERSION (sqlite_master db ++ SCHEMA_OBJECTS)) = true).
    { apply all_required_present_spec. intros t Ht. rewrite has_table_app.
      apply orb_true_iff. right. revert t Ht.
      apply (proj1 (Forall_forall
                      (fun t => has_table (mkSqlite SCHEMA_VERSION SCHEMA_OBJECTS) t = true)
                      REQUIRED_TABLES)).
      unfold REQUIRED_TABLES.
      repeat (apply Forall_cons; split; [reflexivity |]). apply Forall_nil_2. }
    rewrite Hall. reflexivity.
Qed.

End SchemaReopen.
(** ** The session cleanup script *)

Section CleanupFacts.
Import Js Messages MessageQueries Cleanup.

(** X20. [truncate] fits a text into a column of three code units or more: a
    text that fits is returned as it is; a longer one is cut to its first
    [maxLen - 3] code units and three dots, [maxLen] code units in all.
    Below three the cut counts from the end of the text, and the result is
    wider than the column. Lengths are counted in UTF-16 code units, as
    [str.length] and [str.slice] count them. A width that is not a number
    leaves three dots of any text. *)
Theorem truncate_width (str : JsString) (maxLen : Z) :
  (Z.of_nat (length str) <= maxLen -> truncate str (Whole maxLen) = str)
  /\ (3 <= maxLen < Z.of_nat (length str) ->
      truncate str (Whole maxLen) = take (Z.to_nat (maxLen - 3)) str ++ ellipsis
      /\ Z.of_nat (length (truncate str (Whole maxLen))) = maxLen)
  /\ (3 <= maxLen -> Z.of_nat (length (truncate str (Whole maxLen))) <= maxLen)
  /\ (0 <= maxLen < 3 -> maxLen < Z.of_nat (length str) ->
      maxLen < Z.of_nat (length (truncate str (Whole maxLen))))
  /\ truncate str NaN = ellipsis
  /\ truncate str PosInfinity = str.
Proof.
  assert (Hfit : Z.of_nat (length str) <= maxLen -> truncate str (Whole maxLen) = str).
  { intros Hle. unfold truncate, at_most. rewrite (proj2 (Z.leb_le _ _) Hle). reflexivity. }
  assert (Hcut : 3 <= maxLen < Z.of_nat (length str) ->
                 truncate str (Whole maxLen)
                 = take (Z.to_nat (maxLen - 3)) str ++ ellipsis
                 /\ Z.of_nat (length (truncate str (Whole maxLen))) = maxLen).
  { intros [H3 Hlt]. unfold truncate, at_most, slice0, minus_three, ToIntegerOrInfinity.
    rewrite (proj2 (Z.leb_gt _ _) Hlt).
    rewrite (proj2 (Z.ltb_ge _ _)) by lia.
    rewrite Z.min_l by lia. split; [reflexivity |].
    rewrite length_app, length_take. simpl. lia. }
  split; [exact Hfit |]. split; [exact Hcut |]. split; [| split; [| split]].
  - intros H3. destruct (Z_le_gt_dec (Z.of_nat (length str)) maxLen) as [Hle | Hgt].
    + rewrite (Hfit Hle). exact Hle.
    + destruct Hcut as [_ ->]; lia.
  - intros Hsmall Hlt. unfold truncate, at_most, slice0, minus_three, ToIntegerOrInfinity.
    rewrite (proj2 (Z.leb_gt _ _) Hlt).
    rewrite (proj2 (Z.ltb_lt _ _)) by lia.
    rewrite length_app, length_take. simpl. lia.
  - unfold truncate, at_most, slice0. simpl. rewrite Z.min_l by lia. reflexivity.
  - reflexivity.
Qed.

Lemma extractUserText_reads content :
  extractUserText content = Normal (user_text content).
Proof.
  unfold extractUserText, user_text.
  destruct content as [| | b | n | s | items | fields]; try reflexivity.
  cbn [isObject negb getProp field andb]. rewrite bind_Normal.
  destruct (is_str (lookup_field "role" fields) "user"); cbn [negb]; [| reflexivity].
  rewrite bind_Normal.
  destruct (lookup_field "content" fields) as [| | b | n | s | items | inner];
    cbn [isObject getProp field andb]; rewrite ?bind_Normal; try reflexivity.
  destruct (is_str (lookup_field "type" inner) "text");
    rewrite ?bind_Normal; [| reflexivity].
  destruct (lookup_field "text" inner); reflexivity.
Qed.

(** X21. [extractUserText] never throws, on any value. What it returns is the
    text of a message of role [user]: its content when that is a string,
    the [text] of its content when that is an object of type [text]; for a
    value that is not an object, an array, or another role it is [null]. *)
Theorem extractUserText_total content :
  extractUserText content = Normal (user_text content)
  /\ (forall t,
        user_text content = Some t ->
        (exists fields, content = JObj fields)
        /\ field content "role" = JStr "user"
        /\ (field content "content" = JStr t
            \/ (isObject (field content "content") = true
                /\ field (field content "content") "type" = JStr "text"
                /\ field (field content "content") "text" = JStr t))).
Proof.
  split; [apply extractUserText_reads |].
  unfold user_text. intros t Ht.
  destruct content as [| | b | n | s | items | fields]; try discriminate.
  cbn [isObject field andb] in *.
  destruct (lookup_field "role" fields) as [| | b | n | role | items | fs];
    try discriminate.
  cbn [is_str] in Ht. destruct (String.eqb role "user") eqn:Hrole; [| discriminate].
  apply String.eqb_eq in Hrole. subst role.
  split; [eexists; reflexivity |]. split; [reflexivity |].
  destruct (lookup_field "content" fields) as [| | b | n | s | items | inner];
    try discriminate.
  - left. congruence.
  - right. cbn [isObject field andb] in *. split; [reflexivity |].
    destruct (lookup_field "type" inner) as [| | b | n | ty | items | fs];
      try discriminate.
    cbn [is_str] in Ht. destruct (String.eqb ty "text") eqn:Hty; [| discriminate].
    apply String.eqb_eq in Hty. subst ty. split; [reflexivity |].
    destruct (lookup_field "text" inner); try discriminate. congruence.
Qed.

Section Query.
Variable JSON_parse : string -> Completion JsVal.

Lemma firstUserMessage_loop_found t messages :
  firstUserMessage_loop JSON_parse (Some t) messages = Some t.
Proof. destruct messages; reflexivity. Qed.

(** X22. The loop of [querySessions] over the messages of a session returns the
    first text it can take, in the order of the messages: a message that
    does not parse, is not a user message or has an empty text is passed
    over, and nothing after the first find is looked at. *)
Theorem firstUserMessage_is_first messages :
  firstUserMessage_loop JSON_parse None messages
  = head (omap (user_text_of JSON_parse) messages)
  /\ (forall t,
        firstUserMessage_loop JSON_parse None messages = Some t ->
        t <> ""
        /\ exists before msg after content,
             messages = before ++ msg :: after
             /\ Forall (fun m => user_text_of JSON_parse m = None) before
             /\ JSON_parse msg = Normal content
             /\ user_text content = Some t).
Proof.
  assert (Hhead : forall msgs,
            firstUserMessage_loop JSON_parse None msgs
            = head (omap (user_text_of JSON_parse) msgs)).
  { induction msgs as [| msg rest IH]; [reflexivity |]. csimpl.
    destruct (user_text_of JSON_parse msg) as [t |] eqn:Hmsg.
    - simpl. apply firstUserMessage_loop_found.
    - exact IH. }
  split; [apply Hhead |].
  intros t. rewrite Hhead. clear Hhead.
  induction messages as [| msg rest IH]; [discriminate |]. csimpl.
  destruct (user_text_of JSON_parse msg) as [t' |] eqn:Hmsg.
  - simpl. intros Ht. injection Ht as ->.
    unfold user_text_of in Hmsg.
    destruct (JSON_parse msg) as [content | e] eqn:Hparse; [| discriminate].
    rewrite bind_Normal, extractUserText_reads in Hmsg.
    destruct (user_text content) as [text |] eqn:Htext; [| discriminate].
    destruct (String.eqb text "") eqn:Hempty; [discriminate |].
    injection Hmsg as ->. apply String.eqb_neq in Hempty.
    split; [exact Hempty |].
    exists [], msg, rest, content.
    split; [reflexivity |]. split; [apply Forall_nil_2 |].
    split; [first [exact Hparse | reflexivity] | exact Htext].
  - intros Ht. destruct (IH Ht) as (Hne & before & m & after & content & -> & Hbefore & Hp & Hu).
    split; [exact Hne |].
    exists (msg :: before), m, after, content.
    split; [reflexivity |]. split; [apply Forall_cons; split; assumption |].
    split; [exact Hp | exact Hu].
Qed.

End Query.

Section Filter.
Variable glob_match : string -> string -> bool.
Variable existsSync : string -> bool.
Variable toLowerCase : string -> string.

Local Abbreviation filterSessions' := (filterSessions glob_match existsSync toLowerCase).

Lemma truthy_Some (o : option string) :
  truthy o = true <-> exists s, o = Some s /\ s <> "".
Proof.
  destruct o as [s |]; simpl.
  - rewrite negb_true_iff, String.eqb_neq. split.
    + intros H. exists s. auto.
    + intros (s' & [= <-] & H). exact H.
  - split; [discriminate | intros (s & H & _); discriminate].
Qed.

Lemma In_filter_maybe {A} (o : option A) (f : A -> SessionInfo -> bool)
    (l : list SessionInfo) s :
  In s (match o with Some x => List.filter (f x) l | None => l end)
  <-> In s l /\ forall x, o = Some x -> f x s = true.
Proof.
  destruct o as [x |].
  - rewrite List.filter_In. split.
    + intros [H1 H2]. split; [exact H1 |]. intros y [= <-]. exact H2.
    + intros [H1 H2]. split; [exact H1 | apply H2; reflexivity].
  - split; [intros H; split; [exact H | discriminate] | tauto].
Qed.

Lemma sublist_List_filter {A} (f : A -> bool) (l : list A) :
  List.filter f l `sublist_of` l.
Proof.
  induction l as [| x l IH]; simpl; [constructor |].
  destruct (f x); [apply sublist_skip | apply sublist_cons]; exact IH.
Qed.

(** X23. [filterSessions] selects by all the criteria it is given at once: a
    session is returned exactly when it passes each one that is set, the
    sessions returned keep their order, and with no criterion set every
    session is returned. A session without a path never matches a path
    pattern and always counts as orphaned. *)
Theorem filterSessions_all_conditions sessions minMessages pathPattern messagePattern
    orphaned :
  (forall s,
     s ∈ filterSessions' sessions minMessages pathPattern messagePattern orphaned
     <-> s ∈ sessions
         /\ (forall n, minMessages = Some n -> info_messageCount s < n)
         /\ (forall p, pathPattern = Some p ->
               exists pa, info_path s = Some pa /\ pa <> "" /\ glob_match p pa = true)
         /\ (forall p, messagePattern = Some p ->
               exists m, info_firstUserMessage s = Some m /\ m <> ""
                         /\ Schema.contains p (toLowerCase m) = true)
         /\ (orphaned = true ->
             forall pa, info_path s = Some pa -> pa <> "" -> existsSync pa = false))
  /\ filterSessions' sessions minMessages pathPattern messagePattern orphaned
     `sublist_of` sessions
  /\ filterSessions' sessions None None None false = sessions.
Proof.
  split; [| split; [| reflexivity]].
  - intros s. unfold filterSessions. rewrite !list_elem_of_In.
    assert (Horph : forall l,
              In s (if orphaned then List.filter (is_orphaned existsSync) l else l)
              <-> In s l /\ (orphaned = true -> is_orphaned existsSync s = true)).
    { intros l. destruct orphaned.
      - rewrite List.filter_In. tauto.
      - split; [intros H; split; [exact H | discriminate] | tauto]. }
    rewrite Horph.
    rewrite (In_filter_maybe messagePattern (message_matches toLowerCase)).
    rewrite (In_filter_maybe pathPattern (path_matches glob_match)).
    rewrite (In_filter_maybe minMessages fewer_messages).
    assert (H1 : (forall n, minMessages = Some n -> fewer_messages n s = true)
                 <-> (forall n, minMessages = Some n -> info_messageCount s < n)).
    { unfold fewer_messages. split; intros H n Hn; apply Z.ltb_lt, H, Hn. }
    assert (H2 : (forall p, pathPattern = Some p -> path_matches glob_match p s = true)
                 <-> (forall p, pathPattern = Some p ->
                        exists pa, info_path s = Some pa /\ pa <> ""
                                   /\ glob_match p pa = true)).
    { unfold path_matches. split; intros H p Hp; specialize (H p Hp).
      - destruct (truthy (info_path s)) eqn:Ht; [| discriminate].
        apply truthy_Some in Ht as (pa & Hpa & Hne). rewrite Hpa in H.
        exists pa. auto.
      - destruct H as (pa & Hpa & Hne & Hg).
        rewrite (proj2 (truthy_Some (info_path s))) by (exists pa; auto).
        rewrite Hpa. exact Hg. }
    assert (H3 : (forall p, messagePattern = Some p ->
                    message_matches toLowerCase p s = true)
                 <-> (forall p, messagePattern = Some p ->
                        exists m, info_firstUserMessage s = Some m /\ m <> ""
                                  /\ Schema.contains p (toLowerCase m) = true)).
    { unfold message_matches. split; intros H p Hp; specialize (H p Hp).
      - destruct (truthy (info_firstUserMessage s)) eqn:Ht; [| discriminate].
        apply truthy_Some in Ht as (m & Hm & Hne). rewrite Hm in H.
        exists m. auto.
      - destruct H as (m & Hm & Hne & Hc).
        rewrite (proj2 (truthy_Some (info_firstUserMessage s))) by (exists m; auto).
        rewrite Hm. exact Hc. }
    assert (H4 : (orphaned = true -> is_orphaned existsSync s = true)
                 <-> (orphaned = true ->
                      forall pa, info_path s = Some pa -> pa <> "" ->
                                 existsSync pa = false)).
    { unfold is_orphaned. split; intros H Ho; specialize (H Ho).
      - intros pa Hpa Hne.
        rewrite (proj2 (truthy_Some (info_path s))) in H by (exists pa; auto).
        rewrite Hpa in H. simpl in H. apply negb_true_iff in H. exact H.
      - destruct (truthy (info_path s)) eqn:Ht; [| reflexivity].
        apply truthy_Some in Ht as (pa & Hpa & Hne). rewrite Hpa. simpl.
        apply negb_true_iff. apply H; assumption. }
    rewrite H1, H2, H3, H4. tauto.
  - unfold filterSessions.
    destruct orphaned, messagePattern, pathPattern, minMessages;
      repeat (etransitivity; [apply sublist_List_filter |]); reflexivity.
Qed.

End Filter.

Section Arguments.
Variable parseInt : string -> option Z.
Variable toLowerCase : string -> string.

Lemma parse_arg_Exits a arg code errors :
  parse_arg parseInt toLowerCase a arg = Exits code errors -> code = 1.
Proof.
  unfold parse_arg.
  repeat match goal with
         | |- context [if ?c then _ else _] => destruct c
         | |- context [match parseInt ?s with _ => _ end] => destruct (parseInt s)
         end; intros H; try discriminate; injection H as <- _; reflexivity.
Qed.

Lemma parse_arg_Returns a arg a' :
  parse_arg parseInt toLowerCase a arg = Returns a' ->
  (forall n, minMessages a = Some n -> 0 <= n) ->
  (forall n, minMessages a' = Some n -> 0 <= n)
  /\ (selective a -> selective a').
Proof.
  unfold parse_arg, selective.
  repeat match goal with
         | |- context [if ?c then _ else _] => destruct c eqn:?
         | |- context [match parseInt ?s with _ => _ end] => destruct (parseInt s)
         end; intros H Hmin; try discriminate; injection H as <-; simpl;
    (split; [first [exact Hmin | intros n [= <-]; lia] | ]);
    intros [Hs | [Hs | [Hs | Hs]]]; auto; try (left; discriminate);
    try (right; left; discriminate); try (right; right; left; discriminate).
Qed.

Lemma parse_loop_spec args : forall a,
  (forall n, minMessages a = Some n -> 0 <= n) ->
  match parse_loop parseInt toLowerCase a args with
  | Returns a' => (forall n, minMessages a' = Some n -> 0 <= n)
                  /\ (selective a -> selective a')
  | Exits code _ => code = 1
  end.
Proof.
  induction args as [| arg rest IH]; intros a Hmin; simpl; [auto |].
  destruct (parse_arg parseInt toLowerCase a arg) as [a' | code errors] eqn:Harg.
  - destruct (parse_arg_Returns a arg a' Harg Hmin) as [Hmin' Hsel].
    specialize (IH a' Hmin').
    destruct (parse_loop parseInt toLowerCase a' rest); [| exact IH].
    destruct IH as [IH1 IH2]. split; [exact IH1 | auto].
  - exact (parse_arg_Exits a arg code errors Harg).
Qed.

(** X24. [parseArgs] never returns without a criterion: with none on the command
    line it sets [minMessages] to 5, so the script cannot select every
    session by default; a [minMessages] it returns is not negative; and
    when it ends the process instead, the exit code is 1. *)
Theorem parseArgs_always_selective args :
  match parseArgs parseInt toLowerCase args with
  | Returns a =>
      selective a
      /\ (forall n, minMessages a = Some n -> 0 <= n)
      /\ (parse_loop parseInt toLowerCase (mkArgs None None None false false false) args
          = Returns a
          \/ (minMessages a = Some 5
              /\ parse_loop parseInt toLowerCase (mkArgs None None None false false false)
                   args
                 = Returns (mkArgs None None None false (force a) (help a))))
  | Exits code _ => code = 1
  end.
Proof.
  unfold parseArgs.
  pose proof (parse_loop_spec args (mkArgs None None None false false false)) as Hloop.
  destruct (parse_loop parseInt toLowerCase _ args) as [a | code errors];
    [| apply Hloop; discriminate].
  destruct Hloop as [Hmin _]; [discriminate |].
  destruct a as [[n |] [p |] [m |] [|] f h]; unfold selective; simpl;
    (split; [| split; [first [exact Hmin | intros ? [= <-]; lia] |]]);
    try (left; discriminate); try (right; left; discriminate);
    try (right; right; left; discriminate); try (right; right; right; reflexivity);
    try (left; reflexivity).
  right. split; reflexivity.
Qed.

End Arguments.

End CleanupFacts.

(** ** Comparing secrets *)

Section CryptoFacts.
Import Js Crypto.

(** Copying a buffer into a zero-filled one that is at least as long pads
    it with zeros. *)
Lemma copy_alloc (source : Buffer) (size : nat) :
  (length source <= size)%nat ->
  copy source (alloc size) = source ++ replicate (size - length source) Byte.x00.
Proof.
  intros Hle. unfold copy, alloc.
  rewrite length_replicate, take_ge by exact Hle.
  rewrite drop_replicate. reflexivity.
Qed.

Section Equals.
Variable utf8 : string -> Buffer.

(** X25. [constantTimeEquals] never throws: the two buffers handed to
    [timingSafeEqual] always have the same length. It answers [true]
    exactly when both arguments are strings with the same UTF-8 bytes; in
    particular a string and the same string followed by zero bytes, which
    are equal once padded, are told apart by the length check. *)
Theorem constantTimeEquals_spec a b :
  exists r,
    constantTimeEquals utf8 a b = Normal r
    /\ (r = true <-> exists sa sb, a = Some sa /\ b = Some sb /\ utf8 sa = utf8 sb).
Proof.
  destruct a as [sa |], b as [sb |]; simpl;
    try (exists false; split; [reflexivity |];
         split; [discriminate | intros (? & ? & H1 & H2 & _); discriminate]).
  set (la := length (utf8 sa)). set (lb := length (utf8 sb)).
  rewrite (copy_alloc (utf8 sa) (Nat.max la lb)) by (unfold la; lia).
  rewrite (copy_alloc (utf8 sb) (Nat.max la lb)) by (unfold lb; lia).
  unfold timingSafeEqual.
  assert (Hsame : length (utf8 sa ++ replicate (Nat.max la lb - length (utf8 sa)) Byte.x00)
                  = length (utf8 sb ++ replicate (Nat.max la lb - length (utf8 sb))
                              Byte.x00))
    by (rewrite !length_app, !length_replicate; fold la lb; lia).
  rewrite (bool_decide_eq_true_2 _ Hsame), bind_Normal. eexists. split; [reflexivity |].
  rewrite andb_true_iff, !bool_decide_eq_true. fold la lb. split.
  - intros [Hpad Hlen]. exists sa, sb. split; [reflexivity |]. split; [reflexivity |].
    rewrite Hlen in Hpad. apply app_inj_1 in Hpad as [Heq _]; [exact Heq | exact Hlen].
  - intros (sa' & sb' & [= <-] & [= <-] & Heq). unfold la, lb. rewrite Heq. auto.
Qed.

End Equals.

End CryptoFacts.

(** ** Errors of API requests *)

Section ErrorUtilsFacts.
Import Js ErrorUtils.

Variable error_message : JsVal -> option string.
Variable toLowerCase : string -> string.

(** [extractErrorInfo] never throws, on any value: what it reads of the
    error are [error.code], [error.response.status] and
    [error.response.data.error], each only where it has the expected type. *)
Lemma extractErrorInfo_spec error :
  exists info,
    extractErrorInfo error_message toLowerCase error = Normal info
    /\ axiosCode info = match field error "code" with JStr s => Some s | _ => None end
    /\ httpStatus info
       = match field (field error "response") "status" with
         | JNum n => Some n
         | _ => None
         end
    /\ responseErrorText info
       = match field (field (field error "response") "data") "error" with
         | JStr s => s
         | _ => ""
         end
    /\ message info = default "Unknown error" (error_message error)
    /\ messageLower info = toLowerCase (message info).
Proof.
  unfold extractErrorInfo.
  destruct error as [| | b | n | s | items | fields];
    try (eexists; split; [reflexivity |]; repeat split).
  cbn [is_record negb getProp field]. rewrite !bind_Normal.
  destruct (lookup_field "response" fields) as [| | b | n | s | items | resp];
    cbn [is_record getOpt getProp field]; rewrite ?bind_Normal;
    try (eexists; split; [reflexivity |]; repeat split).
  destruct (lookup_field "data" resp) as [| | b | n | s | items | data];
    cbn [is_record getOpt getProp field]; rewrite ?bind_Normal;
    eexists; (split; [reflexivity |]); repeat split.
Qed.

(** X26. [isRetryableConnectionError] never throws, on any value, and answers
    [true] exactly for an error object whose [code] is one of the five
    network codes or whose [response.status] is a number from 500 up; a
    network code wins over a 4xx status, and a value that is not an object
    is never retryable. *)
Theorem isRetryableConnectionError_spec error :
  exists r,
    isRetryableConnectionError error_message toLowerCase error = Normal r
    /\ (r = true
        <-> (exists c, field error "code" = JStr c /\ c ∈ retryable_codes)
            \/ (exists n, field (field error "response") "status" = JNum n /\ 500 <= n)).
Proof.
  unfold isRetryableConnectionError.
  destruct (extractErrorInfo_spec error) as (info & -> & Hcode & Hstatus & _).
  rewrite bind_Normal, Hcode, Hstatus. clear Hcode Hstatus.
  assert (Hcodes : forall c,
            String.eqb c "ECONNREFUSED" || String.eqb c "ETIMEDOUT"
            || String.eqb c "ENOTFOUND" || String.eqb c "ENETUNREACH"
            || String.eqb c "ECONNRESET" = true
            <-> c ∈ retryable_codes).
  { intros c. unfold retryable_codes.
    rewrite !orb_true_iff, !String.eqb_eq, !elem_of_cons, elem_of_nil. tauto. }
  assert (Hnum : forall n, negb (n =? 0) && (500 <=? n) = true <-> 500 <= n).
  { intros n. rewrite andb_true_iff, negb_true_iff, Z.eqb_neq, Z.leb_le. lia. }
  destruct (field error "code") as [| | b | n | c | items | fields] eqn:Hc.
  all: try (destruct (field (field error "response") "status")
              as [| | b' | n' | s' | items' | fields'] eqn:Hs;
            [ exists false | exists false | exists false
            | exists (negb (n' =? 0) && (500 <=? n')) | exists false | exists false
            | exists false ];
            (split; [try reflexivity; destruct (negb (n' =? 0) && (500 <=? n'));
                     reflexivity |]);
            try (split; [discriminate
                        | intros [(c0 & H & _) | (n0 & H & _)]; discriminate]);
            rewrite Hnum; split;
            [ intros H; right; exists n'; auto
            | intros [(c0 & H & _) | (n0 & [= <-] & H)]; [discriminate | exact H] ]).
  destruct (String.eqb c "ECONNREFUSED" || String.eqb c "ETIMEDOUT"
            || String.eqb c "ENOTFOUND" || String.eqb c "ENETUNREACH"
            || String.eqb c "ECONNRESET") eqn:Hretry.
  - exists true. split; [reflexivity |]. split; [| reflexivity].
    intros _. left. exists c. split; [reflexivity | apply Hcodes; exact Hretry].
  - assert (Hnot : c ∉ retryable_codes)
      by (rewrite <- Hcodes, Hretry; discriminate).
    destruct (field (field error "response") "status")
      as [| | b' | n' | s' | items' | fields'] eqn:Hs;
      [ exists false | exists false | exists false
      | exists (negb (n' =? 0) && (500 <=? n')) | exists false | exists false
      | exists false ];
      (split; [try reflexivity; destruct (negb (n' =? 0) && (500 <=? n'));
               reflexivity |]);
      try (split; [discriminate
                  | intros [(c0 & [= <-] & H) | (n0 & H & _)];
                    [contradiction | discriminate]]).
    rewrite Hnum. split.
    + intros H. right. exists n'. auto.
    + intros [(c0 & [= <-] & H) | (n0 & [= <-] & H)]; [contradiction | exact H].
Qed.

End ErrorUtilsFacts.

(** ** The hub's settings *)

Section ServerSettingsFacts.
Import Js ServerSettings.

Lemma resolve_settled {A} (fromEnv fromFile fromLegacy : option A) :
  let r := resolve fromEnv fromFile fromLegacy in
  resolve fromEnv (stored r) (legacy r)
  = mkResolved (value r) (source r) (stored r) (legacy r) false.
Proof. destruct fromEnv, fromFile, fromLegacy; reflexivity. Qed.

Lemma resolve_unsaved {A} (fromEnv fromFile fromLegacy : option A) :
  save (resolve fromEnv fromFile fromLegacy) = false ->
  stored (resolve fromEnv fromFile fromLegacy) = fromFile
  /\ legacy (resolve fromEnv fromFile fromLegacy) = fromLegacy.
Proof. destruct fromEnv, fromFile, fromLegacy; simpl; intros H; try discriminate; auto. Qed.

Lemma resolve_keeps {A} (fromEnv fromFile fromLegacy : option A) v :
  fromFile = Some v ->
  resolve fromEnv fromFile fromLegacy
  = mkResolved (Some (default v fromEnv))
      (match fromEnv with Some _ => FromEnv | None => FromFile end)
      (Some v) fromLegacy false.
Proof. intros ->. destruct fromEnv; reflexivity. Qed.

Lemma resolve_env {A} (fromEnv fromFile fromLegacy : option A) v :
  fromEnv = Some v ->
  value (resolve fromEnv fromFile fromLegacy) = Some v
  /\ source (resolve fromEnv fromFile fromLegacy) = FromEnv.
Proof. intros ->. destruct fromFile; auto. Qed.

Section Load.
Variable split_comma : string -> list string.
Variable trim : string -> string.
Variable url_origin : string -> option string.
Variable parseInt : string -> option Z.

Local Abbreviation load := (loadServerSettings split_comma trim url_origin parseInt).

(** The port the environment asks for, as the function reads it. *)
Lemma load_Normal settingsFile env settings res written :
  load settingsFile env (Some settings) = Normal (res, written) ->
  exists parsed,
    match truthy_env (HAPI_LISTEN_PORT env) with
    | Some p => exists n, parseInt p = Some n /\ 0 < n /\ parsed = Some n
    | None => parsed = None
    end
    /\ load settingsFile env (Some settings)
       = (let token := resolve (truthy_env (TELEGRAM_BOT_TOKEN env))
                         (s_telegramBotToken settings) None in
          let notification := resolve ((fun s => String.eqb s "true")
                                         <$> TELEGRAM_NOTIFICATION env)
                                (s_telegramNotification settings) None in
          let host := resolve (truthy_env (HAPI_LISTEN_HOST env))
                        (s_listenHost settings) (s_webappHost settings) in
          let port := resolve parsed (s_listenPort settings) (s_webappPort settings) in
          let listenPort := default 3006 (value port) in
          let url := resolve (truthy_env (HAPI_PUBLIC_URL env))
                       (s_publicUrl settings) (s_webappUrl settings) in
          let publicUrl := default ("http://localhost:" +:+ pretty listenPort)
                             (value url) in
          let cors := resolve (parseCorsOrigins split_comma trim url_origin
                                 <$> truthy_env (CORS_ORIGINS env))
                        (s_corsOrigins settings) None in
          let corsOrigins := default (deriveCorsOrigins url_origin publicUrl)
                               (value cors) in
          let needsSave := save token || save notification || save host || save port
                           || save url || save cors in
          Normal (mkResult
                    (mkServerSettings (value token) (default true (value notification))
                       (default "127.0.0.1" (value host)) listenPort publicUrl
                       corsOrigins)
                    (mkSources (source token) (source notification) (source host)
                       (source port) (source url) (source cors))
                    needsSave,
                  if needsSave
                  then mkSettings (stored token) (stored notification) (stored host)
                         (stored port) (stored url) (stored cors)
                         (legacy host) (legacy port) (legacy url) (s_rest settings)
                  else settings)).
Proof.
  unfold loadServerSettings. intros Hload.
  destruct (truthy_env (HAPI_LISTEN_PORT env)) as [p |].
  - destruct (parseInt p) as [n |]; [| discriminate].
    destruct (n <=? 0) eqn:Hn; [discriminate |].
    apply Z.leb_gt in Hn. exists (Some n). split; [| reflexivity].
    exists n. auto.
  - exists None. split; reflexivity.
Qed.

(** X27. Loading settles: a second load with the same environment, from the file
    the first one left, returns the same settings from the same sources,
    writes nothing and leaves the file as it is. *)
Theorem loadServerSettings_settles settingsFile env settings res written :
  load settingsFile env (Some settings) = Normal (res, written) ->
  load settingsFile env (Some written)
  = Normal (mkResult (ServerSettings.settings res) (sources res) false, written).
Proof.
  intros Hload.
  destruct (load_Normal settingsFile env settings res written Hload)
    as (parsed & Hport & Hfirst).
  assert (Hparsed : match truthy_env (HAPI_LISTEN_PORT env) with
                    | Some p =>
                        match parseInt p with
                        | Some n =>
                            if n <=? 0
                            then Throw "HAPI_LISTEN_PORT must be a valid port number"
                            else Normal (Some n)
                        | None => Throw "HAPI_LISTEN_PORT must be a valid port number"
                        end
                    | None => Normal None
                    end = Normal parsed).
  { destruct (truthy_env (HAPI_LISTEN_PORT env)) as [p |]; [| rewrite Hport; reflexivity].
    destruct Hport as (n & -> & Hn & ->).
    rewrite (proj2 (Z.leb_gt _ _) Hn). reflexivity. }
  rewrite Hload in Hfirst. cbv zeta in Hfirst. injection Hfirst as -> Hwritten.
  cbn [ServerSettings.settings sources].
  unfold loadServerSettings. rewrite Hparsed, bind_Normal. clear Hparsed Hport Hload.
  set (token := resolve (truthy_env (TELEGRAM_BOT_TOKEN env))
                  (s_telegramBotToken settings) None) in *.
  set (notification := resolve ((fun s => String.eqb s "true")
                                  <$> TELEGRAM_NOTIFICATION env)
                         (s_telegramNotification settings) None) in *.
  set (host := resolve (truthy_env (HAPI_LISTEN_HOST env))
                 (s_listenHost settings) (s_webappHost settings)) in *.
  set (port := resolve parsed (s_listenPort settings) (s_webappPort settings)) in *.
  set (url := resolve (truthy_env (HAPI_PUBLIC_URL env))
                (s_publicUrl settings) (s_webappUrl settings)) in *.
  set (cors := resolve (parseCorsOrigins split_comma trim url_origin
                          <$> truthy_env (CORS_ORIGINS env))
                 (s_corsOrigins settings) None) in *.
  assert (Hw : written
               = mkSettings (stored token) (stored notification) (stored host)
                   (stored port) (stored url) (stored cors)
                   (legacy host) (legacy port) (legacy url) (s_rest settings)).
  { rewrite Hwritten.
    destruct (save token || save notification || save host || save port
              || save url || save cors) eqn:Hsave; [reflexivity |].
    repeat (apply orb_false_iff in Hsave as [Hsave ?]).
    unfold token, notification, host, port, url, cors in *.
    repeat match goal with
           | H : save _ = false |- _ =>
               let Hst := fresh in
               let Hlg := fresh in
               destruct (resolve_unsaved _ _ _ H) as [Hst Hlg];
               rewrite ?Hst, ?Hlg; clear H Hst Hlg
           end.
    destruct settings; reflexivity. }
  clear Hwritten. subst written. cbn [s_telegramBotToken s_telegramNotification
    s_listenHost s_listenPort s_publicUrl s_corsOrigins s_webappHost s_webappPort
    s_webappUrl s_rest].
  assert (Htoken : resolve (truthy_env (TELEGRAM_BOT_TOKEN env)) (stored token) None
                   = mkResolved (value token) (source token) (stored token)
                       (legacy token) false).
  { unfold token. destruct (truthy_env (TELEGRAM_BOT_TOKEN env)),
      (s_telegramBotToken settings); reflexivity. }
  assert (Hnotification :
            resolve ((fun s => String.eqb s "true") <$> TELEGRAM_NOTIFICATION env)
              (stored notification) None
            = mkResolved (value notification) (source notification)
                (stored notification) (legacy notification) false).
  { unfold notification. destruct (TELEGRAM_NOTIFICATION env),
      (s_telegramNotification settings); reflexivity. }
  assert (Hcors : resolve (parseCorsOrigins split_comma trim url_origin
                             <$> truthy_env (CORS_ORIGINS env)) (stored cors) None
                  = mkResolved (value cors) (source cors) (stored cors)
                      (legacy cors) false).
  { unfold cors. destruct (truthy_env (CORS_ORIGINS env)),
      (s_corsOrigins settings); reflexivity. }
  rewrite Htoken, Hnotification, Hcors.
  unfold host, port, url. rewrite !resolve_settled. reflexivity.
Qed.

(** X28. The order of the sources, and what the function never does: a value of
    the environment wins; a value that the file has under a key is never
    overwritten and the keys the function does not know are kept; nothing
    is written unless a key was added; and the call throws exactly when the
    file could not be read or the port of the environment is not a positive
    number. *)
Theorem loadServerSettings_priority settingsFile env read :
  match load settingsFile env read with
  | Normal (res, written) =>
      exists settings,
        read = Some settings
        /\ (forall h, truthy_env (HAPI_LISTEN_HOST env) = Some h ->
              listenHost (ServerSettings.settings res) = h
              /\ src_listenHost (sources res) = FromEnv)
        /\ (forall p, truthy_env (HAPI_LISTEN_PORT env) = Some p ->
              parseInt p = Some (listenPort (ServerSettings.settings res))
              /\ 0 < listenPort (ServerSettings.settings res)
              /\ src_listenPort (sources res) = FromEnv)
        /\ (forall u, truthy_env (HAPI_PUBLIC_URL env) = Some u ->
              publicUrl (ServerSettings.settings res) = u
              /\ src_publicUrl (sources res) = FromEnv)
        /\ (forall t, truthy_env (TELEGRAM_BOT_TOKEN env) = Some t ->
              telegramBotToken (ServerSettings.settings res) = Some t
              /\ src_telegramBotToken (sources res) = FromEnv)
        /\ (forall v, s_telegramBotToken settings = Some v ->
              s_telegramBotToken written = Some v)
        /\ (forall v, s_telegramNotification settings = Some v ->
              s_telegramNotification written = Some v)
        /\ (forall v, s_listenHost settings = Some v -> s_listenHost written = Some v)
        /\ (forall v, s_listenPort settings = Some v -> s_listenPort written = Some v)
        /\ (forall v, s_publicUrl settings = Some v -> s_publicUrl written = Some v)
        /\ (forall v, s_corsOrigins settings = Some v -> s_corsOrigins written = Some v)
        /\ s_rest written = s_rest settings
        /\ (savedToFile res = false -> written = settings)
  | Throw _ =>
      read = None
      \/ exists p, truthy_env (HAPI_LISTEN_PORT env) = Some p
                   /\ (parseInt p = None \/ exists n, parseInt p = Some n /\ n <= 0)
  end.
Proof.
  destruct read as [settings |]; [| left; reflexivity].
  destruct (load settingsFile env (Some settings)) as [[res written] | msg] eqn:Hload.
  - destruct (load_Normal settingsFile env settings res written Hload)
      as (parsed & Hport & Hfirst).
    rewrite Hload in Hfirst. cbv zeta in Hfirst. injection Hfirst as -> ->.
    exists settings. split; [reflexivity |].
    cbn [ServerSettings.settings sources listenHost listenPort publicUrl
           telegramBotToken src_listenHost src_listenPort src_publicUrl
           src_telegramBotToken savedToFile].
    split; [| split; [| split; [| split]]].
    + intros h Hh. rewrite Hh.
      destruct (resolve_env (Some h) (s_listenHost settings) (s_webappHost settings) h
                  eq_refl) as [-> ->]. auto.
    + intros p Hp. rewrite Hp in Hport. destruct Hport as (n & Hn & Hpos & ->).
      destruct (resolve_env (Some n) (s_listenPort settings) (s_webappPort settings) n
                  eq_refl) as [-> ->]. auto.
    + intros u Hu. rewrite Hu.
      destruct (resolve_env (Some u) (s_publicUrl settings) (s_webappUrl settings) u
                  eq_refl) as [-> ->]. auto.
    + intros t Ht. rewrite Ht.
      destruct (resolve_env (Some t) (s_telegramBotToken settings) None t eq_refl)
        as [-> ->]. auto.
    + destruct (save _ || save _ || save _ || save _ || save _ || save _) eqn:Hsave;
        [| repeat split; auto].
      cbn [s_telegramBotToken s_telegramNotification s_listenHost s_listenPort
             s_publicUrl s_corsOrigins s_rest].
      repeat split; try discriminate;
        intros v Hv; rewrite (resolve_keeps _ _ _ v Hv); reflexivity.
  - right. unfold loadServerSettings in Hload.
    destruct (truthy_env (HAPI_LISTEN_PORT env)) as [p |]; [| discriminate].
    exists p. split; [reflexivity |].
    destruct (parseInt p) as [n |]; [| left; reflexivity].
    destruct (n <=? 0) eqn:Hn; [| discriminate].
    right. exists n. split; [reflexivity | apply Z.leb_le; exact Hn].
Qed.

End Load.

End ServerSettingsFacts.

(** ** Starting a Codex session *)

Section CodexConfigFacts.
Import Js CodexConfig.

Variable TITLE_INSTRUCTION : string.

Local Abbreviation build := (buildCodexStartConfig TITLE_INSTRUCTION).

Lemma permission_modes_cases m :
  m ∈ permission_modes
  <-> m = "default" \/ m = "read-only" \/ m = "safe-yolo" \/ m = "yolo".
Proof. unfold permission_modes. rewrite !elem_of_cons, elem_of_nil. tauto. Qed.

(** X29. CLI overrides reach the session only in the [default] permission mode.
    The call throws exactly for a mode that the tables do not know. In
    every other mode than [default] the sandbox and the approval policy are
    those of the tables, whatever overrides are passed: a [read-only]
    session is always started read-only with policy [never]. A session gets
    full access only in [yolo] mode, or in [default] mode at the explicit
    request of an override. *)
Theorem buildCodexStartConfig_overrides args :
  ((exists msg, build args = Throw msg)
   <-> permissionMode (arg_mode args) ∉ permission_modes)
  /\ (permissionMode (arg_mode args) <> "default" ->
      build args = build (without_overrides args))
  /\ (forall cfg,
        build args = Normal cfg ->
        (permissionMode (arg_mode args) = "read-only" ->
         cfg_sandbox cfg = "read-only" /\ cfg_approval_policy cfg = "never")
        /\ (cfg_sandbox cfg = "danger-full-access" ->
            permissionMode (arg_mode args) = "yolo"
            \/ (permissionMode (arg_mode args) = "default"
                /\ exists o, arg_cliOverrides args = Some o
                             /\ sandbox o = Some "danger-full-access"))).
Proof.
  unfold buildCodexStartConfig, resolveApprovalPolicy, resolveSandbox, without_overrides.
  rewrite permission_modes_cases. cbn [arg_mode arg_cliOverrides arg_message arg_first
    arg_mcpServers arg_developerInstructions].
  destruct (String.eqb (permissionMode (arg_mode args)) "default") eqn:H1.
  { apply String.eqb_eq in H1. rewrite !bind_Normal.
    split; [split; [intros [msg H]; discriminate | intros H; exfalso; apply H; auto] |].
    split; [intros H; contradiction |].
    intros cfg Hcfg. injection Hcfg as <-. cbn [cfg_sandbox cfg_approval_policy].
    split; [intros H; rewrite H in H1; discriminate |].
    intros Hs. right. split; [exact H1 |].
    destruct (arg_cliOverrides args) as [o |]; [| discriminate].
    exists o. split; [reflexivity |].
    simpl in Hs. destruct (sandbox o) as [s |]; simpl in Hs; [congruence | discriminate]. }
  apply String.eqb_neq in H1.
  destruct (String.eqb (permissionMode (arg_mode args)) "read-only") eqn:H2.
  { apply String.eqb_eq in H2. rewrite !bind_Normal.
    split; [split; [intros [msg H]; discriminate | intros H; exfalso; apply H; auto] |].
    split; [reflexivity |].
    intros cfg Hcfg. injection Hcfg as <-. cbn [cfg_sandbox cfg_approval_policy].
    split; [auto | discriminate]. }
  apply String.eqb_neq in H2.
  destruct (String.eqb (permissionMode (arg_mode args)) "safe-yolo") eqn:H3.
  { apply String.eqb_eq in H3. rewrite !bind_Normal.
    split; [split; [intros [msg H]; discriminate | intros H; exfalso; apply H; auto] |].
    split; [reflexivity |].
    intros cfg Hcfg. injection Hcfg as <-. cbn [cfg_sandbox cfg_approval_policy].
    split; [intros H; contradiction | discriminate]. }
  apply String.eqb_neq in H3.
  destruct (String.eqb (permissionMode (arg_mode args)) "yolo") eqn:H4.
  { apply String.eqb_eq in H4. rewrite !bind_Normal.
    split; [split; [intros [msg H]; discriminate | intros H; exfalso; apply H; auto 6] |].
    split; [reflexivity |].
    intros cfg Hcfg. injection Hcfg as <-. cbn [cfg_sandbox cfg_approval_policy].
    split; [intros H; contradiction | auto]. }
  apply String.eqb_neq in H4.
  split; [split; [intros _; tauto | intros _; eexists; reflexivity] |].
  split; [reflexivity | intros cfg Hcfg; discriminate].
Qed.

End CodexConfigFacts.

(** ** Answers to a user-input request *)

Section UserInputFacts.
Import Js UserInput.

Lemma strings_of_spec items :
  Forall (fun item => exists s, item = JStr s) (strings_of items)
  /\ (Forall (fun item => exists s, item = JStr s) items -> strings_of items = items).
Proof.
  unfold strings_of. split.
  - apply Forall_forall. intros item Hin. apply list_elem_of_In, List.filter_In in Hin.
    destruct Hin as [_ Hstr]. destruct item; try discriminate. eauto.
  - induction 1 as [| item rest [s ->] _ IH]; [reflexivity |]. simpl. rewrite IH.
    reflexivity.
Qed.

Lemma is_answers_answers_of items : is_answers (answers_of items).
Proof. exists (strings_of items). split; [reflexivity | apply strings_of_spec]. Qed.

Lemma assign_keys key v obj :
  fst <$> assign key v obj
  = if bool_decide (key ∈ fst <$> obj) then fst <$> obj else (fst <$> obj) ++ [key].
Proof.
  induction obj as [| [k x] rest IH]; [reflexivity |]. cbn [assign].
  destruct (String.eqb k key) eqn:Hk.
  - apply String.eqb_eq in Hk. subst k. rewrite !fmap_cons. cbn [fst].
    rewrite bool_decide_eq_true_2 by left. reflexivity.
  - apply String.eqb_neq in Hk. rewrite !fmap_cons, IH. cbn [fst].
    destruct (bool_decide (key ∈ fst <$> rest)) eqn:Hin.
    + apply bool_decide_eq_true in Hin.
      rewrite bool_decide_eq_true_2 by (right; exact Hin). reflexivity.
    + apply bool_decide_eq_false in Hin.
      rewrite bool_decide_eq_false_2; [reflexivity |].
      intros H. apply elem_of_cons in H as [H | H]; [congruence | contradiction].
Qed.

Lemma assign_values key v obj :
  is_answers v -> Forall (fun e => is_answers (snd e)) obj ->
  Forall (fun e => is_answers (snd e)) (assign key v obj).
Proof.
  intros Hv. induction 1 as [| [k x] rest Hx Hrest IH]; cbn [assign].
  - apply Forall_cons. split; [exact Hv | apply Forall_nil_2].
  - destruct (String.eqb k key); apply Forall_cons; split;
      first [exact Hv | exact Hx | exact Hrest | exact IH].
Qed.

Lemma assign_fresh key v obj :
  key ∉ fst <$> obj -> assign key v obj = obj ++ [(key, v)].
Proof.
  induction obj as [| [k x] rest IH]; intros Hnot; [reflexivity |].
  rewrite fmap_cons in Hnot. cbn [fst assign] in *.
  destruct (String.eqb k key) eqn:Hk.
  - apply String.eqb_eq in Hk. subst k. exfalso. apply Hnot. left.
  - rewrite IH; [reflexivity |]. intros H. apply Hnot. right. exact H.
Qed.

(** The shape of the object under construction: distinct keys, none of
    them [__proto__], each with its answers. *)
Lemma normalize_entry_shape acc e :
  NoDup (fst <$> acc) -> Forall (fun e => is_answers (snd e)) acc ->
  "__proto__" ∉ fst <$> acc ->
  NoDup (fst <$> normalize_entry acc e)
  /\ Forall (fun e => is_answers (snd e)) (normalize_entry acc e)
  /\ ("__proto__" ∉ (fst <$> normalize_entry acc e))
  /\ forall k, k ∈ fst <$> normalize_entry acc e -> k ∈ fst <$> acc \/ k = fst e.
Proof.
  intros Hnd Hall Hproto.
  assert (Hset : forall items,
            NoDup (fst <$> set_property (fst e) (answers_of items) acc)
            /\ Forall (fun e => is_answers (snd e))
                 (set_property (fst e) (answers_of items) acc)
            /\ ("__proto__" ∉ (fst <$> set_property (fst e) (answers_of items) acc))
            /\ forall k, k ∈ fst <$> set_property (fst e) (answers_of items) acc ->
                         k ∈ fst <$> acc \/ k = fst e).
  { intros items. unfold set_property.
    destruct (String.eqb (fst e) "__proto__") eqn:Hkey;
      [split; [exact Hnd | split; [exact Hall | split; [exact Hproto | auto]]] |].
    apply String.eqb_neq in Hkey. rewrite assign_keys. split; [| split; [| split]].
    - case_bool_decide as Hin; [exact Hnd |].
      apply NoDup_app. split; [exact Hnd |]. split; [| apply NoDup_singleton].
      intros k Hk Hk'. apply list_elem_of_singleton in Hk' as ->. contradiction.
    - apply assign_values; [apply is_answers_answers_of | exact Hall].
    - case_bool_decide; [exact Hproto |]. rewrite elem_of_app, list_elem_of_singleton.
      intros [H' | H']; [contradiction | congruence].
    - intros k. case_bool_decide; [auto |]. rewrite elem_of_app, list_elem_of_singleton.
      tauto. }
  unfold normalize_entry. destruct (snd e) as [| | b | n | s | items | fields];
    try (split; [exact Hnd | split; [exact Hall | split; [exact Hproto | auto]]]).
  - apply Hset.
  - destruct (lookup_field "answers" fields);
      try (split; [exact Hnd | split; [exact Hall | split; [exact Hproto | auto]]]).
    apply Hset.
Qed.

Lemma normalize_loop_shape es : forall acc,
  NoDup (fst <$> acc) -> Forall (fun e => is_answers (snd e)) acc ->
  "__proto__" ∉ fst <$> acc ->
  NoDup (fst <$> foldl normalize_entry acc es)
  /\ Forall (fun e => is_answers (snd e)) (foldl normalize_entry acc es)
  /\ ("__proto__" ∉ (fst <$> foldl normalize_entry acc es))
  /\ forall k, k ∈ fst <$> foldl normalize_entry acc es ->
               k ∈ fst <$> acc \/ k ∈ fst <$> es.
Proof.
  induction es as [| e es IH]; intros acc Hnd Hall Hproto; simpl.
  - split; [exact Hnd |]. split; [exact Hall |]. split; [exact Hproto | auto].
  - destruct (normalize_entry_shape acc e Hnd Hall Hproto) as (Hnd1 & Hall1 & Hp1 & Hk1).
    destruct (IH _ Hnd1 Hall1 Hp1) as (Hnd2 & Hall2 & Hp2 & Hk2).
    split; [exact Hnd2 |]. split; [exact Hall2 |]. split; [exact Hp2 |].
    intros k Hk. destruct (Hk2 k Hk) as [H | H].
    + destruct (Hk1 k H) as [H' | ->]; [left; exact H' | right; left].
    + right. right. exact H.
Qed.

(** An object of that shape is left as it is by the loop. *)
Lemma normalize_loop_fixed obj : forall acc,
  NoDup (fst <$> (acc ++ obj)) -> Forall (fun e => is_answers (snd e)) obj ->
  "__proto__" ∉ fst <$> obj ->
  foldl normalize_entry acc obj = acc ++ obj.
Proof.
  induction obj as [| [k v] rest IH]; intros acc Hnd Hall Hproto; simpl.
  - rewrite app_nil_r. reflexivity.
  - apply Forall_cons in Hall as [Hv Hall]. simpl in Hv.
    destruct Hv as (items & -> & Hitems).
    rewrite fmap_cons in Hproto. cbn [fst] in Hproto.
    assert (Hk : String.eqb k "__proto__" = false).
    { apply String.eqb_neq. intros ->. apply Hproto. left. }
    assert (Hstep : normalize_entry acc (k, JObj [("answers", JArr items)])
                    = acc ++ [(k, JObj [("answers", JArr items)])]).
    { unfold normalize_entry, set_property. simpl. rewrite Hk, assign_fresh.
      - unfold answers_of. rewrite (proj2 (strings_of_spec items) Hitems). reflexivity.
      - rewrite fmap_app in Hnd. apply NoDup_app in Hnd as (_ & Hdisj & _).
        intros Hin. apply (Hdisj k Hin). left. }
    rewrite Hstep. rewrite IH; [rewrite <- app_assoc; reflexivity | | exact Hall |].
    + rewrite <- app_assoc. exact Hnd.
    + intros Hin. apply Hproto. right. exact Hin.
Qed.

(** X30. [normalizeUserInputAnswers] brings any value into the shape
    [{ key: { answers: [strings] } }], with no key that the value did not
    have, and normalising again changes nothing. *)
Theorem normalizeUserInputAnswers_idempotent value :
  normalizeUserInputAnswers (normalizeUserInputAnswers value)
  = normalizeUserInputAnswers value
  /\ exists fields,
       normalizeUserInputAnswers value = JObj fields
       /\ NoDup (fst <$> fields)
       /\ Forall (fun e => is_answers (snd e)) fields
       /\ forall k, k ∈ fst <$> fields -> k ∈ fst <$> entries value.
Proof.
  unfold normalizeUserInputAnswers.
  destruct (isObject value) eqn:Hobj; simpl.
  - destruct (normalize_loop_shape (entries value) [] (NoDup_nil_2) (Forall_nil_2 _))
      as (Hnd & Hall & Hproto & Hkeys); [intros H; inversion H |].
    split.
    + f_equal. apply (normalize_loop_fixed _ []); assumption.
    + eexists. split; [reflexivity |]. split; [exact Hnd |]. split; [exact Hall |].
      intros k Hk. destruct (Hkeys k Hk) as [H | H]; [inversion H | exact H].
  - split; [reflexivity |]. exists []. split; [reflexivity |].
    split; [apply NoDup_nil_2 |]. split; [apply Forall_nil_2 |].
    intros k Hk. inversion Hk.
Qed.

End UserInputFacts.

(** ** Scenarios of the message log *)

Section MessageLogScenarios.
Import Js Messages MessageQueries.

(** Session [B] of the sample table after seq 1, two messages asked for. *)
Lemma getMessagesAfter_gap_free_witness :
  gap_free sampleDb "B" 3
  /\ exists page,
       getMessagesAfter (fun _ => JObj []) sampleDb "B" (Whole 1) (Some (Whole 2))
       = Normal page
       /\ sm_seq <$> page = [2; 3].
Proof.
  assert (HB : gap_free sampleDb "B" 3) by (unfold gap_free; vm_compute; reflexivity).
  split; [exact HB |].
  destruct (getMessagesAfter_gap_free (fun _ => JObj []) sampleDb "B" 3 1
              (Some (Whole 2)) 2) as (page & Hpage & Hseqs);
    [exact HB | lia | reflexivity |].
  exists page. split; [exact Hpage |]. rewrite Hseqs. vm_compute. reflexivity.
Defined.

(** The newest two messages of session [B] below seq 3. *)
Lemma getMessages_gap_free_witness :
  gap_free sampleDb "B" 3
  /\ exists page,
       getMessages (fun _ => JObj []) sampleDb "B" (Some (Whole 2)) (Some (Whole 3))
       = Normal page
       /\ sm_seq <$> page = [1; 2].
Proof.
  assert (HB : gap_free sampleDb "B" 3) by (unfold gap_free; vm_compute; reflexivity).
  split; [exact HB |].
  destruct (getMessages_gap_free (fun _ => JObj []) sampleDb "B" 3 (Some (Whole 2))
              (Some 3) 2) as (page & Hpage & Hseqs);
    [exact HB | lia | intros b Hb; injection Hb as <-; lia | reflexivity |].
  exists page. split; [exact Hpage |]. rewrite Hseqs. vm_compute. reflexivity.
Defined.

(** A limit of one and a half passes the clamp and is refused by SQLite; a
    limit that is not a number falls back to 200. *)
Example fractional_limit_throws :
  getMessages (fun _ => JObj []) sampleDb "B" (Some (Between 1)) None
  = Throw "SQLITE_MISMATCH"
  /\ getMessagesAfter (fun _ => JObj []) sampleDb "B" (Whole 0) (Some (Between 1))
     = Throw "SQLITE_MISMATCH"
  /\ getMessagesAfter (fun _ => JObj []) sampleDb "B" (Whole 2) (Some NaN)
     = Normal [mkStored "b3" "B" (JObj []) 22 3 (Some "z")].
Proof. repeat split; vm_compute; reflexivity. Qed.

(** A fourth message for session [B]. *)
Lemma addMessage_appends_witness :
  replayed sampleDb "B" (Some "k1") = None
  /\ getMaxSeq (fst (addMessage sample_stringify (fun _ => JObj []) (fun z => z) 100 "m-1"
                       sampleDb "B" (JObj []) (Some "k1"))) "B" = 4.
Proof.
  split; [vm_compute; reflexivity |].
  destruct (addMessage_appends sample_stringify (fun _ => JObj []) (fun z => z)
              (fun z _ => eq_refl) 100 "m-1" sampleDb "B" (JObj []) (Some "k1") "{}")
    as (_ & Hmax & _);
    [vm_compute; reflexivity
    | discriminate
    | apply (bool_decide_unpack _); vm_compute; exact I
    | apply (bool_decide_unpack _); vm_compute; exact I
    | reflexivity
    | split; apply Z.leb_le; vm_compute; reflexivity
    | rewrite Hmax; vm_compute; reflexivity].
Defined.

Lemma addMessage_then_getMessagesAfter_witness :
  exists db' m,
    addMessage sample_stringify (fun _ => JObj []) (fun z => z) 100 "m-1" sampleDb "B"
      (JObj []) None
    = (db', Normal m)
    /\ getMessagesAfter (fun _ => JObj []) db' "B" (Whole (getMaxSeq sampleDb "B")) None
       = Normal [m].
Proof.
  apply (addMessage_then_getMessagesAfter sample_stringify (fun _ => JObj []) (fun z => z)
           (fun z _ => eq_refl) 100 "m-1" sampleDb "B" (JObj []) None "{}" None 200);
    [vm_compute; reflexivity
    | discriminate
    | apply (bool_decide_unpack _); vm_compute; exact I
    | apply (bool_decide_unpack _); vm_compute; exact I
    | reflexivity
    | split; apply Z.leb_le; vm_compute; reflexivity
    | reflexivity].
Defined.

Lemma addMessage_keeps_constraints_witness :
  constraints_hold sampleDb
  /\ constraints_hold
       (fst (addMessage sample_stringify (fun _ => JObj []) (fun z => z) 100 "m-1"
               sampleDb "B" (JObj []) (Some "k1"))).
Proof.
  assert (H : constraints_hold sampleDb).
  { split; [apply (bool_decide_unpack _); vm_compute; exact I |].
    split; [| apply (bool_decide_unpack _); vm_compute; exact I].
    apply Forall_forall. apply (bool_decide_unpack _). vm_compute. exact I. }
  split; [exact H |].
  apply (addMessage_keeps_constraints sample_stringify (fun _ => JObj []) (fun z => z)
           100 "m-1" sampleDb "B" (JObj []) (Some "k1") H).
Defined.

Lemma addMessage_empty_local_id_witness :
  exists db1 m,
    addMessage sample_stringify (fun _ => JObj []) (fun z => z) 100 "m-1" sampleDb "B"
      (JObj []) (Some "") = (db1, Normal m)
    /\ sm_localId m = Some ""
    /\ messages db1 = messages sampleDb ++ [mkRow "m-1" "B" "{}" 100
                                              (getMaxSeq sampleDb "B" + 1) (Some "")]
    /\ addMessage sample_stringify (fun _ => JObj []) (fun z => z) 200 "m-2" db1 "B"
         JNull (Some "")
       = (db1, Throw "SQLITE_CONSTRAINT").
Proof.
  apply (addMessage_empty_local_id sample_stringify (fun _ => JObj []) (fun z => z)
           (fun z _ => eq_refl) 100 "m-1" 200 "m-2" sampleDb "B" (JObj []) JNull
           "{}" "{}");
    [apply (bool_decide_unpack _); vm_compute; exact I
    | apply (bool_decide_unpack _); vm_compute; exact I
    | apply (bool_decide_unpack _); vm_compute; exact I
    | reflexivity | reflexivity
    | split; apply Z.leb_le; vm_compute; reflexivity].
Defined.

Lemma mergeSessionMessages_keeps_messages_witness :
  session_rows (fst (mergeSessionMessages (fun _ => false) sampleDb "A" "B")) "A" = []
  /\ snd (mergeSessionMessages (fun _ => false) sampleDb "A" "B")
     = Normal (mkMerge 2 2 3).
Proof.
  destruct (mergeSessionMessages (fun _ => false) sampleDb "A" "B") as [db' c] eqn:Hrun.
  assert (Hc : c = Normal (mkMerge 2 2 3)).
  { apply (f_equal snd) in Hrun. vm_compute in Hrun. symmetry. exact Hrun. }
  subst c.
  destruct (mergeSessionMessages_keeps_messages (fun _ => false) sampleDb "A" "B" db'
              (mkMerge 2 2 3)) as (_ & _ & Hsrc & _);
    [discriminate | exact Hrun |].
  split; [exact Hsrc | reflexivity].
Defined.

Lemma mergeSessionMessages_keeps_constraints_witness :
  constraints_hold sampleDb
  /\ constraints_hold (fst (mergeSessionMessages (fun _ => false) sampleDb "A" "B")).
Proof.
  assert (H : constraints_hold sampleDb).
  { split; [apply (bool_decide_unpack _); vm_compute; exact I |].
    split; [| apply (bool_decide_unpack _); vm_compute; exact I].
    apply Forall_forall. apply (bool_decide_unpack _). vm_compute. exact I. }
  split; [exact H |].
  apply (mergeSessionMessages_keeps_constraints (fun _ => false) sampleDb "A" "B" H).
Defined.

(** Session [C] has no messages and does not exist. *)
Lemma mergeSessionMessages_empty_source_witness :
  mergeSessionMessages (fun _ => false) sampleDb "C" "B"
  = (sampleDb, Normal (mkMerge 0 0 (getMaxSeq sampleDb "B"))).
Proof.
  apply (mergeSessionMessages_empty_source (fun _ => false) sampleDb "C" "B");
    [reflexivity | discriminate | vm_compute; reflexivity
    | apply (bool_decide_unpack _); vm_compute; exact I].
Defined.

End MessageLogScenarios.

(** ** Scenarios of the hub's state *)

Section HubStateScenarios.
Import Js EventParsing Hub HubState.

(** While [session-1] waits for its debounce timer, [session-2] is removed:
    nothing of [session-1] moves. *)
Lemma sessions_are_independent_witness :
  timers_of "session-1"
    (handleSyncEvent testConfig (sessionEvent "session-removed" "session-2")
       (run testConfig (start ∅ 1000)
          [SetSession firstSession; Emit (sessionEvent "session-updated" "session-1")]))
  = [mkTimer 0 1005 "session-1"].
Proof.
  destruct (reachable_invariant testConfig
              [SetSession firstSession; Emit (sessionEvent "session-updated" "session-1")]
              (start ∅ 1000) (consistent_start ∅ 1000) well_keyed_empty) as [_ Hwk].
  destruct (sessions_are_independent testConfig
              (run testConfig (start ∅ 1000)
                 [SetSession firstSession;
                  Emit (sessionEvent "session-updated" "session-1")])
              "session-2" "session-1") as [Hev _];
    [apply tight_run, tight_start | exact Hwk | discriminate |].
  specialize (Hev (sessionEvent "session-removed" "session-2") eq_refl).
  apply (f_equal (fun st => snd (fst st))) in Hev.
  unfold session_state in Hev. cbn [fst snd] in Hev.
  rewrite Hev. vm_compute. reflexivity.
Defined.

(** A ready notification over two channels whose promises are both
    rejected, and one whose promises resolve: the same invocations. *)
Lemma rejections_change_only_the_console_witness :
  Forall2 alike
    [Emit (readyEvent "session-1"); Settle 0 true; Settle 0 true]
    [Emit (readyEvent "session-1"); Settle 0 false; Settle 0 false]
  /\ calls (run pairConfig (start {["session-1" := firstSession]} 1000)
              [Emit (readyEvent "session-1"); Settle 0 true; Settle 0 true])
     = [mkCall sendReady 0 firstSession; mkCall sendReady 1 firstSession].
Proof.
  assert (Halike : Forall2 alike
            [Emit (readyEvent "session-1"); Settle 0 true; Settle 0 true]
            [Emit (readyEvent "session-1"); Settle 0 false; Settle 0 false])
    by (repeat constructor).
  split; [exact Halike |].
  pose proof (rejections_change_only_the_console pairConfig _ _
                (start {["session-1" := firstSession]} 1000) Halike) as Hsame.
  apply (f_equal calls) in Hsame. unfold mute in Hsame. cbn [calls] in Hsame.
  rewrite Hsame. vm_compute. reflexivity.
Defined.

(** A first channel that throws and a second whose promise is rejected:
    both are invoked, and two lines are printed. *)
Lemma notify_survives_rejections_witness :
  flights_fresh (start ∅ 1000)
  /\ calls (run (configure [mkChannel (fun _ _ => true); stubChannel] None)
              (notifyReady (configure [mkChannel (fun _ _ => true); stubChannel] None)
                 firstSession (start ∅ 1000))
              (settles 0 [true]))
     = [mkCall sendReady 0 firstSession; mkCall sendReady 1 firstSession]
  /\ console (run (configure [mkChannel (fun _ _ => true); stubChannel] None)
                (notifyReady (configure [mkChannel (fun _ _ => true); stubChannel] None)
                   firstSession (start ∅ 1000))
                (settles 0 [true]))
     = [failure_message sendReady; failure_message sendReady].
Proof.
  split; [apply flights_fresh_start |].
  destruct (notify_survives_rejections
              (configure [mkChannel (fun _ _ => true); stubChannel] None)
              firstSession (start ∅ 1000) (flights_fresh_start ∅ 1000)) as [[_ Hready] _].
  destruct (Hready [true] eq_refl) as (Hc & Ho & _).
  split; [exact Hc | exact Ho].
Defined.

(** [stop] while a ready notification waits for its first channel: the
    second channel is still invoked when that promise settles, and a [ready]
    event after [stop] starts nothing. *)
Example stop_leaves_loops_waiting :
  calls (run pairConfig (start {["session-1" := firstSession]} 1000)
           [Emit (readyEvent "session-1"); Stop; Sleep 10;
            Emit (readyEvent "session-1"); Settle 0 false])
  = [mkCall sendReady 0 firstSession; mkCall sendReady 1 firstSession].
Proof. vm_compute. reflexivity. Qed.

End HubStateScenarios.

(** ** Scenarios of the schema and the settings *)

Section MoreScenarios.
Import Js Schema ServerSettings.

(** A database at version zero that holds one table of its own is stamped
    as it is, and refused by the next open. *)
Lemma initSchema_reopen_witness :
  initSchema "hapi.db" (mkSqlite 0 [table_entry "notes" ["id"]])
  = (mkSqlite 1 [table_entry "notes" ["id"]], Normal tt)
  /\ exists msg,
       initSchema "hapi.db" (mkSqlite 1 [table_entry "notes" ["id"]])
       = (mkSqlite 1 [table_entry "notes" ["id"]], Throw msg)
       /\ names_remediation msg = true.
Proof.
  assert (Hopen : initSchema "hapi.db" (mkSqlite 0 [table_entry "notes" ["id"]])
                  = (mkSqlite 1 [table_entry "notes" ["id"]], Normal tt)) by reflexivity.
  split; [exact Hopen |].
  destruct (initSchema_reopen "hapi.db" "hapi.db" _ _ Hopen) as (_ & _ & _ & Hthrow & _).
  apply Hthrow. reflexivity.
Defined.

(** A new, empty database. *)
Lemma initSchema_fresh_witness :
  initSchema ":memory:" (mkSqlite 0 []) = (mkSqlite 1 SCHEMA_OBJECTS, Normal tt)
  /\ initSchema ":memory:" (mkSqlite 1 SCHEMA_OBJECTS)
     = (mkSqlite 1 SCHEMA_OBJECTS, Normal tt).
Proof.
  apply (initSchema_fresh ":memory:" ":memory:" (mkSqlite 0 []));
    [reflexivity | intros e He; inversion He].
Defined.

(** A view that has the name of a table of the schema: the table is taken
    to be there, the index on it is refused, and a second open finds a
    table, stamps the database and goes on. *)
Example createSchema_over_a_view :
  initSchema ":memory:" (mkSqlite 0 [mkEntry "view" "machines" "machines" ["id"]])
  = (mkSqlite 0 ([mkEntry "view" "machines" "machines" ["id"]] ++ firstn 3 SCHEMA_OBJECTS),
     Throw "SQLITE_ERROR")
  /\ initSchema ":memory:"
       (mkSqlite 0 ([mkEntry "view" "machines" "machines" ["id"]]
                    ++ firstn 3 SCHEMA_OBJECTS))
     = (mkSqlite 1 ([mkEntry "view" "machines" "machines" ["id"]]
                    ++ firstn 3 SCHEMA_OBJECTS),
        Normal tt).
Proof. split; vm_compute; reflexivity. Qed.

(** A port from the environment and a host under its old name: the first
    load writes both under their keys, the second has nothing to write. *)
Lemma loadServerSettings_settles_witness :
  exists res written,
    loadServerSettings (fun s => [s]) (fun s => s) (fun s => Some s) (fun _ => Some 8080)
      "settings.json"
      (mkEnv None None None (Some "8080") None None)
      (Some (mkSettings None None None None None None (Some "0.0.0.0") None None []))
    = Normal (res, written)
    /\ savedToFile res = true
    /\ written = mkSettings None None (Some "0.0.0.0") (Some 8080) None None
                   None None None []
    /\ loadServerSettings (fun s => [s]) (fun s => s) (fun s => Some s)
         (fun _ => Some 8080) "settings.json"
         (mkEnv None None None (Some "8080") None None) (Some written)
       = Normal (mkResult (settings res) (sources res) false, written).
Proof.
  eexists _, _. split; [reflexivity |]. split; [reflexivity |]. split; [reflexivity |].
  apply (loadServerSettings_settles (fun s => [s]) (fun s => s) (fun s => Some s)
           (fun _ => Some 8080) "settings.json"
           (mkEnv None None None (Some "8080") None None)
           (mkSettings None None None None None None (Some "0.0.0.0") None None [])).
  reflexivity.
Defined.

End MoreScenarios.

